(** * Estrategia_TSIbitcoin: a shallow embedding of the short-only TSI strategy

    The development follows [src/Estrategia_TSIbitcoin.py]:

    - Python floats are IEEE 754 binary64 values, embedded as [spec_float]
      with the operations of the Standard Library's [SpecFloat]
      (precision 53, maximal exponent 1024);
    - the indicator functions [calculate_tsi] and [calculate_parabolic_sar]
      are pure functions over series (lists of floats);
    - the methods of [TSITradingBot] mutate the object, log, place orders and
      may raise: they are written in a small monad that threads the object,
      accumulates the observable events and keeps the object as it was left
      when an exception is raised. *)

From Stdlib Require Import String.
From Stdlib Require Import ZArith List Bool Lia.
From Stdlib Require Import Floats.SpecFloat.
Import ListNotations.

Local Open Scope Z_scope.

Set Implicit Arguments.

(* ================================================================== *)
(** * Floating-point numbers *)
(* ================================================================== *)

Module Float.

Definition float := spec_float.

Definition prec : Z := 53.
Definition emax : Z := 1024.

Definition nan : float := S754_nan.
Definition zero : float := S754_zero false.

Definition add : float -> float -> float := SFadd prec emax.
Definition sub : float -> float -> float := SFsub prec emax.
Definition mul : float -> float -> float := SFmul prec emax.
Definition div : float -> float -> float := SFdiv prec emax.
Definition neg : float -> float := SFopp.
Definition abs : float -> float := SFabs.

(** [a < b], [a <= b], [a > b], [a >= b] on floats: every comparison with a
    NaN is false. *)
Definition ltb (a b : float) : bool := SFltb a b.
Definition leb (a b : float) : bool := SFleb a b.
Definition gtb (a b : float) : bool := SFltb b a.
Definition geb (a b : float) : bool := SFleb b a.

(** [np.isnan]. *)
Definition isnan (a : float) : bool :=
  match a with S754_nan => true | _ => false end.

Definition is_finite (a : float) : bool :=
  match a with S754_zero _ | S754_finite _ _ _ => true | _ => false end.

(** The float a Python [int] is converted to when it meets a float. *)
Definition of_Z (z : Z) : float := binary_normalize prec emax z 0 false.

(** The float read from a decimal literal [n / 10^k]: the correctly rounded
    quotient of two exactly representable integers. *)
Definition of_ratio (n d : Z) : float := div (of_Z n) (of_Z d).

(** Python's built-in [max(a, b)] and [min(a, b)]: the first argument is
    kept unless the second compares strictly greater (smaller). *)
Definition max2 (a b : float) : float := if gtb b a then b else a.
Definition min2 (a b : float) : float := if ltb b a then b else a.

(** [max(a, b, c)] and [min(a, b, c)] scan their arguments left to right. *)
Definition max3 (a b c : float) : float := max2 (max2 a b) c.
Definition min3 (a b c : float) : float := min2 (min2 a b) c.

(** The values a binary64 can hold: canonical mantissa and exponent. *)
Definition valid (a : float) : bool := valid_binary prec emax a.

End Float.

Import Float.

Declare Scope float_scope.
Delimit Scope float_scope with flt.
Infix "+" := Float.add : float_scope.
Infix "-" := Float.sub : float_scope.
Infix "*" := Float.mul : float_scope.
Infix "/" := Float.div : float_scope.
Infix "<?" := Float.ltb : float_scope.
Infix "<=?" := Float.leb : float_scope.
Infix ">?" := Float.gtb : float_scope.
Infix ">=?" := Float.geb : float_scope.

(* ================================================================== *)
(** * Configuration (module-level constants of the source) *)
(* ================================================================== *)

Definition TIMEFRAME_MINUTES : Z := 5.
Definition MA_PERIOD : nat := 70.
Definition TSI_FAST : Z := 13.
Definition TSI_SLOW : Z := 25.
Definition TSI_THRESHOLD : float := of_Z (-10).
Definition PSAR_AF : float := of_ratio 2 100.
Definition PSAR_MAX_AF : float := of_ratio 2 10.
Definition QUANTITY : float := of_ratio 1 10.

(* ================================================================== *)
(** * Series operations of the numerical library

    The strategy calls four operations of [pandas] on its series; the
    library is not part of the repository.  They are modelled on lists of
    floats from section 4.1 of the specification, which gives their
    recurrences; the order in which the library rounds its intermediate
    results is not specified there. *)
(* ================================================================== *)

Module pd.

(** [s.iloc[i]] for [i >= 0]: an [IndexError] out of range. *)
Definition iloc (s : list float) (i : nat) : option float := nth_error s i.

(** [s.iloc[-1]]. *)
Definition iloc_last (s : list float) : option float :=
  match s with
  | [] => None
  | x :: r => Some (last r x)
  end.

(** Modelled from the spec: [Series.diff()] of the numerical library,
    "first differences, [momentum[i] = close[i] - close[i-1]], undefined at
    [i = 0]"; an undefined value is NaN. *)
Fixpoint diff_from (prev : float) (s : list float) : list float :=
  match s with
  | [] => []
  | x :: r => (x - prev)%flt :: diff_from x r
  end.

Definition diff (s : list float) : list float :=
  match s with
  | [] => []
  | x :: r => nan :: diff_from x r
  end.

(** [s.abs()]. *)
Definition abs (s : list float) : list float := map Float.abs s.

(** Modelled from the spec: [Series.rolling(w).mean()] of the numerical
    library, "simple arithmetic mean of the trailing [period] closes",
    undefined until [w] observations are available.  The window is summed
    here from its oldest to its newest value.  The library keeps a running
    sum over the whole series instead, so on closes whose sums are not
    exact its mean may differ from this one in the last bits, and an
    infinite close leaves its later means undefined. *)
Definition sum (s : list float) : float := fold_left Float.add s zero.

Definition rolling_mean (w : nat) (s : list float) : list float :=
  map (fun i : nat =>
         if (S i <? w)%nat then nan
         else (sum (firstn w (skipn (S i - w) s)) / of_Z (Z.of_nat w))%flt)
      (seq 0 (length s)).

(** Modelled from the spec: [Series.ewm(span=N, adjust=False).mean()] of the
    numerical library, exponential smoothing with [alpha = 2/(N+1)] and the
    recurrence [ema[i] = ema[i-1] + alpha * (s[i] - ema[i-1])], seeded by
    the first defined observation.  The library may order the operations of
    the recurrence differently and carries the average over an undefined
    observation, so a smoothed value may differ from the library's in the
    last bits, and after a NaN inside the series. *)
Definition alpha (span : Z) : float := of_ratio 2 (span + 1).

Definition ewm_next (a prev x : float) : float :=
  if isnan prev then x else (prev + a * (x - prev))%flt.

Fixpoint ewm_from (a prev : float) (s : list float) : list float :=
  match s with
  | [] => []
  | x :: r => let cur := ewm_next a prev x in cur :: ewm_from a cur r
  end.

Definition ewm_mean (span : Z) (s : list float) : list float :=
  match s with
  | [] => []
  | x :: r => x :: ewm_from (alpha span) x r
  end.

(** Element-wise arithmetic of two aligned series. *)
Fixpoint zip_with (f : float -> float -> float) (s t : list float) : list float :=
  match s, t with
  | x :: s', y :: t' => f x y :: zip_with f s' t'
  | _, _ => []
  end.

End pd.

(* ================================================================== *)
(** * Indicators *)
(* ================================================================== *)

(** [calculate_tsi(close, fast, slow)]: the True Strength Index,
    [100 * EMA(EMA(momentum, slow), fast) / EMA(EMA(|momentum|, slow), fast)]. *)
Definition calculate_tsi (close : list float) (fast slow : Z) : list float :=
  let momentum := pd.diff close in
  let ema_slow := pd.ewm_mean slow momentum in
  let ema_fast := pd.ewm_mean fast ema_slow in
  let abs_ema_slow := pd.ewm_mean slow (pd.abs momentum) in
  let abs_ema_fast := pd.ewm_mean fast abs_ema_slow in
  pd.zip_with (fun e a => (of_Z 100 * e / a)%flt) ema_fast abs_ema_fast.

(** The local variables of the loop of [calculate_parabolic_sar]; [sar] holds
    the entries of the result series assigned so far, [sar[0..i-1]] when
    iteration [i] starts. *)
Record sar_vars : Type := SarVars {
  af : float;
  uptrend : bool;
  ep : float;
  sar : list float
}.

(** One iteration of [for i in range(1, length)].  [None] stands for the
    [IndexError] of an [iloc] out of range. *)
Definition sar_body (high low : list float) (af_start af_max : float)
    (i : nat) (v : sar_vars) : option sar_vars :=
  match pd.iloc (sar v) (i - 1) with
  | None => None
  | Some sar_prev =>
    let sar_i := (sar_prev + af v * (ep v - sar_prev))%flt in
    if uptrend v then
      match pd.iloc low (i - 1),
            (if (2 <=? i)%nat then pd.iloc low (i - 2) else pd.iloc low (i - 1)),
            pd.iloc low i with
      | Some low1, Some low2, Some low_i =>
        let sar_i := min3 sar_i low1 low2 in
        if (low_i <? sar_i)%flt then
          Some {| af := af_start; uptrend := false; ep := low_i;
                  sar := sar v ++ [ep v] |}
        else
          match pd.iloc high i with
          | None => None
          | Some high_i =>
            if (high_i >? ep v)%flt then
              Some {| af := min2 (af v + af_start)%flt af_max; uptrend := true;
                      ep := high_i; sar := sar v ++ [sar_i] |}
            else
              Some {| af := af v; uptrend := true; ep := ep v;
                      sar := sar v ++ [sar_i] |}
          end
      | _, _, _ => None
      end
    else
      match pd.iloc high (i - 1),
            (if (2 <=? i)%nat then pd.iloc high (i - 2) else pd.iloc high (i - 1)),
            pd.iloc high i with
      | Some high1, Some high2, Some high_i =>
        let sar_i := max3 sar_i high1 high2 in
        if (high_i >? sar_i)%flt then
          Some {| af := af_start; uptrend := true; ep := high_i;
                  sar := sar v ++ [ep v] |}
        else
          match pd.iloc low i with
          | None => None
          | Some low_i =>
            if (low_i <? ep v)%flt then
              Some {| af := min2 (af v + af_start)%flt af_max; uptrend := false;
                      ep := low_i; sar := sar v ++ [sar_i] |}
            else
              Some {| af := af v; uptrend := false; ep := ep v;
                      sar := sar v ++ [sar_i] |}
          end
      | _, _, _ => None
      end
  end.

(** The variables before the loop: [af = af_start], [uptrend = True],
    [ep = low.iloc[0]], [sar.iloc[0] = high.iloc[0]]. *)
Definition sar_init (high low : list float) (af_start : float) : option sar_vars :=
  match pd.iloc low 0, pd.iloc high 0 with
  | Some low0, Some high0 =>
    Some {| af := af_start; uptrend := true; ep := low0; sar := [high0] |}
  | _, _ => None
  end.

(** The variables after the iterations [1 .. k] of the loop. *)
Fixpoint sar_loop (high low : list float) (af_start af_max : float)
    (k : nat) : option sar_vars :=
  match k with
  | O => sar_init high low af_start
  | S k' =>
    match sar_loop high low af_start af_max k' with
    | None => None
    | Some v => sar_body high low af_start af_max (S k') v
    end
  end.

(** [calculate_parabolic_sar(high, low, af_start, af_max)]. *)
Definition calculate_parabolic_sar (high low : list float)
    (af_start af_max : float) : option (list float) :=
  match sar_loop high low af_start af_max (length high - 1) with
  | None => None
  | Some v => Some (sar v)
  end.

(* ================================================================== *)
(** * The data of the bot *)
(* ================================================================== *)

(** [datetime.datetime]. *)
Record datetime : Type := Datetime {
  year : Z; month : Z; day : Z;
  hour : Z; minute : Z; second : Z; microsecond : Z
}.

Definition datetime_eqb (a b : datetime) : bool :=
  (year a =? year b) && (month a =? month b) && (day a =? day b) &&
  (hour a =? hour b) && (minute a =? minute b) && (second a =? second b) &&
  (microsecond a =? microsecond b).

(** [x != y] where [x] is [None] or a datetime and [y] is a datetime. *)
Definition differs (x : option datetime) (y : datetime) : bool :=
  match x with
  | None => true
  | Some t => negb (datetime_eqb t y)
  end.

(** One row of the [bars_5min] frame.  Only the columns the strategy reads
    are kept; the indicator columns are recomputed from them on every bar
    close and read back at the last row only, see [_update_indicators]. *)
Record Bar : Type := mkBar {
  bar_index : option datetime;
  bar_open : float;
  bar_high : float;
  bar_low : float;
  bar_close : float;
  bar_volume : float
}.

(** The dictionary [current_bar]: keys ['open'], ['high'], ['low'],
    ['close'] hold [None] or a float, ['volume'] a number (the source's
    integer [0] is the float zero). *)
Record CurrentBar : Type := mkCurrentBar {
  cur_open : option float;
  cur_high : option float;
  cur_low : option float;
  cur_close : option float;
  cur_volume : float
}.

(** The attributes of a [TSITradingBot] (the connection [ib] and the
    contract are the external gateway, see [Gateway]). *)
Record Bot : Type := mkBot {
  bars_5min : list Bar;
  current_bar : CurrentBar;
  bar_start_time : option datetime;
  in_position : bool;
  position_entry_price : option float;
  last_price : option float;
  price_was_above_ma : option bool;
  current_tsi : option float;
  current_ma70 : option float;
  ma70_slope : option float;
  current_sar : option float
}.

Definition set_bars_5min (x : list Bar) (s : Bot) : Bot :=
  mkBot x (current_bar s) (bar_start_time s) (in_position s)
    (position_entry_price s) (last_price s) (price_was_above_ma s)
    (current_tsi s) (current_ma70 s) (ma70_slope s) (current_sar s).

Definition set_current_bar (x : CurrentBar) (s : Bot) : Bot :=
  mkBot (bars_5min s) x (bar_start_time s) (in_position s)
    (position_entry_price s) (last_price s) (price_was_above_ma s)
    (current_tsi s) (current_ma70 s) (ma70_slope s) (current_sar s).

Definition set_bar_start_time (x : option datetime) (s : Bot) : Bot :=
  mkBot (bars_5min s) (current_bar s) x (in_position s)
    (position_entry_price s) (last_price s) (price_was_above_ma s)
    (current_tsi s) (current_ma70 s) (ma70_slope s) (current_sar s).

Definition set_in_position (x : bool) (s : Bot) : Bot :=
  mkBot (bars_5min s) (current_bar s) (bar_start_time s) x
    (position_entry_price s) (last_price s) (price_was_above_ma s)
    (current_tsi s) (current_ma70 s) (ma70_slope s) (current_sar s).

Definition set_position_entry_price (x : option float) (s : Bot) : Bot :=
  mkBot (bars_5min s) (current_bar s) (bar_start_time s) (in_position s)
    x (last_price s) (price_was_above_ma s)
    (current_tsi s) (current_ma70 s) (ma70_slope s) (current_sar s).

Definition set_last_price (x : option float) (s : Bot) : Bot :=
  mkBot (bars_5min s) (current_bar s) (bar_start_time s) (in_position s)
    (position_entry_price s) x (price_was_above_ma s)
    (current_tsi s) (current_ma70 s) (ma70_slope s) (current_sar s).

Definition set_price_was_above_ma (x : option bool) (s : Bot) : Bot :=
  mkBot (bars_5min s) (current_bar s) (bar_start_time s) (in_position s)
    (position_entry_price s) (last_price s) x
    (current_tsi s) (current_ma70 s) (ma70_slope s) (current_sar s).

(** The four assignments that end [_update_indicators]. *)
Definition set_indicators (ma slope tsi psar : float) (s : Bot) : Bot :=
  mkBot (bars_5min s) (current_bar s) (bar_start_time s) (in_position s)
    (position_entry_price s) (last_price s) (price_was_above_ma s)
    (Some tsi) (Some ma) (Some slope) (Some psar).

Definition set_cur_high (x : option float) (b : CurrentBar) : CurrentBar :=
  mkCurrentBar (cur_open b) x (cur_low b) (cur_close b) (cur_volume b).

Definition set_cur_low (x : option float) (b : CurrentBar) : CurrentBar :=
  mkCurrentBar (cur_open b) (cur_high b) x (cur_close b) (cur_volume b).

Definition set_cur_close (x : option float) (b : CurrentBar) : CurrentBar :=
  mkCurrentBar (cur_open b) (cur_high b) (cur_low b) x (cur_volume b).

(** [TSITradingBot.__init__]. *)
Definition __init__ : Bot :=
  {| bars_5min := [];
     current_bar := mkCurrentBar None None None None zero;
     bar_start_time := None;
     in_position := false;
     position_entry_price := None;
     last_price := None;
     price_was_above_ma := None;
     current_tsi := None;
     current_ma70 := None;
     ma70_slope := None;
     current_sar := None |}.

(* ================================================================== *)
(** * The execution gateway and the observable events *)
(* ================================================================== *)

Inductive Side : Type := SELL | BUY.

(** What the strategy reads of a [Trade] once [ib.sleep(1)] has returned:
    [trade.orderStatus.status] and [trade.orderStatus.avgFillPrice]. *)
Record Trade : Type := mkTrade {
  status : string;
  avgFillPrice : float
}.

(** [self.ib.placeOrder(self.contract, MarketOrder(side, QUANTITY))] followed
    by [self.ib.sleep(1)]: the gateway answers each market order with a
    trade.  A handler places at most one order per side. *)
Definition Gateway : Type := Side -> Trade.

Definition is_filled (t : Trade) : bool := String.eqb (status t) "Filled".

Inductive Event : Type :=
  | EntryShort (price : float)     (* ">>> ENTRADA CORTO a <price>" *)
  | ExitShort                      (* ">>> SALIDA CORTO" *)
  | PlaceOrder (side : Side) (quantity : float) (answer : Trade)
  | Executed (side : Side) (price : float)   (* "Orden ejecutada: ..." *)
  | PnL (points : float)           (* "PnL: <pnl> puntos" *)
  | OrderState (st : string)       (* warning "Estado de orden: ..." *)
  | NewBar (start : datetime)      (* "Nueva barra iniciada: ..." *)
  | BarClosed (row : Bar)          (* the row appended to bars_5min, "Barra cerrada: ..." *)
  | Crossing (price ma : float).   (* "Cruce detectado: ..." *)

(** The intents handed to the execution gateway. *)
Inductive Intent : Type :=
  | ENTRY_SHORT (price : float)
  | EXIT_SHORT.

Fixpoint intents (log : list Event) : list Intent :=
  match log with
  | [] => []
  | EntryShort p :: r => ENTRY_SHORT p :: intents r
  | ExitShort :: r => EXIT_SHORT :: intents r
  | _ :: r => intents r
  end.

(** The rows appended to the history. *)
Fixpoint closed_bars (log : list Event) : list Bar :=
  match log with
  | [] => []
  | BarClosed b :: r => b :: closed_bars r
  | _ :: r => closed_bars r
  end.

(* ================================================================== *)
(** * The monad of the methods *)
(* ================================================================== *)

Inductive exn : Type := TypeError | IndexError | KeyError | ValueError.

Inductive result (A : Type) : Type :=
  | Done (a : A)
  | Raised (e : exn).
Arguments Raised {A} e.

(** A method maps the object to its outcome, the object as the method left
    it (also when it raised) and the events it produced, oldest first. *)
Definition M (A : Type) : Type := Bot -> result A * Bot * list Event.

Definition ret {A} (a : A) : M A := fun s => (Done a, s, []).

Definition bind {A B} (m : M A) (f : A -> M B) : M B :=
  fun s =>
    match m s with
    | (Done a, s1, l1) =>
      match f a s1 with
      | (r, s2, l2) => (r, s2, l1 ++ l2)
      end
    | (Raised e, s1, l1) => (Raised e, s1, l1)
    end.

Definition get : M Bot := fun s => (Done s, s, []).
Definition modify (f : Bot -> Bot) : M unit := fun s => (Done tt, f s, []).
Definition emit (e : Event) : M unit := fun s => (Done tt, s, [e]).
Definition raise {A} (e : exn) : M A := fun s => (Raised e, s, []).

Notation "x <- m ;; k" := (bind m (fun x => k))
  (at level 61, m at next level, right associativity).
Notation "m ;; k" := (bind m (fun _ => k))
  (at level 61, right associativity).

Definition outcome {A} (r : result A * Bot * list Event) : result A := fst (fst r).
Definition final {A} (r : result A * Bot * list Event) : Bot := snd (fst r).
Definition events {A} (r : result A * Bot * list Event) : list Event := snd r.

(* ================================================================== *)
(** * The methods of [TSITradingBot] *)
(* ================================================================== *)

(** [_update_indicators]: nothing happens below [MA_PERIOD] rows; otherwise
    the four indicator columns are recomputed over the whole frame and their
    last entries become the current values. *)
Definition _update_indicators : M unit :=
  s <- get ;;
  if (length (bars_5min s) <? MA_PERIOD)%nat then ret tt
  else
    let close := map bar_close (bars_5min s) in
    let MA70 := pd.rolling_mean MA_PERIOD close in
    let MA70_slope := pd.diff MA70 in
    let TSI := calculate_tsi close TSI_FAST TSI_SLOW in
    match calculate_parabolic_sar (map bar_high (bars_5min s))
            (map bar_low (bars_5min s)) PSAR_AF PSAR_MAX_AF with
    | None => raise IndexError
    | Some PSAR =>
      match pd.iloc_last MA70, pd.iloc_last MA70_slope,
            pd.iloc_last TSI, pd.iloc_last PSAR with
      | Some ma, Some slope, Some tsi, Some psar =>
        modify (set_indicators ma slope tsi psar)
      | _, _, _, _ => raise IndexError
      end
    end.

(** [_get_bar_start_time]: the start of the 5-minute bucket of a timestamp. *)
Definition _get_bar_start_time (timestamp : datetime) : datetime :=
  let minutes := (minute timestamp / TIMEFRAME_MINUTES) * TIMEFRAME_MINUTES in
  {| year := year timestamp; month := month timestamp; day := day timestamp;
     hour := hour timestamp; minute := minutes; second := 0; microsecond := 0 |}.

(** [_enter_short]. *)
Definition _enter_short (ib : Gateway) (price : float) : M unit :=
  emit (EntryShort price) ;;
  let trade := ib SELL in
  emit (PlaceOrder SELL QUANTITY trade) ;;
  if is_filled trade then
    modify (set_in_position true) ;;
    modify (set_position_entry_price (Some (avgFillPrice trade))) ;;
    emit (Executed SELL (avgFillPrice trade))
  else
    emit (OrderState (status trade)).

(** [_exit_short].  The subtraction [self.position_entry_price - exit_price]
    raises a [TypeError] when no entry price is recorded. *)
Definition _exit_short (ib : Gateway) : M unit :=
  emit ExitShort ;;
  let trade := ib BUY in
  emit (PlaceOrder BUY QUANTITY trade) ;;
  if is_filled trade then
    let exit_price := avgFillPrice trade in
    s <- get ;;
    match position_entry_price s with
    | None => raise TypeError
    | Some entry =>
      let pnl := (entry - exit_price)%flt in
      emit (Executed BUY exit_price) ;;
      emit (PnL pnl) ;;
      modify (set_in_position false) ;;
      modify (set_position_entry_price None)
    end
  else
    emit (OrderState (status trade)).

(** [_check_entry_conditions].  Once a crossing is detected the slope is
    compared with [0]: a [TypeError] if it is [None]. *)
Definition _check_entry_conditions (ib : Gateway) (price : float) : M unit :=
  s <- get ;;
  if in_position s then ret tt
  else
    match current_ma70 s, current_tsi s with
    | Some ma70, Some tsi =>
      let price_above_ma := (price >? ma70)%flt in
      match price_was_above_ma s with
      | None => modify (set_price_was_above_ma (Some price_above_ma))
      | Some was_above =>
        let crossed_down := was_above && negb price_above_ma in
        modify (set_price_was_above_ma (Some price_above_ma)) ;;
        if crossed_down then
          emit (Crossing price ma70) ;;
          match ma70_slope s with
          | None => raise TypeError
          | Some slope =>
            let ma_descending := (slope <? zero)%flt in
            let tsi_below_threshold := (tsi <? TSI_THRESHOLD)%flt in
            if ma_descending && tsi_below_threshold then _enter_short ib price
            else ret tt
          end
        else ret tt
      end
    | _, _ => ret tt
    end.

(** [_check_exit_conditions].  [self.bars_5min['high'].iloc[-1]] fails on an
    empty frame. *)
Definition _check_exit_conditions (ib : Gateway) : M unit :=
  s <- get ;;
  if negb (in_position s) then ret tt
  else
    match current_sar s with
    | None => ret tt
    | Some psar =>
      match pd.iloc_last (map bar_high (bars_5min s)) with
      | None => raise KeyError
      | Some last_high =>
        if (last_high >=? psar)%flt then _exit_short ib else ret tt
      end
    end.

(** [max_bars = MA_PERIOD + TSI_SLOW + 100]. *)
Definition max_bars : nat := (MA_PERIOD + Z.to_nat TSI_SLOW + 100)%nat.

(** [frame.iloc[-n:]]. *)
Definition tail_rows (n : nat) (rows : list Bar) : list Bar :=
  skipn (length rows - n) rows.

(** [_close_bar].  The four prices of [current_bar] are assigned together
    throughout the class (all [None] at construction, all set by
    [_on_tick]), so a dictionary holding an opening price next to a [None]
    is never built.  On such a dictionary the source would append the
    incomplete row and recompute the indicators before the closing log line
    fails to format the [None]; it is given that [TypeError] here at once,
    without the row. *)
Definition _close_bar (ib : Gateway) : M unit :=
  s <- get ;;
  match cur_open (current_bar s) with
  | None => ret tt
  | Some o =>
    match cur_high (current_bar s), cur_low (current_bar s),
          cur_close (current_bar s) with
    | Some h, Some l, Some c =>
      let new_bar := mkBar (bar_start_time s) o h l c (cur_volume (current_bar s)) in
      modify (set_bars_5min (bars_5min s ++ [new_bar])) ;;
      emit (BarClosed new_bar) ;;
      s <- get ;;
      (if (max_bars <? length (bars_5min s))%nat
       then modify (set_bars_5min (tail_rows max_bars (bars_5min s)))
       else ret tt) ;;
      _update_indicators ;;
      _check_exit_conditions ib
    | _, _, _ => raise TypeError
    end
  end.

(** The block "Actualizar barra actual" of [_on_tick] (lines 249-267): a tick
    of another bucket closes the bar in progress, if there is one, and opens
    a new bar; a tick of the same bucket updates the bar in progress. *)
Definition aggregate_tick (ib : Gateway) (bar_start : datetime) (price : float)
    : M unit :=
  s <- get ;;
  if differs (bar_start_time s) bar_start then
    (match bar_start_time s, cur_open (current_bar s) with
     | Some _, Some _ => _close_bar ib
     | _, _ => ret tt
     end) ;;
    modify (set_bar_start_time (Some bar_start)) ;;
    modify (set_current_bar
              (mkCurrentBar (Some price) (Some price) (Some price)
                 (Some price) zero)) ;;
    emit (NewBar bar_start)
  else
    (match cur_high (current_bar s) with
     | None => raise TypeError
     | Some h =>
       modify (fun s => set_current_bar
                  (set_cur_high (Some (max2 h price)) (current_bar s)) s)
     end) ;;
    (match cur_low (current_bar s) with
     | None => raise TypeError
     | Some l =>
       modify (fun s => set_current_bar
                  (set_cur_low (Some (min2 l price)) (current_bar s)) s)
     end) ;;
    modify (fun s => set_current_bar
               (set_cur_close (Some price) (current_bar s)) s).

(** [_on_tick].  [last] is [ticker.last], [now] the value of
    [datetime.now()] read by the handler. *)
Definition _on_tick (ib : Gateway) (now : datetime) (last : option float) : M unit :=
  match last with
  | None => ret tt
  | Some price =>
    if isnan price then ret tt
    else
      let bar_start := _get_bar_start_time now in
      aggregate_tick ib bar_start price ;;
      modify (set_last_price (Some price)) ;;
      _check_entry_conditions ib price
  end.

(** [load_historical_data]: [bars] is the answer of the market data source. *)
Definition load_historical_data (bars : list Bar) : M unit :=
  match bars with
  | [] => raise ValueError
  | _ :: _ =>
    modify (set_bars_5min bars) ;;
    _update_indicators
  end.

(* ================================================================== *)
(** * Runs of the event loop *)
(* ================================================================== *)

(** The handler invocations of a run: the warm-up and the tick callback.
    Handlers run one after the other, each to completion. *)
Inductive Call : Type :=
  | LoadHistory (bars : list Bar)
  | Tick (ib : Gateway) (now : datetime) (last : option float).

Definition handle (c : Call) : M unit :=
  match c with
  | LoadHistory bars => load_historical_data bars
  | Tick ib now last => _on_tick ib now last
  end.

(** The object and the events after a sequence of handler invocations; an
    exception ends the handler that raised it, not the run. *)
Fixpoint run (calls : list Call) (s : Bot) : Bot * list Event :=
  match calls with
  | [] => (s, [])
  | c :: rest =>
    match handle c s with
    | (_, s1, l1) =>
      match run rest s1 with
      | (s2, l2) => (s2, l1 ++ l2)
      end
    end
  end.

(* ================================================================== *)
(** * Notions used by the statements *)
(* ================================================================== *)

(** The entry decision of a flat bot whose snapshot is available. *)
Definition entry_signal (was : bool) (price ma slope tsi : float) : bool :=
  was && negb (price >? ma)%flt && (slope <? zero)%flt
  && (tsi <? TSI_THRESHOLD)%flt.


(** [keeps R m]: whatever the object [s], the method [m] takes it to an
    object [s'] with events [l] such that [R s l s']. *)
Definition keeps (R : Bot -> list Event -> Bot -> Prop) {A} (m : M A) : Prop :=
  forall s, R s (events (m s)) (final (m s)).

(** The gateway of a handler invocation, if it has one. *)
Definition gateway_ok (G : Gateway -> Prop) (c : Call) : Prop :=
  match c with
  | LoadHistory _ => True
  | Tick ib _ _ => G ib
  end.

(** The position state of two objects is the same. *)
Definition same_position (s s' : Bot) : Prop :=
  in_position s' = in_position s /\
  position_entry_price s' = position_entry_price s.

(** [low <= min(open, close)] and [high >= max(open, close)]. *)
Definition ohlc_ordered (o h l c : float) : Prop :=
  (l <=? o)%flt = true /\ (l <=? c)%flt = true /\
  (h >=? o)%flt = true /\ (h >=? c)%flt = true.

Definition bar_ok (b : Bar) : Prop :=
  ohlc_ordered (bar_open b) (bar_high b) (bar_low b) (bar_close b).

(** The bar in progress: no bar at all, or four prices in order. *)
Definition current_bar_ok (b : CurrentBar) : Prop :=
  match cur_open b with
  | None => True
  | Some o =>
    match cur_high b, cur_low b, cur_close b with
    | Some h, Some l, Some c => ohlc_ordered o h l c
    | _, _, _ => False
    end
  end.

(** A method that neither touches the bar in progress nor closes a bar. *)
Definition leaves_bar (s : Bot) (l : list Event) (s' : Bot) : Prop :=
  current_bar s' = current_bar s /\ bar_start_time s' = bar_start_time s /\
  closed_bars l = [].

(** [bars_inv P Q]: the bars closed by a method satisfy [Q], and the bar it
    leaves in progress satisfies [P], provided the bar it found did. *)
Definition bars_inv (P : CurrentBar -> Prop) (Q : Bar -> Prop)
    (s : Bot) (l : list Event) (s' : Bot) : Prop :=
  P (current_bar s) ->
  P (current_bar s') /\ Forall Q (closed_bars l).

(* ================================================================== *)
(** * The trend-reversal stop as the specification words it

    Section 4.1 of the specification describes [trendReversalStop] as a
    recurrence over a state of four components with two regimes.  The
    definitions below follow those words, to be compared with the loop of
    [calculate_parabolic_sar]. *)
(* ================================================================== *)

Inductive Regime : Type := Uptrend | Downtrend.

Record StopState : Type := mkStopState {
  regime : Regime;
  stop : float;          (* current stop value *)
  accel : float;         (* acceleration factor *)
  extreme : float        (* extreme point *)
}.

(** [x] limited to be no higher than [c]; [x] limited to be no lower than [c]. *)
Definition capped (x c : float) : float := if (c <? x)%flt then c else x.
Definition floored (x c : float) : float := if (c >? x)%flt then c else x.

(** The minimum (maximum) of the values of the one or two bars before bar
    [i]: bar [i-1] alone for [i = 1], bars [i-1] and [i-2] from [i = 2] on. *)
Definition lowest_before (series : list float) (i : nat) : option float :=
  match i with
  | O => None
  | S O => pd.iloc series 0
  | S (S j) =>
    match pd.iloc series (S j), pd.iloc series j with
    | Some a, Some b => Some (if (b <? a)%flt then b else a)
    | _, _ => None
    end
  end.

Definition highest_before (series : list float) (i : nat) : option float :=
  match i with
  | O => None
  | S O => pd.iloc series 0
  | S (S j) =>
    match pd.iloc series (S j), pd.iloc series j with
    | Some a, Some b => Some (if (b >? a)%flt then b else a)
    | _, _ => None
    end
  end.

(** [stop[i-1] + af * (ep - stop[i-1])]. *)
Definition projected (st : StopState) : float :=
  (stop st + accel st * (extreme st - stop st))%flt.

(** The step of the recurrence at bar [i]. *)
Inductive stop_step (highs lows : list float) (afStart afMax : float) (i : nat)
  : StopState -> StopState -> Prop :=
  | up_flip : forall st cap low_i,
      regime st = Uptrend ->
      lowest_before lows i = Some cap ->
      pd.iloc lows i = Some low_i ->
      (low_i <? capped (projected st) cap)%flt = true ->
      stop_step highs lows afStart afMax i st
        {| regime := Downtrend; stop := extreme st; accel := afStart;
           extreme := low_i |}
  | up_new_extreme : forall st cap low_i high_i,
      regime st = Uptrend ->
      lowest_before lows i = Some cap ->
      pd.iloc lows i = Some low_i ->
      (low_i <? capped (projected st) cap)%flt = false ->
      pd.iloc highs i = Some high_i ->
      (high_i >? extreme st)%flt = true ->
      stop_step highs lows afStart afMax i st
        {| regime := Uptrend; stop := capped (projected st) cap;
           accel := capped (accel st + afStart)%flt afMax; extreme := high_i |}
  | up_hold : forall st cap low_i high_i,
      regime st = Uptrend ->
      lowest_before lows i = Some cap ->
      pd.iloc lows i = Some low_i ->
      (low_i <? capped (projected st) cap)%flt = false ->
      pd.iloc highs i = Some high_i ->
      (high_i >? extreme st)%flt = false ->
      stop_step highs lows afStart afMax i st
        {| regime := Uptrend; stop := capped (projected st) cap;
           accel := accel st; extreme := extreme st |}
  | down_flip : forall st floor high_i,
      regime st = Downtrend ->
      highest_before highs i = Some floor ->
      pd.iloc highs i = Some high_i ->
      (high_i >? floored (projected st) floor)%flt = true ->
      stop_step highs lows afStart afMax i st
        {| regime := Uptrend; stop := extreme st; accel := afStart;
           extreme := high_i |}
  | down_new_extreme : forall st floor high_i low_i,
      regime st = Downtrend ->
      highest_before highs i = Some floor ->
      pd.iloc highs i = Some high_i ->
      (high_i >? floored (projected st) floor)%flt = false ->
      pd.iloc lows i = Some low_i ->
      (low_i <? extreme st)%flt = true ->
      stop_step highs lows afStart afMax i st
        {| regime := Downtrend; stop := floored (projected st) floor;
           accel := capped (accel st + afStart)%flt afMax; extreme := low_i |}
  | down_hold : forall st floor high_i low_i,
      regime st = Downtrend ->
      highest_before highs i = Some floor ->
      pd.iloc highs i = Some high_i ->
      (high_i >? floored (projected st) floor)%flt = false ->
      pd.iloc lows i = Some low_i ->
      (low_i <? extreme st)%flt = false ->
      stop_step highs lows afStart afMax i st
        {| regime := Downtrend; stop := floored (projected st) floor;
           accel := accel st; extreme := extreme st |}.

(** The state of the recurrence held by the loop variables: the stop value
    is the entry of [sar] assigned last. *)
Definition state_of (v : sar_vars) : StopState :=
  {| regime := if uptrend v then Uptrend else Downtrend;
     stop := List.last (sar v) nan;
     accel := af v;
     extreme := ep v |}.

(** A series without NaN. *)
Definition no_nan (series : list float) : Prop :=
  forall x, In x series -> isnan x = false.

(** The average fill price the gateway reported for the latest filled entry
    order of a log; [acc] is the one known before the log starts. *)
Fixpoint entry_fill (log : list Event) (acc : option float) : option float :=
  match log with
  | [] => acc
  | PlaceOrder SELL _ answer :: rest =>
    entry_fill rest (if is_filled answer then Some (avgFillPrice answer) else acc)
  | _ :: rest => entry_fill rest acc
  end.

(** The coupling of [in_position] and [position_entry_price]; [fill] is the
    fill price reported for the latest filled entry order, if any. *)
Definition coupled (s : Bot) (fill : option float) : Prop :=
  (in_position s = false -> position_entry_price s = None) /\
  (in_position s = true ->
   exists p, fill = Some p /\ position_entry_price s = Some p).

(** A method preserves the coupling, the reported fill price being updated
    by the orders it places. *)
Definition keeps_coupled (s : Bot) (l : list Event) (s' : Bot) : Prop :=
  forall fill, coupled s fill -> coupled s' (entry_fill l fill).

(* ================================================================== *)
(** * Notions for the oscillator of a monotonic series *)
(* ================================================================== *)

(** [smooth(smooth(|momentum|))], the denominator of the oscillator. *)
Definition smoothed_abs_momentum (close : list float) (fast slow : Z) : list float :=
  pd.ewm_mean fast (pd.ewm_mean slow (pd.abs (pd.diff close))).

(** [100 * x / x] as the oscillator computes it. *)
Definition hundred_ratio (x : float) : float := (of_Z 100 * x / x)%flt.

(** Every value is a binary64. *)
Definition all_valid (series : list float) : Prop :=
  forall x, In x series -> valid x = true.

(** Each value is strictly greater than (not greater than) the one before. *)
Fixpoint strictly_increasing (series : list float) : Prop :=
  match series with
  | [] => True
  | x :: rest =>
    match rest with
    | [] => True
    | y :: _ => (x <? y)%flt = true /\ strictly_increasing rest
    end
  end.

Fixpoint decreasing (series : list float) : Prop :=
  match series with
  | [] => True
  | x :: rest =>
    match rest with
    | [] => True
    | y :: _ => (y <=? x)%flt = true /\ decreasing rest
    end
  end.

(** [negated a b]: [a] is the negative of [b]; the sign of a zero is not
    compared, and NaN is its own negative. *)
Definition negated (a b : float) : Prop :=
  match a, b with
  | S754_nan, S754_nan => True
  | S754_zero _, S754_zero _ => True
  | S754_infinity s, S754_infinity s' => s = negb s'
  | S754_finite s m e, S754_finite s' m' e' => s = negb s' /\ m = m' /\ e = e'
  | _, _ => False
  end.

(** [recomputed s s']: [s'] is [s] with another history and, possibly, the
    four indicator values assigned by [_update_indicators]. *)
Definition recomputed (s s' : Bot) : Prop :=
  exists rows,
    s' = set_bars_5min rows s \/
    exists ma slope tsi psar,
      s' = set_indicators ma slope tsi psar (set_bars_5min rows s).

(** The four prices of the bar in progress are set. *)
Definition complete (b : CurrentBar) : Prop :=
  cur_open b <> None /\ cur_high b <> None /\
  cur_low b <> None /\ cur_close b <> None.

(** The objects the handlers produce: a bar in progress, if any, has its
    four prices; a short bot has an entry price; a moving average comes
    with its slope. *)
Definition well_formed (s : Bot) : Prop :=
  (bar_start_time s <> None \/ cur_open (current_bar s) <> None ->
   complete (current_bar s)) /\
  (in_position s = true -> position_entry_price s <> None) /\
  (current_ma70 s <> None -> ma70_slope s <> None).

(** What the tracker of an object records between two handler invocations:
    it is set only once the moving average and the oscillator are available,
    and on a flat bot it says whether the last price handled was strictly
    above the moving average. *)
Definition tracker_settled (s : Bot) : Prop :=
  (price_was_above_ma s <> None ->
   current_ma70 s <> None /\ current_tsi s <> None) /\
  (in_position s = false ->
   forall was, price_was_above_ma s = Some was ->
     exists prev ma_prev,
       last_price s = Some prev /\ current_ma70 s = Some ma_prev /\
       was = (prev >? ma_prev)%flt).

(** A run of tick callbacks only. *)
Definition is_tick (c : Call) : Prop :=
  match c with
  | Tick _ _ _ => True
  | LoadHistory _ => False
  end.

(** What the bar aggregation of a tick leaves alone: the tracker and the
    last price; indicators that are available stay available; a flat bot
    stays flat and no intent is emitted for it. *)
Definition tick_frame (s : Bot) (l : list Event) (s' : Bot) : Prop :=
  price_was_above_ma s' = price_was_above_ma s /\
  last_price s' = last_price s /\
  (current_ma70 s <> None -> current_ma70 s' <> None) /\
  (current_tsi s <> None -> current_tsi s' <> None) /\
  (in_position s = false -> in_position s' = false /\ intents l = []).

(** A short bot keeps an entry price; a moving average keeps its slope. *)
Definition keeps_entry_price (s : Bot) (l : list Event) (s' : Bot) : Prop :=
  (in_position s = true -> position_entry_price s <> None) ->
  (in_position s' = true -> position_entry_price s' <> None).

Definition keeps_slope (s : Bot) (l : list Event) (s' : Bot) : Prop :=
  (current_ma70 s <> None -> ma70_slope s <> None) ->
  (current_ma70 s' <> None -> ma70_slope s' <> None).

(* ================================================================== *)
(** * Concrete inputs *)
(* ================================================================== *)

(** Three wall-clock readings: 10:02:30 and 10:04:59 fall in the bucket that
    starts at 10:00, 10:05:01 in the next one. *)
Definition at_10_02 : datetime := Datetime 2024 1 15 10 2 30 0.
Definition at_10_04 : datetime := Datetime 2024 1 15 10 4 59 0.
Definition at_10_05 : datetime := Datetime 2024 1 15 10 5 1 0.

(** A gateway that fills every market order at [p], and one that leaves
    every order unfilled. *)
Definition fills_at (p : float) : Gateway := fun _ => mkTrade "Filled" p.
Definition cancels : Gateway := fun _ => mkTrade "Cancelled" zero.

(** A warm-up history of 71 five-minute bars, from 04:05 to 09:55, whose
    closes fall from 200 to 130 by one point per bar. *)
Definition falling_bar (i : nat) : Bar :=
  let c := 200 - Z.of_nat i in
  let minutes := 245 + 5 * Z.of_nat i in
  mkBar (Some (Datetime 2024 1 15 (minutes / 60) (minutes mod 60) 0 0))
    (of_Z c) (of_Z (c + 1)) (of_Z (c - 1)) (of_Z c) (of_Z 10).

Definition falling_history : list Bar := map falling_bar (seq 0 71).

(** The bot after construction and warm-up on the falling history. *)
Definition warmed_up : Bot := fst (run [LoadHistory falling_history] __init__).

(** Two ticks in the 10:00 bucket, at 100 and then at 105, and the tick at
    10:05:01 that closes their bar. *)
Definition two_ticks_then_close : list Call :=
  [Tick cancels at_10_02 (Some (of_Z 100));
   Tick cancels at_10_04 (Some (of_Z 105));
   Tick cancels at_10_05 (Some (of_Z 102))].

(** One tick in the 10:00 bucket and the tick that closes its bar. *)
Definition one_tick_then_close : list Call :=
  [Tick cancels at_10_02 (Some (of_Z 100));
   Tick cancels at_10_05 (Some (of_Z 102))].

(** After the warm-up: a tick above the moving average (164.5), then a tick
    below it that triggers an entry filled at 160. *)
Definition short_after_crossing : Bot :=
  fst (run [Tick (fills_at (of_Z 160)) at_10_02 (Some (of_Z 170));
            Tick (fills_at (of_Z 160)) at_10_02 (Some (of_Z 160))] warmed_up).

(** While short, a method keeps the bot short and the tracker as it was. *)
Definition short_keeps_tracker (s : Bot) (l : list Event) (s' : Bot) : Prop :=
  in_position s = true ->
  in_position s' = true /\ price_was_above_ma s' = price_was_above_ma s.

(** The snapshot the entry check reads and the last price of two objects are
    the same. *)
Definition same_reference (s : Bot) (l : list Event) (s' : Bot) : Prop :=
  current_ma70 s' = current_ma70 s /\ current_tsi s' = current_tsi s /\
  ma70_slope s' = ma70_slope s /\ last_price s' = last_price s.

(** The tick at 170 that initialises the tracker after the warm-up. *)
Definition first_tick_above : list Call :=
  [Tick (fills_at (of_Z 160)) at_10_02 (Some (of_Z 170))].

(** Three bars of highs and lows. *)
Definition three_highs : list float := [of_Z 10; of_Z 12; of_Z 11].
Definition three_lows : list float := [of_Z 9; of_Z 10; of_Z 8].

(* ================================================================== *)
(** * Notions for the properties of the code beyond the specification *)
(* ================================================================== *)

(** The orders a log hands to the gateway, oldest first: side and quantity. *)
Fixpoint orders (log : list Event) : list (Side * float) :=
  match log with
  | [] => []
  | PlaceOrder side quantity _ :: rest => (side, quantity) :: orders rest
  | _ :: rest => orders rest
  end.

(** The position held at the gateway after the orders of a log, starting
    from [pos] ([true]: short): a filled SELL opens the short, a filled BUY
    closes it, an order that is not filled changes nothing.  [None] as soon
    as a SELL is placed while short or a BUY while flat. *)
Fixpoint position_after (pos : bool) (log : list Event) : option bool :=
  match log with
  | [] => Some pos
  | PlaceOrder SELL _ answer :: rest =>
    if pos then None
    else position_after (is_filled answer) rest
  | PlaceOrder BUY _ answer :: rest =>
    if pos then position_after (negb (is_filled answer)) rest
    else None
  | _ :: rest => position_after pos rest
  end.

(** The outcomes of the handler invocations of a run, in order. *)
Fixpoint outcomes (calls : list Call) (s : Bot) : list (result unit) :=
  match calls with
  | [] => []
  | c :: rest => outcome (handle c s) :: outcomes rest (final (handle c s))
  end.

(** What a handler invocation is expected to return: the warm-up raises
    [ValueError] on an empty answer, everything else returns normally. *)
Definition expected_outcome (c : Call) : result unit :=
  match c with
  | LoadHistory [] => Raised ValueError
  | _ => Done tt
  end.

(** A zero of either sign, or NaN. *)
Definition zero_or_nan (x : float) : bool :=
  match x with
  | S754_nan | S754_zero _ => true
  | _ => false
  end.

(** A warm-up answer of exactly [MA_PERIOD] bars: the first seventy of the
    falling history. *)
Definition seventy_bars : list Bar := firstn MA_PERIOD falling_history.

(** What [_close_bar] runs once the row is appended and the history cut:
    the recomputation of the indicators and the exit check. *)
Definition after_append (ib : Gateway) : M unit :=
  _update_indicators ;; _check_exit_conditions ib.

(** A method that leaves the history alone. *)
Definition keeps_history (s : Bot) (l : list Event) (s' : Bot) : Prop :=
  bars_5min s' = bars_5min s.

(** A method under which the position flag follows the filled orders, on
    objects where a short bot has its entry price. *)
Definition follows_orders (s : Bot) (l : list Event) (s' : Bot) : Prop :=
  (in_position s = true -> position_entry_price s <> None) ->
  position_after (in_position s) l = Some (in_position s') /\
  (in_position s' = true -> position_entry_price s' <> None).

(** The bot after a single tick at 100 in the 10:00 bucket. *)
Definition after_one_tick : Bot :=
  fst (run [Tick cancels at_10_02 (Some (of_Z 100))] __init__).

(** A method that leaves alone what only a bar close changes: the history,
    the four current values and the start time of the bar in progress; and
    closes no bar. *)
Definition between_closes (s : Bot) (l : list Event) (s' : Bot) : Prop :=
  bars_5min s' = bars_5min s /\
  current_ma70 s' = current_ma70 s /\ ma70_slope s' = ma70_slope s /\
  current_tsi s' = current_tsi s /\ current_sar s' = current_sar s /\
  bar_start_time s' = bar_start_time s /\
  closed_bars l = [].

(** A bot that has not warmed up: flat, with none of the four current
    values. *)
Definition cold (s : Bot) : Prop :=
  in_position s = false /\ current_ma70 s = None /\ ma70_slope s = None /\
  current_tsi s = None /\ current_sar s = None.

(** A method under which the history does not shrink below [max_bars] rows
    and a cold bot stays cold and silent as long as the history it leaves
    is shorter than [MA_PERIOD]. *)
Definition warming_up (s : Bot) (l : list Event) (s' : Bot) : Prop :=
  (Nat.min (length (bars_5min s)) max_bars <= length (bars_5min s'))%nat /\
  (cold s -> (length (bars_5min s') < MA_PERIOD)%nat ->
   cold s' /\ intents l = [] /\ orders l = []).

(** A warm-up answer too short for the indicators, and two ticks that close
    one more bar. *)
Definition short_history : list Bar := firstn 10 falling_history.

(** A timestamp that is the start of a bucket. *)
Definition bucket_start (t : datetime) : Prop := _get_bar_start_time t = t.

(** The start time of the bar in progress, if any, is the start of a
    bucket. *)
Definition on_the_grid (s : Bot) : Prop :=
  forall t, bar_start_time s = Some t -> bucket_start t.

(** A row stamped with the start of a bucket. *)
Definition stamped (b : Bar) : Prop :=
  exists t, bar_index b = Some t /\ bucket_start t.

(** A method that keeps the bar in progress on the grid and closes stamped
    bars only. *)
Definition keeps_grid (s : Bot) (l : list Event) (s' : Bot) : Prop :=
  on_the_grid s -> on_the_grid s' /\ Forall stamped (closed_bars l).

(** The bar in progress closes at the last price handled. *)
Definition closes_at_last_price (s : Bot) : Prop :=
  cur_close (current_bar s) = last_price s.

(* ================================================================== *)
(** * The life cycle: [connect], [disconnect] and [run]

    These three methods only call the client library and log.  What the
    library answers is a parameter: each call into it either returns or is
    aborted by an exception, and [ib.run()] dispatches the tick callbacks of
    a feed, one after the other and each to completion (an exception raised
    by a callback is logged by the library and does not end the loop). *)
(* ================================================================== *)

Module TSITradingBot.

(** [Crypto(SYMBOL, EXCHANGE, CURRENCY)]. *)
Record Contract : Type := Crypto {
  symbol : string;
  exchange : string;
  currency : string
}.

Definition SYMBOL : string := "BTC".
Definition EXCHANGE : string := "PAXOS".
Definition CURRENCY : string := "USD".

(** What can abort a call into the library: Ctrl-C, an exception derived
    from [Exception], or another [BaseException] (such as [SystemExit]). *)
Inductive Abort : Type :=
  | KeyboardInterrupt
  | AnException
  | OtherBaseException.

(** One tick callback: the gateway that answers its orders, the clock
    reading and [ticker.last]. *)
Record Callback : Type := mkCallback {
  gateway : Gateway;
  clock : datetime;
  ticker_last : option float
}.

(** The answers of the library during one execution of [run]. *)
Record World : Type := mkWorld {
  on_connect : option Abort;            (* ib.connect(HOST, PORT, clientId) *)
  on_qualify : option Abort;            (* ib.qualifyContracts(contract) *)
  on_history : Abort + list Bar;        (* ib.reqHistoricalData(...) *)
  on_subscribe : option Abort;          (* ib.reqMktData(...) *)
  feed : list Callback;                 (* the callbacks ib.run() dispatches *)
  on_run : option Abort;                (* how ib.run() ends *)
  link_lost : bool                      (* the link is down when run() ends *)
}.

(** The object with its connection and contract. *)
Record Session : Type := mkSession {
  connected : bool;                     (* the link was established *)
  contract : option Contract;
  bot : Bot
}.

(** [TSITradingBot()]: a client that is not connected, no contract. *)
Definition new : Session := mkSession false None __init__.

(** The calls into the library, the events of the handlers and the two log
    lines of the [except] clauses, in order. *)
Inductive Step : Type :=
  | CallConnect
  | CallQualify (c : Contract)
  | CallHistory
  | CallSubscribe
  | CallRun
  | Handled (e : Event)
  | LogStopped                          (* "Bot detenido por el usuario" *)
  | LogError                            (* logger.error(f"Error: {e}") *)
  | CallDisconnect.

(** The events of the handlers in a log of steps. *)
Fixpoint handled (log : list Step) : list Event :=
  match log with
  | [] => []
  | Handled e :: rest => e :: handled rest
  | _ :: rest => handled rest
  end.

Definition Outcome : Type := option Abort * Session * list Step.

(** [connect]. *)
Definition connect (w : World) (s : Session) : Outcome :=
  match on_connect w with
  | Some a => (Some a, s, [CallConnect])
  | None =>
    let c := Crypto SYMBOL EXCHANGE CURRENCY in
    (on_qualify w, mkSession true (Some c) (bot s),
     [CallConnect; CallQualify c])
  end.

(** [disconnect]: [ib.isConnected()] holds when the link was established and
    is not lost. *)
Definition disconnect (w : World) (s : Session) : Session * list Step :=
  if connected s && negb (link_lost w)
  then (mkSession false (contract s) (bot s), [CallDisconnect])
  else (mkSession false (contract s) (bot s), []).

(** The request of [load_historical_data] and what the method does with the
    answer; its exceptions derive from [Exception]. *)
Definition load (w : World) (s : Session) : Outcome :=
  match on_history w with
  | inl a => (Some a, s, [CallHistory])
  | inr bars =>
    match load_historical_data bars (bot s) with
    | (Done _, b, l) =>
      (None, mkSession (connected s) (contract s) b,
       CallHistory :: map Handled l)
    | (Raised _, b, l) =>
      (Some AnException, mkSession (connected s) (contract s) b,
       CallHistory :: map Handled l)
    end
  end.

Definition call_of (c : Callback) : Call :=
  Tick (gateway c) (clock c) (ticker_last c).

(** The body of the [try] block of [run]. *)
Definition try_block (w : World) (s : Session) : Outcome :=
  match connect w s with
  | (Some a, s1, l1) => (Some a, s1, l1)
  | (None, s1, l1) =>
    match load w s1 with
    | (Some a, s2, l2) => (Some a, s2, l1 ++ l2)
    | (None, s2, l2) =>
      match on_subscribe w with
      | Some a => (Some a, s2, l1 ++ l2 ++ [CallSubscribe])
      | None =>
        match run (map call_of (feed w)) (bot s2) with
        | (b3, l3) =>
          (on_run w, mkSession (connected s2) (contract s2) b3,
           l1 ++ l2 ++ [CallSubscribe; CallRun] ++ map Handled l3)
        end
      end
    end
  end.

(** [run]: the [try] block, the two [except] clauses and the [finally]
    clause.  A [BaseException] that is neither [KeyboardInterrupt] nor an
    [Exception] leaves [run] after the [finally] clause. *)
Definition run (w : World) (s : Session) : Outcome :=
  match try_block w s with
  | (a, s1, l1) =>
    let caught :=
      match a with
      | Some KeyboardInterrupt => (None, [LogStopped])
      | Some AnException => (None, [LogError])
      | Some OtherBaseException => (Some OtherBaseException, [])
      | None => (None, [])
      end in
    match disconnect w s1 with
    | (s2, l2) => (fst caught, s2, l1 ++ snd caught ++ l2)
    end
  end.

End TSITradingBot.

(** A world in which the historical data request returns no bar. *)
Definition world_without_history : TSITradingBot.World :=
  TSITradingBot.mkWorld None None (inr [])
    None [TSITradingBot.mkCallback (fills_at (of_Z 160)) at_10_02 (Some (of_Z 170))]
    (Some TSITradingBot.KeyboardInterrupt) false.

(** A world that warms up on the falling history and receives the two ticks
    that cross the moving average, before Ctrl-C. *)
Definition world_with_crossing : TSITradingBot.World :=
  TSITradingBot.mkWorld None None (inr falling_history) None
    [TSITradingBot.mkCallback (fills_at (of_Z 160)) at_10_02 (Some (of_Z 170));
     TSITradingBot.mkCallback (fills_at (of_Z 160)) at_10_02 (Some (of_Z 160))]
    (Some TSITradingBot.KeyboardInterrupt) false.

(** While the bot is short the tracker says "not above": the entry that
    opened the position was a crossing down. *)
Definition short_below (s : Bot) : Prop :=
  in_position s = true -> price_was_above_ma s = Some false.

(** A method that places no order on a flat bot and leaves it flat. *)
Definition flat_silent (s : Bot) (l : list Event) (s' : Bot) : Prop :=
  in_position s = false -> in_position s' = false /\ orders l = [].

(** A method that leaves the tracker alone and does not open a position. *)
Definition keeps_tracker (s : Bot) (l : list Event) (s' : Bot) : Prop :=
  price_was_above_ma s' = price_was_above_ma s /\
  (in_position s' = true -> in_position s = true).

(** The history after some bars were closed: the rows there were, followed
    by the closed bars, cut to the latest [max_bars] rows as soon as one bar
    was closed. *)
Definition history_after (rows closed : list Bar) : list Bar :=
  match closed with
  | [] => rows
  | _ :: _ => tail_rows max_bars (rows ++ closed)
  end.

(** A method whose only change to the history is to append the bars it
    closes. *)
Definition appends_closed (s : Bot) (l : list Event) (s' : Bot) : Prop :=
  bars_5min s' = history_after (bars_5min s) (closed_bars l).

(** The four current values of an object. *)
Definition snapshot (s : Bot)
    : option float * option float * option float * option float :=
  (current_ma70 s, ma70_slope s, current_tsi s, current_sar s).

(** The four current values [_update_indicators] computes from a history. *)
Definition recomputed_snapshot (rows : list Bar)
    : option float * option float * option float * option float :=
  snapshot (final (_update_indicators (set_bars_5min rows __init__))).

(** The current values are those of the stored history, once it is long
    enough for them to be computed. *)
Definition coherent (s : Bot) : Prop :=
  (MA_PERIOD <= length (bars_5min s))%nat ->
  snapshot s = recomputed_snapshot (bars_5min s).

(** A method that leaves the history and the four current values alone. *)
Definition keeps_snapshot (s : Bot) (l : list Event) (s' : Bot) : Prop :=
  bars_5min s' = bars_5min s /\ snapshot s' = snapshot s.

(** A method that keeps the object coherent. *)
Definition keeps_coherent (s : Bot) (l : list Event) (s' : Bot) : Prop :=
  coherent s -> coherent s'.

(** The prices of the ticks of a run that pass the guard of [_on_tick]. *)
Fixpoint prices (calls : list Call) : list float :=
  match calls with
  | [] => []
  | Tick _ _ (Some p) :: rest =>
    if isnan p then prices rest else p :: prices rest
  | _ :: rest => prices rest
  end.

(** A handler invocation that is not a tick of another bucket than [b]. *)
Definition in_bucket (b : datetime) (c : Call) : Prop :=
  match c with
  | Tick _ now _ => _get_bar_start_time now = b
  | LoadHistory _ => True
  end.

(** Four ticks of the 10:00 bucket: 100, no price, 105, 95. *)
Definition four_ticks : list Call :=
  [Tick cancels at_10_02 (Some (of_Z 100));
   Tick cancels at_10_02 None;
   Tick cancels at_10_04 (Some (of_Z 105));
   Tick cancels at_10_04 (Some (of_Z 95))].

(** None, or all, of the four current values are set. *)
Definition all_unset (s : Bot) : Prop :=
  current_ma70 s = None /\ ma70_slope s = None /\
  current_tsi s = None /\ current_sar s = None.

Definition all_set (s : Bot) : Prop :=
  current_ma70 s <> None /\ ma70_slope s <> None /\
  current_tsi s <> None /\ current_sar s <> None.

(** The four current values come together, and a short bot has them. *)
Definition whole (s : Bot) : Prop :=
  (all_unset s \/ all_set s) /\ (in_position s = true -> all_set s).

Definition keeps_whole (s : Bot) (l : list Event) (s' : Bot) : Prop :=
  whole s -> whole s'.

(** After the warm-up: the crossing that opens the short at 160, then a tick
    back at 170, above the moving average, while the bot is short. *)
Definition short_then_above : list Call :=
  [Tick (fills_at (of_Z 160)) at_10_02 (Some (of_Z 170));
   Tick (fills_at (of_Z 160)) at_10_02 (Some (of_Z 160));
   Tick (fills_at (of_Z 160)) at_10_04 (Some (of_Z 170))].

(* ================================================================== *)
(** * Notions for the rounding of binary64 operations *)
(* ================================================================== *)

(** [shifted M k mrs]: [mrs] is what [k] right shifts leave of the integer
    [M]: its quotient by [2^k], the round bit (the remainder is at least
    half of [2^k]) and the sticky bit (the remainder is neither zero nor
    that half). *)
Definition shifted (M k : Z) (mrs : shr_record) : Prop :=
  exists rem,
    0 <= rem < 2 ^ k /\ M = shr_m mrs * 2 ^ k + rem /\ 0 <= shr_m mrs /\
    shr_r mrs = (2 ^ k <=? 2 * rem) /\
    shr_s mrs = negb ((2 * rem) mod 2 ^ k =? 0).

(** The last step of [binary_round_aux]: the rounded mantissa [M2] at the
    exponent [E1] is brought back to the format (one more shift after a
    carry) and checked for overflow. *)
Definition rounded (s : bool) (M2 E1 : Z) : float :=
  let n2 := Z.max 0 (fexp prec emax (Zdigits2 M2 + E1) - E1) in
  match M2 / 2 ^ n2 with
  | Z0 => S754_zero s
  | Zpos m =>
    if E1 + n2 <=? emax - prec then S754_finite s m (E1 + n2)
    else S754_infinity s
  | Zneg _ => S754_nan
  end.

(** The two binary64 values next to 100: 100 - 2^-46 and 100 + 2^-46. *)
Definition below_hundred : float := S754_finite false 7036874417766399 (-46).
Definition above_hundred : float := S754_finite false 7036874417766401 (-46).

(** What the oscillator of a rising series can be: NaN where it is
    undefined, plus infinity, or 100 up to one unit in the last place. *)
Definition hundred_or_undefined (v : float) : Prop :=
  v = nan \/ v = S754_infinity false \/
  v = below_hundred \/ v = of_Z 100 \/ v = above_hundred.
(* ================================================================== *)
(** * The order of floats *)
(* ================================================================== *)

Lemma compare_antisym :
  forall a b : float,
    SFcompare b a = option_map CompOpp (SFcompare a b).
Proof.
  intros [sa|sa| |sa ma ea] [sb|sb| |sb mb eb]; cbn;
    try reflexivity; try (destruct sa; reflexivity);
    try (destruct sb; reflexivity); try (destruct sa, sb; reflexivity).
  destruct sa, sb; cbn; try reflexivity;
    rewrite (Z.compare_antisym ea eb);
    fold (Pos.compare ma mb); fold (Pos.compare mb ma);
    rewrite (Pos.compare_antisym ma mb);
    destruct (ea ?= eb); cbn; try reflexivity;
    destruct (ma ?= mb)%positive; reflexivity.
Qed.

Lemma compare_refl :
  forall a : float, isnan a = false -> SFcompare a a = Some Eq.
Proof.
  intros [sa|sa| |sa ma ea] H; cbn in *; try discriminate;
    try reflexivity; try (destruct sa; reflexivity).
  fold (Pos.compare ma ma).
  rewrite Z.compare_refl, Pos.compare_refl. destruct sa; reflexivity.
Qed.

Lemma compare_defined :
  forall a b : float,
    isnan a = false -> isnan b = false -> exists c, SFcompare a b = Some c.
Proof.
  intros [sa|sa| |sa ma ea] [sb|sb| |sb mb eb] Ha Hb; cbn in *;
    try discriminate; eexists; reflexivity.
Qed.

Lemma leb_refl : forall a, isnan a = false -> (a <=? a)%flt = true.
Proof.
  intros a H. unfold leb, SFleb. rewrite (compare_refl a H). reflexivity.
Qed.

Lemma ltb_irrefl : forall a, (a <? a)%flt = false.
Proof.
  intros a. unfold ltb, SFltb. destruct (isnan a) eqn:H.
  - destruct a; try discriminate. reflexivity.
  - rewrite (compare_refl a H). reflexivity.
Qed.

Lemma ltb_leb : forall a b, (a <? b)%flt = true -> (a <=? b)%flt = true.
Proof.
  intros a b. unfold ltb, leb, SFltb, SFleb.
  destruct (SFcompare a b) as [[]|]; congruence.
Qed.

(** Without NaN the order is total. *)
Lemma not_ltb_leb :
  forall a b,
    isnan a = false -> isnan b = false ->
    (a <? b)%flt = false -> (b <=? a)%flt = true.
Proof.
  intros a b Ha Hb. unfold ltb, leb, SFltb, SFleb.
  rewrite (compare_antisym a b).
  destruct (compare_defined a b Ha Hb) as [c Hc]. rewrite Hc.
  destruct c; cbn; congruence.
Qed.

Lemma leb_not_ltb :
  forall a b, (a <=? b)%flt = true -> (b <? a)%flt = false.
Proof.
  intros a b. unfold ltb, leb, SFltb, SFleb.
  rewrite (compare_antisym a b).
  destruct (SFcompare a b) as [[]|]; cbn; congruence.
Qed.

Lemma leb_nan_l : forall a b, (a <=? b)%flt = true -> isnan a = false.
Proof. intros [| | |] b H; try reflexivity. discriminate H. Qed.

Lemma leb_nan_r : forall a b, (a <=? b)%flt = true -> isnan b = false.
Proof.
  intros a [| | |] H; try reflexivity.
  destruct a; discriminate H.
Qed.

Lemma lex_le_trans :
  forall (e1 e2 e3 : Z) (m1 m2 m3 : positive) c12 c23,
    match e1 ?= e2 with Lt => Lt | Gt => Gt | Eq => (m1 ?= m2)%positive end = c12 ->
    match e2 ?= e3 with Lt => Lt | Gt => Gt | Eq => (m2 ?= m3)%positive end = c23 ->
    c12 <> Gt -> c23 <> Gt ->
    match e1 ?= e3 with Lt => Lt | Gt => Gt | Eq => (m1 ?= m3)%positive end <> Gt.
Proof.
  intros e1 e2 e3 m1 m2 m3 c12 c23 H12 H23 N12 N23. subst.
  destruct (Z.compare_spec e1 e2), (Z.compare_spec e2 e3),
    (Z.compare_spec e1 e3); try lia; try congruence;
    destruct (Pos.compare_spec m1 m2), (Pos.compare_spec m2 m3),
      (Pos.compare_spec m1 m3); try lia; congruence.
Qed.

Lemma leb_trans :
  forall a b c,
    (a <=? b)%flt = true -> (b <=? c)%flt = true -> (a <=? c)%flt = true.
Proof.
  intros [sa|sa| |sa ma ea] [sb|sb| |sb mb eb] [sc|sc| |sc mc ec];
    unfold leb, SFleb; cbn;
    try discriminate; try reflexivity;
    try (destruct sa; cbn; congruence);
    try (destruct sb; cbn; congruence);
    try (destruct sc; cbn; congruence);
    try (destruct sa, sb; cbn; congruence);
    try (destruct sa, sc; cbn; congruence);
    try (destruct sb, sc; cbn; congruence);
    try (destruct sa, sb, sc; cbn; congruence).
  fold (Pos.compare ma mb); fold (Pos.compare mb mc); fold (Pos.compare ma mc).
  destruct sa, sb, sc; cbn; try congruence; intros H1 H2.
  - (* all negative: the order of the magnitudes is reversed *)
    pose proof (@lex_le_trans ec eb ea mc mb ma _ _ eq_refl eq_refl) as T.
    rewrite (Z.compare_antisym ea ec), (Pos.compare_antisym ma mc) in T.
    rewrite (Z.compare_antisym ea eb), (Pos.compare_antisym ma mb) in T.
    rewrite (Z.compare_antisym eb ec), (Pos.compare_antisym mb mc) in T.
    destruct (ea ?= eb), (eb ?= ec), (ea ?= ec); cbn in *;
      try discriminate; try reflexivity;
      destruct (ma ?= mb)%positive, (mb ?= mc)%positive, (ma ?= mc)%positive;
      cbn in *; try discriminate; try reflexivity;
      exfalso; apply T; congruence.
  - pose proof (@lex_le_trans ea eb ec ma mb mc _ _ eq_refl eq_refl) as T.
    destruct (ea ?= eb), (eb ?= ec), (ea ?= ec); cbn in *;
      try discriminate; try reflexivity;
      destruct (ma ?= mb)%positive, (mb ?= mc)%positive, (ma ?= mc)%positive;
      cbn in *; try discriminate; try reflexivity;
      exfalso; apply T; congruence.
Qed.

Lemma ltb_leb_trans :
  forall a b c,
    (a <? b)%flt = true -> (b <=? c)%flt = true -> (a <=? c)%flt = true.
Proof. intros a b c H1 H2. apply (leb_trans a b c (ltb_leb a b H1) H2). Qed.


(* ================================================================== *)
(** * Frame rules: what a method leaves alone *)
(* ================================================================== *)

Ltac run_m :=
  unfold outcome, final, events, bind, get, modify, emit, ret, raise in *;
  cbn [fst snd app] in *.

Section Frame.

Variable R : Bot -> list Event -> Bot -> Prop.
Hypothesis R_refl : forall s, R s [] s.
Hypothesis R_trans :
  forall a l1 b l2 c, R a l1 b -> R b l2 c -> R a (l1 ++ l2) c.

Lemma keeps_ret : forall A (a : A), keeps R (ret a).
Proof. intros A a s. apply R_refl. Qed.

Lemma keeps_get : keeps R get.
Proof. intros s. apply R_refl. Qed.

Lemma keeps_raise : forall A e, keeps R (@raise A e).
Proof. intros A e s. apply R_refl. Qed.

Lemma keeps_bind :
  forall A B (m : M A) (f : A -> M B),
    keeps R m -> (forall a, keeps R (f a)) -> keeps R (bind m f).
Proof.
  intros A B m f Hm Hf s. specialize (Hm s).
  unfold bind, events, final in *.
  destruct (m s) as [[[a|e] s1] l1]; cbn [fst snd] in *.
  - specialize (Hf a s1).
    destruct (f a s1) as [[r s2] l2]; cbn [fst snd] in *.
    eapply R_trans; eassumption.
  - exact Hm.
Qed.

(** A [get] whose continuation is kept from every object. *)
Lemma keeps_get_bind :
  forall B (f : Bot -> M B),
    (forall s, R s (events (f s s)) (final (f s s))) -> keeps R (bind get f).
Proof.
  intros B f Hf s. specialize (Hf s). run_m.
  destruct (f s s) as [[r s2] l2]. exact Hf.
Qed.

Lemma keeps_modify :
  forall g : Bot -> Bot, (forall s, R s [] (g s)) -> keeps R (modify g).
Proof. intros g Hg s. apply Hg. Qed.

Lemma keeps_emit : forall e, (forall s, R s [e] s) -> keeps R (emit e).
Proof. intros e He s. apply He. Qed.

Hypothesis R_indicators :
  forall s a b c d, R s [] (set_indicators a b c d s).

Lemma keeps_update_indicators : keeps R _update_indicators.
Proof.
  unfold _update_indicators. apply keeps_get_bind. intros s.
  destruct (length (bars_5min s) <? MA_PERIOD)%nat; [apply keeps_ret|].
  destruct (calculate_parabolic_sar _ _ _ _); [|apply keeps_raise].
  destruct (pd.iloc_last _); [|apply keeps_raise].
  destruct (pd.iloc_last _); [|apply keeps_raise].
  destruct (pd.iloc_last _); [|apply keeps_raise].
  destruct (pd.iloc_last _); [|apply keeps_raise].
  apply keeps_modify. intros t. apply R_indicators.
Qed.

Variable G : Gateway -> Prop.

(** The orders and the tracker are only reached from particular objects:
    an entry from a flat bot, an exit from a short one, a tracker update
    from a flat bot whose moving average and oscillator are available. *)
Hypothesis R_enter :
  forall ib price, G ib -> forall s,
    in_position s = false ->
    R s (events (_enter_short ib price s)) (final (_enter_short ib price s)).
Hypothesis R_exit :
  forall ib, G ib -> forall s,
    in_position s = true ->
    R s (events (_exit_short ib s)) (final (_exit_short ib s)).
Hypothesis R_tracker :
  forall s price ma,
    in_position s = false -> current_ma70 s = Some ma ->
    current_tsi s <> None ->
    R s [] (set_price_was_above_ma (Some (price >? ma)%flt) s).
Hypothesis R_Crossing : forall s p m, R s [Crossing p m] s.

Lemma keeps_check_entry :
  forall ib price, G ib -> keeps R (_check_entry_conditions ib price).
Proof.
  intros ib price HG s. unfold _check_entry_conditions. run_m.
  destruct (in_position s) eqn:Hpos; [apply R_refl|].
  destruct (current_ma70 s) as [ma|] eqn:Hma; [|apply R_refl].
  destruct (current_tsi s) as [tsi|] eqn:Htsi; [|apply R_refl].
  assert (Ht : R s [] (set_price_was_above_ma (Some (price >? ma)%flt) s)).
  { apply R_tracker; [exact Hpos | exact Hma | rewrite Htsi; discriminate]. }
  destruct (price_was_above_ma s) as [was|]; [|exact Ht].
  cbn [fst snd app].
  destruct (was && negb (price >? ma)%flt); [|exact Ht].
  cbn [fst snd app set_price_was_above_ma ma70_slope].
  assert (Hc : R s [Crossing price ma]
                 (set_price_was_above_ma (Some (price >? ma)%flt) s)).
  { apply (R_trans Ht (R_Crossing _ price ma)). }
  destruct (ma70_slope s) as [slope|]; [|exact Hc].
  destruct ((slope <? zero)%flt && (tsi <? TSI_THRESHOLD)%flt); [|exact Hc].
  pose proof (R_enter price HG
                (set_price_was_above_ma (Some (price >? ma)%flt) s) Hpos) as He.
  unfold events, final in He.
  destruct (_enter_short ib price _) as [[r s2] l2]. cbn [fst snd] in *.
  apply (R_trans Hc He).
Qed.

Lemma keeps_check_exit :
  forall ib, G ib -> keeps R (_check_exit_conditions ib).
Proof.
  intros ib HG. unfold _check_exit_conditions.
  apply keeps_get_bind. intros s.
  destruct (in_position s) eqn:Hpos; cbn [negb]; [|apply keeps_ret].
  destruct (current_sar s); [|apply keeps_ret].
  destruct (pd.iloc_last _); [|apply keeps_raise].
  destruct (_ >=? _)%flt; [apply R_exit; assumption | apply keeps_ret].
Qed.

Hypothesis R_bars : forall s x, R s [] (set_bars_5min x s).
Hypothesis R_BarClosed : forall s b, R s [BarClosed b] s.

Lemma keeps_close_bar : forall ib, G ib -> keeps R (_close_bar ib).
Proof.
  intros ib HG. unfold _close_bar.
  apply keeps_get_bind. intros s.
  destruct (cur_open (current_bar s)); [|apply keeps_ret].
  destruct (cur_high (current_bar s)); [|apply keeps_raise].
  destruct (cur_low (current_bar s)); [|apply keeps_raise].
  destruct (cur_close (current_bar s)); [|apply keeps_raise].
  apply keeps_bind; [apply keeps_modify; intros; apply R_bars|]. intros _.
  apply keeps_bind; [apply keeps_emit; intros; apply R_BarClosed|]. intros _.
  apply keeps_get_bind. intros t.
  apply keeps_bind.
  { destruct (max_bars <? _)%nat;
      [apply keeps_modify; intros; apply R_bars | apply keeps_ret]. }
  intros _.
  apply keeps_bind; [apply keeps_update_indicators|]. intros _.
  apply keeps_check_exit; assumption.
Qed.

Hypothesis R_current_bar : forall s x, R s [] (set_current_bar x s).
Hypothesis R_bar_start_time : forall s x, R s [] (set_bar_start_time x s).
Hypothesis R_NewBar : forall s t, R s [NewBar t] s.

Lemma keeps_aggregate_tick :
  forall ib bar_start price, G ib -> keeps R (aggregate_tick ib bar_start price).
Proof.
  intros ib bar_start price HG. unfold aggregate_tick.
  apply keeps_get_bind. intros s.
  destruct (differs (bar_start_time s) bar_start).
  - apply keeps_bind.
    { destruct (bar_start_time s); [|apply keeps_ret].
      destruct (cur_open (current_bar s)); [|apply keeps_ret].
      apply keeps_close_bar; assumption. }
    intros _.
    apply keeps_bind; [apply keeps_modify; intros; apply R_bar_start_time|].
    intros _.
    apply keeps_bind; [apply keeps_modify; intros; apply R_current_bar|].
    intros _. apply keeps_emit; intros; apply R_NewBar.
  - apply keeps_bind.
    { destruct (cur_high (current_bar s)); [|apply keeps_raise].
      apply keeps_modify; intros; apply R_current_bar. }
    intros _. apply keeps_bind.
    { destruct (cur_low (current_bar s)); [|apply keeps_raise].
      apply keeps_modify; intros; apply R_current_bar. }
    intros _. apply keeps_modify; intros; apply R_current_bar.
Qed.

Hypothesis R_last_price : forall s x, R s [] (set_last_price x s).

Lemma keeps_on_tick :
  forall ib now last, G ib -> keeps R (_on_tick ib now last).
Proof.
  intros ib now last HG. unfold _on_tick.
  destruct last as [price|]; [|apply keeps_ret].
  destruct (isnan price); [apply keeps_ret|].
  apply keeps_bind; [apply keeps_aggregate_tick; assumption|]. intros _.
  apply keeps_bind; [apply keeps_modify; intros; apply R_last_price|].
  intros _. apply keeps_check_entry; assumption.
Qed.

Lemma keeps_load_historical_data :
  forall bars, keeps R (load_historical_data bars).
Proof.
  intros bars. unfold load_historical_data.
  destruct bars; [apply keeps_raise|].
  apply keeps_bind; [apply keeps_modify; intros; apply R_bars|].
  intros _. apply keeps_update_indicators.
Qed.

Lemma keeps_handle : forall c, gateway_ok G c -> keeps R (handle c).
Proof.
  intros [bars | ib now last] HG; cbn [handle].
  - apply keeps_load_historical_data.
  - apply keeps_on_tick. exact HG.
Qed.

Lemma keeps_run :
  forall calls s,
    Forall (gateway_ok G) calls ->
    R s (snd (run calls s)) (fst (run calls s)).
Proof.
  induction calls as [|c rest IH]; intros s Hall; cbn [run fst snd].
  - apply R_refl.
  - inversion Hall as [|? ? Hc Hrest]; subst.
    pose proof (@keeps_handle c Hc s) as H1. unfold events, final in H1.
    destruct (handle c s) as [[r s1] l1]. cbn [fst snd] in H1.
    specialize (IH s1 Hrest).
    destruct (run rest s1) as [s2 l2]. cbn [fst snd] in *.
    eapply R_trans; eassumption.
Qed.

End Frame.

(* ================================================================== *)
(** * Entry signal *)
(* ================================================================== *)

Lemma enter_short_intents :
  forall ib price s,
    intents (events (_enter_short ib price s)) = [ENTRY_SHORT price].
Proof.
  intros ib price s. unfold _enter_short. run_m.
  destruct (is_filled (ib SELL)); reflexivity.
Qed.

Lemma check_entry_first_tick :
  forall ib price s ma tsi,
    in_position s = false ->
    current_ma70 s = Some ma -> current_tsi s = Some tsi ->
    price_was_above_ma s = None ->
    _check_entry_conditions ib price s
    = (Done tt, set_price_was_above_ma (Some (price >? ma)%flt) s, []).
Proof.
  intros ib price s ma tsi Hpos Hma Htsi Hwas.
  unfold _check_entry_conditions. run_m.
  rewrite Hpos, Hma, Htsi, Hwas. reflexivity.
Qed.

Lemma check_entry_intents :
  forall ib price s ma tsi slope was,
    in_position s = false ->
    current_ma70 s = Some ma -> current_tsi s = Some tsi ->
    ma70_slope s = Some slope ->
    price_was_above_ma s = Some was ->
    intents (events (_check_entry_conditions ib price s))
    = if was && negb (price >? ma)%flt && (slope <? zero)%flt
         && (tsi <? TSI_THRESHOLD)%flt
      then [ENTRY_SHORT price] else [].
Proof.
  intros ib price s ma tsi slope was Hpos Hma Htsi Hslope Hwas.
  unfold _check_entry_conditions. run_m.
  rewrite Hpos, Hma, Htsi, Hwas. cbn [fst snd app].
  destruct was; cbn [andb]; [|reflexivity].
  destruct (price >? ma)%flt; cbn [negb andb]; [reflexivity|].
  cbn [set_price_was_above_ma ma70_slope]. rewrite Hslope.
  destruct (slope <? zero)%flt; cbn [andb]; [|reflexivity].
  destruct (tsi <? TSI_THRESHOLD)%flt; [|reflexivity].
  pose proof (enter_short_intents ib price
                (set_price_was_above_ma (Some false) s)) as E.
  unfold events in E.
  destruct (_enter_short ib price (set_price_was_above_ma (Some false) s))
    as [[r s'] l].
  cbn [fst snd app intents] in *. exact E.
Qed.

(** The object after a filled entry (exit) order. *)
Lemma enter_short_result :
  forall ib price s,
    _enter_short ib price s
    = (Done tt,
       (if is_filled (ib SELL)
        then set_position_entry_price (Some (avgFillPrice (ib SELL)))
               (set_in_position true s)
        else s),
       [EntryShort price; PlaceOrder SELL QUANTITY (ib SELL);
        if is_filled (ib SELL) then Executed SELL (avgFillPrice (ib SELL))
        else OrderState (status (ib SELL))]).
Proof.
  intros ib price s. unfold _enter_short. run_m.
  destruct (is_filled (ib SELL)); reflexivity.
Qed.

Lemma exit_short_result :
  forall ib s entry,
    position_entry_price s = Some entry ->
    _exit_short ib s
    = (Done tt,
       (if is_filled (ib BUY)
        then set_position_entry_price None (set_in_position false s)
        else s),
       ExitShort :: PlaceOrder BUY QUANTITY (ib BUY) ::
       (if is_filled (ib BUY)
        then [Executed BUY (avgFillPrice (ib BUY));
              PnL (entry - avgFillPrice (ib BUY))%flt]
        else [OrderState (status (ib BUY))])).
Proof.
  intros ib s entry He. unfold _exit_short. run_m.
  destruct (is_filled (ib BUY)); [|reflexivity].
  cbn [fst snd app]. rewrite He. reflexivity.
Qed.

Lemma exit_short_not_filled :
  forall ib s,
    is_filled (ib BUY) = false ->
    _exit_short ib s
    = (Done tt, s,
       [ExitShort; PlaceOrder BUY QUANTITY (ib BUY); OrderState (status (ib BUY))]).
Proof.
  intros ib s Hf. unfold _exit_short. run_m. rewrite Hf. reflexivity.
Qed.

Lemma check_entry_result :
  forall ib price s ma tsi slope was,
    in_position s = false ->
    current_ma70 s = Some ma -> current_tsi s = Some tsi ->
    ma70_slope s = Some slope ->
    price_was_above_ma s = Some was ->
    let s1 := set_price_was_above_ma (Some (price >? ma)%flt) s in
    outcome (_check_entry_conditions ib price s) = Done tt /\
    final (_check_entry_conditions ib price s)
    = (if entry_signal was price ma slope tsi && is_filled (ib SELL)
       then set_position_entry_price (Some (avgFillPrice (ib SELL)))
              (set_in_position true s1)
       else s1).
Proof.
  intros ib price s ma tsi slope was Hpos Hma Htsi Hslope Hwas s1.
  subst s1. unfold _check_entry_conditions, entry_signal. run_m.
  rewrite Hpos, Hma, Htsi, Hwas. cbn [fst snd app].
  destruct was; cbn [andb]; [|split; reflexivity].
  destruct (price >? ma)%flt; cbn [negb andb]; [split; reflexivity|].
  cbn [set_price_was_above_ma ma70_slope]. rewrite Hslope.
  destruct (slope <? zero)%flt; cbn [andb]; [|split; reflexivity].
  destruct (tsi <? TSI_THRESHOLD)%flt; cbn [andb]; [|split; reflexivity].
  rewrite enter_short_result. cbn [fst snd].
  destruct (is_filled (ib SELL)); split; reflexivity.
Qed.

Lemma check_entry_flat_after :
  forall ib price s ma tsi slope,
    in_position s = false ->
    current_ma70 s = Some ma -> current_tsi s = Some tsi ->
    ma70_slope s = Some slope ->
    in_position (final (_check_entry_conditions ib price s)) = false ->
    final (_check_entry_conditions ib price s)
    = set_price_was_above_ma (Some (price >? ma)%flt) s.
Proof.
  intros ib price s ma tsi slope Hpos Hma Htsi Hslope Hflat.
  destruct (price_was_above_ma s) as [was|] eqn:Hwas.
  - destruct (check_entry_result ib price s Hpos Hma Htsi Hslope Hwas)
      as [_ Hfin].
    rewrite Hfin in *.
    destruct (entry_signal was price ma slope tsi && is_filled (ib SELL));
      [discriminate Hflat | reflexivity].
  - rewrite (check_entry_first_tick ib price s Hpos Hma Htsi Hwas).
    reflexivity.
Qed.

Lemma andb4_true :
  forall a b c d : bool,
    a && b && c && d = true <-> a = true /\ b = true /\ c = true /\ d = true.
Proof. intros [] [] [] []; cbn; intuition congruence. Qed.

(** The entry check of a flat bot whose snapshot (moving average, slope,
    oscillator) is available.  (1) If the crossover tracker
    is unset, the tick only initialises it and no intent is emitted.
    (2) Otherwise the only possible intent is ENTRY_SHORT at the tick's price,
    and it is emitted exactly when the tracker says the previous price was
    above the moving average, the current price is not strictly above it,
    the slope is negative and the oscillator is below the threshold.
    (3) For two consecutive ticks [prev], [price] handled flat under the same
    snapshot, the second emits ENTRY_SHORT exactly when [prev] was strictly
    above the moving average and the other three conditions hold. *)
Lemma check_entry_signal :
  forall (ib : Gateway) (s : Bot) (ma slope tsi price : float),
    in_position s = false ->
    current_ma70 s = Some ma ->
    ma70_slope s = Some slope ->
    current_tsi s = Some tsi ->
    (price_was_above_ma s = None ->
       intents (events (_check_entry_conditions ib price s)) = [] /\
       final (_check_entry_conditions ib price s)
       = set_price_was_above_ma (Some (price >? ma)%flt) s) /\
    (forall was : bool,
       price_was_above_ma s = Some was ->
       (intents (events (_check_entry_conditions ib price s))
        = [ENTRY_SHORT price]
        <-> was = true /\ (price >? ma)%flt = false /\
            (slope <? zero)%flt = true /\ (tsi <? TSI_THRESHOLD)%flt = true) /\
       (intents (events (_check_entry_conditions ib price s))
        = [ENTRY_SHORT price] \/
        intents (events (_check_entry_conditions ib price s)) = [])) /\
    (forall (ib0 : Gateway) (prev : float),
       let s1 := final (_check_entry_conditions ib0 prev s) in
       in_position s1 = false ->
       (intents (events (_check_entry_conditions ib price s1))
        = [ENTRY_SHORT price]
        <-> (prev >? ma)%flt = true /\ (price >? ma)%flt = false /\
            (slope <? zero)%flt = true /\ (tsi <? TSI_THRESHOLD)%flt = true)).
Proof.
  intros ib s ma slope tsi price Hpos Hma Hslope Htsi.
  assert (Hstep : forall t was,
             in_position t = false -> current_ma70 t = Some ma ->
             ma70_slope t = Some slope -> current_tsi t = Some tsi ->
             price_was_above_ma t = Some was ->
             (intents (events (_check_entry_conditions ib price t))
              = [ENTRY_SHORT price]
              <-> was = true /\ (price >? ma)%flt = false /\
                  (slope <? zero)%flt = true /\
                  (tsi <? TSI_THRESHOLD)%flt = true)).
  { intros t was Ht1 Ht2 Ht3 Ht4 Ht5.
    rewrite (check_entry_intents ib price t Ht1 Ht2 Ht4 Ht3 Ht5).
    rewrite <- (negb_true_iff (price >? ma)%flt), <- andb4_true.
    destruct (was && negb (price >? ma)%flt && (slope <? zero)%flt
              && (tsi <? TSI_THRESHOLD)%flt); split; congruence. }
  split; [|split].
  - intros Hwas.
    rewrite (check_entry_first_tick ib price s Hpos Hma Htsi Hwas).
    split; reflexivity.
  - intros was Hwas. split.
    + apply Hstep; assumption.
    + rewrite (check_entry_intents ib price s Hpos Hma Htsi Hslope Hwas).
      destruct (was && negb (price >? ma)%flt && (slope <? zero)%flt
                && (tsi <? TSI_THRESHOLD)%flt); [left | right]; reflexivity.
  - intros ib0 prev s1 Hflat. subst s1.
    rewrite (check_entry_flat_after ib0 prev s Hpos Hma Htsi Hslope Hflat) in *.
    apply Hstep; reflexivity || assumption.
Qed.

(* ================================================================== *)
(** * Orders that are not filled *)
(* ================================================================== *)

Lemma not_filled :
  forall t : Trade, status t <> "Filled"%string -> is_filled t = false.
Proof. intros t H. unfold is_filled. apply String.eqb_neq. exact H. Qed.

Lemma set_tracker_same : forall s, set_price_was_above_ma (price_was_above_ma s) s = s.
Proof. intros []; reflexivity. Qed.

(** C3.  When the gateway answers an order with any status other than
    "Filled": [_enter_short] and [_exit_short] return normally and leave the
    whole object as it was (only log lines and the placed order are
    produced); the entry check changes nothing but the crossover tracker;
    the exit check changes nothing at all; and a whole tick handler, bar
    close included, leaves [in_position] and [position_entry_price] exactly
    as they were.  Nothing about the failed intent is remembered, so the
    next event is evaluated from the same object as if it had not been
    placed. *)
Theorem C3_non_fill_no_transition :
  forall ib : Gateway,
    status (ib SELL) <> "Filled"%string ->
    status (ib BUY) <> "Filled"%string ->
    (forall price s,
       _enter_short ib price s
       = (Done tt, s, [EntryShort price; PlaceOrder SELL QUANTITY (ib SELL);
                       OrderState (status (ib SELL))])) /\
    (forall s,
       _exit_short ib s
       = (Done tt, s, [ExitShort; PlaceOrder BUY QUANTITY (ib BUY);
                       OrderState (status (ib BUY))])) /\
    (forall price s,
       exists w, final (_check_entry_conditions ib price s)
                 = set_price_was_above_ma w s) /\
    (forall s, final (_check_exit_conditions ib s) = s) /\
    (forall now last s, same_position s (final (_on_tick ib now last s))).
Proof.
  intros ib Hsell Hbuy.
  pose proof (not_filled _ Hsell) as Fs. pose proof (not_filled _ Hbuy) as Fb.
  assert (Henter : forall price s,
             _enter_short ib price s
             = (Done tt, s, [EntryShort price; PlaceOrder SELL QUANTITY (ib SELL);
                             OrderState (status (ib SELL))])).
  { intros price s. rewrite enter_short_result, Fs. reflexivity. }
  assert (Hexit : forall s,
             _exit_short ib s
             = (Done tt, s, [ExitShort; PlaceOrder BUY QUANTITY (ib BUY);
                             OrderState (status (ib BUY))])).
  { intros s. apply exit_short_not_filled. exact Fb. }
  split; [exact Henter|]. split; [exact Hexit|].
  split; [|split].
  - intros price s.
    assert (K : keeps (fun s _ s' => exists w, s' = set_price_was_above_ma w s)
                  (_check_entry_conditions ib price)); [|exact (K s)].
    apply keeps_check_entry with (G := fun g => g = ib);
      first [ reflexivity
            | intros a l1 b l2 c [w1 H1] [w2 H2]; exists w2; subst; reflexivity
            | intros ib' price' Hib' t _; subst ib'; rewrite Henter;
              exists (price_was_above_ma t); symmetry; apply set_tracker_same
            | intros t price' ma _ _ _; eexists; reflexivity
            | intros t; intros; exists (price_was_above_ma t); symmetry;
              apply set_tracker_same ].
  - intros s.
    assert (K : keeps (fun s _ s' => s' = s) (_check_exit_conditions ib));
      [|exact (K s)].
    apply keeps_check_exit with (G := fun g => g = ib);
      first [ reflexivity
            | intros a l1 b l2 c H1 H2; congruence
            | intros ib' Hib' t _; subst ib'; rewrite Hexit; reflexivity ].
  - intros now last s.
    assert (K : keeps (fun s _ s' => same_position s s') (_on_tick ib now last));
      [|exact (K s)].
    apply keeps_on_tick with (G := fun g => g = ib);
      first [ reflexivity
            | intros; split; reflexivity
            | intros a l1 b l2 c [H1 H2] [H3 H4]; split; congruence
            | intros ib' price Hib' t _; subst ib'; rewrite Henter;
              split; reflexivity
            | intros ib' Hib' t _; subst ib'; rewrite Hexit; split; reflexivity ].
Qed.

(* ================================================================== *)
(** * The bar aggregator *)
(* ================================================================== *)

Lemma closed_bars_app :
  forall l1 l2, closed_bars (l1 ++ l2) = closed_bars l1 ++ closed_bars l2.
Proof.
  induction l1 as [|e l1 IH]; intros l2; [reflexivity|].
  destruct e; cbn; rewrite ?IH; reflexivity.
Qed.

Lemma leaves_bar_refl : forall s, leaves_bar s [] s.
Proof. intros s. repeat split. Qed.

Lemma leaves_bar_trans :
  forall a l1 b l2 c,
    leaves_bar a l1 b -> leaves_bar b l2 c -> leaves_bar a (l1 ++ l2) c.
Proof.
  intros a l1 b l2 c (H1 & H2 & H3) (H4 & H5 & H6).
  repeat split; try congruence.
  rewrite closed_bars_app, H3, H6. reflexivity.
Qed.

Lemma leaves_bar_enter : forall ib price, keeps leaves_bar (_enter_short ib price).
Proof.
  intros ib price s. rewrite enter_short_result.
  unfold final, events. cbn [fst snd].
  destruct (is_filled (ib SELL)); repeat split.
Qed.

Lemma leaves_bar_exit : forall ib, keeps leaves_bar (_exit_short ib).
Proof.
  intros ib s. unfold _exit_short. run_m.
  destruct (is_filled (ib BUY)); [|repeat split].
  cbn [fst snd app]. destruct (position_entry_price s); repeat split.
Qed.

Ltac leaves_bar_side :=
  first [ exact leaves_bar_refl | exact leaves_bar_trans | exact I
        | solve [intros; apply leaves_bar_enter]
        | solve [intros; apply leaves_bar_exit]
        | solve [intros; repeat split] ].

Lemma leaves_bar_update_indicators : keeps leaves_bar _update_indicators.
Proof. apply keeps_update_indicators; leaves_bar_side. Qed.

Lemma leaves_bar_check_exit : forall ib, keeps leaves_bar (_check_exit_conditions ib).
Proof.
  intros ib. apply keeps_check_exit with (G := fun _ => True); leaves_bar_side.
Qed.

Lemma leaves_bar_check_entry :
  forall ib price, keeps leaves_bar (_check_entry_conditions ib price).
Proof.
  intros ib price.
  apply keeps_check_entry with (G := fun _ => True); leaves_bar_side.
Qed.

(** Python's [max] and [min] of two floats that are not NaN. *)
Lemma max2_ge_l :
  forall a b, isnan a = false -> isnan b = false -> (max2 a b >=? a)%flt = true.
Proof.
  intros a b Ha Hb. unfold max2, gtb, geb.
  destruct (SFltb a b) eqn:E;
    [apply ltb_leb; exact E | apply leb_refl; exact Ha].
Qed.

Lemma max2_ge_r :
  forall a b, isnan a = false -> isnan b = false -> (max2 a b >=? b)%flt = true.
Proof.
  intros a b Ha Hb. unfold max2, gtb, geb.
  destruct (SFltb a b) eqn:E;
    [apply leb_refl; exact Hb | apply not_ltb_leb; assumption].
Qed.

Lemma min2_le_l :
  forall a b, isnan a = false -> isnan b = false -> (min2 a b <=? a)%flt = true.
Proof.
  intros a b Ha Hb. unfold min2, ltb.
  destruct (SFltb b a) eqn:E;
    [apply ltb_leb; exact E | apply leb_refl; exact Ha].
Qed.

Lemma min2_le_r :
  forall a b, isnan a = false -> isnan b = false -> (min2 a b <=? b)%flt = true.
Proof.
  intros a b Ha Hb. unfold min2, ltb.
  destruct (SFltb b a) eqn:E;
    [apply leb_refl; exact Hb | apply not_ltb_leb; assumption].
Qed.

Lemma max2_nan : forall a b, isnan a = false -> isnan b = false -> isnan (max2 a b) = false.
Proof. intros a b Ha Hb. unfold max2. destruct (b >? a)%flt; assumption. Qed.

Lemma min2_nan : forall a b, isnan a = false -> isnan b = false -> isnan (min2 a b) = false.
Proof. intros a b Ha Hb. unfold min2. destruct (b <? a)%flt; assumption. Qed.

(** A tick of the bucket of the bar in progress. *)
Lemma aggregate_same_bucket :
  forall ib bar_start price s h l,
    differs (bar_start_time s) bar_start = false ->
    cur_high (current_bar s) = Some h ->
    cur_low (current_bar s) = Some l ->
    aggregate_tick ib bar_start price s
    = (Done tt,
       set_current_bar
         (mkCurrentBar (cur_open (current_bar s)) (Some (max2 h price))
            (Some (min2 l price)) (Some price) (cur_volume (current_bar s))) s,
       []).
Proof.
  intros ib bar_start price s h l Hd Hh Hl.
  unfold aggregate_tick. run_m. rewrite Hd, Hh, Hl. reflexivity.
Qed.

(** A tick of another bucket, once the bar in progress (if any) is closed. *)
Lemma aggregate_new_bucket :
  forall ib bar_start price s,
    differs (bar_start_time s) bar_start = true ->
    outcome (aggregate_tick ib bar_start price s) = Done tt ->
    current_bar (final (aggregate_tick ib bar_start price s))
    = mkCurrentBar (Some price) (Some price) (Some price) (Some price) zero /\
    bar_start_time (final (aggregate_tick ib bar_start price s)) = Some bar_start.
Proof.
  intros ib bar_start price s Hd. unfold aggregate_tick. run_m. rewrite Hd.
  destruct (match bar_start_time s with
            | Some _ => match cur_open (current_bar s) with
                        | Some _ => _close_bar ib
                        | None => fun s0 => (Done tt, s0, [])
                        end
            | None => fun s0 => (Done tt, s0, [])
            end s) as [[[[]|e] s1] l1]; cbn [fst snd].
  - intros _. split; reflexivity.
  - discriminate.
Qed.

Section BarInvariant.

Variable P : CurrentBar -> Prop.
Variable Q : Bar -> Prop.

Hypothesis P_new :
  forall p, isnan p = false ->
    P (mkCurrentBar (Some p) (Some p) (Some p) (Some p) zero).
Hypothesis P_update :
  forall b h l p,
    isnan p = false -> P b -> cur_high b = Some h -> cur_low b = Some l ->
    P (mkCurrentBar (cur_open b) (Some (max2 h p)) (Some (min2 l p))
         (Some p) (cur_volume b)).
Hypothesis P_partial :
  forall b h p,
    P b -> cur_high b = Some h -> cur_low b = None ->
    P (set_cur_high (Some (max2 h p)) b).
Hypothesis Q_close :
  forall b t o h l c,
    P b -> cur_open b = Some o -> cur_high b = Some h ->
    cur_low b = Some l -> cur_close b = Some c ->
    Q (mkBar t o h l c (cur_volume b)).

Lemma bars_inv_refl : forall s, bars_inv P Q s [] s.
Proof. intros s H. split; [exact H | constructor]. Qed.

Lemma bars_inv_trans :
  forall a l1 b l2 c,
    bars_inv P Q a l1 b -> bars_inv P Q b l2 c -> bars_inv P Q a (l1 ++ l2) c.
Proof.
  intros a l1 b l2 c H1 H2 Ha.
  destruct (H1 Ha) as [Hb F1]. destruct (H2 Hb) as [Hc F2].
  split; [exact Hc|]. rewrite closed_bars_app. apply Forall_app.
  split; assumption.
Qed.

Lemma leaves_bar_inv :
  forall s l s', leaves_bar s l s' -> bars_inv P Q s l s'.
Proof.
  intros s l s' (H1 & _ & H3) Hs. rewrite H1, H3.
  split; [exact Hs | constructor].
Qed.

Lemma keeps_leaves_inv :
  forall A (m : M A), keeps leaves_bar m -> keeps (bars_inv P Q) m.
Proof. intros A m H s. apply leaves_bar_inv. apply H. Qed.

Lemma close_bar_inv : forall ib, keeps (bars_inv P Q) (_close_bar ib).
Proof.
  intros ib. unfold _close_bar.
  apply keeps_get_bind. intros s.
  destruct (cur_open (current_bar s)) as [o|] eqn:Ho;
    [|apply keeps_ret; apply bars_inv_refl].
  destruct (cur_high (current_bar s)) as [h|] eqn:Hh;
    [|apply keeps_raise; apply bars_inv_refl].
  destruct (cur_low (current_bar s)) as [l|] eqn:Hl;
    [|apply keeps_raise; apply bars_inv_refl].
  destruct (cur_close (current_bar s)) as [c|] eqn:Hc;
    [|apply keeps_raise; apply bars_inv_refl].
  intros Hs.
  pose proof (Q_close (bar_start_time s) Hs Ho Hh Hl Hc) as Hbar.
  match goal with
  | |- _ /\ Forall _ (closed_bars (events (?m s))) =>
    assert (K : keeps (bars_inv P Q) m); [|exact (K s Hs)]
  end.
  apply keeps_bind; try apply bars_inv_trans.
  { apply keeps_modify. intros t Ht. split; [exact Ht | constructor]. }
  intros _. apply keeps_bind; try apply bars_inv_trans.
  { apply keeps_emit. intros t Ht. split; [exact Ht|].
    cbn. constructor; [exact Hbar | constructor]. }
  intros _. apply keeps_leaves_inv.
  apply keeps_get_bind. intros t.
  apply keeps_bind; try apply leaves_bar_trans.
  { destruct (max_bars <? _)%nat;
      [apply keeps_modify; intros; repeat split
      | apply keeps_ret; apply leaves_bar_refl]. }
  intros _. apply keeps_bind; try apply leaves_bar_trans.
  { apply leaves_bar_update_indicators. }
  intros _. apply leaves_bar_check_exit.
Qed.

Lemma aggregate_inv :
  forall ib bar_start price,
    isnan price = false ->
    keeps (bars_inv P Q) (aggregate_tick ib bar_start price).
Proof.
  intros ib bar_start price Hp. unfold aggregate_tick.
  apply keeps_get_bind. intros s.
  destruct (differs (bar_start_time s) bar_start) eqn:Hd.
  - match goal with
    | |- bars_inv P Q s (events (?m s)) _ =>
      assert (K : keeps (bars_inv P Q) m); [|exact (K s)]
    end.
    apply keeps_bind; try apply bars_inv_trans.
    { destruct (bar_start_time s); [|apply keeps_ret; apply bars_inv_refl].
      destruct (cur_open (current_bar s));
        [apply close_bar_inv | apply keeps_ret; apply bars_inv_refl]. }
    intros _. apply keeps_bind; try apply bars_inv_trans.
    { apply keeps_modify. intros t Ht. split; [exact Ht | constructor]. }
    intros _. apply keeps_bind; try apply bars_inv_trans.
    { apply keeps_modify. intros t Ht. split; [|constructor].
      apply P_new. exact Hp. }
    intros _. apply keeps_emit. intros t Ht. split; [exact Ht | constructor].
  - intros Hs. run_m.
    destruct (cur_high (current_bar s)) as [h|] eqn:Hh;
      [|cbn; split; [exact Hs | constructor]].
    cbn [fst snd app set_current_bar set_cur_high current_bar cur_low].
    destruct (cur_low (current_bar s)) as [l|] eqn:Hl.
    + cbn. split; [|constructor].
      exact (@P_update (current_bar s) h l price Hp Hs Hh Hl).
    + cbn. split; [|constructor].
      exact (@P_partial (current_bar s) h price Hs Hh Hl).
Qed.

Lemma on_tick_inv :
  forall ib now last, keeps (bars_inv P Q) (_on_tick ib now last).
Proof.
  intros ib now last. unfold _on_tick.
  destruct last as [price|]; [|apply keeps_ret; apply bars_inv_refl].
  destruct (isnan price) eqn:Hp; [apply keeps_ret; apply bars_inv_refl|].
  apply keeps_bind; try apply bars_inv_trans.
  { apply aggregate_inv. exact Hp. }
  intros _. apply keeps_leaves_inv.
  apply keeps_bind; try apply leaves_bar_trans.
  { apply keeps_modify. intros; repeat split. }
  intros _. apply leaves_bar_check_entry.
Qed.

Lemma handle_inv : forall c, keeps (bars_inv P Q) (handle c).
Proof.
  intros [bars | ib now last]; cbn [handle].
  - apply keeps_leaves_inv.
    apply keeps_load_historical_data; leaves_bar_side.
  - apply on_tick_inv.
Qed.

Lemma run_inv :
  forall calls s, bars_inv P Q s (snd (run calls s)) (fst (run calls s)).
Proof.
  induction calls as [|c rest IH]; intros s; cbn [run fst snd].
  - apply bars_inv_refl.
  - pose proof (handle_inv c s) as H1. unfold events, final in H1.
    destruct (handle c s) as [[r s1] l1]. cbn [fst snd] in H1.
    specialize (IH s1). destruct (run rest s1) as [s2 l2]. cbn [fst snd] in *.
    eapply bars_inv_trans; eassumption.
Qed.

End BarInvariant.

Lemma ohlc_same_price :
  forall p, isnan p = false -> ohlc_ordered p p p p.
Proof.
  intros p Hp. pose proof (leb_refl p Hp) as H.
  unfold ohlc_ordered, geb. repeat split; exact H.
Qed.

Lemma ohlc_update :
  forall o h l c p,
    isnan p = false -> ohlc_ordered o h l c ->
    ohlc_ordered o (max2 h p) (min2 l p) p.
Proof.
  intros o h l c p Hp (Hlo & Hlc & Hho & Hhc). unfold geb in *.
  pose proof (leb_nan_l _ _ Hlo) as Nl. pose proof (leb_nan_r _ _ Hho) as Nh.
  unfold ohlc_ordered, geb. repeat split.
  - apply leb_trans with l; [apply min2_le_l; assumption | exact Hlo].
  - apply min2_le_r; assumption.
  - apply leb_trans with h; [exact Hho | apply max2_ge_l; assumption].
  - apply max2_ge_r; assumption.
Qed.

Lemma run_in_order :
  forall calls s,
    bars_inv current_bar_ok bar_ok s (snd (run calls s)) (fst (run calls s)).
Proof.
  apply run_inv.
  - intros p Hp. unfold current_bar_ok. cbn. apply ohlc_same_price. exact Hp.
  - intros b h l p Hp Hb Hh Hl. unfold current_bar_ok in *. cbn.
    destruct (cur_open b) as [o|]; [|exact I]. rewrite Hh, Hl in Hb.
    destruct (cur_close b) as [c|]; [|contradiction].
    apply ohlc_update with c; assumption.
  - intros b h p Hb Hh Hl. unfold current_bar_ok in *. cbn.
    destruct (cur_open b) as [o|]; [|exact I]. rewrite Hh, Hl in Hb.
    contradiction.
  - intros b t o h l c Hb Ho Hh Hl Hc. unfold current_bar_ok in Hb.
    rewrite Ho, Hh, Hl, Hc in Hb. exact Hb.
Qed.

(** C6.  (1) Whatever handlers run after construction, every bar the
    aggregator closes has [low <= open], [low <= close], [high >= open] and
    [high >= close].  (2) A tick of a new bucket leaves a bar in progress
    whose open, high, low and close are the tick's price.  (3) A tick of the
    bucket of the bar in progress sets high to [max(high, price)], low to
    [min(low, price)] and close to the price, and leaves open as it was. *)
Theorem C6_closed_bars_in_order :
  (forall calls : list Call,
     Forall bar_ok (closed_bars (snd (run calls __init__)))) /\
  (forall ib bar_start price s,
     differs (bar_start_time s) bar_start = true ->
     outcome (aggregate_tick ib bar_start price s) = Done tt ->
     current_bar (final (aggregate_tick ib bar_start price s))
     = mkCurrentBar (Some price) (Some price) (Some price) (Some price) zero) /\
  (forall ib bar_start price s h l,
     differs (bar_start_time s) bar_start = false ->
     cur_high (current_bar s) = Some h ->
     cur_low (current_bar s) = Some l ->
     current_bar (final (aggregate_tick ib bar_start price s))
     = mkCurrentBar (cur_open (current_bar s)) (Some (max2 h price))
         (Some (min2 l price)) (Some price) (cur_volume (current_bar s))).
Proof.
  split; [|split].
  - intros calls. apply (run_in_order calls __init__). exact I.
  - intros ib bar_start price s Hd Ho.
    apply (aggregate_new_bucket ib bar_start price s Hd Ho).
  - intros ib bar_start price s h l Hd Hh Hl.
    rewrite (aggregate_same_bucket ib bar_start price s Hd Hh Hl). reflexivity.
Qed.

(** C9 as stated fails: the tick at 105 falls in the bucket of the bar in
    progress and moves its high, yet the volume entry is what it was; and the
    bar closed after two ticks carries the same volume, zero, as the bar
    closed after a single tick. *)
Lemma C9_counterexample :
  let s1 := fst (run [Tick cancels at_10_02 (Some (of_Z 100))] __init__) in
  let s2 := final (_on_tick cancels at_10_04 (Some (of_Z 105)) s1) in
  differs (bar_start_time s1) (_get_bar_start_time at_10_04) = false /\
  cur_high (current_bar s1) = Some (of_Z 100) /\
  cur_high (current_bar s2) = Some (of_Z 105) /\
  ~ cur_volume (current_bar s2) <> cur_volume (current_bar s1) /\
  map bar_volume (closed_bars (snd (run two_ticks_then_close __init__))) = [zero] /\
  map bar_volume (closed_bars (snd (run one_tick_then_close __init__))) = [zero].
Proof.
  vm_compute. repeat split; try reflexivity. intros H. apply H. reflexivity.
Qed.

Lemma run_volume_zero :
  forall calls s,
    bars_inv (fun b => cur_volume b = zero) (fun b => bar_volume b = zero)
      s (snd (run calls s)) (fst (run calls s)).
Proof.
  apply run_inv.
  - intros p Hp. reflexivity.
  - intros b h l p Hp Hb Hh Hl. exact Hb.
  - intros b h p Hb Hh Hl. exact Hb.
  - intros b t o h l c Hb Ho Hh Hl Hc. exact Hb.
Qed.

Lemma aggregate_same_bucket_volume :
  forall ib bar_start price s,
    differs (bar_start_time s) bar_start = false ->
    cur_volume (current_bar (final (aggregate_tick ib bar_start price s)))
    = cur_volume (current_bar s).
Proof.
  intros ib bar_start price s Hd. unfold aggregate_tick. run_m. rewrite Hd.
  destruct (cur_high (current_bar s)); [|reflexivity].
  cbn [fst snd app set_current_bar set_cur_high current_bar cur_low].
  destruct (cur_low (current_bar s)); reflexivity.
Qed.

(** C9, amended.  The volume entry of the bar in progress is set to zero
    when the bar is opened and no tick changes it: (1) a tick of the bucket
    of the bar in progress leaves the volume as it was (while it updates
    high, low and close, see C6); (2) a tick of a new bucket opens a bar of
    volume zero; (3) whatever handlers run after construction, every bar the
    aggregator closes has volume zero. *)
Theorem C9_volume_never_aggregated :
  (forall ib bar_start price s,
     differs (bar_start_time s) bar_start = false ->
     cur_volume (current_bar (final (aggregate_tick ib bar_start price s)))
     = cur_volume (current_bar s)) /\
  (forall ib bar_start price s,
     differs (bar_start_time s) bar_start = true ->
     outcome (aggregate_tick ib bar_start price s) = Done tt ->
     cur_volume (current_bar (final (aggregate_tick ib bar_start price s)))
     = zero) /\
  (forall calls : list Call,
     Forall (fun b => bar_volume b = zero)
       (closed_bars (snd (run calls __init__)))).
Proof.
  split; [|split].
  - apply aggregate_same_bucket_volume.
  - intros ib bar_start price s Hd Ho.
    destruct (aggregate_new_bucket ib bar_start price s Hd Ho) as [H _].
    rewrite H. reflexivity.
  - intros calls. apply (run_volume_zero calls __init__). reflexivity.
Qed.

(* ================================================================== *)
(** * Ticks without a price *)
(* ================================================================== *)

(** C7 as stated fails for an infinite price: the guard of [_on_tick] tests
    [None] and NaN only, so a tick at [+inf] opens a bar. *)
Lemma C7_counterexample :
  is_finite (S754_infinity false) = false /\
  ~ final (_on_tick cancels at_10_02 (Some (S754_infinity false)) __init__)
    = __init__.
Proof.
  split; [reflexivity|]. vm_compute. discriminate.
Qed.

Lemma isnan_true : forall p, isnan p = true -> p = nan.
Proof. intros [| | |] H; cbn in H; try discriminate H. reflexivity. Qed.

(** C7, amended.  A tick whose price is missing ([None]) or NaN changes
    nothing and emits nothing: the handler returns the object as it was,
    with no event.  Every other price, the infinities included, is
    aggregated: on an object that has no bar in progress it opens a bar at
    that price. *)
Theorem C7_missing_or_nan_tick_dropped :
  (forall ib now s, _on_tick ib now None s = (Done tt, s, [])) /\
  (forall ib now s p,
     isnan p = true -> _on_tick ib now (Some p) s = (Done tt, s, [])) /\
  (forall ib now s p,
     isnan p = false -> bar_start_time s = None ->
     current_bar (final (_on_tick ib now (Some p) s))
     = mkCurrentBar (Some p) (Some p) (Some p) (Some p) zero).
Proof.
  split; [|split].
  - reflexivity.
  - intros ib now s p Hp. unfold _on_tick. rewrite Hp. reflexivity.
  - intros ib now s p Hp Hs. unfold _on_tick. rewrite Hp.
    unfold aggregate_tick. run_m. rewrite Hs. cbn [differs fst snd app].
    pose proof (leaves_bar_check_entry ib p
      (set_last_price (Some p)
         (set_current_bar (mkCurrentBar (Some p) (Some p) (Some p) (Some p) zero)
            (set_bar_start_time (Some (_get_bar_start_time now)) s)))) as K.
    unfold leaves_bar, final, events in K.
    destruct (_check_entry_conditions ib p _) as [[r s2] l2].
    cbn [fst snd] in *. destruct K as [K _]. exact K.
Qed.

(* ================================================================== *)
(** * The crossover tracker *)
(* ================================================================== *)

(** C8 as stated fails while the bot is short.  After the warm-up the moving
    average is 164.5; a tick at 170 initialises the tracker, a tick at 160
    crosses down and the entry is filled.  The next tick, at 170, is above
    the moving average, but the tracker still says "not above". *)
Lemma C8_counterexample :
  let s := short_after_crossing in
  let s' := final (_on_tick (fills_at (of_Z 160)) at_10_04 (Some (of_Z 170)) s) in
  price_was_above_ma s = Some false /\
  in_position s = true /\
  current_ma70 s' = Some (of_ratio 329 2) /\
  (of_Z 170 >? of_ratio 329 2)%flt = true /\
  price_was_above_ma s' <> Some (of_Z 170 >? of_ratio 329 2)%flt.
Proof.
  vm_compute. repeat split; try reflexivity. discriminate.
Qed.

Lemma check_entry_noop :
  forall ib price s,
    in_position s = true \/ current_ma70 s = None \/ current_tsi s = None ->
    _check_entry_conditions ib price s = (Done tt, s, []).
Proof.
  intros ib price s H. unfold _check_entry_conditions. run_m.
  destruct (in_position s); [reflexivity|].
  destruct H as [H | [H | H]]; [discriminate | rewrite H; reflexivity|].
  rewrite H. destruct (current_ma70 s); reflexivity.
Qed.

Lemma check_entry_tracker :
  forall ib price s ma tsi,
    in_position s = false ->
    current_ma70 s = Some ma -> current_tsi s = Some tsi ->
    price_was_above_ma (final (_check_entry_conditions ib price s))
    = Some (price >? ma)%flt.
Proof.
  intros ib price s ma tsi Hpos Hma Htsi.
  unfold _check_entry_conditions. run_m. rewrite Hpos, Hma, Htsi.
  destruct (price_was_above_ma s) as [was|]; [|reflexivity].
  cbn [fst snd app].
  destruct (was && negb (price >? ma)%flt); [|reflexivity].
  cbn [fst snd app set_price_was_above_ma ma70_slope].
  destruct (ma70_slope s) as [slope|]; [|reflexivity].
  destruct ((slope <? zero)%flt && (tsi <? TSI_THRESHOLD)%flt); [|reflexivity].
  rewrite enter_short_result. cbn [fst snd].
  destruct (is_filled (ib SELL)); reflexivity.
Qed.

Lemma same_reference_check_entry :
  forall ib price, keeps same_reference (_check_entry_conditions ib price).
Proof.
  intros ib price.
  apply keeps_check_entry with (G := fun _ => True);
    first [ exact I
          | solve [intros; repeat split]
          | intros a l1 b l2 c (H1 & H2 & H3 & H4) (H5 & H6 & H7 & H8);
            repeat split; congruence
          | intros ib' price' _ t _; rewrite enter_short_result;
            unfold final; cbn [fst snd];
            destruct (is_filled (ib' SELL)); repeat split ].
Qed.

(** A tick handler that returns normally has run the entry check. *)
Lemma on_tick_reaches_check :
  forall ib now p s,
    isnan p = false ->
    outcome (_on_tick ib now (Some p) s) = Done tt ->
    exists s1,
      final (_on_tick ib now (Some p) s)
      = final (_check_entry_conditions ib p s1).
Proof.
  intros ib now p s Hp. unfold _on_tick. rewrite Hp. run_m.
  destruct (aggregate_tick ib (_get_bar_start_time now) p s) as [[[[]|e] s1] l1];
    cbn [fst snd].
  - intros _. exists (set_last_price (Some p) s1).
    destruct (_check_entry_conditions ib p (set_last_price (Some p) s1))
      as [[r s2] l2]. reflexivity.
  - discriminate.
Qed.

Lemma short_keeps_tracker_on_tick :
  forall ib now last,
    is_filled (ib BUY) = false ->
    keeps short_keeps_tracker (_on_tick ib now last).
Proof.
  intros ib now last Hb.
  assert (Hrefl : forall s, short_keeps_tracker s [] s).
  { intros s H. split; [exact H | reflexivity]. }
  assert (Htrans : forall a l1 b l2 c,
             short_keeps_tracker a l1 b -> short_keeps_tracker b l2 c ->
             short_keeps_tracker a (l1 ++ l2) c).
  { intros a l1 b l2 c H1 H2 Ha. destruct (H1 Ha) as [Hb1 Hb2].
    destruct (H2 Hb1) as [Hc1 Hc2]. split; congruence. }
  unfold _on_tick.
  destruct last as [price|]; [|apply keeps_ret; apply Hrefl].
  destruct (isnan price); [apply keeps_ret; apply Hrefl|].
  apply keeps_bind; [exact Htrans | |].
  { apply keeps_aggregate_tick with (G := fun g => g = ib);
      first [ reflexivity | exact Hrefl | exact Htrans
            | solve [intros; intros H; split; [exact H | reflexivity]]
            | intros ib' Hib' t _; subst ib';
              rewrite (exit_short_not_filled ib t Hb); apply Hrefl ]. }
  intros _. apply keeps_bind; [exact Htrans | |].
  { apply keeps_modify. intros t H. split; [exact H | reflexivity]. }
  intros _ t Ht.
  rewrite (check_entry_noop ib price t (or_introl Ht)).
  split; [exact Ht | reflexivity].
Qed.

(** C8, amended.  The tracker is unset at construction and is written only
    by the entry check of a tick handled while the bot is flat and both the
    moving average and the oscillator are available.  (1) After construction
    it is unset.  (2) Such an entry check sets it to whether the tick's
    price is strictly above the moving average, whatever the signal outcome.
    (3) While the bot is short, or the moving average or the oscillator is
    missing, the entry check changes nothing.  (4) A tick handler that
    returns normally and leaves the bot flat with both values available has
    set the tracker from its price.  (5) A tick handled while short, with no
    filled exit, leaves the tracker as it was. *)
Theorem C8_tracker_written_only_when_flat :
  price_was_above_ma __init__ = None /\
  (forall ib price s ma tsi,
     in_position s = false ->
     current_ma70 s = Some ma -> current_tsi s = Some tsi ->
     price_was_above_ma (final (_check_entry_conditions ib price s))
     = Some (price >? ma)%flt) /\
  (forall ib price s,
     in_position s = true \/ current_ma70 s = None \/ current_tsi s = None ->
     _check_entry_conditions ib price s = (Done tt, s, [])) /\
  (forall ib now price s ma tsi,
     isnan price = false ->
     outcome (_on_tick ib now (Some price) s) = Done tt ->
     in_position (final (_on_tick ib now (Some price) s)) = false ->
     current_ma70 (final (_on_tick ib now (Some price) s)) = Some ma ->
     current_tsi (final (_on_tick ib now (Some price) s)) = Some tsi ->
     price_was_above_ma (final (_on_tick ib now (Some price) s))
     = Some (price >? ma)%flt) /\
  (forall ib now last s,
     in_position s = true ->
     status (ib BUY) <> "Filled"%string ->
     price_was_above_ma (final (_on_tick ib now last s))
     = price_was_above_ma s).
Proof.
  split; [reflexivity|]. split; [exact check_entry_tracker|].
  split; [exact check_entry_noop|]. split.
  - intros ib now price s ma tsi Hp Hdone.
    destruct (on_tick_reaches_check ib now price s Hp Hdone) as [s1 E].
    rewrite E. intros Hflat Hma Htsi.
    destruct (same_reference_check_entry ib price s1) as (Rma & Rtsi & _ & _).
    rewrite Hma in Rma. rewrite Htsi in Rtsi.
    destruct (in_position s1) eqn:Hpos.
    + rewrite (check_entry_noop ib price s1 (or_introl Hpos)) in Hflat.
      unfold final in Hflat. cbn in Hflat. congruence.
    + apply check_entry_tracker with tsi; congruence.
  - intros ib now last s Hpos Hbuy.
    apply (short_keeps_tracker_on_tick ib now last (not_filled _ Hbuy) s Hpos).
Qed.

(* ================================================================== *)
(** * The trend-reversal stop *)
(* ================================================================== *)

Lemma ltb_nan_l : forall a b, (a <? b)%flt = true -> isnan a = false.
Proof. intros a b H. apply (leb_nan_l a b). apply ltb_leb. exact H. Qed.

Lemma ltb_nan_r : forall a b, (a <? b)%flt = true -> isnan b = false.
Proof. intros a b H. apply (leb_nan_r a b). apply ltb_leb. exact H. Qed.

Lemma ltb_trans :
  forall a b c, (a <? b)%flt = true -> (b <? c)%flt = true -> (a <? c)%flt = true.
Proof.
  intros a b c H1 H2. destruct (a <? c)%flt eqn:E; [reflexivity|].
  pose proof (not_ltb_leb a c (ltb_nan_l _ _ H1) (ltb_nan_r _ _ H2) E) as H3.
  pose proof (leb_trans c a b H3 (ltb_leb a b H1)) as H4.
  rewrite (leb_not_ltb c b H4) in H2. discriminate.
Qed.

(** [min(x, a, b)] caps [x] by the smaller of [a] and [b]. *)
Lemma min3_capped :
  forall x a b,
    isnan a = false -> isnan b = false ->
    min3 x a b = capped x (if (b <? a)%flt then b else a).
Proof.
  intros x a b Ha Hb. unfold min3, min2, capped.
  destruct (a <? x)%flt eqn:Eax.
  - destruct (b <? a)%flt eqn:Eba.
    + rewrite (ltb_trans b a x Eba Eax). reflexivity.
    + rewrite Eax. reflexivity.
  - destruct (b <? a)%flt eqn:Eba; [reflexivity|].
    rewrite Eax. destruct (b <? x)%flt eqn:Ebx; [|reflexivity].
    exfalso.
    pose proof (not_ltb_leb b a Hb Ha Eba) as Hab.
    pose proof (not_ltb_leb a x Ha (ltb_nan_r _ _ Ebx) Eax) as Hxa.
    pose proof (leb_trans x a b Hxa Hab) as Hxb.
    rewrite (leb_not_ltb x b Hxb) in Ebx. discriminate.
Qed.

Lemma min3_same : forall x a, min3 x a a = capped x a.
Proof.
  intros x a. unfold min3, min2, capped.
  destruct (a <? x)%flt eqn:E; [rewrite ltb_irrefl | rewrite E]; reflexivity.
Qed.

(** [max(x, a, b)] floors [x] by the larger of [a] and [b]. *)
Lemma max3_floored :
  forall x a b,
    isnan a = false -> isnan b = false ->
    max3 x a b = floored x (if (b >? a)%flt then b else a).
Proof.
  intros x a b Ha Hb. unfold max3, max2, floored, gtb.
  fold (ltb x a). fold (ltb a b).
  destruct (x <? a)%flt eqn:Exa.
  - fold (ltb a b). destruct (a <? b)%flt eqn:Eab.
    + fold (ltb x b). rewrite (ltb_trans x a b Exa Eab). reflexivity.
    + fold (ltb x a). rewrite Exa. reflexivity.
  - fold (ltb x b). destruct (a <? b)%flt eqn:Eab; [reflexivity|].
    fold (ltb x a). rewrite Exa.
    destruct (x <? b)%flt eqn:Exb; [|reflexivity].
    exfalso.
    pose proof (not_ltb_leb a b Ha Hb Eab) as Hba.
    pose proof (not_ltb_leb x a (ltb_nan_l _ _ Exb) Ha Exa) as Hax.
    pose proof (leb_trans b a x Hba Hax) as Hbx.
    rewrite (leb_not_ltb b x Hbx) in Exb. discriminate.
Qed.

Lemma max3_same : forall x a, max3 x a a = floored x a.
Proof.
  intros x a. unfold max3, max2, floored, gtb. fold (ltb x a).
  destruct (x <? a)%flt eqn:E.
  - fold (ltb a a). rewrite ltb_irrefl. reflexivity.
  - fold (ltb x a). rewrite E. reflexivity.
Qed.

Lemma iloc_some :
  forall (s : list float) i,
    (i < length s)%nat -> exists x, pd.iloc s i = Some x /\ In x s.
Proof.
  intros s i H. unfold pd.iloc.
  destruct (nth_error s i) as [x|] eqn:E.
  - exists x. split; [reflexivity | eapply nth_error_In; exact E].
  - apply nth_error_None in E. lia.
Qed.

Lemma iloc_last_entry :
  forall (s : list float) i,
    length s = S i -> pd.iloc s i = Some (List.last s nan).
Proof.
  intros s i H. destruct (@exists_last _ s) as [s' [x E]].
  { intros C. subst. discriminate. }
  subst s. rewrite last_last. rewrite length_app in H. cbn in H.
  unfold pd.iloc. rewrite nth_error_app2 by lia.
  replace (i - length s')%nat with O by lia. reflexivity.
Qed.

Lemma state_of_snoc :
  forall a u e s x,
    state_of {| af := a; uptrend := u; ep := e; sar := s ++ [x] |}
    = {| regime := if u then Uptrend else Downtrend; stop := x;
         accel := a; extreme := e |}.
Proof. intros. unfold state_of. cbn. rewrite last_last. reflexivity. Qed.

Lemma lowest_before_code :
  forall low i,
    (1 <= i)%nat -> (i < length low)%nat -> no_nan low ->
    exists l1 l2 cap,
      pd.iloc low (i - 1) = Some l1 /\
      (if (2 <=? i)%nat then pd.iloc low (i - 2) else pd.iloc low (i - 1)) = Some l2 /\
      lowest_before low i = Some cap /\
      forall x, min3 x l1 l2 = capped x cap.
Proof.
  intros low i H1 Hi Hn.
  destruct i as [|[|j]]; [lia | |].
  - destruct (@iloc_some low O) as [l0 [E0 _]]; [lia|].
    exists l0, l0, l0. cbn [Nat.leb Nat.sub lowest_before]. rewrite E0.
    repeat split. intros x. apply min3_same.
  - destruct (@iloc_some low (S j)) as [l1 [E1 I1]]; [lia|].
    destruct (@iloc_some low j) as [l2 [E2 I2]]; [lia|].
    exists l1, l2, (if (l2 <? l1)%flt then l2 else l1).
    replace (S (S j) - 1)%nat with (S j) by lia.
    replace (S (S j) - 2)%nat with j by lia.
    cbn [Nat.leb lowest_before]. rewrite E1, E2. repeat split.
    intros x. apply min3_capped; apply Hn; assumption.
Qed.

Lemma highest_before_code :
  forall high i,
    (1 <= i)%nat -> (i < length high)%nat -> no_nan high ->
    exists h1 h2 floor,
      pd.iloc high (i - 1) = Some h1 /\
      (if (2 <=? i)%nat then pd.iloc high (i - 2) else pd.iloc high (i - 1)) = Some h2 /\
      highest_before high i = Some floor /\
      forall x, max3 x h1 h2 = floored x floor.
Proof.
  intros high i H1 Hi Hn.
  destruct i as [|[|j]]; [lia | |].
  - destruct (@iloc_some high O) as [h0 [E0 _]]; [lia|].
    exists h0, h0, h0. cbn [Nat.leb Nat.sub highest_before]. rewrite E0.
    repeat split. intros x. apply max3_same.
  - destruct (@iloc_some high (S j)) as [h1 [E1 I1]]; [lia|].
    destruct (@iloc_some high j) as [h2 [E2 I2]]; [lia|].
    exists h1, h2, (if (h2 >? h1)%flt then h2 else h1).
    replace (S (S j) - 1)%nat with (S j) by lia.
    replace (S (S j) - 2)%nat with j by lia.
    cbn [Nat.leb highest_before]. rewrite E1, E2. repeat split.
    intros x. apply max3_floored; apply Hn; assumption.
Qed.

(** One iteration of the loop is one step of the recurrence. *)
Lemma sar_body_step :
  forall high low af_start af_max i v,
    length high = length low -> no_nan high -> no_nan low ->
    (1 <= i)%nat -> (i < length high)%nat -> length (sar v) = i ->
    exists v',
      sar_body high low af_start af_max i v = Some v' /\
      length (sar v') = S i /\
      (exists x, sar v' = sar v ++ [x]) /\
      stop_step high low af_start af_max i (state_of v) (state_of v').
Proof.
  intros high low af_start af_max i v Hlen Nh Nl H1 Hi Hs.
  assert (Hprev : pd.iloc (sar v) (i - 1) = Some (List.last (sar v) nan)).
  { apply iloc_last_entry. lia. }
  destruct (@lowest_before_code low i H1 ltac:(lia) Nl)
    as (l1 & l2 & cap & El1 & El2 & Ecap & Hmin).
  destruct (@highest_before_code high i H1 Hi Nh)
    as (h1 & h2 & flo & Eh1 & Eh2 & Eflo & Hmax).
  destruct (@iloc_some low i) as [low_i [Elow _]]; [lia|].
  destruct (@iloc_some high i) as [high_i [Ehigh _]]; [lia|].
  unfold sar_body. rewrite Hprev.
  assert (Hproj : (List.last (sar v) nan
                   + af v * (ep v - List.last (sar v) nan))%flt
                  = projected (state_of v)) by reflexivity.
  rewrite Hproj.
  destruct (uptrend v) eqn:Hup.
  - rewrite El2, El1, Elow, Hmin.
    destruct (low_i <? capped (projected (state_of v)) cap)%flt eqn:Eflip.
    + eexists. split; [reflexivity|]. cbn [sar]. rewrite length_app. cbn.
      split; [lia|]. split; [eexists; reflexivity|].
      rewrite state_of_snoc.
      apply up_flip with (cap := cap); try assumption.
      unfold state_of. cbn. rewrite Hup. reflexivity.
    + rewrite Ehigh. destruct (high_i >? ep v)%flt eqn:Enew.
      * eexists. split; [reflexivity|]. cbn [sar]. rewrite length_app. cbn.
        split; [lia|]. split; [eexists; reflexivity|].
        rewrite state_of_snoc.
        apply up_new_extreme with (low_i := low_i); try assumption.
        unfold state_of. cbn. rewrite Hup. reflexivity.
      * eexists. split; [reflexivity|]. cbn [sar]. rewrite length_app. cbn.
        split; [lia|]. split; [eexists; reflexivity|].
        rewrite state_of_snoc.
        apply up_hold with (low_i := low_i) (high_i := high_i); try assumption.
        unfold state_of. cbn. rewrite Hup. reflexivity.
  - rewrite Eh2, Eh1, Ehigh, Hmax.
    destruct (high_i >? floored (projected (state_of v)) flo)%flt eqn:Eflip.
    + eexists. split; [reflexivity|]. cbn [sar]. rewrite length_app. cbn.
      split; [lia|]. split; [eexists; reflexivity|].
      rewrite state_of_snoc.
      apply down_flip with (floor := flo); try assumption.
      unfold state_of. cbn. rewrite Hup. reflexivity.
    + rewrite Elow. destruct (low_i <? ep v)%flt eqn:Enew.
      * eexists. split; [reflexivity|]. cbn [sar]. rewrite length_app. cbn.
        split; [lia|]. split; [eexists; reflexivity|].
        rewrite state_of_snoc.
        apply down_new_extreme with (high_i := high_i); try assumption.
        unfold state_of. cbn. rewrite Hup. reflexivity.
      * eexists. split; [reflexivity|]. cbn [sar]. rewrite length_app. cbn.
        split; [lia|]. split; [eexists; reflexivity|].
        rewrite state_of_snoc.
        apply down_hold with (high_i := high_i) (low_i := low_i); try assumption.
        unfold state_of. cbn. rewrite Hup. reflexivity.
Qed.

Lemma sar_loop_total :
  forall high low af_start af_max,
    length high = length low -> no_nan high -> no_nan low ->
    forall k, (k < length high)%nat ->
      exists v, sar_loop high low af_start af_max k = Some v /\
                length (sar v) = S k.
Proof.
  intros high low af_start af_max Hlen Nh Nl.
  induction k as [|k IH]; intros Hk.
  - destruct (@iloc_some low O) as [l0 [E0 _]]; [lia|].
    destruct (@iloc_some high O) as [h0 [F0 _]]; [lia|].
    cbn [sar_loop]. unfold sar_init. rewrite E0, F0.
    eexists. split; reflexivity.
  - destruct IH as [v [Ev Lv]]; [lia|].
    destruct (@sar_body_step high low af_start af_max (S k) v Hlen Nh Nl)
      as (v' & Eb & Lv' & _ & _); try lia.
    cbn [sar_loop]. rewrite Ev. exists v'. split; assumption.
Qed.

(** The entries of the series are the stop values of the successive states. *)
Lemma sar_loop_entries :
  forall high low af_start af_max,
    length high = length low -> no_nan high -> no_nan low ->
    forall k v,
      (k < length high)%nat ->
      sar_loop high low af_start af_max k = Some v ->
      forall i, (i <= k)%nat ->
        exists vi, sar_loop high low af_start af_max i = Some vi /\
                   pd.iloc (sar v) i = Some (stop (state_of vi)).
Proof.
  intros high low af_start af_max Hlen Nh Nl.
  induction k as [|k IH]; intros v Hk Ev i Hi.
  - assert (i = O) by lia. subst i. exists v. split; [exact Ev|].
    destruct (@sar_loop_total high low af_start af_max Hlen Nh Nl O Hk)
      as [v0 [E0 L0]].
    rewrite Ev in E0. injection E0 as <-.
    apply iloc_last_entry. exact L0.
  - destruct (@sar_loop_total high low af_start af_max Hlen Nh Nl k) as [u [Eu Lu]];
      [lia|].
    destruct (@sar_body_step high low af_start af_max (S k) u Hlen Nh Nl)
      as (v' & Eb & Lv' & [x Ex] & _); try lia.
    assert (v' = v).
    { cbn [sar_loop] in Ev. rewrite Eu in Ev. congruence. }
    subst v'.
    destruct (Nat.eq_dec i (S k)) as [->|Hne].
    + exists v. split; [exact Ev|]. apply iloc_last_entry. exact Lv'.
    + destruct (IH u ltac:(lia) Eu i ltac:(lia)) as [vi [Evi Ei]].
      exists vi. split; [exact Evi|].
      rewrite Ex. unfold pd.iloc in *. rewrite nth_error_app1; [exact Ei|].
      rewrite Lu. lia.
Qed.

Lemma capped_le :
  forall x c,
    isnan x = false -> isnan c = false ->
    (capped x c <=? c)%flt = true /\ (capped x c <=? x)%flt = true.
Proof.
  intros x c Hx Hc. unfold capped.
  destruct (c <? x)%flt eqn:E.
  - split; [apply leb_refl; exact Hc | apply ltb_leb; exact E].
  - split; [apply not_ltb_leb; assumption | apply leb_refl; exact Hx].
Qed.

Lemma floored_ge :
  forall x c,
    isnan x = false -> isnan c = false ->
    (floored x c >=? c)%flt = true /\ (floored x c >=? x)%flt = true.
Proof.
  intros x c Hx Hc. unfold floored, gtb, geb. fold (ltb x c).
  destruct (x <? c)%flt eqn:E.
  - split; [apply leb_refl; exact Hc | apply ltb_leb; exact E].
  - split; [apply not_ltb_leb; assumption | apply leb_refl; exact Hx].
Qed.

(** C4.  For high and low series of the same positive length without NaN,
    [calculate_parabolic_sar] returns a series of that length whose entry
    [i >= 1] is the stop of the state reached by the recurrence of the
    specification at bar [i]: the projected stop
    [stop + af * (ep - stop)] is capped by the minimum of the prior one or
    two lows in an uptrend (floored by the maximum of the prior one or two
    highs in a downtrend); a low under the capped stop flips to a downtrend
    with the stop at the prior extreme point, the extreme point at that low
    and the acceleration factor back at [af_start] (symmetrically with
    highs); otherwise a new extreme adds [af_start] to the acceleration
    factor, capped at [af_max].  The recurrence starts in an uptrend with the
    stop at the first high and the extreme point at the first low.  A capped
    value is no higher than its cap, a floored one no lower than its floor. *)
Theorem C4_parabolic_sar_steps :
  forall high low af_start af_max,
    high <> [] -> length high = length low -> no_nan high -> no_nan low ->
    exists result,
      calculate_parabolic_sar high low af_start af_max = Some result /\
      length result = length high /\
      (exists v0 high0 low0,
         sar_loop high low af_start af_max 0 = Some v0 /\
         pd.iloc high 0 = Some high0 /\ pd.iloc low 0 = Some low0 /\
         state_of v0 = {| regime := Uptrend; stop := high0;
                          accel := af_start; extreme := low0 |} /\
         pd.iloc result 0 = Some high0) /\
      (forall i, (1 <= i)%nat -> (i < length high)%nat ->
         exists v v',
           sar_loop high low af_start af_max (i - 1) = Some v /\
           sar_loop high low af_start af_max i = Some v' /\
           stop_step high low af_start af_max i (state_of v) (state_of v') /\
           pd.iloc result i = Some (stop (state_of v'))) /\
      (forall x c, isnan x = false -> isnan c = false ->
         (capped x c <=? c)%flt = true /\ (floored x c >=? c)%flt = true).
Proof.
  intros high low af_start af_max Hne Hlen Nh Nl.
  assert (Hpos : (0 < length high)%nat).
  { destruct high; [congruence | cbn; lia]. }
  destruct (@sar_loop_total high low af_start af_max Hlen Nh Nl
              (length high - 1)) as [vn [En Ln]]; [lia|].
  exists (sar vn). unfold calculate_parabolic_sar. rewrite En.
  split; [reflexivity|]. split; [lia|]. split; [|split].
  - destruct (@iloc_some low O) as [l0 [E0 _]]; [lia|].
    destruct (@iloc_some high O) as [h0 [F0 _]]; [lia|].
    eexists. exists h0, l0. cbn [sar_loop]. unfold sar_init. rewrite E0, F0.
    split; [reflexivity|]. split; [reflexivity|]. split; [reflexivity|].
    split; [reflexivity|].
    destruct (@sar_loop_entries high low af_start af_max Hlen Nh Nl
                (length high - 1) vn ltac:(lia) En O ltac:(lia)) as [v0 [Ev0 Ei]].
    cbn [sar_loop] in Ev0. unfold sar_init in Ev0. rewrite E0, F0 in Ev0.
    injection Ev0 as <-. exact Ei.
  - intros i H1 Hi.
    destruct (@sar_loop_total high low af_start af_max Hlen Nh Nl (i - 1))
      as [v [Ev Lv]]; [lia|].
    destruct (@sar_body_step high low af_start af_max i v Hlen Nh Nl)
      as (v' & Eb & Lv' & _ & Hstep); try lia.
    assert (Ev' : sar_loop high low af_start af_max i = Some v').
    { replace i with (S (i - 1)) at 1 by lia. cbn [sar_loop]. rewrite Ev.
      replace (S (i - 1)) with i by lia. exact Eb. }
    exists v, v'. split; [exact Ev|]. split; [exact Ev'|].
    split; [exact Hstep|].
    destruct (@sar_loop_entries high low af_start af_max Hlen Nh Nl
                (length high - 1) vn ltac:(lia) En i ltac:(lia)) as [vi [Evi Ei]].
    rewrite Ev' in Evi. injection Evi as <-. exact Ei.
  - intros x c Hx Hc. split.
    + apply (capped_le x c Hx Hc).
    + apply (floored_ge x c Hx Hc).
Qed.

(* ================================================================== *)
(** * The indicator cache never fails *)
(* ================================================================== *)

Lemma sar_body_some :
  forall high low af_start af_max i v,
    length high = length low ->
    (1 <= i)%nat -> (i < length high)%nat -> length (sar v) = i ->
    exists v', sar_body high low af_start af_max i v = Some v' /\
               length (sar v') = S i.
Proof.
  intros high low af_start af_max i v Hlen H1 Hi Hs.
  destruct (@iloc_some (sar v) (i - 1)%nat) as [p [Ep _]]; [lia|].
  destruct (@iloc_some low (i - 1)%nat) as [l1 [El1 _]]; [lia|].
  destruct (@iloc_some high (i - 1)%nat) as [h1 [Eh1 _]]; [lia|].
  destruct (@iloc_some low i) as [li [Eli _]]; [lia|].
  destruct (@iloc_some high i) as [hi [Ehi _]]; [lia|].
  assert (El2 : exists l2,
             (if (2 <=? i)%nat then pd.iloc low (i - 2) else pd.iloc low (i - 1))
             = Some l2).
  { destruct (2 <=? i)%nat eqn:E; [|eauto].
    apply Nat.leb_le in E.
    destruct (@iloc_some low (i - 2)%nat) as [x [Ex _]]; [lia | eauto]. }
  assert (Eh2 : exists h2,
             (if (2 <=? i)%nat then pd.iloc high (i - 2) else pd.iloc high (i - 1))
             = Some h2).
  { destruct (2 <=? i)%nat eqn:E; [|eauto].
    apply Nat.leb_le in E.
    destruct (@iloc_some high (i - 2)%nat) as [x [Ex _]]; [lia | eauto]. }
  destruct El2 as [l2 El2]. destruct Eh2 as [h2 Eh2].
  unfold sar_body. rewrite Ep.
  destruct (uptrend v).
  - rewrite El2, El1, Eli, Ehi.
    destruct (_ <? _)%flt; [|destruct (_ >? _)%flt];
      eexists; (split; [reflexivity|]); cbn [sar]; rewrite length_app; cbn; lia.
  - rewrite Eh2, Eh1, Ehi, Eli.
    destruct (_ >? _)%flt; [|destruct (_ <? _)%flt];
      eexists; (split; [reflexivity|]); cbn [sar]; rewrite length_app; cbn; lia.
Qed.

Lemma calculate_parabolic_sar_some :
  forall high low af_start af_max,
    high <> [] -> length high = length low ->
    exists result,
      calculate_parabolic_sar high low af_start af_max = Some result /\
      length result = length high.
Proof.
  intros high low af_start af_max Hne Hlen.
  assert (Hpos : (0 < length high)%nat).
  { destruct high; [congruence | cbn; lia]. }
  assert (T : forall k, (k < length high)%nat ->
                exists v, sar_loop high low af_start af_max k = Some v /\
                          length (sar v) = S k).
  { induction k as [|k IH]; intros Hk.
    - destruct (@iloc_some low O) as [l0 [E0 _]]; [lia|].
      destruct (@iloc_some high O) as [h0 [F0 _]]; [lia|].
      cbn [sar_loop]. unfold sar_init. rewrite E0, F0.
      eexists. split; reflexivity.
    - destruct IH as [v [Ev Lv]]; [lia|].
      destruct (@sar_body_some high low af_start af_max (S k) v Hlen)
        as (v' & Eb & Lv'); try lia.
      cbn [sar_loop]. rewrite Ev. exists v'. split; assumption. }
  destruct (T (length high - 1)%nat) as [v [Ev Lv]]; [lia|].
  exists (sar v). unfold calculate_parabolic_sar. rewrite Ev.
  split; [reflexivity | lia].
Qed.

Lemma iloc_last_some :
  forall s : list float, s <> [] -> exists x, pd.iloc_last s = Some x.
Proof. intros [|x r] H; [congruence|]. cbn. eauto. Qed.

Lemma length_diff : forall s, length (pd.diff s) = length s.
Proof.
  intros [|x r]; [reflexivity|]. cbn. f_equal.
  revert x. induction r as [|y r IH]; intros x; [reflexivity|].
  cbn. f_equal. apply IH.
Qed.

Lemma length_ewm_mean : forall span s, length (pd.ewm_mean span s) = length s.
Proof.
  intros span [|x r]; [reflexivity|]. cbn. f_equal.
  generalize (pd.alpha span) as a. intros a.
  revert x. induction r as [|y r IH]; intros x; [reflexivity|].
  cbn. f_equal. apply IH.
Qed.

Lemma length_zip_with :
  forall f s t, length s = length t -> length (pd.zip_with f s t) = length s.
Proof.
  intros f. induction s as [|x s IH]; intros [|y t] H; cbn in *;
    try reflexivity; try discriminate.
  f_equal. apply IH. lia.
Qed.

Lemma length_calculate_tsi :
  forall close fast slow, length (calculate_tsi close fast slow) = length close.
Proof.
  intros close fast slow. unfold calculate_tsi, pd.abs.
  rewrite length_zip_with; rewrite ?length_ewm_mean, ?length_map, ?length_diff;
    reflexivity.
Qed.

Lemma length_rolling_mean :
  forall w s, length (pd.rolling_mean w s) = length s.
Proof.
  intros w s. unfold pd.rolling_mean. rewrite length_map, length_seq. reflexivity.
Qed.

Lemma nonempty_length : forall A (l : list A), (0 < length l)%nat -> l <> [].
Proof. intros A [|x r] H; [cbn in H; lia | congruence]. Qed.

(** [_update_indicators] returns normally: it leaves the object alone below
    [MA_PERIOD] rows and assigns the four current values otherwise. *)
Lemma update_indicators_result :
  forall s,
    exists ma slope tsi psar,
      _update_indicators s
      = (Done tt,
         (if (length (bars_5min s) <? MA_PERIOD)%nat then s
          else set_indicators ma slope tsi psar s),
         []).
Proof.
  intros s. unfold _update_indicators. run_m.
  destruct (length (bars_5min s) <? MA_PERIOD)%nat eqn:E.
  - exists nan, nan, nan, nan. reflexivity.
  - apply Nat.ltb_ge in E. unfold MA_PERIOD in E.
    assert (Hpos : (0 < length (bars_5min s))%nat) by lia.
    destruct (@calculate_parabolic_sar_some (map bar_high (bars_5min s))
                (map bar_low (bars_5min s)) PSAR_AF PSAR_MAX_AF)
      as [psar_series [Ep Lp]].
    { apply nonempty_length. rewrite length_map. exact Hpos. }
    { rewrite !length_map. reflexivity. }
    rewrite Ep.
    destruct (@iloc_last_some (pd.rolling_mean 70 (map bar_close (bars_5min s))))
      as [ma Ema].
    { apply nonempty_length. rewrite length_rolling_mean, length_map. exact Hpos. }
    destruct (@iloc_last_some
                (pd.diff (pd.rolling_mean 70 (map bar_close (bars_5min s)))))
      as [slope Eslope].
    { apply nonempty_length.
      rewrite length_diff, length_rolling_mean, length_map. exact Hpos. }
    destruct (@iloc_last_some
                (calculate_tsi (map bar_close (bars_5min s)) TSI_FAST TSI_SLOW))
      as [tsi Etsi].
    { apply nonempty_length. rewrite length_calculate_tsi, length_map. exact Hpos. }
    destruct (@iloc_last_some psar_series) as [psar Epsar].
    { apply nonempty_length. rewrite Lp, length_map. exact Hpos. }
    exists ma, slope, tsi, psar.
    unfold MA_PERIOD. rewrite Ema, Eslope, Etsi, Epsar. reflexivity.
Qed.

(* ================================================================== *)
(** * Exit signal *)
(* ================================================================== *)

Lemma last_skipn_snoc :
  forall A (l : list A) (x : A) n,
    (n <= length l)%nat -> List.last (skipn n (l ++ [x])) x = x.
Proof.
  intros A l x. induction l as [|y l IH]; intros n Hn.
  - cbn in Hn. assert (n = O) by lia. subst. reflexivity.
  - destruct n as [|n]; cbn [skipn app].
    + change (y :: l ++ [x]) with ((y :: l) ++ [x]). apply last_last.
    + apply IH. cbn in Hn. lia.
Qed.

Lemma last_indep :
  forall A (l : list A) (d d' : A), l <> [] -> List.last l d = List.last l d'.
Proof.
  intros A l d d'. induction l as [|a l IH]; intros H; [congruence|].
  destruct l as [|b l]; [reflexivity|].
  change (List.last (b :: l) d = List.last (b :: l) d').
  apply IH. congruence.
Qed.

Lemma last_map :
  forall A B (f : A -> B) (l : list A) (d : A),
    List.last (map f l) (f d) = f (List.last l d).
Proof.
  intros A B f l d. induction l as [|a l IH]; [reflexivity|].
  destruct l as [|b l]; [reflexivity|]. exact IH.
Qed.

Lemma iloc_last_map_last :
  forall (f : Bar -> float) (rows : list Bar) (d : Bar),
    rows <> [] -> pd.iloc_last (map f rows) = Some (f (List.last rows d)).
Proof.
  intros f rows d H. destruct rows as [|x r]; [congruence|].
  cbn [map pd.iloc_last]. f_equal.
  rewrite last_map. f_equal.
  destruct r as [|y r]; [reflexivity|].
  change (List.last (x :: y :: r) d) with (List.last (y :: r) d).
  apply last_indep. congruence.
Qed.

Lemma max_bars_eq : max_bars = 195%nat.
Proof. reflexivity. Qed.

(** [_close_bar] on a complete bar: the row is appended, the indicators are
    recomputed and the exit check runs on an object whose last row is the
    closed bar and whose position is untouched. *)
Lemma close_bar_reaches_exit_check :
  forall ib s o h l c,
    cur_open (current_bar s) = Some o -> cur_high (current_bar s) = Some h ->
    cur_low (current_bar s) = Some l -> cur_close (current_bar s) = Some c ->
    exists s3,
      recomputed s s3 /\
      in_position s3 = in_position s /\
      position_entry_price s3 = position_entry_price s /\
      pd.iloc_last (map bar_high (bars_5min s3)) = Some h /\
      _close_bar ib s
      = (outcome (_check_exit_conditions ib s3),
         final (_check_exit_conditions ib s3),
         BarClosed (mkBar (bar_start_time s) o h l c (cur_volume (current_bar s)))
         :: events (_check_exit_conditions ib s3)).
Proof.
  intros ib s o h l c Ho Hh Hl Hc.
  set (new_bar := mkBar (bar_start_time s) o h l c (cur_volume (current_bar s))).
  set (rows := bars_5min s ++ [new_bar]).
  set (kept := if (max_bars <? length rows)%nat
               then tail_rows max_bars rows else rows).
  assert (Hlast : pd.iloc_last (map bar_high kept) = Some h).
  { assert (Hk : kept <> [] /\ List.last kept new_bar = new_bar).
    { subst kept. destruct (max_bars <? length rows)%nat eqn:E.
      - apply Nat.ltb_lt in E. unfold tail_rows. subst rows.
        rewrite max_bars_eq in *.
        rewrite length_app in *. cbn [length] in *.
        split.
        + apply nonempty_length. rewrite length_skipn, length_app.
          cbn [length]. lia.
        + apply last_skipn_snoc. lia.
      - subst rows. split; [|apply last_last].
        destruct (bars_5min s); discriminate. }
    destruct Hk as [Hk1 Hk2].
    rewrite (iloc_last_map_last bar_high new_bar Hk1), Hk2. reflexivity. }
  destruct (update_indicators_result (set_bars_5min kept s))
    as (ma & slope & tsi & psar & Eu).
  exists (if (length kept <? MA_PERIOD)%nat then set_bars_5min kept s
          else set_indicators ma slope tsi psar (set_bars_5min kept s)).
  split.
  { exists kept. destruct (length kept <? MA_PERIOD)%nat;
      [left; reflexivity | right; exists ma, slope, tsi, psar; reflexivity]. }
  split; [destruct (length kept <? MA_PERIOD)%nat; reflexivity|].
  split; [destruct (length kept <? MA_PERIOD)%nat; reflexivity|].
  split; [destruct (length kept <? MA_PERIOD)%nat; exact Hlast|].
  unfold _close_bar. unfold bind at 1. unfold get at 1. cbn [fst snd].
  rewrite Ho, Hh, Hl, Hc. fold new_bar.
  unfold bind at 1. unfold modify at 1. cbn [fst snd app set_bars_5min bars_5min].
  unfold bind at 1. unfold emit at 1. cbn [fst snd app].
  unfold bind at 1. unfold get at 1. cbn [fst snd app bars_5min].
  fold rows.
  assert (Ekeep :
    (if (max_bars <? length (bars_5min (set_bars_5min rows s)))%nat
     then modify (set_bars_5min
                    (tail_rows max_bars (bars_5min (set_bars_5min rows s))))
     else ret tt) (set_bars_5min rows s)
    = (Done tt, set_bars_5min kept s, [])).
  { subst kept. cbn [bars_5min set_bars_5min].
    destruct (max_bars <? length rows)%nat; reflexivity. }
  unfold bind at 1.
  change (mkBot rows (current_bar s) (bar_start_time s) (in_position s)
            (position_entry_price s) (last_price s) (price_was_above_ma s)
            (current_tsi s) (current_ma70 s) (ma70_slope s) (current_sar s))
    with (set_bars_5min rows s).
  rewrite Ekeep. cbn [fst snd app].
  unfold bind at 1. rewrite Eu. cbn [bars_5min set_bars_5min fst snd app].
  unfold outcome, final, events.
  destruct (_check_exit_conditions ib _) as [[r s4] l4]. reflexivity.
Qed.

(** The exit check of a short bot with a recorded entry price. *)
Lemma check_exit_result :
  forall ib s entry last_high,
    in_position s = true ->
    position_entry_price s = Some entry ->
    pd.iloc_last (map bar_high (bars_5min s)) = Some last_high ->
    _check_exit_conditions ib s
    = match current_sar s with
      | None => (Done tt, s, [])
      | Some psar =>
        if (last_high >=? psar)%flt then
          (Done tt,
           (if is_filled (ib BUY)
            then set_position_entry_price None (set_in_position false s)
            else s),
           ExitShort :: PlaceOrder BUY QUANTITY (ib BUY) ::
           (if is_filled (ib BUY)
            then [Executed BUY (avgFillPrice (ib BUY));
                  PnL (entry - avgFillPrice (ib BUY))%flt]
            else [OrderState (status (ib BUY))]))
        else (Done tt, s, [])
      end.
Proof.
  intros ib s entry last_high Hpos He Hl.
  unfold _check_exit_conditions. run_m. rewrite Hpos. cbn [negb].
  destruct (current_sar s) as [psar|]; [|reflexivity].
  rewrite Hl. destruct (last_high >=? psar)%flt; [|reflexivity].
  rewrite (exit_short_result ib s He). reflexivity.
Qed.

(** C2.  A bar close handled while the bot is short with a recorded entry
    price: the handler returns normally; with no stop value no intent is
    emitted; with a stop value, the only possible intent is EXIT_SHORT and
    it is emitted exactly when the high of the bar just closed is greater
    than or equal to the stop value.  When it is emitted and the gateway
    reports "Filled", the bot is flat again, the entry price is cleared and
    the realised P&L is the entry price minus the reported fill price; with
    any other status the bot stays short at the same entry price. *)
Theorem C2_exit_signal :
  forall (ib : Gateway) (s : Bot) (o h l c entry : float),
    cur_open (current_bar s) = Some o -> cur_high (current_bar s) = Some h ->
    cur_low (current_bar s) = Some l -> cur_close (current_bar s) = Some c ->
    in_position s = true ->
    position_entry_price s = Some entry ->
    outcome (_close_bar ib s) = Done tt /\
    (current_sar (final (_close_bar ib s)) = None ->
     intents (events (_close_bar ib s)) = []) /\
    (forall psar,
       current_sar (final (_close_bar ib s)) = Some psar ->
       (intents (events (_close_bar ib s)) = [EXIT_SHORT]
        <-> (h >=? psar)%flt = true) /\
       (intents (events (_close_bar ib s)) = [EXIT_SHORT] \/
        intents (events (_close_bar ib s)) = []) /\
       ((h >=? psar)%flt = true -> status (ib BUY) = "Filled"%string ->
        in_position (final (_close_bar ib s)) = false /\
        position_entry_price (final (_close_bar ib s)) = None /\
        In (PnL (entry - avgFillPrice (ib BUY))%flt) (events (_close_bar ib s))) /\
       ((h >=? psar)%flt = true -> status (ib BUY) <> "Filled"%string ->
        in_position (final (_close_bar ib s)) = true /\
        position_entry_price (final (_close_bar ib s)) = Some entry)).
Proof.
  intros ib s o h l c entry Ho Hh Hl Hc Hpos He.
  destruct (close_bar_reaches_exit_check ib s Ho Hh Hl Hc)
    as (s3 & _ & P3 & E3 & L3 & ->).
  rewrite Hpos in P3. rewrite He in E3.
  rewrite (check_exit_result ib s3 P3 E3 L3).
  unfold outcome, final, events. cbn [fst snd].
  destruct (current_sar s3) as [psar|] eqn:Hsar; cbn [fst snd intents].
  - destruct (h >=? psar)%flt eqn:Hge; cbn [fst snd intents].
    + split; [reflexivity|]. split.
      { destruct (is_filled (ib BUY)); cbn; rewrite Hsar; discriminate. }
      intros psar' Hp.
      assert (psar' = psar).
      { destruct (is_filled (ib BUY)); cbn in Hp; congruence. }
      subst psar'. rewrite Hge.
      assert (Hint : intents
                       (if is_filled (ib BUY)
                        then [Executed BUY (avgFillPrice (ib BUY));
                              PnL (entry - avgFillPrice (ib BUY))%flt]
                        else [OrderState (status (ib BUY))]) = []).
      { destruct (is_filled (ib BUY)); reflexivity. }
      rewrite Hint. split; [split; reflexivity|]. split; [left; reflexivity|].
      split.
      * intros _ Hf. unfold is_filled. rewrite Hf. cbn.
        split; [reflexivity|]. split; [reflexivity|].
        right. right. right. right. left. reflexivity.
      * intros _ Hf. rewrite (not_filled _ Hf). split; assumption.
    + split; [reflexivity|]. split; [congruence|].
      intros psar' Hp. assert (psar' = psar) by congruence. subst psar'.
      rewrite Hge. split; [split; discriminate|]. split; [right; reflexivity|].
      split; intros; discriminate.
  - split; [reflexivity|]. split; [reflexivity|]. intros psar' Hp. congruence.
Qed.

(* ================================================================== *)
(** * Position and entry price *)
(* ================================================================== *)

Lemma entry_fill_app :
  forall l1 l2 acc, entry_fill (l1 ++ l2) acc = entry_fill l2 (entry_fill l1 acc).
Proof.
  induction l1 as [|e l1 IH]; intros l2 acc; [reflexivity|].
  destruct e as [| |[] ? ?| | | | | |]; cbn; apply IH.
Qed.

Lemma keeps_coupled_refl : forall s, keeps_coupled s [] s.
Proof. intros s fill H. exact H. Qed.

Lemma keeps_coupled_trans :
  forall a l1 b l2 c,
    keeps_coupled a l1 b -> keeps_coupled b l2 c -> keeps_coupled a (l1 ++ l2) c.
Proof.
  intros a l1 b l2 c H1 H2 fill Ha. rewrite entry_fill_app.
  apply H2. apply H1. exact Ha.
Qed.

Lemma keeps_coupled_enter :
  forall ib price, keeps keeps_coupled (_enter_short ib price).
Proof.
  intros ib price s fill [H1 H2]. rewrite enter_short_result.
  unfold final, events. cbn [fst snd entry_fill].
  destruct (is_filled (ib SELL)); cbn [entry_fill].
  - split; cbn; [discriminate|]. intros _. eexists. split; reflexivity.
  - split; assumption.
Qed.

Lemma keeps_coupled_exit : forall ib, keeps keeps_coupled (_exit_short ib).
Proof.
  intros ib s fill [H1 H2]. unfold _exit_short. run_m.
  destruct (is_filled (ib BUY)); cbn [fst snd app entry_fill];
    [|split; assumption].
  destruct (position_entry_price s) eqn:E; cbn [fst snd app entry_fill].
  - split; cbn; [reflexivity | discriminate].
  - split; [intros _; exact E|]. intros Hp.
    destruct (H2 Hp) as [p [_ Hp2]]. discriminate Hp2.
Qed.

Ltac coupled_side :=
  first [ exact keeps_coupled_refl | exact keeps_coupled_trans | exact I
        | solve [intros; apply keeps_coupled_enter]
        | solve [intros; apply keeps_coupled_exit]
        | solve [intros; intros ? Hcoupled; exact Hcoupled] ].

Lemma keeps_coupled_handle : forall c, keeps keeps_coupled (handle c).
Proof.
  intros c. apply keeps_handle with (G := fun _ => True); try coupled_side.
  destruct c; exact I.
Qed.

Lemma keeps_coupled_close_bar : forall ib, keeps keeps_coupled (_close_bar ib).
Proof.
  intros ib. apply keeps_close_bar with (G := fun _ => True); coupled_side.
Qed.

Lemma keeps_coupled_run :
  forall calls s,
    keeps_coupled s (snd (run calls s)) (fst (run calls s)).
Proof.
  intros calls s.
  apply keeps_run with (G := fun _ => True); try coupled_side.
  induction calls as [|c r IH]; constructor; [destruct c; exact I | exact IH].
Qed.

(** C10.  Let [fill] be the average fill price the gateway reported for the
    latest filled entry order.  (1) After construction, and after any
    sequence of handler invocations, a flat bot has no entry price and a
    short bot has the entry price [fill].  (2) Every handler invocation,
    (3) every bar close and (4), (5) every entry or exit order, filled or
    not, preserves this coupling from any object that satisfies it. *)
Theorem C10_position_entry_price_coupled :
  (forall calls : list Call,
     let s := fst (run calls __init__) in
     let fill := entry_fill (snd (run calls __init__)) None in
     (in_position s = false -> position_entry_price s = None) /\
     (in_position s = true ->
      exists p, fill = Some p /\ position_entry_price s = Some p)) /\
  (forall c s fill,
     coupled s fill ->
     coupled (final (handle c s)) (entry_fill (events (handle c s)) fill)) /\
  (forall ib s fill,
     coupled s fill ->
     coupled (final (_close_bar ib s))
       (entry_fill (events (_close_bar ib s)) fill)) /\
  (forall ib price s fill,
     coupled s fill ->
     coupled (final (_enter_short ib price s))
       (if is_filled (ib SELL) then Some (avgFillPrice (ib SELL)) else fill)) /\
  (forall ib s fill,
     coupled s fill -> coupled (final (_exit_short ib s)) fill).
Proof.
  split; [|split; [|split; [|split]]].
  - intros calls. apply (@keeps_coupled_run calls __init__ None).
    split; [reflexivity | discriminate].
  - intros c s fill H. apply (@keeps_coupled_handle c s fill H).
  - intros ib s fill H. apply (@keeps_coupled_close_bar ib s fill H).
  - intros ib price s fill H.
    pose proof (@keeps_coupled_enter ib price s fill H) as K.
    rewrite enter_short_result in K. unfold final, events in K.
    cbn [fst snd entry_fill] in K.
    rewrite enter_short_result. unfold final. cbn [fst snd].
    destruct (is_filled (ib SELL)); exact K.
  - intros ib s fill H.
    pose proof (@keeps_coupled_exit ib s fill H) as K.
    assert (E : entry_fill (events (_exit_short ib s)) fill = fill).
    { unfold _exit_short. run_m.
      destruct (is_filled (ib BUY)); [|reflexivity].
      cbn [fst snd app]. destruct (position_entry_price s); reflexivity. }
    rewrite E in K. exact K.
Qed.

(* ================================================================== *)
(** * Negation and the arithmetic of floats *)
(* ================================================================== *)

Lemma binary_round_aux_opp :
  forall s m e l,
    binary_round_aux prec emax (negb s) m e l
    = SFopp (binary_round_aux prec emax s m e l).
Proof.
  intros s m e l. unfold binary_round_aux.
  destruct (shr_fexp prec emax m e l) as [mrs' e'].
  destruct (shr_fexp prec emax _ e' loc_Exact) as [mrs'' e''].
  destruct (shr_m mrs''); try reflexivity.
  destruct (e'' <=? emax - prec); reflexivity.
Qed.

Lemma binary_round_opp :
  forall s m e,
    binary_round prec emax (negb s) m e = SFopp (binary_round prec emax s m e).
Proof.
  intros s m e. unfold binary_round.
  destruct (shl_align m e _) as [mz ez]. apply binary_round_aux_opp.
Qed.

Lemma negated_opp_l : forall x, negated (SFopp x) x.
Proof.
  intros [s|s| |s m e]; cbn; auto.
Qed.

Lemma negated_sym : forall a b, negated a b -> negated b a.
Proof.
  intros [s|s| |s m e] [s'|s'| |s' m' e']; cbn; try tauto; intros H;
    repeat match goal with
           | K : _ /\ _ |- _ => destruct K
           end; subst; rewrite ?negb_involutive; auto.
Qed.

Lemma negated_isnan : forall a b, negated a b -> isnan a = isnan b.
Proof.
  intros [s|s| |s m e] [s'|s'| |s' m' e']; cbn; tauto.
Qed.

Lemma binary_normalize_opp :
  forall z e,
    negated (binary_normalize prec emax (- z) e false)
            (binary_normalize prec emax z e false).
Proof.
  intros [|p|p] e; cbn [Z.opp binary_normalize].
  - exact I.
  - change true with (negb false). rewrite binary_round_opp. apply negated_opp_l.
  - apply negated_sym.
    change true with (negb false). rewrite binary_round_opp. apply negated_opp_l.
Qed.

Lemma cond_Zopp_negb :
  forall s m, cond_Zopp (negb s) m = - cond_Zopp s m.
Proof. intros [] m; cbn; lia. Qed.

Lemma negated_add :
  forall a a', negated a a' ->
  forall b b', negated b b' -> negated (a + b)%flt (a' + b')%flt.
Proof.
  intros [sa|sa| |sa ma ea] [sa'|sa'| |sa' ma' ea'] Ha; cbn in Ha;
    try contradiction;
    intros [sb|sb| |sb mb eb] [sb'|sb'| |sb' mb' eb'] Hb; cbn in Hb;
    try contradiction;
    repeat match goal with
           | H : _ /\ _ |- _ => destruct H
           end; subst;
    try exact I;
    try (destruct sa, sa', sb, sb'; cbn; auto; fail);
    try (destruct sa', sb'; cbn; auto; fail);
    try (destruct sa, sa', sb'; cbn; auto; fail);
    try (destruct sa', sb, sb'; cbn; auto; fail).
  unfold add, SFadd. rewrite !cond_Zopp_negb.
  rewrite <- Z.opp_add_distr. apply binary_normalize_opp.
Qed.

Lemma negated_sub :
  forall a a', negated a a' ->
  forall b b', negated b b' -> negated (a - b)%flt (a' - b')%flt.
Proof.
  intros [sa|sa| |sa ma ea] [sa'|sa'| |sa' ma' ea'] Ha; cbn in Ha;
    try contradiction;
    intros [sb|sb| |sb mb eb] [sb'|sb'| |sb' mb' eb'] Hb; cbn in Hb;
    try contradiction;
    repeat match goal with
           | H : _ /\ _ |- _ => destruct H
           end; subst;
    try exact I;
    try (destruct sa, sa', sb, sb'; cbn; auto; fail);
    try (destruct sa', sb'; cbn; auto; fail);
    try (destruct sa, sa', sb'; cbn; auto; fail);
    try (destruct sa', sb, sb'; cbn; auto; fail).
  unfold sub, SFsub. rewrite !cond_Zopp_negb.
  replace (- cond_Zopp sa' (Z.pos (fst (shl_align ma' ea' (Z.min ea' eb'))))
           - - cond_Zopp sb' (Z.pos (fst (shl_align mb' eb' (Z.min ea' eb')))))
    with (- (cond_Zopp sa' (Z.pos (fst (shl_align ma' ea' (Z.min ea' eb'))))
             - cond_Zopp sb' (Z.pos (fst (shl_align mb' eb' (Z.min ea' eb'))))))
    by lia.
  apply binary_normalize_opp.
Qed.

Lemma xorb_negb_r : forall a b, xorb a (negb b) = negb (xorb a b).
Proof. intros [] []; reflexivity. Qed.

Lemma xorb_negb_l : forall a b, xorb (negb a) b = negb (xorb a b).
Proof. intros [] []; reflexivity. Qed.

Lemma negated_mul_r :
  forall c x x', negated x x' -> negated (c * x)%flt (c * x')%flt.
Proof.
  intros [sc|sc| |sc mc ec] [sx|sx| |sx mx ex] [sx'|sx'| |sx' mx' ex'] H;
    cbn in H; try contradiction;
    repeat match goal with
           | K : _ /\ _ |- _ => destruct K
           end; subst;
    try exact I; cbn; try apply xorb_negb_r.
  unfold mul, SFmul. rewrite xorb_negb_r, binary_round_aux_opp.
  apply negated_opp_l.
Qed.

Lemma negated_div_l :
  forall a y y', negated y y' -> negated (y / a)%flt (y' / a)%flt.
Proof.
  intros [sa|sa| |sa ma ea] [sy|sy| |sy my ey] [sy'|sy'| |sy' my' ey'] H;
    cbn in H; try contradiction;
    repeat match goal with
           | K : _ /\ _ |- _ => destruct K
           end; subst;
    try exact I; cbn; try apply xorb_negb_l.
  unfold div, SFdiv.
  destruct (SFdiv_core_binary prec emax (Z.pos my') ey' (Z.pos ma) ea)
    as [[mz ez] lz].
  rewrite xorb_negb_l, binary_round_aux_opp. apply negated_opp_l.
Qed.

(* ================================================================== *)
(** * The sign of a difference of binary64 values *)
(* ================================================================== *)

Lemma digits2_bounds :
  forall m : positive,
    2 ^ (Z.pos (digits2_pos m) - 1) <= Z.pos m < 2 ^ Z.pos (digits2_pos m).
Proof.
  induction m as [m IH | m IH |]; cbn [digits2_pos].
  - rewrite Pos2Z.inj_succ.
    replace (Z.succ (Z.pos (digits2_pos m)) - 1)
      with (Z.succ (Z.pos (digits2_pos m) - 1)) by lia.
    rewrite !Z.pow_succ_r by lia. lia.
  - rewrite Pos2Z.inj_succ.
    replace (Z.succ (Z.pos (digits2_pos m)) - 1)
      with (Z.succ (Z.pos (digits2_pos m) - 1)) by lia.
    rewrite !Z.pow_succ_r by lia. lia.
  - cbn. lia.
Qed.

Lemma iter_xO_value :
  forall (d m : positive), Z.pos (Pos.iter xO m d) = Z.pos m * 2 ^ Z.pos d.
Proof.
  intros d m. induction d as [|d IH] using Pos.peano_ind.
  - cbn. lia.
  - rewrite Pos.iter_succ, Pos2Z.inj_succ, Z.pow_succ_r by lia.
    rewrite Pos2Z.inj_xO, IH. lia.
Qed.

Lemma shl_align_value :
  forall m e e',
    e' <= e -> Z.pos (fst (shl_align m e e')) = Z.pos m * 2 ^ (e - e').
Proof.
  intros m e e' H. unfold shl_align.
  destruct (e' - e) as [|p|p] eqn:E.
  - replace (e - e') with 0 by lia. cbn. lia.
  - lia.
  - cbn [fst]. rewrite iter_xO_value. f_equal. f_equal. lia.
Qed.

(** What validity says of a finite binary64: at most 53 digits, and exactly
    53 above the smallest exponent. *)
Lemma valid_finite :
  forall s m e,
    valid (S754_finite s m e) = true ->
    -1074 <= e /\ Z.pos (digits2_pos m) <= 53 /\
    (-1074 < e -> Z.pos (digits2_pos m) = 53).
Proof.
  intros s m e H. unfold valid, valid_binary, bounded, canonical_mantissa in H.
  apply andb_true_iff in H. destruct H as [H _].
  apply Z.eqb_eq in H. unfold fexp, SpecFloat.emin, prec, emax in H. lia.
Qed.

(** Two finite binary64 of the same sign compare as their mantissas do once
    aligned to the smaller exponent. *)
Lemma aligned_compare :
  forall sa ma ea sb mb eb,
    valid (S754_finite sa ma ea) = true ->
    valid (S754_finite sb mb eb) = true ->
    match ea ?= eb with
    | Lt => Lt
    | Gt => Gt
    | Eq => (ma ?= mb)%positive
    end
    = (Z.pos (fst (shl_align ma ea (Z.min ea eb)))
       ?= Z.pos (fst (shl_align mb eb (Z.min ea eb)))).
Proof.
  intros sa ma ea sb mb eb Va Vb.
  destruct (valid_finite _ _ _ Va) as (La & Da & Na).
  destruct (valid_finite _ _ _ Vb) as (Lb & Db & Nb).
  pose proof (digits2_bounds ma) as Ba. pose proof (digits2_bounds mb) as Bb.
  rewrite !shl_align_value by lia.
  destruct (Z.compare_spec ea eb) as [E|E|E].
  - subst eb. rewrite Z.min_id, Z.sub_diag. cbn [Z.pow].
    rewrite !Z.mul_1_r. reflexivity.
  - rewrite Z.min_l by lia. rewrite Z.sub_diag. cbn [Z.pow]. rewrite Z.mul_1_r.
    symmetry. apply Z.compare_lt_iff.
    rewrite (Nb ltac:(lia)) in Bb.
    assert (2 ^ Z.pos (digits2_pos ma) <= 2 ^ 53)
      by (apply Z.pow_le_mono_r; lia).
    assert (2 ^ 1 <= 2 ^ (eb - ea)) by (apply Z.pow_le_mono_r; lia).
    change (2 ^ (53 - 1)) with 4503599627370496 in Bb.
    change (2 ^ 53) with 9007199254740992 in *.
    change (2 ^ 1) with 2 in *. nia.
  - rewrite Z.min_r by lia. rewrite Z.sub_diag. cbn [Z.pow]. rewrite Z.mul_1_r.
    symmetry. apply Z.compare_gt_iff.
    rewrite (Na ltac:(lia)) in Ba.
    assert (2 ^ Z.pos (digits2_pos mb) <= 2 ^ 53)
      by (apply Z.pow_le_mono_r; lia).
    assert (2 ^ 1 <= 2 ^ (ea - eb)) by (apply Z.pow_le_mono_r; lia).
    change (2 ^ (53 - 1)) with 4503599627370496 in Ba.
    change (2 ^ 53) with 9007199254740992 in *.
    change (2 ^ 1) with 2 in *. nia.
Qed.

Lemma finite_compare_value :
  forall sa ma ea sb mb eb,
    valid (S754_finite sa ma ea) = true ->
    valid (S754_finite sb mb eb) = true ->
    SFcompare (S754_finite sa ma ea) (S754_finite sb mb eb)
    = Some (cond_Zopp sa (Z.pos (fst (shl_align ma ea (Z.min ea eb))))
            ?= cond_Zopp sb (Z.pos (fst (shl_align mb eb (Z.min ea eb))))).
Proof.
  intros sa ma ea sb mb eb Va Vb.
  pose proof (@aligned_compare sa ma ea sb mb eb Va Vb) as A.
  cbn [SFcompare]. fold (Pos.compare ma mb). f_equal.
  destruct sa, sb; cbn [cond_Zopp].
  - rewrite Z.compare_opp.
    rewrite (Z.compare_antisym
               (Z.pos (fst (shl_align ma ea (Z.min ea eb))))
               (Z.pos (fst (shl_align mb eb (Z.min ea eb))))), <- A.
    destruct (ea ?= eb); reflexivity.
  - reflexivity.
  - reflexivity.
  - exact A.
Qed.

Lemma binary_round_sign :
  forall s m e,
    match binary_round prec emax s m e with
    | S754_nan => True
    | S754_zero s' | S754_infinity s' | S754_finite s' _ _ => s' = s
    end.
Proof.
  intros s m e. unfold binary_round.
  destruct (shl_align m e _) as [mz ez]. unfold binary_round_aux.
  destruct (shr_fexp prec emax (Z.pos mz) ez loc_Exact) as [mrs' e'].
  destruct (shr_fexp prec emax _ e' loc_Exact) as [mrs'' e''].
  destruct (shr_m mrs''); try reflexivity; try exact I.
  destruct (e'' <=? emax - prec); reflexivity.
Qed.

Lemma binary_normalize_sign :
  forall z e,
    match binary_normalize prec emax z e false with
    | S754_nan => True
    | S754_zero s | S754_infinity s | S754_finite s _ _ => s = (z <? 0)
    end.
Proof.
  intros [|p|p] e; cbn [binary_normalize].
  - reflexivity.
  - apply (binary_round_sign false p e).
  - apply (binary_round_sign true p e).
Qed.

(** The difference of a binary64 and a strictly smaller one carries no sign. *)
Lemma sub_of_smaller :
  forall a b,
    valid a = true -> valid b = true -> (a <? b)%flt = true ->
    Float.abs (b - a)%flt = (b - a)%flt.
Proof.
  intros a b Va Vb Hlt.
  destruct a as [sa|sa| |sa ma ea], b as [sb|sb| |sb mb eb];
    try discriminate Hlt;
    try (destruct sa, sb; try discriminate Hlt; reflexivity);
    try (destruct sa; try discriminate Hlt; reflexivity);
    try (destruct sb; try discriminate Hlt; reflexivity).
  pose proof (@finite_compare_value sb mb eb sa ma ea Vb Va) as C.
  unfold ltb, SFltb in Hlt.
  rewrite (compare_antisym (S754_finite sb mb eb) (S754_finite sa ma ea)), C
    in Hlt.
  cbn [option_map] in Hlt.
  unfold sub, SFsub.
  set (vb := cond_Zopp sb (Z.pos (fst (shl_align mb eb (Z.min eb ea))))) in *.
  set (va := cond_Zopp sa (Z.pos (fst (shl_align ma ea (Z.min eb ea))))) in *.
  assert (D : (vb - va <? 0) = false).
  { apply Z.ltb_ge. destruct (Z.compare_spec vb va); cbn in Hlt;
      try discriminate Hlt; lia. }
  pose proof (binary_normalize_sign (vb - va) (Z.min eb ea)) as S.
  rewrite D in S.
  destruct (binary_normalize prec emax (vb - va) (Z.min eb ea) false);
    cbn; subst; reflexivity.
Qed.

(** The difference of a binary64 and one that is not smaller is zero, NaN or
    negative: it is the negative of its absolute value. *)
Lemma sub_of_larger :
  forall x y,
    valid x = true -> valid y = true -> (y <=? x)%flt = true ->
    negated (y - x)%flt (Float.abs (y - x)%flt).
Proof.
  intros x y Vx Vy Hle.
  destruct x as [sx|sx| |sx mx ex], y as [sy|sy| |sy my ey];
    try discriminate Hle;
    try (destruct sx, sy; try discriminate Hle; cbn; auto; fail);
    try (destruct sx; try discriminate Hle; cbn; auto; fail);
    try (destruct sy; try discriminate Hle; cbn; auto; fail).
  pose proof (@finite_compare_value sy my ey sx mx ex Vy Vx) as C.
  unfold leb, SFleb in Hle. rewrite C in Hle.
  unfold sub, SFsub.
  set (vy := cond_Zopp sy (Z.pos (fst (shl_align my ey (Z.min ey ex))))) in *.
  set (vx := cond_Zopp sx (Z.pos (fst (shl_align mx ex (Z.min ey ex))))) in *.
  pose proof (binary_normalize_sign (vy - vx) (Z.min ey ex)) as S.
  assert (D : vy - vx <= 0).
  { destruct (Z.compare_spec vy vx); try discriminate Hle; lia. }
  destruct (binary_normalize prec emax (vy - vx) (Z.min ey ex) false)
    as [s|s| |s m e] eqn:E; cbn; auto.
  - rewrite S. destruct (Z.ltb_spec (vy - vx) 0); [reflexivity|].
    assert (Z0 : vy - vx = 0) by lia. rewrite Z0 in E. discriminate E.
  - split; [|auto]. rewrite S.
    destruct (Z.ltb_spec (vy - vx) 0); [reflexivity|].
    assert (Z0 : vy - vx = 0) by lia. rewrite Z0 in E. discriminate E.
Qed.

(* ================================================================== *)
(** * The oscillator of a monotonic series *)
(* ================================================================== *)

Lemma diff_from_increasing :
  forall r x,
    all_valid (x :: r) -> strictly_increasing (x :: r) ->
    pd.abs (pd.diff_from x r) = pd.diff_from x r.
Proof.
  induction r as [|y r IH]; intros x Hv Hi; [reflexivity|].
  cbn [strictly_increasing] in Hi. destruct Hi as [Hxy Hi].
  cbn [pd.diff_from pd.abs map]. f_equal.
  - apply sub_of_smaller; [apply Hv | apply Hv | exact Hxy]; cbn; auto.
  - apply IH; [|exact Hi]. intros z Hz. apply Hv. right. exact Hz.
Qed.

Lemma diff_from_decreasing :
  forall r x,
    all_valid (x :: r) -> decreasing (x :: r) ->
    Forall2 negated (pd.diff_from x r) (pd.abs (pd.diff_from x r)).
Proof.
  induction r as [|y r IH]; intros x Hv Hd; [constructor|].
  cbn [decreasing] in Hd. destruct Hd as [Hyx Hd].
  cbn [pd.diff_from pd.abs map]. constructor.
  - apply sub_of_larger; [apply Hv | apply Hv | exact Hyx]; cbn; auto.
  - apply IH; [|exact Hd]. intros z Hz. apply Hv. right. exact Hz.
Qed.

Lemma ewm_next_negated :
  forall a p p' x x',
    negated p p' -> negated x x' ->
    negated (pd.ewm_next a p x) (pd.ewm_next a p' x').
Proof.
  intros a p p' x x' Hp Hx. unfold pd.ewm_next.
  rewrite (negated_isnan p p' Hp). destruct (isnan p'); [exact Hx|].
  apply negated_add; [exact Hp|]. apply negated_mul_r.
  apply negated_sub; assumption.
Qed.

Lemma ewm_from_negated :
  forall a s s' p p',
    negated p p' -> Forall2 negated s s' ->
    Forall2 negated (pd.ewm_from a p s) (pd.ewm_from a p' s').
Proof.
  intros a s s' p p' Hp Hs. revert p p' Hp.
  induction Hs as [|x x' s s' Hx Hs IH]; intros p p' Hp; [constructor|].
  cbn [pd.ewm_from]. constructor.
  - apply ewm_next_negated; assumption.
  - apply IH. apply ewm_next_negated; assumption.
Qed.

Lemma ewm_mean_negated :
  forall span s s',
    Forall2 negated s s' ->
    Forall2 negated (pd.ewm_mean span s) (pd.ewm_mean span s').
Proof.
  intros span s s' Hs. destruct Hs as [|x x' s s' Hx Hs]; [constructor|].
  cbn [pd.ewm_mean]. constructor; [exact Hx|].
  apply ewm_from_negated; assumption.
Qed.

Lemma zip_with_diag :
  forall f s, pd.zip_with f s s = map (fun x => f x x) s.
Proof.
  intros f. induction s as [|x s IH]; [reflexivity|].
  cbn. f_equal. exact IH.
Qed.

Lemma zip_with_negated :
  forall e a,
    Forall2 negated e a ->
    Forall2 negated (pd.zip_with (fun x y => (of_Z 100 * x / y)%flt) e a)
                    (map hundred_ratio a).
Proof.
  intros e a H. induction H as [|x y e a Hxy H IH]; [constructor|].
  cbn [pd.zip_with map]. constructor; [|exact IH].
  unfold hundred_ratio. apply negated_div_l. apply negated_mul_r. exact Hxy.
Qed.

(* ================================================================== *)
(** * Objects reached from construction *)
(* ================================================================== *)

Lemma intents_app :
  forall l1 l2, intents (l1 ++ l2) = intents l1 ++ intents l2.
Proof.
  induction l1 as [|e l1 IH]; intros l2; [reflexivity|].
  destruct e; cbn; rewrite ?IH; reflexivity.
Qed.

Lemma tick_frame_refl : forall s, tick_frame s [] s.
Proof. intros s. unfold tick_frame. repeat split; auto. Qed.

Lemma tick_frame_trans :
  forall a l1 b l2 c,
    tick_frame a l1 b -> tick_frame b l2 c -> tick_frame a (l1 ++ l2) c.
Proof.
  intros a l1 b l2 c (A1 & A2 & A3 & A4 & A5) (B1 & B2 & B3 & B4 & B5).
  unfold tick_frame. repeat split; try congruence; auto.
  - destruct (A5 H) as [Hb _]. apply (B5 Hb).
  - destruct (A5 H) as [Hb Ia]. destruct (B5 Hb) as [_ Ib].
    rewrite intents_app, Ia, Ib. reflexivity.
Qed.

Lemma tick_frame_aggregate :
  forall ib bar_start price, keeps tick_frame (aggregate_tick ib bar_start price).
Proof.
  intros ib bar_start price.
  apply keeps_aggregate_tick with (G := fun _ => True);
    first [ exact tick_frame_refl | exact tick_frame_trans | exact I
          | solve [intros; unfold tick_frame; cbn; repeat split; auto;
                   discriminate]
          | idtac ].
  intros ib' _ s Hpos. unfold _exit_short. run_m.
  destruct (is_filled (ib' BUY)); cbn [fst snd app].
  - destruct (position_entry_price s); unfold tick_frame; cbn;
      repeat split; auto; congruence.
  - unfold tick_frame; cbn; repeat split; auto; congruence.
Qed.

Lemma keeps_entry_price_on_tick :
  forall ib now last, keeps keeps_entry_price (_on_tick ib now last).
Proof.
  intros ib now last.
  apply keeps_on_tick with (G := fun _ => True);
    first [ exact I
          | solve [intros; intros Hw; exact Hw]
          | solve [unfold keeps_entry_price; intros; auto]
          | idtac ].
  - intros ib' price _ s _ Hw. rewrite enter_short_result.
    unfold final. cbn [fst snd].
    destruct (is_filled (ib' SELL)); [cbn; intros _; discriminate | exact Hw].
  - intros ib' _ s Hpos Hw. unfold _exit_short. run_m.
    destruct (is_filled (ib' BUY)); cbn [fst snd app]; [|exact Hw].
    destruct (position_entry_price s) eqn:E; cbn; [discriminate|].
    exfalso. apply (Hw Hpos). reflexivity.
Qed.

Lemma keeps_slope_on_tick :
  forall ib now last, keeps keeps_slope (_on_tick ib now last).
Proof.
  intros ib now last.
  apply keeps_on_tick with (G := fun _ => True);
    first [ exact I
          | solve [intros; intros Hw; exact Hw]
          | solve [unfold keeps_slope; intros; auto]
          | solve [unfold keeps_slope; cbn; intros; discriminate]
          | idtac ].
  - intros ib' price _ s _ Hw. rewrite enter_short_result.
    unfold final. cbn [fst snd].
    destruct (is_filled (ib' SELL)); exact Hw.
  - intros ib' _ s Hpos Hw. unfold _exit_short. run_m.
    destruct (is_filled (ib' BUY)); cbn [fst snd app]; [|exact Hw].
    destruct (position_entry_price s); exact Hw.
Qed.

Lemma recomputed_frame :
  forall s s3,
    recomputed s s3 ->
    current_bar s3 = current_bar s /\ bar_start_time s3 = bar_start_time s /\
    last_price s3 = last_price s /\
    price_was_above_ma s3 = price_was_above_ma s.
Proof.
  intros s s3 [rows [-> | (ma & slope & tsi & psar & ->)]]; repeat split.
Qed.

(** The exit check returns normally once the history is not empty and a
    short bot has its entry price. *)
Lemma check_exit_done :
  forall ib s h,
    pd.iloc_last (map bar_high (bars_5min s)) = Some h ->
    (in_position s = true -> position_entry_price s <> None) ->
    outcome (_check_exit_conditions ib s) = Done tt /\
    current_bar (final (_check_exit_conditions ib s)) = current_bar s /\
    bar_start_time (final (_check_exit_conditions ib s)) = bar_start_time s.
Proof.
  intros ib s h Hh Hw.
  destruct (in_position s) eqn:Hpos.
  - destruct (position_entry_price s) as [entry|] eqn:He;
      [|exfalso; apply (Hw eq_refl); reflexivity].
    rewrite (check_exit_result ib s Hpos He Hh).
    destruct (current_sar s) as [psar|]; [|repeat split].
    destruct (h >=? psar)%flt; [|repeat split].
    unfold outcome, final. cbn [fst snd].
    destruct (is_filled (ib BUY)); repeat split.
  - unfold _check_exit_conditions. run_m. rewrite Hpos. repeat split.
Qed.

Lemma close_bar_done :
  forall ib s,
    well_formed s -> cur_open (current_bar s) <> None ->
    outcome (_close_bar ib s) = Done tt /\
    current_bar (final (_close_bar ib s)) = current_bar s /\
    bar_start_time (final (_close_bar ib s)) = bar_start_time s.
Proof.
  intros ib s (W1 & W2 & W3) Ho.
  destruct (W1 (or_intror Ho)) as (C1 & C2 & C3 & C4).
  destruct (cur_open (current_bar s)) as [o|] eqn:Eo; [|congruence].
  destruct (cur_high (current_bar s)) as [h|] eqn:Eh; [|congruence].
  destruct (cur_low (current_bar s)) as [l|] eqn:El; [|congruence].
  destruct (cur_close (current_bar s)) as [c|] eqn:Ec; [|congruence].
  destruct (close_bar_reaches_exit_check ib s Eo Eh El Ec)
    as (s3 & Hrec & P3 & E3 & L3 & ->).
  destruct (recomputed_frame Hrec) as (F1 & F2 & _ & _).
  destruct (@check_exit_done ib s3 h L3) as (D1 & D2 & D3).
  { rewrite P3, E3. exact W2. }
  unfold outcome, final in *. cbn [fst snd].
  split; [exact D1|]. split; congruence.
Qed.

(** From a well-formed object the bar aggregation returns normally and the
    bar it leaves in progress is complete. *)
Lemma aggregate_done :
  forall ib bar_start price s,
    well_formed s ->
    outcome (aggregate_tick ib bar_start price s) = Done tt /\
    complete (current_bar (final (aggregate_tick ib bar_start price s))) /\
    bar_start_time (final (aggregate_tick ib bar_start price s)) <> None.
Proof.
  intros ib bar_start price s W. pose proof W as (W1 & W2 & W3).
  destruct (differs (bar_start_time s) bar_start) eqn:Hd.
  - assert (Hdone : outcome (aggregate_tick ib bar_start price s) = Done tt).
    { unfold aggregate_tick. run_m. rewrite Hd.
      destruct (bar_start_time s) as [t|]; [|reflexivity].
      destruct (cur_open (current_bar s)) as [o|] eqn:Eo; [|reflexivity].
      destruct (@close_bar_done ib s W) as (D & _ & _).
      { rewrite Eo. discriminate. }
      unfold outcome in D.
      destruct (_close_bar ib s) as [[r s1] l1]. cbn [fst snd] in *.
      rewrite D. reflexivity. }
    split; [exact Hdone|].
    destruct (aggregate_new_bucket ib bar_start price s Hd Hdone) as [E1 E2].
    rewrite E1, E2. split; [|discriminate].
    unfold complete. cbn. repeat split; discriminate.
  - assert (Hs : bar_start_time s <> None).
    { destruct (bar_start_time s); [discriminate | discriminate Hd]. }
    destruct (W1 (or_introl Hs)) as (C1 & C2 & C3 & C4).
    destruct (cur_high (current_bar s)) as [h|] eqn:Eh; [|congruence].
    destruct (cur_low (current_bar s)) as [l|] eqn:El; [|congruence].
    rewrite (aggregate_same_bucket ib bar_start price s Hd Eh El).
    unfold outcome, final. cbn [fst snd]. split; [reflexivity|].
    split; [|exact Hs].
    unfold complete. cbn. repeat split; try discriminate. exact C1.
Qed.

Lemma keeps_slope_aggregate :
  forall ib bar_start price, keeps keeps_slope (aggregate_tick ib bar_start price).
Proof.
  intros ib bar_start price.
  apply keeps_aggregate_tick with (G := fun _ => True);
    first [ exact I
          | solve [intros; intros Hw; exact Hw]
          | solve [unfold keeps_slope; intros; auto]
          | solve [unfold keeps_slope; cbn; intros; discriminate]
          | idtac ].
  intros ib' _ s Hpos Hw. unfold _exit_short. run_m.
  destruct (is_filled (ib' BUY)); cbn [fst snd app]; [|exact Hw].
  destruct (position_entry_price s); exact Hw.
Qed.

Lemma check_entry_done :
  forall ib price s,
    (current_ma70 s <> None -> ma70_slope s <> None) ->
    outcome (_check_entry_conditions ib price s) = Done tt.
Proof.
  intros ib price s Hw. unfold _check_entry_conditions. run_m.
  destruct (in_position s); [reflexivity|].
  destruct (current_ma70 s) as [ma|]; [|reflexivity].
  destruct (current_tsi s) as [tsi|]; [|reflexivity].
  destruct (price_was_above_ma s) as [was|]; [|reflexivity].
  cbn [fst snd app]. destruct (was && negb (price >? ma)%flt); [|reflexivity].
  cbn [fst snd app set_price_was_above_ma ma70_slope].
  destruct (ma70_slope s) as [slope|];
    [|exfalso; apply Hw; [discriminate | reflexivity]].
  destruct ((slope <? zero)%flt && (tsi <? TSI_THRESHOLD)%flt); [|reflexivity].
  rewrite enter_short_result. reflexivity.
Qed.

(** The tick handler decomposed: the bar aggregation, then the entry check
    on the object with the last price recorded. *)
Lemma on_tick_steps :
  forall ib now price s,
    isnan price = false ->
    outcome (aggregate_tick ib (_get_bar_start_time now) price s) = Done tt ->
    _on_tick ib now (Some price) s
    = (outcome (_check_entry_conditions ib price
                  (set_last_price (Some price)
                     (final (aggregate_tick ib (_get_bar_start_time now) price s)))),
       final (_check_entry_conditions ib price
                (set_last_price (Some price)
                   (final (aggregate_tick ib (_get_bar_start_time now) price s)))),
       events (aggregate_tick ib (_get_bar_start_time now) price s)
       ++ events (_check_entry_conditions ib price
                    (set_last_price (Some price)
                       (final (aggregate_tick ib (_get_bar_start_time now)
                                 price s))))).
Proof.
  intros ib now price s Hp Ha.
  unfold _on_tick. rewrite Hp. unfold outcome, final, events in *.
  unfold bind at 1.
  destruct (aggregate_tick ib (_get_bar_start_time now) price s)
    as [[r1 s1] l1]. cbn [fst snd] in *. subst r1.
  unfold bind, modify. cbn [fst snd app].
  destruct (_check_entry_conditions ib price (set_last_price (Some price) s1))
    as [[r2 s2] l2]. reflexivity.
Qed.

Lemma on_tick_final :
  forall ib now price s,
    isnan price = false ->
    outcome (aggregate_tick ib (_get_bar_start_time now) price s) = Done tt ->
    final (_on_tick ib now (Some price) s)
    = final (_check_entry_conditions ib price
               (set_last_price (Some price)
                  (final (aggregate_tick ib (_get_bar_start_time now) price s)))).
Proof.
  intros ib now price s Hp Ha. rewrite (@on_tick_steps ib now price s Hp Ha).
  reflexivity.
Qed.

Lemma on_tick_outcome :
  forall ib now price s,
    isnan price = false ->
    outcome (aggregate_tick ib (_get_bar_start_time now) price s) = Done tt ->
    outcome (_on_tick ib now (Some price) s)
    = outcome (_check_entry_conditions ib price
                 (set_last_price (Some price)
                    (final (aggregate_tick ib (_get_bar_start_time now) price s)))).
Proof.
  intros ib now price s Hp Ha. rewrite (@on_tick_steps ib now price s Hp Ha).
  reflexivity.
Qed.

Lemma on_tick_events :
  forall ib now price s,
    isnan price = false ->
    outcome (aggregate_tick ib (_get_bar_start_time now) price s) = Done tt ->
    events (_on_tick ib now (Some price) s)
    = events (aggregate_tick ib (_get_bar_start_time now) price s)
      ++ events (_check_entry_conditions ib price
                   (set_last_price (Some price)
                      (final (aggregate_tick ib (_get_bar_start_time now)
                                price s)))).
Proof.
  intros ib now price s Hp Ha. rewrite (@on_tick_steps ib now price s Hp Ha).
  reflexivity.
Qed.

(** From a well-formed object the tick handler returns normally and leaves a
    well-formed object. *)
Lemma on_tick_well_formed :
  forall ib now last s,
    well_formed s ->
    outcome (_on_tick ib now last s) = Done tt /\
    well_formed (final (_on_tick ib now last s)).
Proof.
  intros ib now last s W.
  destruct last as [price|]; [|split; [reflexivity | exact W]].
  destruct (isnan price) eqn:Hp.
  { unfold _on_tick. rewrite Hp. split; [reflexivity | exact W]. }
  destruct (aggregate_done ib (_get_bar_start_time now) price W)
    as (Da & Ca & Sa).
  pose proof (keeps_slope_aggregate ib (_get_bar_start_time now) price s) as Ka.
  pose proof W as (W1 & W2 & W3). specialize (Ka W3).
  split.
  - rewrite (@on_tick_outcome ib now price s Hp Da).
    apply check_entry_done. exact Ka.
  - split; [|split].
    + intros _.
      rewrite (@on_tick_final ib now price s Hp Da).
      destruct (leaves_bar_check_entry ib price
                  (set_last_price (Some price)
                     (final (aggregate_tick ib (_get_bar_start_time now) price s))))
        as (L1 & _ & _).
      rewrite L1. exact Ca.
    + apply (keeps_entry_price_on_tick ib now (Some price) s W2).
    + apply (keeps_slope_on_tick ib now (Some price) s W3).
Qed.

Lemma load_well_formed :
  forall bars s,
    well_formed s -> well_formed (final (load_historical_data bars s)).
Proof.
  intros bars s (W1 & W2 & W3). unfold load_historical_data.
  destruct bars as [|b bars]; [split; [exact W1|]; split; [exact W2 | exact W3]|].
  unfold bind, modify. cbn [fst snd].
  destruct (update_indicators_result (set_bars_5min (b :: bars) s))
    as (ma & slope & tsi & psar & E).
  rewrite E. unfold final. cbn [fst snd].
  destruct (length (bars_5min (set_bars_5min (b :: bars) s)) <? MA_PERIOD)%nat.
  - split; [exact W1|]. split; [exact W2 | exact W3].
  - split; [exact W1|]. split; [exact W2|]. cbn. discriminate.
Qed.

Lemma load_tracker :
  forall bars s,
    price_was_above_ma (final (load_historical_data bars s))
    = price_was_above_ma s.
Proof.
  intros bars s. unfold load_historical_data.
  destruct bars as [|b bars]; [reflexivity|].
  unfold bind, modify. cbn [fst snd].
  destruct (update_indicators_result (set_bars_5min (b :: bars) s))
    as (ma & slope & tsi & psar & E).
  rewrite E. unfold final. cbn [fst snd].
  destruct (length (bars_5min (set_bars_5min (b :: bars) s)) <? MA_PERIOD)%nat;
    reflexivity.
Qed.

(** The tick handler keeps the tracker settled. *)
Lemma on_tick_tracker_settled :
  forall ib now last s,
    well_formed s -> tracker_settled s ->
    tracker_settled (final (_on_tick ib now last s)).
Proof.
  intros ib now last s W [J1 J2].
  destruct last as [price|]; [|split; assumption].
  destruct (isnan price) eqn:Hp.
  { unfold _on_tick. rewrite Hp. split; assumption. }
  destruct (aggregate_done ib (_get_bar_start_time now) price W) as (Da & _ & _).
  rewrite (@on_tick_final ib now price s Hp Da).
  destruct (tick_frame_aggregate ib (_get_bar_start_time now) price s)
    as (T1 & T2 & T3 & T4 & T5).
  set (s1 := final (aggregate_tick ib (_get_bar_start_time now) price s)) in *.
  set (s2 := set_last_price (Some price) s1).
  destruct (same_reference_check_entry ib price s2) as (R1 & R2 & R3 & R4).
  destruct (in_position s2) eqn:Hpos.
  - rewrite (check_entry_noop ib price s2 (or_introl Hpos)).
    unfold final. cbn [fst snd]. split.
    + intros Hn. change (price_was_above_ma s2) with (price_was_above_ma s1) in Hn.
      rewrite T1 in Hn. destruct (J1 Hn) as [A B].
      split; [apply T3; exact A | apply T4; exact B].
    + intros Hf. change (in_position s2) with (in_position s1) in *. congruence.
  - destruct (current_ma70 s2) as [ma|] eqn:Hma.
    + destruct (current_tsi s2) as [tsi|] eqn:Htsi.
      * pose proof (check_entry_tracker ib price s2 Hpos Hma Htsi) as Ht.
        split.
        { intros _. rewrite R1, R2. split; discriminate. }
        { intros _ was Hw. rewrite Ht in Hw. injection Hw as <-.
          exists price, ma. rewrite R4, R1. repeat split. }
      * rewrite (check_entry_noop ib price s2 (or_intror (or_intror Htsi))).
        unfold final. cbn [fst snd].
        assert (Hn : price_was_above_ma s = None).
        { destruct (price_was_above_ma s) eqn:E; [|reflexivity].
          exfalso. destruct J1 as [_ B]; [discriminate|].
          apply (T4 B). exact Htsi. }
        split.
        { intros H. exfalso. apply H.
          change (price_was_above_ma s1 = None). rewrite T1. exact Hn. }
        { intros _ was Hw. change (price_was_above_ma s1 = Some was) in Hw.
          rewrite T1, Hn in Hw. discriminate Hw. }
    + rewrite (check_entry_noop ib price s2 (or_intror (or_introl Hma))).
      unfold final. cbn [fst snd].
      assert (Hn : price_was_above_ma s = None).
      { destruct (price_was_above_ma s) eqn:E; [|reflexivity].
        exfalso. destruct J1 as [A _]; [discriminate|].
        apply (T3 A). exact Hma. }
      split.
      { intros H. exfalso. apply H.
        change (price_was_above_ma s1 = None). rewrite T1. exact Hn. }
      { intros _ was Hw. change (price_was_above_ma s1 = Some was) in Hw.
        rewrite T1, Hn in Hw. discriminate Hw. }
Qed.

(** After the warm-up, any run of tick callbacks leaves a well-formed object
    whose tracker is settled. *)
Lemma ticks_settled :
  forall ticks s,
    Forall is_tick ticks -> well_formed s -> tracker_settled s ->
    well_formed (fst (run ticks s)) /\ tracker_settled (fst (run ticks s)).
Proof.
  induction ticks as [|c rest IH]; intros s Hall W J; [split; assumption|].
  inversion Hall as [|? ? Hc Hrest]; subst.
  destruct c as [bars | ib now last]; [contradiction|].
  cbn [run handle].
  destruct (on_tick_well_formed ib now last W) as [_ W'].
  pose proof (on_tick_tracker_settled ib now last W J) as J'.
  unfold final in *.
  destruct (_on_tick ib now last s) as [[r s1] l1]. cbn [fst snd] in *.
  specialize (IH s1 Hrest W' J').
  destruct (run rest s1) as [s2 l2]. exact IH.
Qed.

Lemma warm_up_settled :
  forall history ticks,
    Forall is_tick ticks ->
    well_formed (fst (run (LoadHistory history :: ticks) __init__)) /\
    tracker_settled (fst (run (LoadHistory history :: ticks) __init__)).
Proof.
  intros history ticks Hall. cbn [run handle].
  assert (W0 : well_formed __init__).
  { split; [intros [K | K]; exfalso; apply K; reflexivity|].
    split; cbn; intros K; [discriminate K | exfalso; apply K; reflexivity]. }
  pose proof (load_well_formed history W0) as W.
  pose proof (load_tracker history __init__) as T.
  unfold final in *.
  destruct (load_historical_data history __init__) as [[r s1] l1].
  cbn [fst snd] in *.
  assert (J : tracker_settled s1).
  { split; [intros H; exfalso; apply H; exact T|].
    intros _ was Hw. rewrite T in Hw. discriminate Hw. }
  pose proof (ticks_settled Hall W J) as K.
  destruct (run ticks s1) as [s2 l2]. exact K.
Qed.

(* ================================================================== *)
(** * Worked instances *)
(* ================================================================== *)

(** Short from 160 with a bar whose high is 170: the close recomputes the
    stop to 129, EXIT_SHORT is emitted, and the fill at 165 leaves the bot
    flat with a P&L of 160 - 165. *)
Lemma C2_exit_signal_witness :
  intents (events (_close_bar (fills_at (of_Z 165)) short_after_crossing))
  = [EXIT_SHORT] /\
  in_position (final (_close_bar (fills_at (of_Z 165)) short_after_crossing))
  = false /\
  In (PnL (of_Z 160 - of_Z 165)%flt)
     (events (_close_bar (fills_at (of_Z 165)) short_after_crossing)).
Proof.
  destruct (@C2_exit_signal (fills_at (of_Z 165)) short_after_crossing
              (of_Z 170) (of_Z 170) (of_Z 160) (of_Z 160) (of_Z 160))
    as (_ & _ & H).
  - vm_compute. reflexivity.
  - vm_compute. reflexivity.
  - vm_compute. reflexivity.
  - vm_compute. reflexivity.
  - vm_compute. reflexivity.
  - vm_compute. reflexivity.
  - destruct (H (of_Z 129)) as (Hiff & _ & Hfill & _).
    + vm_compute. reflexivity.
    + split; [apply Hiff; vm_compute; reflexivity|].
      destruct Hfill as (A & _ & C).
      * vm_compute. reflexivity.
      * reflexivity.
      * split; [exact A | exact C].
Defined.

(** A cancelled order: the tick at 10:05:01 closes the bar of the short bot,
    the exit order is not filled, and the position is what it was. *)
Lemma C3_non_fill_witness :
  same_position short_after_crossing
    (final (_on_tick cancels at_10_05 (Some (of_Z 180)) short_after_crossing)).
Proof.
  destruct (@C3_non_fill_no_transition cancels) as (_ & _ & _ & _ & H).
  - vm_compute. discriminate.
  - vm_compute. discriminate.
  - apply H.
Defined.

Lemma C4_parabolic_sar_witness :
  exists result,
    calculate_parabolic_sar three_highs three_lows PSAR_AF PSAR_MAX_AF
    = Some result /\ length result = 3%nat.
Proof.
  destruct (@C4_parabolic_sar_steps three_highs three_lows PSAR_AF PSAR_MAX_AF)
    as (result & E & L & _).
  - discriminate.
  - reflexivity.
  - intros x [<- | [<- | [<- | []]]]; reflexivity.
  - intros x [<- | [<- | [<- | []]]]; reflexivity.
  - exists result. split; [exact E | exact L].
Defined.

Lemma C6_closed_bars_witness :
  current_bar (final (aggregate_tick cancels (_get_bar_start_time at_10_02)
                        (of_Z 100) __init__))
  = mkCurrentBar (Some (of_Z 100)) (Some (of_Z 100)) (Some (of_Z 100))
      (Some (of_Z 100)) zero /\
  current_bar
    (final (aggregate_tick cancels (_get_bar_start_time at_10_04) (of_Z 105)
              (fst (run [Tick cancels at_10_02 (Some (of_Z 100))] __init__))))
  = mkCurrentBar (Some (of_Z 100)) (Some (max2 (of_Z 100) (of_Z 105)))
      (Some (min2 (of_Z 100) (of_Z 105))) (Some (of_Z 105)) zero.
Proof.
  destruct C6_closed_bars_in_order as (_ & Hnew & Hsame). split.
  - apply Hnew; reflexivity.
  - apply (Hsame cancels (_get_bar_start_time at_10_04) (of_Z 105)
             (fst (run [Tick cancels at_10_02 (Some (of_Z 100))] __init__))
             (of_Z 100) (of_Z 100)); vm_compute; reflexivity.
Defined.

Lemma C7_dropped_tick_witness :
  _on_tick cancels at_10_02 (Some nan) warmed_up = (Done tt, warmed_up, []) /\
  current_bar (final (_on_tick cancels at_10_02 (Some (S754_infinity false))
                        __init__))
  = mkCurrentBar (Some (S754_infinity false)) (Some (S754_infinity false))
      (Some (S754_infinity false)) (Some (S754_infinity false)) zero.
Proof.
  destruct C7_missing_or_nan_tick_dropped as (_ & Hnan & Hother). split.
  - apply Hnan. reflexivity.
  - apply Hother; reflexivity.
Defined.

Lemma C8_tracker_witness :
  price_was_above_ma
    (final (_check_entry_conditions cancels (of_Z 170) warmed_up))
  = Some (of_Z 170 >? of_ratio 329 2)%flt /\
  price_was_above_ma
    (final (_on_tick cancels at_10_04 (Some (of_Z 170)) short_after_crossing))
  = price_was_above_ma short_after_crossing.
Proof.
  destruct C8_tracker_written_only_when_flat as (_ & Hflat & _ & _ & Hshort).
  split.
  - apply (Hflat cancels (of_Z 170) warmed_up (of_ratio 329 2) (of_Z (-100)));
      vm_compute; reflexivity.
  - apply Hshort; [vm_compute; reflexivity | vm_compute; discriminate].
Defined.

Lemma C9_volume_witness :
  cur_volume
    (current_bar
       (final (aggregate_tick cancels (_get_bar_start_time at_10_04) (of_Z 105)
                 (fst (run [Tick cancels at_10_02 (Some (of_Z 100))] __init__)))))
  = cur_volume
      (current_bar (fst (run [Tick cancels at_10_02 (Some (of_Z 100))] __init__))) /\
  cur_volume
    (current_bar (final (aggregate_tick cancels (_get_bar_start_time at_10_02)
                           (of_Z 100) __init__)))
  = zero.
Proof.
  destruct C9_volume_never_aggregated as (Hsame & Hnew & _). split.
  - apply Hsame. vm_compute. reflexivity.
  - apply Hnew; reflexivity.
Defined.

Lemma C10_coupling_witness :
  coupled
    (final (handle (Tick (fills_at (of_Z 160)) at_10_02 (Some (of_Z 160)))
              (fst (run first_tick_above warmed_up))))
    (entry_fill
       (events (handle (Tick (fills_at (of_Z 160)) at_10_02 (Some (of_Z 160)))
                  (fst (run first_tick_above warmed_up))))
       None).
Proof.
  destruct C10_position_entry_price_coupled as (_ & Hhandle & _).
  apply Hhandle. split.
  - intros _. vm_compute. reflexivity.
  - vm_compute. intros H. discriminate H.
Defined.

(* ================================================================== *)
(** * The bucket of a timestamp *)
(* ================================================================== *)

Lemma datetime_eqb_eq : forall a b, datetime_eqb a b = true <-> a = b.
Proof.
  intros [y1 mo1 d1 h1 mi1 s1 u1] [y2 mo2 d2 h2 mi2 s2 u2].
  unfold datetime_eqb. cbn [year month day hour minute second microsecond].
  rewrite !andb_true_iff, !Z.eqb_eq. split.
  - intros [[[[[[-> ->] ->] ->] ->] ->] ->]. reflexivity.
  - intros H. injection H as -> -> -> -> -> -> ->. repeat split.
Qed.

(** X1.  For a timestamp whose minute lies within the hour, the start of its
    bar is on the same date and hour, at a minute that is a multiple of five
    between 0 and 55, with zero seconds and microseconds; the timestamp's
    minute lies in the five minutes that start there. *)
Theorem bar_start_in_bucket :
  forall t : datetime,
    0 <= minute t < 60 ->
    0 <= minute (_get_bar_start_time t) <= 55 /\
    minute (_get_bar_start_time t) mod 5 = 0 /\
    minute (_get_bar_start_time t) <= minute t < minute (_get_bar_start_time t) + 5 /\
    second (_get_bar_start_time t) = 0 /\
    microsecond (_get_bar_start_time t) = 0 /\
    year (_get_bar_start_time t) = year t /\
    month (_get_bar_start_time t) = month t /\
    day (_get_bar_start_time t) = day t /\
    hour (_get_bar_start_time t) = hour t.
Proof.
  intros t Hm. unfold _get_bar_start_time, TIMEFRAME_MINUTES.
  cbn [year month day hour minute second microsecond].
  rewrite Z.mod_mul by lia.
  pose proof (Z.div_mod (minute t) 5 ltac:(lia)) as D.
  pose proof (Z.mod_pos_bound (minute t) 5 ltac:(lia)) as B.
  repeat split; lia.
Qed.

Lemma bar_start_aligned :
  forall t : datetime, bucket_start (_get_bar_start_time t).
Proof.
  intros t. unfold bucket_start, _get_bar_start_time, TIMEFRAME_MINUTES.
  cbn [year month day hour minute second microsecond].
  rewrite Z.div_mul by lia. reflexivity.
Qed.

(** X2.  The start of a bar is its own bar start: rounding a timestamp down
    to its bucket twice gives what rounding once gives. *)
Theorem bar_start_idempotent :
  forall t : datetime,
    _get_bar_start_time (_get_bar_start_time t) = _get_bar_start_time t.
Proof.
  intros t. unfold _get_bar_start_time, TIMEFRAME_MINUTES.
  cbn [year month day hour minute second microsecond].
  rewrite Z.div_mul by lia. reflexivity.
Qed.

(** X3.  Two timestamps are taken for the same bar exactly when they agree
    on year, month, day and hour and their minutes have the same quotient by
    five; seconds and microseconds play no part. *)
Theorem same_bucket_iff :
  forall a b : datetime,
    differs (Some (_get_bar_start_time a)) (_get_bar_start_time b) = false
    <-> year a = year b /\ month a = month b /\ day a = day b /\
        hour a = hour b /\ minute a / 5 = minute b / 5.
Proof.
  intros a b. cbn [differs]. rewrite negb_false_iff, datetime_eqb_eq.
  unfold _get_bar_start_time, TIMEFRAME_MINUTES. split.
  - intros H. injection H as Hy Hmo Hd Hh Hmi.
    repeat split; try assumption. lia.
  - intros (-> & -> & -> & -> & ->). reflexivity.
Qed.

(* ================================================================== *)
(** * The oscillator at its edges *)
(* ================================================================== *)

Lemma mul_nan_r : forall x, (x * nan)%flt = nan.
Proof. intros [| | |]; reflexivity. Qed.

Lemma div_nan_l : forall x, (nan / x)%flt = nan.
Proof. intros x. reflexivity. Qed.

(** X4.  The oscillator of a non-empty series has as many values as the
    series, and its first value is NaN: there is no momentum at the first
    bar. *)
Theorem tsi_first_value_undefined :
  forall (c : float) (rest : list float) (fast slow : Z),
    exists values,
      calculate_tsi (c :: rest) fast slow = nan :: values /\
      length values = length rest.
Proof.
  intros c rest fast slow.
  pose proof (length_calculate_tsi (c :: rest) fast slow) as L.
  unfold calculate_tsi in *. cbn [pd.diff pd.abs map pd.ewm_mean pd.zip_with] in *.
  change (Float.abs nan) with nan in *. cbn [pd.ewm_mean pd.zip_with] in *.
  rewrite mul_nan_r, div_nan_l in *.
  eexists. split; [reflexivity|]. cbn [length] in L. lia.
Qed.

Lemma sub_self : forall c, is_finite c = true -> (c - c)%flt = zero.
Proof.
  intros [s|s| |s m e] H; try discriminate H.
  - cbn. destruct s; reflexivity.
  - unfold sub, SFsub. rewrite Z.sub_diag. reflexivity.
Qed.

Lemma diff_from_constant :
  forall c n, is_finite c = true -> pd.diff_from c (repeat c n) = repeat zero n.
Proof.
  intros c n H. induction n as [|n IH]; [reflexivity|].
  cbn [repeat pd.diff_from]. rewrite IH, (@sub_self c H). reflexivity.
Qed.

Lemma ewm_next_zero_or_nan :
  forall a prev x,
    zero_or_nan prev = true -> zero_or_nan x = true ->
    zero_or_nan (pd.ewm_next a prev x) = true.
Proof.
  intros a [sp|sp| |sp mp ep] [sx|sx| |sx mx ex] Hp Hx;
    try discriminate Hp; try discriminate Hx;
    unfold pd.ewm_next; cbn [isnan]; try reflexivity.
  - destruct a as [[]|[]| |[] ma ea], sp, sx; reflexivity.
  - destruct a as [[]|[]| |[] ma ea], sp; reflexivity.
Qed.

Lemma ewm_from_zero_or_nan :
  forall a s prev,
    zero_or_nan prev = true -> Forall (fun x => zero_or_nan x = true) s ->
    Forall (fun x => zero_or_nan x = true) (pd.ewm_from a prev s).
Proof.
  intros a. induction s as [|x s IH]; intros prev Hp Hs; [constructor|].
  inversion Hs as [|? ? Hx Hr]; subst. cbn [pd.ewm_from].
  pose proof (@ewm_next_zero_or_nan a prev x Hp Hx) as Hn.
  constructor; [exact Hn | apply IH; assumption].
Qed.

Lemma ewm_mean_zero_or_nan :
  forall span s,
    Forall (fun x => zero_or_nan x = true) s ->
    Forall (fun x => zero_or_nan x = true) (pd.ewm_mean span s).
Proof.
  intros span [|x s] Hs; [constructor|].
  inversion Hs as [|? ? Hx Hr]; subst. cbn [pd.ewm_mean].
  constructor; [exact Hx | apply ewm_from_zero_or_nan; assumption].
Qed.

Lemma ratio_zero_or_nan :
  forall k e a,
    zero_or_nan e = true -> zero_or_nan a = true -> (k * e / a)%flt = nan.
Proof.
  intros k [[]|[]| |se me ee] [[]|[]| |sa ma ea] He Ha;
    try discriminate He; try discriminate Ha;
    destruct k as [[]|[]| |[] mk ek]; reflexivity.
Qed.

Lemma zip_with_zero_or_nan :
  forall k s t,
    Forall (fun x => zero_or_nan x = true) s ->
    Forall (fun x => zero_or_nan x = true) t ->
    length s = length t ->
    pd.zip_with (fun e a => (k * e / a)%flt) s t = repeat nan (length s).
Proof.
  intros k. induction s as [|x s IH]; intros [|y t] Hs Ht L;
    cbn in L; try discriminate L; [reflexivity|].
  inversion Hs as [|? ? Hx Hs']; subst. inversion Ht as [|? ? Hy Ht']; subst.
  cbn [pd.zip_with length repeat].
  rewrite (@ratio_zero_or_nan k x y Hx Hy). f_equal.
  apply IH; [assumption | assumption | lia].
Qed.

Lemma momentum_of_constant :
  forall c n,
    is_finite c = true ->
    Forall (fun x => zero_or_nan x = true) (pd.diff (repeat c n)) /\
    Forall (fun x => zero_or_nan x = true) (pd.abs (pd.diff (repeat c n))).
Proof.
  intros c n H. destruct n as [|n]; [split; constructor|].
  cbn [repeat pd.diff]. rewrite (@diff_from_constant c n H).
  unfold pd.abs. cbn [map].
  assert (Z : Forall (fun x => zero_or_nan x = true) (repeat zero n)).
  { apply Forall_forall. intros x Hx. apply repeat_spec in Hx. subst.
    reflexivity. }
  split; [constructor; [reflexivity | exact Z]|].
  constructor; [reflexivity|].
  apply Forall_forall. intros x Hx. apply in_map_iff in Hx.
  destruct Hx as [y [<- Hy]]. apply repeat_spec in Hy. subst. reflexivity.
Qed.

(** X5.  On a series of equal finite closes the oscillator is NaN at every
    bar, whatever the two spans: the momentum is zero throughout, and the
    ratio of the two smoothed zeros is not a number. *)
Theorem tsi_of_constant_series :
  forall (c : float) (n : nat) (fast slow : Z),
    is_finite c = true ->
    calculate_tsi (repeat c n) fast slow = repeat nan n.
Proof.
  intros c n fast slow H.
  destruct (@momentum_of_constant c n H) as [Hm Ha].
  unfold calculate_tsi.
  rewrite zip_with_zero_or_nan.
  - rewrite !length_ewm_mean, length_diff, repeat_length. reflexivity.
  - apply ewm_mean_zero_or_nan. apply ewm_mean_zero_or_nan. exact Hm.
  - apply ewm_mean_zero_or_nan. apply ewm_mean_zero_or_nan. exact Ha.
  - unfold pd.abs. rewrite !length_ewm_mean, length_map. reflexivity.
Qed.

Lemma tsi_of_constant_series_witness :
  calculate_tsi (repeat (of_Z 100) 3) TSI_FAST TSI_SLOW = [nan; nan; nan].
Proof.
  apply (@tsi_of_constant_series (of_Z 100) 3%nat TSI_FAST TSI_SLOW).
  reflexivity.
Defined.

Lemma bar_start_in_bucket_witness :
  minute (_get_bar_start_time at_10_04) = 0 /\
  second (_get_bar_start_time at_10_04) = 0.
Proof.
  destruct (@bar_start_in_bucket at_10_04) as (_ & _ & _ & Hs & _).
  - cbn. lia.
  - split; [reflexivity | exact Hs].
Defined.

(* ================================================================== *)
(** * The shape of the stop series *)
(* ================================================================== *)

(** Every iteration of the loop assigns one more entry and leaves the
    earlier ones alone. *)
Lemma sar_body_appends :
  forall high low af_start af_max i v v',
    sar_body high low af_start af_max i v = Some v' ->
    exists x, sar v' = sar v ++ [x].
Proof.
  intros high low af_start af_max i v v'. unfold sar_body.
  destruct (pd.iloc (sar v) (i - 1)) as [p|]; [|discriminate].
  destruct (uptrend v).
  - destruct (if (2 <=? i)%nat then pd.iloc low (i - 2) else pd.iloc low (i - 1));
      [|destruct (pd.iloc low (i - 1)); discriminate].
    destruct (pd.iloc low (i - 1)); [|discriminate].
    destruct (pd.iloc low i); [|discriminate].
    destruct (_ <? _)%flt.
    + intros E. injection E as <-. eexists. reflexivity.
    + destruct (pd.iloc high i); [|discriminate].
      destruct (_ >? _)%flt; intros E; injection E as <-; eexists; reflexivity.
  - destruct (if (2 <=? i)%nat then pd.iloc high (i - 2) else pd.iloc high (i - 1));
      [|destruct (pd.iloc high (i - 1)); discriminate].
    destruct (pd.iloc high (i - 1)); [|discriminate].
    destruct (pd.iloc high i); [|discriminate].
    destruct (_ >? _)%flt.
    + intros E. injection E as <-. eexists. reflexivity.
    + destruct (pd.iloc low i); [|discriminate].
      destruct (_ <? _)%flt; intros E; injection E as <-; eexists; reflexivity.
Qed.

Lemma sar_loop_shape :
  forall high low af_start af_max k v,
    sar_loop high low af_start af_max k = Some v ->
    length (sar v) = S k /\
    exists high0 rest, pd.iloc high 0 = Some high0 /\ sar v = high0 :: rest.
Proof.
  intros high low af_start af_max.
  induction k as [|k IH]; intros v E; cbn [sar_loop] in E.
  - unfold sar_init in E.
    destruct (pd.iloc low 0) as [low0|]; [|discriminate].
    destruct (pd.iloc high 0) as [high0|]; [|discriminate].
    injection E as <-. split; [reflexivity|].
    exists high0, []. split; reflexivity.
  - destruct (sar_loop high low af_start af_max k) as [u|]; [|discriminate].
    destruct (IH u eq_refl) as (L & high0 & rest & H0 & Eu).
    destruct (@sar_body_appends high low af_start af_max (S k) u v E) as [x Ex].
    rewrite Ex, length_app, L. cbn [length]. split; [lia|].
    exists high0, (rest ++ [x]). split; [exact H0|]. rewrite Eu. reflexivity.
Qed.

(** X6.  On a high and a low series of the same length the stop is computed
    (no [IndexError]) exactly when the series are not empty: an empty frame
    fails on the first bar, and nothing else can fail. *)
Theorem parabolic_sar_fails_iff_empty :
  forall (high low : list float) (af_start af_max : float),
    length high = length low ->
    (calculate_parabolic_sar high low af_start af_max = None <-> high = []).
Proof.
  intros high low af_start af_max Hlen. split.
  - intros E. destruct high as [|h high]; [reflexivity|].
    destruct (@calculate_parabolic_sar_some (h :: high) low af_start af_max)
      as [result [Er _]]; [discriminate | exact Hlen |].
    rewrite Er in E. discriminate E.
  - intros ->. destruct low; [reflexivity | discriminate Hlen].
Qed.

(** X7.  Whenever the stop series is computed it has one value per bar of
    the high series, and its first value is the first high. *)
Theorem parabolic_sar_length_and_start :
  forall (high low : list float) (af_start af_max : float) (result : list float),
    calculate_parabolic_sar high low af_start af_max = Some result ->
    length result = length high /\
    exists high0, pd.iloc high 0 = Some high0 /\ pd.iloc result 0 = Some high0.
Proof.
  intros high low af_start af_max result E.
  unfold calculate_parabolic_sar in E.
  destruct (sar_loop high low af_start af_max (length high - 1)) as [v|] eqn:Ev;
    [|discriminate].
  injection E as <-.
  destruct (@sar_loop_shape high low af_start af_max _ v Ev)
    as (L & high0 & rest & H0 & Es).
  split.
  - rewrite L. destruct high; [discriminate H0 | cbn [length]; lia].
  - exists high0. split; [exact H0|]. rewrite Es. reflexivity.
Qed.

Lemma parabolic_sar_fails_iff_empty_witness :
  calculate_parabolic_sar [] [] PSAR_AF PSAR_MAX_AF = None /\
  calculate_parabolic_sar three_highs three_lows PSAR_AF PSAR_MAX_AF <> None.
Proof.
  split.
  - apply (@parabolic_sar_fails_iff_empty [] [] PSAR_AF PSAR_MAX_AF); reflexivity.
  - intros E.
    apply (@parabolic_sar_fails_iff_empty three_highs three_lows
             PSAR_AF PSAR_MAX_AF) in E; [discriminate E | reflexivity].
Defined.

Lemma parabolic_sar_length_and_start_witness :
  exists result,
    calculate_parabolic_sar three_highs three_lows PSAR_AF PSAR_MAX_AF
    = Some result /\
    length result = 3%nat /\ pd.iloc result 0 = Some (of_Z 10).
Proof.
  destruct (calculate_parabolic_sar three_highs three_lows PSAR_AF PSAR_MAX_AF)
    as [result|] eqn:E; [|vm_compute in E; discriminate E].
  destruct (@parabolic_sar_length_and_start three_highs three_lows
              PSAR_AF PSAR_MAX_AF result E) as (L & high0 & H0 & R0).
  exists result. split; [reflexivity|]. split; [exact L|].
  injection H0 as <-. exact R0.
Defined.

(* ================================================================== *)
(** * The values of the indicator cache *)
(* ================================================================== *)

Lemma iloc_last_snoc :
  forall (l : list float) x, pd.iloc_last (l ++ [x]) = Some x.
Proof.
  intros [|y l] x; [reflexivity|].
  cbn [app pd.iloc_last]. f_equal. apply last_last.
Qed.

Lemma diff_from_app :
  forall l1 l2 p,
    pd.diff_from p (l1 ++ l2)
    = pd.diff_from p l1 ++ pd.diff_from (List.last l1 p) l2.
Proof.
  induction l1 as [|x l1 IH]; intros l2 p; [reflexivity|].
  cbn [app pd.diff_from]. rewrite IH.
  assert (E : List.last l1 x = List.last (x :: l1) p).
  { destruct l1 as [|y l1]; [reflexivity|].
    change (List.last (x :: y :: l1) p) with (List.last (y :: l1) p).
    apply last_indep. discriminate. }
  rewrite E. reflexivity.
Qed.

(** The last first difference of a series is the difference of its last two
    values. *)
Lemma diff_last_two :
  forall l a b, pd.iloc_last (pd.diff (l ++ [a; b])) = Some (b - a)%flt.
Proof.
  intros [|x l] a b; [reflexivity|].
  cbn [app pd.diff]. rewrite diff_from_app.
  cbn [pd.diff_from].
  replace (nan :: pd.diff_from x l ++ [(a - List.last l x)%flt; (b - a)%flt])
    with ((nan :: pd.diff_from x l ++ [(a - List.last l x)%flt]) ++ [(b - a)%flt])
    by (cbn [app]; rewrite <- app_assoc; reflexivity).
  apply iloc_last_snoc.
Qed.

(** The rolling mean at row [i] of a series. *)
Lemma rolling_mean_rows :
  forall w s k,
    length s = S k ->
    pd.rolling_mean w s
    = map (fun i : nat =>
             if (S i <? w)%nat then nan
             else (pd.sum (firstn w (skipn (S i - w) s)) / of_Z (Z.of_nat w))%flt)
          (seq 0 k)
      ++ [if (S k <? w)%nat then nan
          else (pd.sum (firstn w (skipn (S k - w) s)) / of_Z (Z.of_nat w))%flt].
Proof.
  intros w s k L. unfold pd.rolling_mean. rewrite L, seq_S, map_app.
  reflexivity.
Qed.

Lemma sub_nan_r : forall x, (x - nan)%flt = nan.
Proof. intros [| | |]; reflexivity. Qed.

(** On exactly [MA_PERIOD] rows the rolling mean has a value on the last row
    only, so its last first difference is NaN. *)
Lemma rolling_mean_slope_first_window :
  forall rows,
    length rows = MA_PERIOD ->
    pd.iloc_last (pd.diff (pd.rolling_mean MA_PERIOD (map bar_close rows)))
    = Some nan.
Proof.
  intros rows H. unfold MA_PERIOD in H.
  assert (L : length (map bar_close rows) = S (S (length rows - 2))).
  { rewrite length_map. lia. }
  rewrite (@rolling_mean_rows MA_PERIOD _ _ L), seq_S, map_app.
  cbn [map]. rewrite <- app_assoc. cbn [app]. rewrite diff_last_two.
  cbn [Nat.add].
  assert (E : (S (length rows - 2) <? MA_PERIOD)%nat = true).
  { apply Nat.ltb_lt. unfold MA_PERIOD. lia. }
  rewrite E. f_equal. apply sub_nan_r.
Qed.

(** The slope [_update_indicators] stores on exactly [MA_PERIOD] rows. *)
Lemma update_indicators_first_window :
  forall s,
    length (bars_5min s) = MA_PERIOD ->
    ma70_slope (final (_update_indicators s)) = Some nan.
Proof.
  intros s H.
  destruct (update_indicators_result s) as (ma & slope & tsi & psar & E).
  assert (Hlt : (length (bars_5min s) <? MA_PERIOD)%nat = false).
  { apply Nat.ltb_ge. rewrite H. apply Nat.le_refl. }
  rewrite Hlt in E. rewrite E.
  revert E. unfold _update_indicators. run_m. rewrite Hlt.
  rewrite (@rolling_mean_slope_first_window (bars_5min s) H).
  destruct (calculate_parabolic_sar _ _ _ _); [|discriminate].
  destruct (pd.iloc_last _); [|discriminate].
  destruct (pd.iloc_last _); [|discriminate].
  destruct (pd.iloc_last _); [|discriminate].
  intros E. injection E as ? ? ? ?. subst. reflexivity.
Qed.

Lemma check_entry_nan_slope :
  forall ib price t,
    ma70_slope t = Some nan ->
    intents (events (_check_entry_conditions ib price t)) = [].
Proof.
  intros ib price t Hs. unfold _check_entry_conditions. run_m.
  destruct (in_position t); [reflexivity|].
  destruct (current_ma70 t) as [ma|]; [|reflexivity].
  destruct (current_tsi t) as [tsi|]; [|reflexivity].
  destruct (price_was_above_ma t) as [was|]; [|reflexivity].
  cbn [fst snd app].
  destruct (was && negb (price >? ma)%flt); [|reflexivity].
  cbn [fst snd app set_price_was_above_ma ma70_slope]. rewrite Hs.
  reflexivity.
Qed.

(** X9.  On a frame of exactly [MA_PERIOD] rows the moving average has no
    predecessor, so the slope [_update_indicators] stores is NaN; and as long
    as the stored slope is NaN the entry check emits no intent, whatever the
    price, the tracker and the oscillator. *)
Theorem no_slope_on_first_full_window :
  forall s : Bot,
    length (bars_5min s) = MA_PERIOD ->
    ma70_slope (final (_update_indicators s)) = Some nan /\
    forall ib price t,
      ma70_slope t = ma70_slope (final (_update_indicators s)) ->
      intents (events (_check_entry_conditions ib price t)) = [].
Proof.
  intros s H.
  rewrite (@update_indicators_first_window s H).
  split; [reflexivity|].
  intros ib price t Ht. apply check_entry_nan_slope. exact Ht.
Qed.

Lemma no_slope_on_first_full_window_witness :
  ma70_slope (final (_update_indicators (set_bars_5min seventy_bars __init__)))
  = Some nan.
Proof.
  destruct (@no_slope_on_first_full_window (set_bars_5min seventy_bars __init__))
    as (H & _).
  - vm_compute. reflexivity.
  - exact H.
Defined.

(* ================================================================== *)
(** * The warm-up *)
(* ================================================================== *)

(** X10.  [load_historical_data] raises [ValueError] exactly on an empty
    answer, and then leaves the object as it was.  A non-empty answer
    replaces the history, produces no event and returns normally: below
    [MA_PERIOD] bars nothing else changes (the four current values stay
    unset on a fresh object); from [MA_PERIOD] bars on the four current
    values are all set. *)
Theorem load_historical_data_result :
  forall (s : Bot),
    load_historical_data [] s = (Raised ValueError, s, []) /\
    forall bars : list Bar,
      bars <> [] ->
      outcome (load_historical_data bars s) = Done tt /\
      events (load_historical_data bars s) = [] /\
      bars_5min (final (load_historical_data bars s)) = bars /\
      ((length bars < MA_PERIOD)%nat ->
       final (load_historical_data bars s) = set_bars_5min bars s) /\
      ((MA_PERIOD <= length bars)%nat ->
       current_ma70 (final (load_historical_data bars s)) <> None /\
       ma70_slope (final (load_historical_data bars s)) <> None /\
       current_tsi (final (load_historical_data bars s)) <> None /\
       current_sar (final (load_historical_data bars s)) <> None).
Proof.
  intros s. split; [reflexivity|].
  intros bars Hne. destruct bars as [|b bars]; [congruence|].
  unfold load_historical_data. unfold bind, modify. cbn [fst snd].
  destruct (update_indicators_result (set_bars_5min (b :: bars) s))
    as (ma & slope & tsi & psar & E).
  rewrite E. unfold outcome, events, final. cbn [fst snd app].
  cbn [bars_5min set_bars_5min].
  split; [reflexivity|]. split; [reflexivity|].
  destruct (length (b :: bars) <? MA_PERIOD)%nat eqn:Hlt.
  - apply Nat.ltb_lt in Hlt. split; [reflexivity|].
    split; [reflexivity|]. intros H. lia.
  - apply Nat.ltb_ge in Hlt. split; [reflexivity|]. split; [intros H; lia|].
    intros _. cbn. repeat split; discriminate.
Qed.

(* ================================================================== *)
(** * Closing a bar *)
(* ================================================================== *)

Lemma tail_rows_short :
  forall n rows, (length rows <= n)%nat -> tail_rows n rows = rows.
Proof.
  intros n rows H. unfold tail_rows.
  replace (length rows - n)%nat with O by lia. reflexivity.
Qed.

Lemma length_tail_rows :
  forall n rows, length (tail_rows n rows) = Nat.min (length rows) n.
Proof. intros n rows. unfold tail_rows. rewrite length_skipn. lia. Qed.

(** [_close_bar] on a complete bar, step by step: the row is appended, the
    history is cut to its latest [max_bars] rows, and the rest of the method
    runs on that object. *)
Lemma close_bar_unfold :
  forall ib s o h l c,
    cur_open (current_bar s) = Some o -> cur_high (current_bar s) = Some h ->
    cur_low (current_bar s) = Some l -> cur_close (current_bar s) = Some c ->
    _close_bar ib s
    = (outcome (after_append ib
                  (set_bars_5min
                     (tail_rows max_bars
                        (bars_5min s
                         ++ [mkBar (bar_start_time s) o h l c
                               (cur_volume (current_bar s))])) s)),
       final (after_append ib
                (set_bars_5min
                   (tail_rows max_bars
                      (bars_5min s
                       ++ [mkBar (bar_start_time s) o h l c
                             (cur_volume (current_bar s))])) s)),
       BarClosed (mkBar (bar_start_time s) o h l c (cur_volume (current_bar s)))
       :: events (after_append ib
                    (set_bars_5min
                       (tail_rows max_bars
                          (bars_5min s
                           ++ [mkBar (bar_start_time s) o h l c
                                 (cur_volume (current_bar s))])) s))).
Proof.
  intros ib s o h l c Ho Hh Hl Hc.
  set (new_bar := mkBar (bar_start_time s) o h l c (cur_volume (current_bar s))).
  set (rows := bars_5min s ++ [new_bar]).
  unfold _close_bar. unfold bind at 1. unfold get at 1. cbn [fst snd].
  rewrite Ho, Hh, Hl, Hc. fold new_bar.
  unfold bind at 1. unfold modify at 1. cbn [fst snd app set_bars_5min bars_5min].
  unfold bind at 1. unfold emit at 1. cbn [fst snd app].
  unfold bind at 1. unfold get at 1. cbn [fst snd app bars_5min].
  fold rows.
  assert (Ekeep :
    (if (max_bars <? length (bars_5min (set_bars_5min rows s)))%nat
     then modify (set_bars_5min
                    (tail_rows max_bars (bars_5min (set_bars_5min rows s))))
     else ret tt) (set_bars_5min rows s)
    = (Done tt, set_bars_5min (tail_rows max_bars rows) s, [])).
  { cbn [bars_5min set_bars_5min].
    destruct (max_bars <? length rows)%nat eqn:E; [reflexivity|].
    apply Nat.ltb_ge in E. rewrite (@tail_rows_short max_bars rows E).
    unfold ret. destruct s; reflexivity. }
  unfold bind at 1.
  change (mkBot rows (current_bar s) (bar_start_time s) (in_position s)
            (position_entry_price s) (last_price s) (price_was_above_ma s)
            (current_tsi s) (current_ma70 s) (ma70_slope s) (current_sar s))
    with (set_bars_5min rows s).
  rewrite Ekeep. cbn [fst snd app].
  unfold after_append, outcome, final, events.
  destruct ((_update_indicators;; _check_exit_conditions ib)
              (set_bars_5min (tail_rows max_bars rows) s)) as [[r s4] l4].
  reflexivity.
Qed.

Lemma keeps_history_enter :
  forall ib price, keeps keeps_history (_enter_short ib price).
Proof.
  intros ib price s. rewrite enter_short_result. unfold keeps_history, final.
  cbn [fst snd]. destruct (is_filled (ib SELL)); reflexivity.
Qed.

Lemma keeps_history_exit : forall ib, keeps keeps_history (_exit_short ib).
Proof.
  intros ib s. unfold _exit_short, keeps_history. run_m.
  destruct (is_filled (ib BUY)); [|reflexivity].
  cbn [fst snd app]. destruct (position_entry_price s); reflexivity.
Qed.

Ltac keeps_history_side :=
  first [ exact I
        | solve [intros; apply keeps_history_enter]
        | solve [intros; apply keeps_history_exit]
        | solve [unfold keeps_history; intros; congruence]
        | solve [unfold keeps_history; intros; reflexivity] ].

Lemma keeps_history_after_append :
  forall ib, keeps keeps_history (after_append ib).
Proof.
  intros ib. unfold after_append.
  apply keeps_bind; [keeps_history_side | |].
  - apply keeps_update_indicators; keeps_history_side.
  - intros _. apply keeps_check_exit with (G := fun _ => True);
      keeps_history_side.
Qed.

Lemma keeps_history_check_entry :
  forall ib price, keeps keeps_history (_check_entry_conditions ib price).
Proof.
  intros ib price.
  apply keeps_check_entry with (G := fun _ => True); keeps_history_side.
Qed.

Lemma leaves_bar_after_append :
  forall ib, keeps leaves_bar (after_append ib).
Proof.
  intros ib. unfold after_append.
  apply keeps_bind; [exact leaves_bar_trans | |].
  - apply leaves_bar_update_indicators.
  - intros _. apply leaves_bar_check_exit.
Qed.

(** X11.  Closing a complete bar appends one row, stamped with the start
    time of the bar and carrying its four prices, and keeps the latest
    [max_bars] rows only: the history grows by one row until it holds
    [max_bars] rows and never holds more afterwards, and its last row is
    always the bar just closed.  The bar in progress itself is left as it
    was (the caller replaces it). *)
Theorem close_bar_appends_and_truncates :
  forall (ib : Gateway) (s : Bot) (o h l c : float),
    cur_open (current_bar s) = Some o -> cur_high (current_bar s) = Some h ->
    cur_low (current_bar s) = Some l -> cur_close (current_bar s) = Some c ->
    let new_bar :=
      mkBar (bar_start_time s) o h l c (cur_volume (current_bar s)) in
    bars_5min (final (_close_bar ib s))
    = tail_rows max_bars (bars_5min s ++ [new_bar]) /\
    length (bars_5min (final (_close_bar ib s)))
    = Nat.min (S (length (bars_5min s))) max_bars /\
    List.last (bars_5min (final (_close_bar ib s))) new_bar = new_bar /\
    closed_bars (events (_close_bar ib s)) = [new_bar] /\
    current_bar (final (_close_bar ib s)) = current_bar s /\
    bar_start_time (final (_close_bar ib s)) = bar_start_time s.
Proof.
  intros ib s o h l c Ho Hh Hl Hc new_bar.
  rewrite (@close_bar_unfold ib s o h l c Ho Hh Hl Hc). fold new_bar.
  set (kept := tail_rows max_bars (bars_5min s ++ [new_bar])).
  pose proof (keeps_history_after_append ib (set_bars_5min kept s)) as K.
  destruct (leaves_bar_after_append ib (set_bars_5min kept s)) as (L1 & L2 & L3).
  unfold keeps_history in K. unfold final, events in *. cbn [fst snd] in *.
  rewrite K. cbn [bars_5min set_bars_5min closed_bars].
  split; [reflexivity|]. split.
  { subst kept. rewrite length_tail_rows, length_app. cbn [length]. lia. }
  split.
  { subst kept. unfold tail_rows. apply last_skipn_snoc.
    rewrite length_app, max_bars_eq. cbn [length]. lia. }
  split; [rewrite L3; reflexivity|].
  split; [exact L1 | exact L2].
Qed.

Lemma close_bar_appends_and_truncates_witness :
  closed_bars (events (_close_bar cancels after_one_tick))
  = [mkBar (Some (_get_bar_start_time at_10_02)) (of_Z 100) (of_Z 100)
       (of_Z 100) (of_Z 100) zero] /\
  length (bars_5min (final (_close_bar cancels after_one_tick))) = 1%nat.
Proof.
  destruct (@close_bar_appends_and_truncates cancels after_one_tick
              (of_Z 100) (of_Z 100) (of_Z 100) (of_Z 100))
    as (_ & L & _ & E & _); try (vm_compute; reflexivity).
  split; [exact E | exact L].
Defined.

(* ================================================================== *)
(** * The orders of a handler *)
(* ================================================================== *)

Lemma orders_app :
  forall l1 l2, orders (l1 ++ l2) = orders l1 ++ orders l2.
Proof.
  induction l1 as [|e l1 IH]; intros l2; [reflexivity|].
  destruct e; cbn; rewrite ?IH; reflexivity.
Qed.

Lemma events_bind :
  forall A B (m : M A) (f : A -> M B) s,
    events (bind m f s)
    = events (m s)
      ++ match outcome (m s) with
         | Done a => events (f a (final (m s)))
         | Raised _ => []
         end.
Proof.
  intros A B m f s. unfold events, outcome, final, bind.
  destruct (m s) as [[[a|e] s1] l1]; cbn [fst snd].
  - destruct (f a s1) as [[r s2] l2]. reflexivity.
  - rewrite app_nil_r. reflexivity.
Qed.

Lemma enter_short_orders :
  forall ib price s,
    orders (events (_enter_short ib price s)) = [(SELL, QUANTITY)].
Proof.
  intros ib price s. rewrite enter_short_result. unfold events. cbn [snd orders].
  destruct (is_filled (ib SELL)); reflexivity.
Qed.

Lemma exit_short_orders :
  forall ib s, orders (events (_exit_short ib s)) = [(BUY, QUANTITY)].
Proof.
  intros ib s. unfold _exit_short. run_m.
  destruct (is_filled (ib BUY)); [|reflexivity].
  cbn [fst snd app]. destruct (position_entry_price s); reflexivity.
Qed.

Lemma check_entry_orders :
  forall ib price s,
    orders (events (_check_entry_conditions ib price s)) = [] \/
    orders (events (_check_entry_conditions ib price s)) = [(SELL, QUANTITY)].
Proof.
  intros ib price s. unfold _check_entry_conditions. run_m.
  destruct (in_position s); [left; reflexivity|].
  destruct (current_ma70 s) as [ma|]; [|left; reflexivity].
  destruct (current_tsi s) as [tsi|]; [|left; reflexivity].
  destruct (price_was_above_ma s) as [was|]; [|left; reflexivity].
  cbn [fst snd app].
  destruct (was && negb (price >? ma)%flt); [|left; reflexivity].
  cbn [fst snd app set_price_was_above_ma ma70_slope].
  destruct (ma70_slope s) as [slope|]; [|left; reflexivity].
  destruct ((slope <? zero)%flt && (tsi <? TSI_THRESHOLD)%flt);
    [|left; reflexivity].
  right.
  pose proof (enter_short_orders ib price
                (set_price_was_above_ma (Some (price >? ma)%flt) s)) as E.
  unfold events in E.
  destruct (_enter_short ib price _) as [[r s2] l2]. cbn [fst snd app orders] in *.
  exact E.
Qed.

Lemma check_exit_orders :
  forall ib s,
    orders (events (_check_exit_conditions ib s)) = [] \/
    orders (events (_check_exit_conditions ib s)) = [(BUY, QUANTITY)].
Proof.
  intros ib s. unfold _check_exit_conditions. run_m.
  destruct (in_position s); cbn [negb]; [|left; reflexivity].
  destruct (current_sar s) as [psar|]; [|left; reflexivity].
  destruct (pd.iloc_last _) as [last_high|]; [|left; reflexivity].
  destruct (last_high >=? psar)%flt; [|left; reflexivity].
  right. pose proof (exit_short_orders ib s) as E. unfold events in E.
  destruct (_exit_short ib s) as [[r s2] l2]. cbn [fst snd app] in *. exact E.
Qed.

Lemma after_append_orders :
  forall ib s,
    orders (events (after_append ib s)) = [] \/
    orders (events (after_append ib s)) = [(BUY, QUANTITY)].
Proof.
  intros ib s. unfold after_append. rewrite events_bind.
  destruct (update_indicators_result s) as (ma & slope & tsi & psar & E).
  rewrite E. unfold events at 1. unfold outcome, final. cbn [fst snd app].
  apply check_exit_orders.
Qed.

Lemma close_bar_orders :
  forall ib s,
    orders (events (_close_bar ib s)) = [] \/
    orders (events (_close_bar ib s)) = [(BUY, QUANTITY)].
Proof.
  intros ib s.
  destruct (cur_open (current_bar s)) as [o|] eqn:Ho.
  - destruct (cur_high (current_bar s)) as [h|] eqn:Hh.
    + destruct (cur_low (current_bar s)) as [l|] eqn:Hl.
      * destruct (cur_close (current_bar s)) as [c|] eqn:Hc.
        { rewrite (@close_bar_unfold ib s o h l c Ho Hh Hl Hc).
          unfold events at 1 3. cbn [snd orders].
          apply after_append_orders. }
        left. unfold _close_bar. run_m. rewrite Ho, Hh, Hl, Hc. reflexivity.
      * left. unfold _close_bar. run_m. rewrite Ho, Hh, Hl. reflexivity.
    + left. unfold _close_bar. run_m. rewrite Ho, Hh. reflexivity.
  - left. unfold _close_bar. run_m. rewrite Ho. reflexivity.
Qed.

Lemma orders_bind_quiet :
  forall A B (m : M A) (f : A -> M B) s,
    (forall a t, orders (events (f a t)) = []) ->
    orders (events (bind m f s)) = orders (events (m s)).
Proof.
  intros A B m f s Q. rewrite events_bind, orders_app.
  destruct (outcome (m s)); [rewrite Q|]; apply app_nil_r.
Qed.

Lemma events_get_bind :
  forall B (f : Bot -> M B) s, events (bind get f s) = events (f s s).
Proof.
  intros B f s. unfold events, bind, get. cbn [fst snd].
  destruct (f s s) as [[r s2] l2]. reflexivity.
Qed.

Lemma events_modify_bind :
  forall B (g : Bot -> Bot) (f : unit -> M B) s,
    events (bind (modify g) f s) = events (f tt (g s)).
Proof.
  intros B g f s. unfold events, bind, modify. cbn [fst snd].
  destruct (f tt (g s)) as [[r s2] l2]. reflexivity.
Qed.

Lemma aggregate_orders :
  forall ib bar_start price s,
    orders (events (aggregate_tick ib bar_start price s)) = [] \/
    orders (events (aggregate_tick ib bar_start price s)) = [(BUY, QUANTITY)].
Proof.
  intros ib bar_start price s. unfold aggregate_tick.
  rewrite events_get_bind.
  destruct (differs (bar_start_time s) bar_start).
  - rewrite orders_bind_quiet by (intros; reflexivity).
    destruct (bar_start_time s); [|left; reflexivity].
    destruct (cur_open (current_bar s)); [|left; reflexivity].
    apply close_bar_orders.
  - left. run_m.
    destruct (cur_high (current_bar s)); [|reflexivity].
    cbn [fst snd app set_current_bar set_cur_high current_bar cur_low].
    destruct (cur_low (current_bar s)); reflexivity.
Qed.

(** X12.  A tick handler places at most one order per side, a BUY (from the
    bar close) before a SELL (from the entry check), each for [QUANTITY]. *)
Theorem tick_places_at_most_one_order_per_side :
  forall (ib : Gateway) (now : datetime) (last : option float) (s : Bot),
    orders (events (_on_tick ib now last s)) = [] \/
    orders (events (_on_tick ib now last s)) = [(BUY, QUANTITY)] \/
    orders (events (_on_tick ib now last s)) = [(SELL, QUANTITY)] \/
    orders (events (_on_tick ib now last s))
    = [(BUY, QUANTITY); (SELL, QUANTITY)].
Proof.
  intros ib now last s. unfold _on_tick.
  destruct last as [price|]; [|left; reflexivity].
  destruct (isnan price); [left; reflexivity|].
  rewrite events_bind, orders_app.
  destruct (aggregate_orders ib (_get_bar_start_time now) price s) as [Ea | Ea];
    rewrite Ea; cbn [app];
    (destruct (outcome (aggregate_tick ib (_get_bar_start_time now) price s));
     [|auto]);
    rewrite events_modify_bind;
    match goal with
    | |- context [_check_entry_conditions ib price ?t] =>
      destruct (check_entry_orders ib price t) as [Ec | Ec]; rewrite Ec; auto
    end.
Qed.

(* ================================================================== *)
(** * The position flag and the position at the gateway *)
(* ================================================================== *)

Lemma position_after_app :
  forall l1 l2 pos,
    position_after pos (l1 ++ l2)
    = match position_after pos l1 with
      | Some q => position_after q l2
      | None => None
      end.
Proof.
  induction l1 as [|e l1 IH]; intros l2 pos; [reflexivity|].
  destruct e as [| |[] ? ?| | | | | |]; cbn [app position_after];
    try apply IH; destruct pos; try reflexivity; apply IH.
Qed.

Lemma follows_orders_refl : forall s, follows_orders s [] s.
Proof. intros s H. split; [reflexivity | exact H]. Qed.

Lemma follows_orders_trans :
  forall a l1 b l2 c,
    follows_orders a l1 b -> follows_orders b l2 c ->
    follows_orders a (l1 ++ l2) c.
Proof.
  intros a l1 b l2 c H1 H2 Ha.
  destruct (H1 Ha) as [P1 Hb]. destruct (H2 Hb) as [P2 Hc].
  split; [|exact Hc]. rewrite position_after_app, P1. exact P2.
Qed.

Lemma follows_orders_enter :
  forall ib price s,
    in_position s = false ->
    follows_orders s (events (_enter_short ib price s))
      (final (_enter_short ib price s)).
Proof.
  intros ib price s Hpos Hw. rewrite enter_short_result.
  unfold events, final. cbn [fst snd position_after]. rewrite Hpos.
  destruct (is_filled (ib SELL)); cbn.
  - split; [reflexivity | intros _; discriminate].
  - split; [symmetry; f_equal; exact Hpos | exact Hw].
Qed.

Lemma follows_orders_exit :
  forall ib s,
    in_position s = true ->
    follows_orders s (events (_exit_short ib s)) (final (_exit_short ib s)).
Proof.
  intros ib s Hpos Hw.
  destruct (position_entry_price s) as [entry|] eqn:He;
    [|exfalso; apply (Hw Hpos); reflexivity].
  rewrite (exit_short_result ib s He).
  unfold events, final. cbn [fst snd position_after]. rewrite Hpos.
  destruct (is_filled (ib BUY)); cbn.
  - split; [reflexivity | intros H; discriminate H].
  - split; [symmetry; f_equal; exact Hpos | rewrite He; discriminate].
Qed.

Lemma follows_orders_run :
  forall calls s,
    follows_orders s (snd (run calls s)) (fst (run calls s)).
Proof.
  intros calls s.
  apply keeps_run with (G := fun _ => True);
    first [ exact follows_orders_refl
          | exact follows_orders_trans
          | solve [intros; apply follows_orders_enter; assumption]
          | solve [intros; apply follows_orders_exit; assumption]
          | solve [intros; intros Hw; split; [reflexivity | exact Hw]]
          | idtac ].
  induction calls as [|c r IH]; constructor; [destruct c; exact I | exact IH].
Qed.

(** X13.  Over any sequence of handler invocations after construction, a
    SELL is only ever placed while the bot is flat and a BUY only while it is
    short, and the position flag of the object is the position that results
    at the gateway from the filled orders: the bot never sells twice in a row
    and never buys what it has not sold. *)
Theorem position_follows_filled_orders :
  forall calls : list Call,
    position_after false (snd (run calls __init__))
    = Some (in_position (fst (run calls __init__))).
Proof.
  intros calls.
  destruct (follows_orders_run calls __init__) as [H _];
    [intros H; discriminate H | exact H].
Qed.

(* ================================================================== *)
(** * Ticks inside the bar in progress *)
(* ================================================================== *)

Lemma holds_bind :
  forall (R : Bot -> list Event -> Bot -> Prop),
    (forall a l1 b l2 c, R a l1 b -> R b l2 c -> R a (l1 ++ l2) c) ->
    forall A B (m : M A) (f : A -> M B) s,
      R s (events (m s)) (final (m s)) ->
      (forall a, keeps R (f a)) ->
      R s (events (bind m f s)) (final (bind m f s)).
Proof.
  intros R R_trans A B m f s Hm Hf.
  unfold bind, events, final in *.
  destruct (m s) as [[[a|e] s1] l1]; cbn [fst snd] in *.
  - specialize (Hf a s1). unfold keeps, events, final in Hf.
    destruct (f a s1) as [[r s2] l2]; cbn [fst snd] in *.
    eapply R_trans; eassumption.
  - exact Hm.
Qed.

Lemma between_closes_refl : forall s, between_closes s [] s.
Proof. intros s. repeat split. Qed.

Lemma between_closes_trans :
  forall a l1 b l2 c,
    between_closes a l1 b -> between_closes b l2 c ->
    between_closes a (l1 ++ l2) c.
Proof.
  intros a l1 b l2 c (A1 & A2 & A3 & A4 & A5 & A6 & A7)
    (B1 & B2 & B3 & B4 & B5 & B6 & B7).
  repeat split; try congruence.
  rewrite closed_bars_app, A7, B7. reflexivity.
Qed.

Lemma between_closes_check_entry :
  forall ib price, keeps between_closes (_check_entry_conditions ib price).
Proof.
  intros ib price.
  apply keeps_check_entry with (G := fun _ => True);
    first [ exact I | exact between_closes_refl | exact between_closes_trans
          | solve [intros; repeat split]
          | idtac ].
  intros ib' price' _ s _. rewrite enter_short_result.
  unfold final, events. cbn [fst snd].
  destruct (is_filled (ib' SELL)); repeat split.
Qed.

Lemma between_closes_same_bucket :
  forall ib bar_start price s,
    differs (bar_start_time s) bar_start = false ->
    between_closes s (events (aggregate_tick ib bar_start price s))
      (final (aggregate_tick ib bar_start price s)) /\
    events (aggregate_tick ib bar_start price s) = [].
Proof.
  intros ib bar_start price s Hd. unfold aggregate_tick. run_m. rewrite Hd.
  destruct (cur_high (current_bar s)); [|split; [repeat split | reflexivity]].
  cbn [fst snd app set_current_bar set_cur_high current_bar cur_low].
  destruct (cur_low (current_bar s)); split; try reflexivity; repeat split.
Qed.

(** X14.  A tick that falls in the bucket of the bar in progress closes no
    bar: the history, the moving average, its slope, the oscillator, the
    stop and the start time of the bar are what they were, and no exit order
    is placed; the only order such a tick can place is the entry SELL. *)
Theorem tick_inside_bucket_closes_nothing :
  forall (ib : Gateway) (now : datetime) (last : option float) (s : Bot),
    differs (bar_start_time s) (_get_bar_start_time now) = false ->
    between_closes s (events (_on_tick ib now last s))
      (final (_on_tick ib now last s)) /\
    (orders (events (_on_tick ib now last s)) = [] \/
     orders (events (_on_tick ib now last s)) = [(SELL, QUANTITY)]).
Proof.
  intros ib now last s Hd. unfold _on_tick.
  destruct last as [price|]; [|split; [apply between_closes_refl | left; reflexivity]].
  destruct (isnan price);
    [split; [apply between_closes_refl | left; reflexivity]|].
  destruct (between_closes_same_bucket ib (_get_bar_start_time now) price s Hd)
    as [Ha Ea].
  split.
  - apply holds_bind; [exact between_closes_trans | exact Ha |].
    intros _. apply keeps_bind;
      [exact between_closes_trans | apply keeps_modify; intros; repeat split |].
    intros _. apply between_closes_check_entry.
  - rewrite events_bind, Ea. cbn [app].
    destruct (outcome (aggregate_tick ib (_get_bar_start_time now) price s));
      [|left; reflexivity].
    rewrite events_modify_bind. apply check_entry_orders.
Qed.

Lemma tick_inside_bucket_closes_nothing_witness :
  bars_5min (final (_on_tick cancels at_10_04 (Some (of_Z 105)) after_one_tick))
  = bars_5min after_one_tick /\
  closed_bars (events (_on_tick cancels at_10_04 (Some (of_Z 105)) after_one_tick))
  = [].
Proof.
  destruct (@tick_inside_bucket_closes_nothing cancels at_10_04
              (Some (of_Z 105)) after_one_tick) as [(B & _ & _ & _ & _ & _ & C) _].
  - vm_compute. reflexivity.
  - split; [exact B | exact C].
Defined.

(* ================================================================== *)
(** * Handlers return normally *)
(* ================================================================== *)

Lemma init_well_formed : well_formed __init__.
Proof.
  split; [intros [K | K]; exfalso; apply K; reflexivity|].
  split; cbn; intros K; [discriminate K | exfalso; apply K; reflexivity].
Qed.

Lemma load_outcome :
  forall bars s,
    outcome (load_historical_data bars s) = expected_outcome (LoadHistory bars).
Proof.
  intros [|b bars] s; [reflexivity|].
  unfold load_historical_data. unfold bind, modify. cbn [fst snd].
  destruct (update_indicators_result (set_bars_5min (b :: bars) s))
    as (ma & slope & tsi & psar & E).
  rewrite E. reflexivity.
Qed.

(** X15.  Whatever handlers run after construction, and whatever the
    gateway, the clock and the prices are, every tick handler returns
    normally and the warm-up raises only [ValueError], on an empty answer:
    the lookups that could fail (the last row of the frame, the prices of the
    bar in progress, the entry price of a short bot, the slope next to a
    moving average) always find what they read. *)
Theorem handlers_return_normally :
  forall calls : list Call,
    outcomes calls __init__ = map expected_outcome calls.
Proof.
  intros calls. generalize init_well_formed. generalize __init__ as s.
  induction calls as [|c rest IH]; intros s W; [reflexivity|].
  cbn [outcomes map]. destruct c as [bars | ib now last]; cbn [handle].
  - rewrite load_outcome. f_equal. apply IH. apply load_well_formed. exact W.
  - destruct (on_tick_well_formed ib now last W) as [D W'].
    rewrite D. f_equal. apply IH. exact W'.
Qed.

(* ================================================================== *)
(** * Before the history is long enough *)
(* ================================================================== *)

Lemma warming_up_refl : forall s, warming_up s [] s.
Proof.
  intros s. split; [lia|]. intros C _. split; [exact C|]. split; reflexivity.
Qed.

Lemma warming_up_trans :
  forall a l1 b l2 c,
    warming_up a l1 b -> warming_up b l2 c -> warming_up a (l1 ++ l2) c.
Proof.
  intros a l1 b l2 c [G1 C1] [G2 C2]. unfold warming_up.
  rewrite max_bars_eq in *. unfold MA_PERIOD in *. split; [lia|].
  intros Ca Hc.
  destruct (C1 Ca ltac:(lia)) as (Cb & I1 & O1).
  destruct (C2 Cb Hc) as (Cc & I2 & O2).
  split; [exact Cc|].
  rewrite intents_app, orders_app, I1, I2, O1, O2. split; reflexivity.
Qed.

(** A step that leaves the history, the position and the four current
    values alone, and emits neither an intent nor an order. *)
Lemma warming_up_quiet :
  forall s l s',
    bars_5min s' = bars_5min s ->
    (cold s -> cold s') -> intents l = [] -> orders l = [] ->
    warming_up s l s'.
Proof.
  intros s l s' Hb Hc Hi Ho. split; [rewrite Hb; lia|].
  intros C _. split; [apply Hc; exact C|]. split; assumption.
Qed.

Lemma warming_up_update_indicators : keeps warming_up _update_indicators.
Proof.
  intros s. destruct (update_indicators_result s) as (ma & slope & tsi & psar & E).
  rewrite E. unfold events, final. cbn [fst snd].
  destruct (length (bars_5min s) <? MA_PERIOD)%nat eqn:Hlt;
    [apply warming_up_refl|].
  apply Nat.ltb_ge in Hlt. split; [cbn; lia|].
  intros _ H. cbn in H. lia.
Qed.

Lemma keeps_history_check_exit :
  forall ib, keeps keeps_history (_check_exit_conditions ib).
Proof.
  intros ib. apply keeps_check_exit with (G := fun _ => True);
    keeps_history_side.
Qed.

Lemma warming_up_check_exit :
  forall ib, keeps warming_up (_check_exit_conditions ib).
Proof.
  intros ib s. destruct (in_position s) eqn:Hpos.
  - split.
    + rewrite (keeps_history_check_exit ib s). lia.
    + intros (C & _) _. congruence.
  - unfold _check_exit_conditions. run_m. rewrite Hpos. apply warming_up_refl.
Qed.

Lemma warming_up_check_entry :
  forall ib price, keeps warming_up (_check_entry_conditions ib price).
Proof.
  intros ib price s. split.
  - rewrite (keeps_history_check_entry ib price s). lia.
  - intros C _. pose proof C as (_ & Hma & _).
    rewrite (check_entry_noop ib price s (or_intror (or_introl Hma))).
    unfold final, events. cbn [fst snd]. split; [exact C|].
    split; reflexivity.
Qed.

Lemma warming_up_after_append :
  forall ib, keeps warming_up (after_append ib).
Proof.
  intros ib. unfold after_append.
  apply keeps_bind; [exact warming_up_trans | |].
  - apply warming_up_update_indicators.
  - intros _. apply warming_up_check_exit.
Qed.

Lemma warming_up_close_bar :
  forall ib, keeps warming_up (_close_bar ib).
Proof.
  intros ib s.
  destruct (cur_open (current_bar s)) as [o|] eqn:Ho.
  - destruct (cur_high (current_bar s)) as [h|] eqn:Hh.
    + destruct (cur_low (current_bar s)) as [l|] eqn:Hl.
      * destruct (cur_close (current_bar s)) as [c|] eqn:Hc.
        { rewrite (@close_bar_unfold ib s o h l c Ho Hh Hl Hc).
          unfold events at 1. unfold final at 1. cbn [fst snd].
          set (new_bar := mkBar (bar_start_time s) o h l c
                            (cur_volume (current_bar s))).
          set (kept := tail_rows max_bars (bars_5min s ++ [new_bar])).
          change (BarClosed new_bar :: events (after_append ib (set_bars_5min kept s)))
            with ([BarClosed new_bar]
                  ++ events (after_append ib (set_bars_5min kept s))).
          apply warming_up_trans with (b := set_bars_5min kept s);
            [|apply warming_up_after_append].
          split.
          - cbn [bars_5min set_bars_5min]. subst kept.
            rewrite length_tail_rows, length_app. cbn [length]. lia.
          - intros C _. split; [exact C|]. split; reflexivity. }
        unfold _close_bar. run_m. rewrite Ho, Hh, Hl, Hc. apply warming_up_refl.
      * unfold _close_bar. run_m. rewrite Ho, Hh, Hl. apply warming_up_refl.
    + unfold _close_bar. run_m. rewrite Ho, Hh. apply warming_up_refl.
  - unfold _close_bar. run_m. rewrite Ho. apply warming_up_refl.
Qed.

Lemma warming_up_aggregate :
  forall ib bar_start price, keeps warming_up (aggregate_tick ib bar_start price).
Proof.
  intros ib bar_start price. unfold aggregate_tick.
  apply keeps_get_bind. intros s.
  destruct (differs (bar_start_time s) bar_start).
  - match goal with
    | |- warming_up s (events (?m s)) _ =>
      assert (K : keeps warming_up m); [|exact (K s)]
    end.
    apply keeps_bind; [exact warming_up_trans | |].
    { destruct (bar_start_time s); [|apply keeps_ret; exact warming_up_refl].
      destruct (cur_open (current_bar s));
        [apply warming_up_close_bar | apply keeps_ret; exact warming_up_refl]. }
    intros _. apply keeps_bind; [exact warming_up_trans | |].
    { apply keeps_modify. intros t. apply warming_up_quiet; auto. }
    intros _. apply keeps_bind; [exact warming_up_trans | |].
    { apply keeps_modify. intros t. apply warming_up_quiet; auto. }
    intros _. apply keeps_emit. intros t. apply warming_up_quiet; auto.
  - match goal with
    | |- warming_up s (events (?m s)) _ =>
      assert (K : keeps warming_up m); [|exact (K s)]
    end.
    apply keeps_bind; [exact warming_up_trans | |].
    { destruct (cur_high (current_bar s));
        [|apply keeps_raise; exact warming_up_refl].
      apply keeps_modify. intros t. apply warming_up_quiet; auto. }
    intros _. apply keeps_bind; [exact warming_up_trans | |].
    { destruct (cur_low (current_bar s));
        [|apply keeps_raise; exact warming_up_refl].
      apply keeps_modify. intros t. apply warming_up_quiet; auto. }
    intros _. apply keeps_modify. intros t. apply warming_up_quiet; auto.
Qed.

Lemma warming_up_on_tick :
  forall ib now last, keeps warming_up (_on_tick ib now last).
Proof.
  intros ib now last. unfold _on_tick.
  destruct last as [price|]; [|apply keeps_ret; exact warming_up_refl].
  destruct (isnan price); [apply keeps_ret; exact warming_up_refl|].
  apply keeps_bind; [exact warming_up_trans | apply warming_up_aggregate |].
  intros _. apply keeps_bind; [exact warming_up_trans | |].
  { apply keeps_modify. intros t. apply warming_up_quiet; auto. }
  intros _. apply warming_up_check_entry.
Qed.

Lemma warming_up_ticks :
  forall ticks s,
    Forall is_tick ticks ->
    warming_up s (snd (run ticks s)) (fst (run ticks s)).
Proof.
  induction ticks as [|c rest IH]; intros s Hall; cbn [run fst snd].
  - apply warming_up_refl.
  - inversion Hall as [|? ? Hc Hrest]; subst.
    destruct c as [bars | ib now last]; [contradiction|]. cbn [handle].
    pose proof (warming_up_on_tick ib now last s) as H1.
    unfold events, final in H1.
    destruct (_on_tick ib now last s) as [[r s1] l1]. cbn [fst snd] in H1.
    specialize (IH s1 Hrest).
    destruct (run rest s1) as [s2 l2]. cbn [fst snd] in *.
    eapply warming_up_trans; eassumption.
Qed.

(** X16.  Until the history holds [MA_PERIOD] bars the bot does not trade:
    after a warm-up and any run of ticks that leave fewer than [MA_PERIOD]
    rows in the history, no intent was emitted and no order placed, the bot
    is flat and none of the four current values is set. *)
Theorem no_trading_before_seventy_bars :
  forall (history : list Bar) (ticks : list Call),
    Forall is_tick ticks ->
    (length (bars_5min (fst (run (LoadHistory history :: ticks) __init__)))
     < MA_PERIOD)%nat ->
    intents (snd (run (LoadHistory history :: ticks) __init__)) = [] /\
    orders (snd (run (LoadHistory history :: ticks) __init__)) = [] /\
    cold (fst (run (LoadHistory history :: ticks) __init__)).
Proof.
  intros history ticks Hall. cbn [run handle].
  assert (C0 : cold __init__) by (repeat split).
  assert (L : exists s1,
             load_historical_data history __init__
             = (outcome (load_historical_data history __init__), s1, []) /\
             ((length (bars_5min s1) < MA_PERIOD)%nat -> cold s1) /\
             (history <> [] -> bars_5min s1 = history)).
  { destruct history as [|b bars].
    - exists __init__. split; [reflexivity|]. split; [intros _; exact C0|].
      congruence.
    - unfold load_historical_data. unfold bind, modify. cbn [fst snd].
      destruct (update_indicators_result (set_bars_5min (b :: bars) __init__))
        as (ma & slope & tsi & psar & E).
      rewrite E. unfold outcome. cbn [fst snd app].
      eexists. split; [reflexivity|].
      cbn [bars_5min set_bars_5min].
      destruct (length (b :: bars) <? MA_PERIOD)%nat eqn:Hlt.
      + split; [intros _; exact C0 | reflexivity].
      + apply Nat.ltb_ge in Hlt. split; [|reflexivity].
        intros H. cbn [bars_5min set_indicators set_bars_5min] in H. lia. }
  destruct L as (s1 & E1 & Hcold & _). rewrite E1.
  destruct (warming_up_ticks s1 Hall) as [G C].
  destruct (run ticks s1) as [s2 l2]. cbn [fst snd app] in *.
  intros Hlen. rewrite max_bars_eq in G. unfold MA_PERIOD in *.
  destruct (C (Hcold ltac:(lia)) Hlen) as (C2 & I2 & O2).
  split; [exact I2|]. split; [exact O2 | exact C2].
Qed.

Lemma no_trading_before_seventy_bars_witness :
  intents (snd (run (LoadHistory short_history :: two_ticks_then_close) __init__))
  = [] /\
  length (bars_5min (fst (run (LoadHistory short_history :: two_ticks_then_close)
                            __init__))) = 11%nat.
Proof.
  destruct (@no_trading_before_seventy_bars short_history two_ticks_then_close)
    as (I & _ & _).
  - repeat constructor.
  - vm_compute. lia.
  - split; [exact I | vm_compute; reflexivity].
Defined.

(* ================================================================== *)
(** * The time stamps of the closed bars *)
(* ================================================================== *)

Lemma keeps_grid_refl : forall s, keeps_grid s [] s.
Proof. intros s H. split; [exact H | constructor]. Qed.

Lemma keeps_grid_trans :
  forall a l1 b l2 c,
    keeps_grid a l1 b -> keeps_grid b l2 c -> keeps_grid a (l1 ++ l2) c.
Proof.
  intros a l1 b l2 c H1 H2 Ha.
  destruct (H1 Ha) as [Hb F1]. destruct (H2 Hb) as [Hc F2].
  split; [exact Hc|]. rewrite closed_bars_app. apply Forall_app.
  split; assumption.
Qed.

Lemma keeps_grid_leaves_bar :
  forall A (m : M A), keeps leaves_bar m -> keeps keeps_grid m.
Proof.
  intros A m H s Hs. destruct (H s) as (_ & H2 & H3).
  rewrite H3. split; [|constructor].
  intros t Ht. apply Hs. rewrite <- H2. exact Ht.
Qed.

Ltac project_triple :=
  repeat match goal with
         | |- context [final (?a, ?b, ?c)] => change (final (a, b, c)) with b
         | |- context [events (?a, ?b, ?c)] => change (events (a, b, c)) with c
         | |- context [outcome (?a, ?b, ?c)] => change (outcome (a, b, c)) with a
         end.

(** [_close_bar] leaves the start time alone, and the row it appends, if
    any, carries it. *)
Lemma close_bar_stamp :
  forall ib s,
    bar_start_time (final (_close_bar ib s)) = bar_start_time s /\
    Forall (fun b => bar_index b = bar_start_time s)
      (closed_bars (events (_close_bar ib s))).
Proof.
  intros ib s.
  destruct (cur_open (current_bar s)) as [o|] eqn:Ho.
  - destruct (cur_high (current_bar s)) as [h|] eqn:Hh.
    + destruct (cur_low (current_bar s)) as [l|] eqn:Hl.
      * destruct (cur_close (current_bar s)) as [c|] eqn:Hc.
        { rewrite (@close_bar_unfold ib s o h l c Ho Hh Hl Hc).
          project_triple. cbn [closed_bars].
          destruct (leaves_bar_after_append ib
                      (set_bars_5min
                         (tail_rows max_bars
                            (bars_5min s
                             ++ [mkBar (bar_start_time s) o h l c
                                   (cur_volume (current_bar s))])) s))
            as (_ & L2 & L3).
          rewrite L2, L3. split; [reflexivity|].
          constructor; [reflexivity | constructor]. }
        unfold _close_bar. run_m. rewrite Ho, Hh, Hl, Hc.
        split; [reflexivity | constructor].
      * unfold _close_bar. run_m. rewrite Ho, Hh, Hl.
        split; [reflexivity | constructor].
    + unfold _close_bar. run_m. rewrite Ho, Hh.
      split; [reflexivity | constructor].
  - unfold _close_bar. run_m. rewrite Ho. split; [reflexivity | constructor].
Qed.

Lemma keeps_grid_aggregate :
  forall ib bar_start price,
    bucket_start bar_start ->
    keeps keeps_grid (aggregate_tick ib bar_start price).
Proof.
  intros ib bar_start price Hb. unfold aggregate_tick.
  apply keeps_get_bind. intros s.
  destruct (differs (bar_start_time s) bar_start).
  - apply holds_bind; [exact keeps_grid_trans | |].
    + intros Hs. destruct (bar_start_time s) as [t|] eqn:Et;
        [|split; [exact Hs | constructor]].
      destruct (cur_open (current_bar s));
        [|split; [exact Hs | constructor]].
      destruct (close_bar_stamp ib s) as [S1 S2]. rewrite Et in S1, S2.
      split.
      * intros t' Ht'. rewrite S1 in Ht'. injection Ht' as <-.
        apply Hs. exact Et.
      * eapply Forall_impl; [|exact S2].
        intros b Eb. exists t. split; [exact Eb | apply Hs; exact Et].
    + intros _. apply keeps_bind; [exact keeps_grid_trans | |].
      { apply keeps_modify. intros t _. split; [|constructor].
        intros t' Ht'. cbn in Ht'. injection Ht' as <-. exact Hb. }
      intros _. apply keeps_bind; [exact keeps_grid_trans | |].
      { apply keeps_modify. intros t Ht. split; [exact Ht | constructor]. }
      intros _. apply keeps_emit. intros t Ht. split; [exact Ht | constructor].
  - match goal with
    | |- keeps_grid s (events (?m s)) _ =>
      assert (K : keeps keeps_grid m); [|exact (K s)]
    end.
    apply keeps_bind; [exact keeps_grid_trans | |].
    { destruct (cur_high (current_bar s));
        [|apply keeps_raise; exact keeps_grid_refl].
      apply keeps_modify. intros t Ht. split; [exact Ht | constructor]. }
    intros _. apply keeps_bind; [exact keeps_grid_trans | |].
    { destruct (cur_low (current_bar s));
        [|apply keeps_raise; exact keeps_grid_refl].
      apply keeps_modify. intros t Ht. split; [exact Ht | constructor]. }
    intros _. apply keeps_modify. intros t Ht. split; [exact Ht | constructor].
Qed.

Lemma keeps_grid_handle : forall c, keeps keeps_grid (handle c).
Proof.
  intros [bars | ib now last]; cbn [handle].
  - apply keeps_grid_leaves_bar.
    apply keeps_load_historical_data; leaves_bar_side.
  - unfold _on_tick.
    destruct last as [price|]; [|apply keeps_ret; exact keeps_grid_refl].
    destruct (isnan price); [apply keeps_ret; exact keeps_grid_refl|].
    apply keeps_bind; [exact keeps_grid_trans | |].
    { apply keeps_grid_aggregate. apply bar_start_aligned. }
    intros _. apply keeps_grid_leaves_bar.
    apply keeps_bind; [exact leaves_bar_trans | |].
    { apply keeps_modify. intros; repeat split. }
    intros _. apply leaves_bar_check_entry.
Qed.

Lemma keeps_grid_run :
  forall calls s, keeps_grid s (snd (run calls s)) (fst (run calls s)).
Proof.
  induction calls as [|c rest IH]; intros s; cbn [run fst snd].
  - apply keeps_grid_refl.
  - pose proof (@keeps_grid_handle c s) as H1. unfold events, final in H1.
    destruct (handle c s) as [[r s1] l1]. cbn [fst snd] in H1.
    specialize (IH s1). destruct (run rest s1) as [s2 l2]. cbn [fst snd] in *.
    eapply keeps_grid_trans; eassumption.
Qed.

(** X17.  Whatever handlers run after construction, every bar appended to
    the history by the aggregator is stamped with the start of a five-minute
    bucket (the minute a multiple of five, no seconds, no microseconds), and
    so is the bar in progress. *)
Theorem closed_bars_are_stamped_on_the_grid :
  forall calls : list Call,
    Forall (fun b : Bar =>
              exists t, bar_index b = Some t /\ _get_bar_start_time t = t /\
                        minute t = minute t / 5 * 5 /\
                        second t = 0 /\ microsecond t = 0)
           (closed_bars (snd (run calls __init__))) /\
    (forall t, bar_start_time (fst (run calls __init__)) = Some t ->
               _get_bar_start_time t = t).
Proof.
  intros calls.
  destruct (@keeps_grid_run calls __init__) as [G F];
    [intros t Ht; discriminate Ht|].
  split; [|exact G].
  eapply Forall_impl; [|exact F].
  intros b (t & Eb & Ht). exists t. split; [exact Eb|]. split; [exact Ht|].
  unfold bucket_start, _get_bar_start_time, TIMEFRAME_MINUTES in Ht.
  destruct t as [y mo d h mi sec us]. cbn in *.
  injection Ht as Hmi Hs Hu. repeat split; congruence.
Qed.

(* ================================================================== *)
(** * The close of a bar *)
(* ================================================================== *)

Lemma close_bar_row_close :
  forall ib s,
    Forall (fun b => Some (bar_close b) = cur_close (current_bar s))
      (closed_bars (events (_close_bar ib s))).
Proof.
  intros ib s.
  destruct (cur_open (current_bar s)) as [o|] eqn:Ho.
  - destruct (cur_high (current_bar s)) as [h|] eqn:Hh.
    + destruct (cur_low (current_bar s)) as [l|] eqn:Hl.
      * destruct (cur_close (current_bar s)) as [c|] eqn:Hc.
        { rewrite (@close_bar_unfold ib s o h l c Ho Hh Hl Hc).
          project_triple. cbn [closed_bars].
          destruct (leaves_bar_after_append ib
                      (set_bars_5min
                         (tail_rows max_bars
                            (bars_5min s
                             ++ [mkBar (bar_start_time s) o h l c
                                   (cur_volume (current_bar s))])) s))
            as (_ & _ & L3).
          rewrite L3. constructor; [reflexivity | constructor]. }
        unfold _close_bar. run_m. rewrite Ho, Hh, Hl, Hc. constructor.
      * unfold _close_bar. run_m. rewrite Ho, Hh, Hl. constructor.
    + unfold _close_bar. run_m. rewrite Ho, Hh. constructor.
  - unfold _close_bar. run_m. rewrite Ho. constructor.
Qed.

Lemma aggregate_row_close :
  forall ib bar_start price s,
    Forall (fun b => Some (bar_close b) = cur_close (current_bar s))
      (closed_bars (events (aggregate_tick ib bar_start price s))).
Proof.
  intros ib bar_start price s. unfold aggregate_tick.
  rewrite events_get_bind.
  destruct (differs (bar_start_time s) bar_start).
  - rewrite events_bind, closed_bars_app. apply Forall_app. split.
    + destruct (bar_start_time s); [|constructor].
      destruct (cur_open (current_bar s)); [|constructor].
      apply close_bar_row_close.
    + destruct (outcome _); [|constructor]. cbn. constructor.
  - run_m.
    destruct (cur_high (current_bar s)); [|constructor].
    cbn [fst snd app set_current_bar set_cur_high current_bar cur_low].
    destruct (cur_low (current_bar s)); constructor.
Qed.

Lemma aggregate_sets_close :
  forall ib bar_start price s,
    well_formed s ->
    cur_close (current_bar (final (aggregate_tick ib bar_start price s)))
    = Some price /\
    last_price (final (aggregate_tick ib bar_start price s)) = last_price s.
Proof.
  intros ib bar_start price s W.
  destruct (tick_frame_aggregate ib bar_start price s) as (_ & T2 & _).
  split; [|exact T2].
  destruct (aggregate_done ib bar_start price W) as (Da & _ & _).
  destruct (differs (bar_start_time s) bar_start) eqn:Hd.
  - destruct (aggregate_new_bucket ib bar_start price s Hd Da) as [E _].
    rewrite E. reflexivity.
  - destruct W as (W1 & _ & _).
    assert (Hs : bar_start_time s <> None).
    { destruct (bar_start_time s); [discriminate | discriminate Hd]. }
    destruct (W1 (or_introl Hs)) as (_ & C2 & C3 & _).
    destruct (cur_high (current_bar s)) as [h|] eqn:Eh; [|congruence].
    destruct (cur_low (current_bar s)) as [l|] eqn:El; [|congruence].
    rewrite (aggregate_same_bucket ib bar_start price s Hd Eh El).
    reflexivity.
Qed.

Lemma on_tick_closes_at_last_price :
  forall ib now last s,
    well_formed s -> closes_at_last_price s ->
    closes_at_last_price (final (_on_tick ib now last s)) /\
    Forall (fun b => Some (bar_close b) = last_price s)
      (closed_bars (events (_on_tick ib now last s))).
Proof.
  intros ib now last s W K.
  destruct last as [price|]; [|split; [exact K | constructor]].
  destruct (isnan price) eqn:Hp.
  { unfold _on_tick. rewrite Hp. split; [exact K | constructor]. }
  destruct (aggregate_done ib (_get_bar_start_time now) price W) as (Da & _ & _).
  rewrite (@on_tick_final ib now price s Hp Da).
  rewrite (@on_tick_events ib now price s Hp Da).
  destruct (@aggregate_sets_close ib (_get_bar_start_time now) price s W)
    as [C1 _].
  set (s1 := final (aggregate_tick ib (_get_bar_start_time now) price s)) in *.
  destruct (leaves_bar_check_entry ib price (set_last_price (Some price) s1))
    as (L1 & _ & L3).
  destruct (same_reference_check_entry ib price (set_last_price (Some price) s1))
    as (_ & _ & _ & R4).
  split.
  - unfold closes_at_last_price. rewrite L1, R4. exact C1.
  - rewrite closed_bars_app, L3, app_nil_r. rewrite <- K.
    apply aggregate_row_close.
Qed.

Lemma load_closes_at_last_price :
  forall bars s,
    closes_at_last_price s ->
    closes_at_last_price (final (load_historical_data bars s)).
Proof.
  intros bars s K. unfold load_historical_data.
  destruct bars as [|b bars]; [exact K|].
  unfold bind, modify. cbn [fst snd].
  destruct (update_indicators_result (set_bars_5min (b :: bars) s))
    as (ma & slope & tsi & psar & E).
  rewrite E. unfold final. cbn [fst snd].
  destruct (length (bars_5min (set_bars_5min (b :: bars) s)) <? MA_PERIOD)%nat;
    exact K.
Qed.

Lemma run_closes_at_last_price :
  forall calls s,
    well_formed s -> closes_at_last_price s ->
    well_formed (fst (run calls s)) /\ closes_at_last_price (fst (run calls s)).
Proof.
  induction calls as [|c rest IH]; intros s W K; [split; assumption|].
  cbn [run].
  assert (H : well_formed (final (handle c s)) /\
              closes_at_last_price (final (handle c s))).
  { destruct c as [bars | ib now last]; cbn [handle].
    - split; [apply load_well_formed; exact W
             | apply load_closes_at_last_price; exact K].
    - destruct (on_tick_well_formed ib now last W) as [_ W'].
      destruct (@on_tick_closes_at_last_price ib now last s W K) as [K' _].
      split; assumption. }
  unfold final in H. destruct (handle c s) as [[r s1] l1]. cbn [fst snd] in H.
  destruct H as [W1 K1]. specialize (IH s1 W1 K1).
  destruct (run rest s1) as [s2 l2]. exact IH.
Qed.

(** X18.  After any sequence of handler invocations the close of the bar in
    progress is the last price handled (both are unset before the first
    tick), so a tick that closes a bar closes it at the last price handled
    before that tick: the close of a bar is the last price of its bucket. *)
Theorem bars_close_at_last_price :
  forall (calls : list Call) (ib : Gateway) (now : datetime)
         (last : option float),
    cur_close (current_bar (fst (run calls __init__)))
    = last_price (fst (run calls __init__)) /\
    Forall (fun b : Bar =>
              Some (bar_close b) = last_price (fst (run calls __init__)))
      (closed_bars (events (_on_tick ib now last (fst (run calls __init__))))).
Proof.
  intros calls ib now last.
  destruct (@run_closes_at_last_price calls __init__ init_well_formed)
    as [W K]; [reflexivity|].
  split; [exact K|].
  apply (@on_tick_closes_at_last_price ib now last _ W K).
Qed.

(* ================================================================== *)
(** * A tick of a new bucket *)
(* ================================================================== *)

Lemma run_well_formed :
  forall calls s, well_formed s -> well_formed (fst (run calls s)).
Proof.
  induction calls as [|c rest IH]; intros s W; [exact W|].
  cbn [run].
  assert (H : well_formed (final (handle c s))).
  { destruct c as [bars | ib now last]; cbn [handle].
    - apply load_well_formed. exact W.
    - apply (on_tick_well_formed ib now last W). }
  unfold final in H. destruct (handle c s) as [[r s1] l1]. cbn [fst snd] in H.
  specialize (IH s1 H). destruct (run rest s1) as [s2 l2]. exact IH.
Qed.

(** The bar aggregation of a tick of a new bucket when a bar is in
    progress. *)
Lemma aggregate_closes_and_opens :
  forall ib bar_start price s t o h l c,
    bar_start_time s = Some t ->
    differs (bar_start_time s) bar_start = true ->
    cur_open (current_bar s) = Some o -> cur_high (current_bar s) = Some h ->
    cur_low (current_bar s) = Some l -> cur_close (current_bar s) = Some c ->
    outcome (aggregate_tick ib bar_start price s) = Done tt ->
    closed_bars (events (aggregate_tick ib bar_start price s))
    = [mkBar (Some t) o h l c (cur_volume (current_bar s))] /\
    bars_5min (final (aggregate_tick ib bar_start price s))
    = tail_rows max_bars
        (bars_5min s ++ [mkBar (Some t) o h l c (cur_volume (current_bar s))]).
Proof.
  intros ib bar_start price s t o h l c Et Hd Ho Hh Hl Hc.
  pose proof (@close_bar_unfold ib s o h l c Ho Hh Hl Hc) as U.
  rewrite Et in U.
  set (new_bar := mkBar (Some t) o h l c (cur_volume (current_bar s))) in *.
  set (kept := tail_rows max_bars (bars_5min s ++ [new_bar])) in *.
  pose proof (keeps_history_after_append ib (set_bars_5min kept s)) as K.
  destruct (leaves_bar_after_append ib (set_bars_5min kept s)) as (_ & _ & L3).
  unfold keeps_history in K. cbn [bars_5min set_bars_5min] in K.
  unfold aggregate_tick. run_m. rewrite Hd, Et, Ho, U.
  unfold outcome, final, events in *. cbn [fst snd] in *.
  destruct (fst (fst (after_append ib (set_bars_5min kept s)))) as [[]|e];
    cbn [fst snd app]; [|discriminate].
  intros _. cbn [closed_bars]. rewrite closed_bars_app, L3. cbn.
  split; [reflexivity | exact K].
Qed.

(** X19.  After any sequence of handler invocations, a tick with a price
    that falls in another bucket than the bar in progress closes exactly
    that bar: one row with the start time and the four prices of the bar in
    progress is appended to the history (cut to its latest [max_bars] rows),
    and the tick's price opens the next bar, stamped with the bucket of the
    tick. *)
Theorem tick_of_new_bucket_closes_one_bar :
  forall (calls : list Call) (ib : Gateway) (now : datetime) (price : float)
         (t : datetime),
    isnan price = false ->
    bar_start_time (fst (run calls __init__)) = Some t ->
    differs (Some t) (_get_bar_start_time now) = true ->
    let s := fst (run calls __init__) in
    let r := _on_tick ib now (Some price) s in
    exists o h l c,
      current_bar s = mkCurrentBar (Some o) (Some h) (Some l) (Some c) zero /\
      closed_bars (events r) = [mkBar (Some t) o h l c zero] /\
      bars_5min (final r)
      = tail_rows max_bars (bars_5min s ++ [mkBar (Some t) o h l c zero]) /\
      current_bar (final r)
      = mkCurrentBar (Some price) (Some price) (Some price) (Some price) zero /\
      bar_start_time (final r) = Some (_get_bar_start_time now).
Proof.
  intros calls ib now price t Hp Et Hd. cbv zeta.
  pose proof (@run_well_formed calls __init__ init_well_formed) as W.
  pose proof (run_volume_zero calls __init__ eq_refl) as [V _].
  set (s := fst (run calls __init__)) in *.
  pose proof W as (W1 & _ & _).
  destruct W1 as (C1 & C2 & C3 & C4); [left; rewrite Et; discriminate|].
  destruct (cur_open (current_bar s)) as [o|] eqn:Ho; [|congruence].
  destruct (cur_high (current_bar s)) as [h|] eqn:Hh; [|congruence].
  destruct (cur_low (current_bar s)) as [l|] eqn:Hl; [|congruence].
  destruct (cur_close (current_bar s)) as [c|] eqn:Hc; [|congruence].
  exists o, h, l, c.
  assert (Ecur : current_bar s
                 = mkCurrentBar (Some o) (Some h) (Some l) (Some c) zero).
  { destruct (current_bar s) as [co ch cl cc cv]. cbn in *. congruence. }
  split; [exact Ecur|].
  destruct (aggregate_done ib (_get_bar_start_time now) price W) as (Da & _ & _).
  assert (Hd' : differs (bar_start_time s) (_get_bar_start_time now) = true).
  { rewrite Et. exact Hd. }
  destruct (@aggregate_closes_and_opens ib (_get_bar_start_time now) price s
              t o h l c Et Hd' Ho Hh Hl Hc Da) as [A1 A2].
  destruct (aggregate_new_bucket ib (_get_bar_start_time now) price s Hd' Da)
    as [N1 N2].
  rewrite V in A1, A2.
  rewrite (@on_tick_final ib now price s Hp Da).
  rewrite (@on_tick_events ib now price s Hp Da).
  set (s1 := final (aggregate_tick ib (_get_bar_start_time now) price s)) in *.
  destruct (leaves_bar_check_entry ib price (set_last_price (Some price) s1))
    as (L1 & L2 & L3).
  pose proof (keeps_history_check_entry ib price (set_last_price (Some price) s1))
    as K.
  unfold keeps_history in K.
  rewrite closed_bars_app, L3, app_nil_r, K, L1, L2.
  cbn [bars_5min current_bar bar_start_time set_last_price].
  repeat split; assumption.
Qed.

Lemma tick_of_new_bucket_closes_one_bar_witness :
  closed_bars (events (_on_tick cancels at_10_05 (Some (of_Z 102)) after_one_tick))
  = [mkBar (Some (_get_bar_start_time at_10_02)) (of_Z 100) (of_Z 100)
       (of_Z 100) (of_Z 100) zero].
Proof.
  destruct (@tick_of_new_bucket_closes_one_bar
              [Tick cancels at_10_02 (Some (of_Z 100))] cancels at_10_05
              (of_Z 102) (_get_bar_start_time at_10_02))
    as (o & h & l & c & Ecur & Eclosed & _).
  - reflexivity.
  - vm_compute. reflexivity.
  - vm_compute. reflexivity.
  - vm_compute in Ecur. injection Ecur as <- <- <- <-. exact Eclosed.
Defined.

(* ================================================================== *)
(** * The acceleration factor *)
(* ================================================================== *)

Lemma shr_1_nonneg :
  forall mrs, 0 <= shr_m mrs -> 0 <= shr_m (shr_1 mrs).
Proof.
  intros [m r s] H. cbn in *.
  destruct m as [|[p|p|]|p]; cbn; lia.
Qed.

Lemma iter_pos_shr_1_nonneg :
  forall p mrs, 0 <= shr_m mrs -> 0 <= shr_m (iter_pos shr_1 p mrs).
Proof.
  induction p as [p IH|p IH|]; intros mrs H; cbn [iter_pos].
  - apply IH. apply IH. apply shr_1_nonneg. exact H.
  - apply IH. apply IH. exact H.
  - apply shr_1_nonneg. exact H.
Qed.

Lemma shr_fexp_nonneg :
  forall m e l, 0 <= m -> 0 <= shr_m (fst (shr_fexp prec emax m e l)).
Proof.
  intros m e l H. unfold shr_fexp, shr.
  assert (H0 : 0 <= shr_m (shr_record_of_loc m l)).
  { destruct l as [|[]]; exact H. }
  destruct (fexp prec emax (Zdigits2 m + e) - e); cbn [fst];
    [exact H0 | apply iter_pos_shr_1_nonneg; exact H0 | exact H0].
Qed.

Lemma round_nearest_even_nonneg :
  forall m l, 0 <= m -> 0 <= round_nearest_even m l.
Proof.
  intros m l H. unfold round_nearest_even.
  destruct l as [|[]]; try exact H; [destruct (Z.even m)|]; lia.
Qed.

Lemma binary_round_aux_not_nan :
  forall s m e l, 0 <= m -> isnan (binary_round_aux prec emax s m e l) = false.
Proof.
  intros s m e l H. unfold binary_round_aux.
  pose proof (shr_fexp_nonneg e l H) as H1.
  destruct (shr_fexp prec emax m e l) as [mrs' e']. cbn [fst] in H1.
  pose proof (@shr_fexp_nonneg
                (round_nearest_even (shr_m mrs') (loc_of_shr_record mrs'))
                e' loc_Exact
                (round_nearest_even_nonneg (loc_of_shr_record mrs') H1)) as H2.
  destruct (shr_fexp prec emax _ e' loc_Exact) as [mrs'' e'']. cbn [fst] in H2.
  destruct (shr_m mrs'') as [|p|p]; [reflexivity | | lia].
  destruct (e'' <=? emax - prec); reflexivity.
Qed.

Lemma binary_normalize_not_nan :
  forall m e, isnan (binary_normalize prec emax m e false) = false.
Proof.
  intros [|p|p] e; cbn [binary_normalize]; [reflexivity | |];
    unfold binary_round; destruct (shl_align _ _ _) as [mz ez];
    apply binary_round_aux_not_nan; lia.
Qed.

(** Adding a finite number never gives NaN. *)
Lemma add_finite_not_nan :
  forall a b, isnan a = false -> is_finite b = true -> isnan (a + b)%flt = false.
Proof.
  intros [sa|sa| |sa ma ea] [sb|sb| |sb mb eb] Ha Hb;
    try discriminate Ha; try discriminate Hb; try reflexivity.
  - destruct sa, sb; reflexivity.
  - unfold add, SFadd. apply binary_normalize_not_nan.
Qed.

Lemma min2_capped :
  forall x c,
    isnan x = false -> isnan c = false ->
    isnan (min2 x c) = false /\ (min2 x c <=? c)%flt = true.
Proof.
  intros x c Hx Hc. split; [apply min2_nan; assumption|].
  apply min2_le_r; assumption.
Qed.

Lemma sar_body_accel :
  forall high low af_start af_max i v v',
    is_finite af_start = true -> (af_start <=? af_max)%flt = true ->
    isnan (af v) = false -> (af v <=? af_max)%flt = true ->
    sar_body high low af_start af_max i v = Some v' ->
    isnan (af v') = false /\ (af v' <=? af_max)%flt = true.
Proof.
  intros high low af_start af_max i v v' Hf Hle Hn Hv.
  pose proof (leb_nan_l _ _ Hle) as Ns. pose proof (leb_nan_r _ _ Hle) as Nm.
  pose proof (@min2_capped (af v + af_start)%flt af_max
                (add_finite_not_nan (af v) af_start Hn Hf) Nm) as Hmin.
  unfold sar_body.
  destruct (pd.iloc (sar v) (i - 1)) as [p|]; [|discriminate].
  destruct (uptrend v).
  - destruct (if (2 <=? i)%nat then pd.iloc low (i - 2) else pd.iloc low (i - 1));
      [|destruct (pd.iloc low (i - 1)); discriminate].
    destruct (pd.iloc low (i - 1)); [|discriminate].
    destruct (pd.iloc low i); [|discriminate].
    destruct (_ <? _)%flt.
    + intros E. injection E as <-. cbn [af]. split; assumption.
    + destruct (pd.iloc high i); [|discriminate].
      destruct (_ >? _)%flt; intros E; injection E as <-; cbn [af];
        [exact Hmin | split; assumption].
  - destruct (if (2 <=? i)%nat then pd.iloc high (i - 2) else pd.iloc high (i - 1));
      [|destruct (pd.iloc high (i - 1)); discriminate].
    destruct (pd.iloc high (i - 1)); [|discriminate].
    destruct (pd.iloc high i); [|discriminate].
    destruct (_ >? _)%flt.
    + intros E. injection E as <-. cbn [af]. split; assumption.
    + destruct (pd.iloc low i); [|discriminate].
      destruct (_ <? _)%flt; intros E; injection E as <-; cbn [af];
        [exact Hmin | split; assumption].
Qed.

(** X21.  With a finite starting acceleration factor that does not exceed
    the maximum, the acceleration factor of the stop never exceeds the
    maximum (and is never NaN), however many new extremes follow one
    another. *)
Theorem acceleration_factor_is_capped :
  forall (high low : list float) (af_start af_max : float) (k : nat)
         (v : sar_vars),
    is_finite af_start = true ->
    (af_start <=? af_max)%flt = true ->
    sar_loop high low af_start af_max k = Some v ->
    (af v <=? af_max)%flt = true /\ isnan (af v) = false.
Proof.
  intros high low af_start af_max k v Hf Hle.
  assert (H : forall k v,
             sar_loop high low af_start af_max k = Some v ->
             isnan (af v) = false /\ (af v <=? af_max)%flt = true).
  { clear k v. induction k as [|k IH]; intros v E; cbn [sar_loop] in E.
    - unfold sar_init in E.
      destruct (pd.iloc low 0); [|discriminate].
      destruct (pd.iloc high 0); [|discriminate].
      injection E as <-. cbn [af].
      split; [apply (leb_nan_l _ _ Hle) | exact Hle].
    - destruct (sar_loop high low af_start af_max k) as [u|]; [|discriminate].
      destruct (IH u eq_refl) as [Nu Lu].
      apply (@sar_body_accel high low af_start af_max (S k) u v Hf Hle Nu Lu E). }
  intros E. destruct (H k v E) as [N L]. split; assumption.
Qed.

Lemma acceleration_factor_is_capped_witness :
  exists v,
    sar_loop three_highs three_lows PSAR_AF PSAR_MAX_AF 2 = Some v /\
    (af v <=? PSAR_MAX_AF)%flt = true.
Proof.
  destruct (sar_loop three_highs three_lows PSAR_AF PSAR_MAX_AF 2) as [v|] eqn:E;
    [|vm_compute in E; discriminate E].
  exists v. split; [reflexivity|].
  apply (@acceleration_factor_is_capped three_highs three_lows
           PSAR_AF PSAR_MAX_AF 2 v); [reflexivity | reflexivity | exact E].
Defined.

(* ================================================================== *)
(** * The life cycle *)
(* ================================================================== *)

Lemma handled_app :
  forall l1 l2,
    TSITradingBot.handled (l1 ++ l2)
    = TSITradingBot.handled l1 ++ TSITradingBot.handled l2.
Proof.
  induction l1 as [|e l1 IH]; intros l2; [reflexivity|].
  destruct e; cbn; rewrite ?IH; reflexivity.
Qed.

Lemma handled_map :
  forall l, TSITradingBot.handled (map TSITradingBot.Handled l) = l.
Proof. induction l as [|e l IH]; [reflexivity|]. cbn. rewrite IH. reflexivity. Qed.

Lemma load_flat :
  forall bars s,
    in_position (final (load_historical_data bars s)) = in_position s /\
    events (load_historical_data bars s) = [].
Proof.
  intros bars s. unfold load_historical_data.
  destruct bars as [|b bars]; [split; reflexivity|].
  unfold bind, modify. cbn [fst snd].
  destruct (update_indicators_result (set_bars_5min (b :: bars) s))
    as (ma & slope & tsi & psar & E).
  rewrite E. unfold final, events. cbn [fst snd app].
  destruct (length (bars_5min (set_bars_5min (b :: bars) s)) <? MA_PERIOD)%nat;
    split; reflexivity.
Qed.

Ltac session_simpl :=
  cbn [TSITradingBot.on_connect TSITradingBot.on_qualify TSITradingBot.on_history
       TSITradingBot.on_subscribe TSITradingBot.feed TSITradingBot.on_run
       TSITradingBot.link_lost TSITradingBot.bot TSITradingBot.new
       TSITradingBot.connected TSITradingBot.contract] in *.

(** The [try] block from a new object: either no callback ran, the bot is
    flat and nothing was handled, or the feed ran from the flat bot the
    warm-up left. *)
Lemma try_block_new :
  forall w,
    (TSITradingBot.handled (snd (TSITradingBot.try_block w TSITradingBot.new)) = [] /\
     in_position
       (TSITradingBot.bot (snd (fst (TSITradingBot.try_block w TSITradingBot.new))))
     = false /\
     ~ In TSITradingBot.CallRun
         (snd (TSITradingBot.try_block w TSITradingBot.new)) /\
     (TSITradingBot.on_connect w <> None \/ TSITradingBot.on_qualify w <> None \/
      (exists a, TSITradingBot.on_history w = inl a) \/
      TSITradingBot.on_history w = inr [] \/
      TSITradingBot.on_subscribe w <> None)) \/
    (exists bars s1,
       TSITradingBot.on_connect w = None /\ TSITradingBot.on_qualify w = None /\
       TSITradingBot.on_history w = inr bars /\ bars <> [] /\
       TSITradingBot.on_subscribe w = None /\
       s1 = final (load_historical_data bars __init__) /\
       in_position s1 = false /\
       TSITradingBot.handled (snd (TSITradingBot.try_block w TSITradingBot.new))
       = snd (run (map TSITradingBot.call_of (TSITradingBot.feed w)) s1) /\
       TSITradingBot.bot (snd (fst (TSITradingBot.try_block w TSITradingBot.new)))
       = fst (run (map TSITradingBot.call_of (TSITradingBot.feed w)) s1) /\
       fst (fst (TSITradingBot.try_block w TSITradingBot.new))
       = TSITradingBot.on_run w).
Proof.
  intros [oc oq oh os fd orun lost].
  unfold TSITradingBot.try_block, TSITradingBot.connect, TSITradingBot.load.
  session_simpl.
  destruct oc as [a|].
  { left. cbn. repeat split; try reflexivity.
    - intros [H | []]; discriminate H.
    - left. discriminate. }
  destruct oq as [a|].
  { left. cbn. repeat split; try reflexivity.
    - intros [H | [H | []]]; discriminate H.
    - right. left. discriminate. }
  destruct oh as [a | bars].
  { left. cbn. repeat split; try reflexivity.
    - intros [H | [H | [H | []]]]; discriminate H.
    - right. right. left. exists a. reflexivity. }
  session_simpl.
  destruct (load_flat bars __init__) as [Lp Le].
  pose proof (load_outcome bars __init__) as Lo.
  unfold final, events, outcome in Lp, Le, Lo.
  destruct (load_historical_data bars __init__) as [[r b] l] eqn:El.
  cbn [fst snd] in Lp, Le, Lo. subst l.
  destruct bars as [|b0 bars].
  { cbn in Lo. subst r. left. cbn [fst snd app map TSITradingBot.bot TSITradingBot.handled In].
    repeat split; try reflexivity; try exact Lp.
    - intros [H | [H | [H | []]]]; discriminate H.
    - right. right. right. left. reflexivity. }
  cbn in Lo. subst r. session_simpl.
  destruct os as [a|].
  { left. cbn [fst snd app map TSITradingBot.bot TSITradingBot.handled In].
    repeat split; try reflexivity; try exact Lp.
    - intros [H | [H | [H | [H | []]]]]; discriminate H.
    - right. right. right. right. discriminate. }
  right. exists (b0 :: bars), b.
  session_simpl.
  destruct (run (map TSITradingBot.call_of fd) b) as [b3 l3] eqn:Er.
  cbn [fst snd app map TSITradingBot.bot TSITradingBot.handled].
  rewrite handled_map.
  repeat split; try reflexivity; try exact Lp; [discriminate|].
  rewrite El. reflexivity.
Qed.

Lemma try_block_connection :
  forall w s,
    TSITradingBot.connected s = false ->
    TSITradingBot.connected (snd (fst (TSITradingBot.try_block w s)))
    = match TSITradingBot.on_connect w with None => true | Some _ => false end /\
    ~ In TSITradingBot.CallDisconnect (snd (TSITradingBot.try_block w s)).
Proof.
  intros [oc oq oh os fd orun lost] s Hs.
  unfold TSITradingBot.try_block, TSITradingBot.connect, TSITradingBot.load.
  session_simpl.
  destruct oc as [a|].
  { cbn. split; [exact Hs|]. intros [H | []]; discriminate H. }
  destruct oq as [a|].
  { cbn. split; [reflexivity|]. intros [H | [H | []]]; discriminate H. }
  destruct oh as [a | bars].
  { cbn. split; [reflexivity|]. intros [H | [H | [H | []]]]; discriminate H. }
  session_simpl.
  assert (N : forall l : list Event,
             ~ In TSITradingBot.CallDisconnect (map TSITradingBot.Handled l)).
  { intros l H. apply in_map_iff in H. destruct H as [e [H _]]. discriminate H. }
  destruct (load_historical_data bars (TSITradingBot.bot s)) as [[[[]|e] b] l].
  - session_simpl. destruct os as [a|].
    + cbn [fst snd TSITradingBot.connected]. split; [reflexivity|].
      intros H. cbn [app In] in H.
      destruct H as [H | [H | [H | H]]]; try discriminate H.
      apply in_app_or in H. destruct H as [H | [H | []]];
        [exact (N l H) | discriminate H].
    + destruct (run (map TSITradingBot.call_of fd) b) as [b3 l3].
      cbn [fst snd TSITradingBot.connected]. split; [reflexivity|].
      intros H. cbn [app In] in H.
      destruct H as [H | [H | [H | H]]]; try discriminate H.
      apply in_app_or in H. destruct H as [H | H]; [exact (N l H)|].
      cbn [In] in H. destruct H as [H | [H | H]]; try discriminate H.
      exact (N l3 H).
  - cbn [fst snd TSITradingBot.connected]. split; [reflexivity|].
    intros H. cbn [app In] in H.
    destruct H as [H | [H | [H | H]]]; try discriminate H. exact (N l H).
Qed.

Lemma run_unfold :
  forall w s,
    TSITradingBot.run w s
    = (match fst (fst (TSITradingBot.try_block w s)) with
       | Some TSITradingBot.OtherBaseException =>
         Some TSITradingBot.OtherBaseException
       | _ => None
       end,
       TSITradingBot.mkSession false
         (TSITradingBot.contract (snd (fst (TSITradingBot.try_block w s))))
         (TSITradingBot.bot (snd (fst (TSITradingBot.try_block w s)))),
       snd (TSITradingBot.try_block w s)
       ++ match fst (fst (TSITradingBot.try_block w s)) with
          | Some TSITradingBot.KeyboardInterrupt => [TSITradingBot.LogStopped]
          | Some TSITradingBot.AnException => [TSITradingBot.LogError]
          | _ => []
          end
       ++ (if TSITradingBot.connected (snd (fst (TSITradingBot.try_block w s)))
              && negb (TSITradingBot.link_lost w)
           then [TSITradingBot.CallDisconnect] else [])).
Proof.
  intros w s. unfold TSITradingBot.run, TSITradingBot.disconnect.
  destruct (TSITradingBot.try_block w s) as [[a s1] l1]. cbn [fst snd].
  destruct (TSITradingBot.connected s1 && negb (TSITradingBot.link_lost w));
    destruct a as [[]|]; reflexivity.
Qed.

Lemma handled_after_try :
  forall (a : option TSITradingBot.Abort) (c : bool) l,
    TSITradingBot.handled
      (l ++ match a with
            | Some TSITradingBot.KeyboardInterrupt => [TSITradingBot.LogStopped]
            | Some TSITradingBot.AnException => [TSITradingBot.LogError]
            | _ => []
            end
         ++ (if c then [TSITradingBot.CallDisconnect] else []))
    = TSITradingBot.handled l.
Proof.
  intros a c l. rewrite !handled_app.
  destruct a as [[]|], c; cbn; rewrite app_nil_r; reflexivity.
Qed.

(** X22.  When the connection, the contract qualification, the historical
    data request or the market data subscription is aborted, or when the
    historical data request returns no bar, [run] handles no tick at all:
    [ib.run()] is never entered, no event of a handler occurs (so no order
    is placed), and the bot ends flat and disconnected. *)
Theorem run_without_warm_up_handles_no_tick :
  forall w : TSITradingBot.World,
    TSITradingBot.on_connect w <> None \/ TSITradingBot.on_qualify w <> None \/
    (exists a, TSITradingBot.on_history w = inl a) \/
    TSITradingBot.on_history w = inr [] \/
    TSITradingBot.on_subscribe w <> None ->
    TSITradingBot.handled (snd (TSITradingBot.run w TSITradingBot.new)) = [] /\
    ~ In TSITradingBot.CallRun (snd (TSITradingBot.run w TSITradingBot.new)) /\
    in_position
      (TSITradingBot.bot (snd (fst (TSITradingBot.run w TSITradingBot.new))))
    = false /\
    TSITradingBot.connected (snd (fst (TSITradingBot.run w TSITradingBot.new)))
    = false.
Proof.
  intros w H. rewrite run_unfold. cbn [fst snd TSITradingBot.bot TSITradingBot.connected].
  rewrite handled_after_try.
  destruct (try_block_new w) as [(H1 & H2 & H3 & _) | R].
  - split; [exact H1|]. split; [|split; [exact H2 | reflexivity]].
    intros Hin. apply in_app_or in Hin. destruct Hin as [Hin | Hin];
      [exact (H3 Hin)|].
    apply in_app_or in Hin. destruct Hin as [Hin | Hin].
    + destruct (fst (fst (TSITradingBot.try_block w TSITradingBot.new)))
        as [[]|]; cbn in Hin; intuition discriminate.
    + destruct (_ && _); cbn in Hin; intuition discriminate.
  - exfalso.
    destruct R as (bars & s1 & Ec & Eq & Eh & Hne & Es & _).
    destruct H as [H | [H | [[a H] | [H | H]]]]; congruence.
Qed.

Lemma run_without_warm_up_handles_no_tick_witness :
  TSITradingBot.handled
    (snd (TSITradingBot.run world_without_history TSITradingBot.new)) = [] /\
  In TSITradingBot.LogError
    (snd (TSITradingBot.run world_without_history TSITradingBot.new)).
Proof.
  destruct (@run_without_warm_up_handles_no_tick world_without_history)
    as (H & _).
  - right. right. right. left. reflexivity.
  - split; [exact H|]. vm_compute. intuition.
Defined.

(** X23.  Whatever the library answers, [run] ends with the client
    disconnected; [ib.disconnect()] is called exactly when the connection
    was established and the link is still up; [KeyboardInterrupt] and every
    [Exception] are caught, so only another [BaseException] leaves [run];
    and the position flag the bot ends with is the position that results
    from the filled orders of the tick handlers: an open short is not closed
    on the way out. *)
Theorem run_ends_disconnected :
  forall w : TSITradingBot.World,
    TSITradingBot.connected (snd (fst (TSITradingBot.run w TSITradingBot.new)))
    = false /\
    (In TSITradingBot.CallDisconnect (snd (TSITradingBot.run w TSITradingBot.new))
     <-> TSITradingBot.on_connect w = None /\ TSITradingBot.link_lost w = false) /\
    (fst (fst (TSITradingBot.run w TSITradingBot.new)) = None \/
     fst (fst (TSITradingBot.run w TSITradingBot.new))
     = Some TSITradingBot.OtherBaseException) /\
    position_after false
      (TSITradingBot.handled (snd (TSITradingBot.run w TSITradingBot.new)))
    = Some (in_position
              (TSITradingBot.bot
                 (snd (fst (TSITradingBot.run w TSITradingBot.new))))).
Proof.
  intros w. rewrite run_unfold.
  cbn [fst snd TSITradingBot.bot TSITradingBot.connected].
  rewrite handled_after_try.
  destruct (@try_block_connection w TSITradingBot.new eq_refl) as [Hc Hn].
  split; [reflexivity|]. split; [|split].
  - rewrite Hc. split.
    + intros Hin. apply in_app_or in Hin. destruct Hin as [Hin | Hin];
        [exfalso; exact (Hn Hin)|].
      apply in_app_or in Hin. destruct Hin as [Hin | Hin].
      * exfalso.
        destruct (fst (fst (TSITradingBot.try_block w TSITradingBot.new)))
          as [[]|]; cbn in Hin; intuition discriminate.
      * destruct (TSITradingBot.on_connect w); cbn [andb] in Hin;
          [destruct Hin|].
        destruct (TSITradingBot.link_lost w); cbn in Hin;
          [destruct Hin | split; reflexivity].
    + intros [E1 E2]. rewrite E1, E2. cbn [andb negb].
      apply in_or_app. right. apply in_or_app. right. left. reflexivity.
  - destruct (fst (fst (TSITradingBot.try_block w TSITradingBot.new)))
      as [[]|]; [left | left | right | left]; reflexivity.
  - destruct (try_block_new w) as [(H1 & H2 & _) | R].
    + rewrite H1, H2. reflexivity.
    + destruct R as (bars & s1 & _ & _ & _ & _ & _ & Es & Hflat & Eh & Eb & _).
      rewrite Eh, Eb.
      destruct (@follows_orders_run
                  (map TSITradingBot.call_of (TSITradingBot.feed w)) s1)
        as [P _]; [rewrite Hflat; intros K; discriminate K|].
      rewrite Hflat in P. exact P.
Qed.

(** An execution that ends short: the warm-up on the falling history, a
    tick above the moving average, a tick below it whose entry is filled,
    then Ctrl-C.  The only order is the entry SELL, and the client is
    disconnected with the position open. *)
Example run_can_end_short :
  in_position
    (TSITradingBot.bot (snd (fst (TSITradingBot.run world_with_crossing
                                    TSITradingBot.new)))) = true /\
  orders (TSITradingBot.handled
            (snd (TSITradingBot.run world_with_crossing TSITradingBot.new)))
  = [(SELL, QUANTITY)] /\
  List.last (snd (TSITradingBot.run world_with_crossing TSITradingBot.new))
    TSITradingBot.CallRun
  = TSITradingBot.CallDisconnect.
Proof. vm_compute. repeat split; reflexivity. Qed.

(* ================================================================== *)
(** * One order per tick *)
(* ================================================================== *)

Lemma flat_silent_refl : forall s, flat_silent s [] s.
Proof. intros s H. split; [exact H | reflexivity]. Qed.

Lemma flat_silent_trans :
  forall a l1 b l2 c,
    flat_silent a l1 b -> flat_silent b l2 c -> flat_silent a (l1 ++ l2) c.
Proof.
  intros a l1 b l2 c H1 H2 Ha.
  destruct (H1 Ha) as [Hb O1]. destruct (H2 Hb) as [Hc O2].
  split; [exact Hc|]. rewrite orders_app, O1, O2. reflexivity.
Qed.

Lemma flat_silent_aggregate :
  forall ib bar_start price, keeps flat_silent (aggregate_tick ib bar_start price).
Proof.
  intros ib bar_start price.
  apply keeps_aggregate_tick with (G := fun _ => True);
    first [ exact flat_silent_refl | exact flat_silent_trans | exact I
          | solve [intros; intros H; split; [exact H | reflexivity]]
          | idtac ].
  intros ib' _ s Hpos Hflat. congruence.
Qed.

Lemma keeps_tracker_refl : forall s, keeps_tracker s [] s.
Proof. intros s. split; [reflexivity | auto]. Qed.

Lemma keeps_tracker_trans :
  forall a l1 b l2 c,
    keeps_tracker a l1 b -> keeps_tracker b l2 c -> keeps_tracker a (l1 ++ l2) c.
Proof.
  intros a l1 b l2 c [A1 A2] [B1 B2]. split; [congruence | auto].
Qed.

Lemma keeps_tracker_aggregate :
  forall ib bar_start price,
    keeps keeps_tracker (aggregate_tick ib bar_start price).
Proof.
  intros ib bar_start price.
  apply keeps_aggregate_tick with (G := fun _ => True);
    first [ exact keeps_tracker_refl | exact keeps_tracker_trans | exact I
          | solve [intros; split; [reflexivity | auto]]
          | idtac ].
  intros ib' _ s Hpos. unfold _exit_short. run_m.
  destruct (is_filled (ib' BUY)); cbn [fst snd app];
    [|split; [reflexivity | auto]].
  destruct (position_entry_price s); split; cbn; auto; discriminate.
Qed.

Lemma keeps_tracker_load :
  forall bars, keeps keeps_tracker (load_historical_data bars).
Proof.
  intros bars.
  apply keeps_load_historical_data;
    first [ exact keeps_tracker_refl | exact keeps_tracker_trans
          | solve [intros; split; [reflexivity | auto]] ].
Qed.

(** The entry check of a bot whose tracker says "not above" places no
    order and opens no position. *)
Lemma check_entry_not_above :
  forall ib price s,
    price_was_above_ma s = Some false ->
    orders (events (_check_entry_conditions ib price s)) = [] /\
    in_position (final (_check_entry_conditions ib price s)) = in_position s.
Proof.
  intros ib price s Hw. unfold _check_entry_conditions. run_m.
  destruct (in_position s) eqn:Hpos; [split; [reflexivity | exact Hpos]|].
  destruct (current_ma70 s) as [ma|]; [|split; [reflexivity | exact Hpos]].
  destruct (current_tsi s) as [tsi|]; [|split; [reflexivity | exact Hpos]].
  rewrite Hw. cbn [andb fst snd app]. split; [reflexivity | exact Hpos].
Qed.

(** The entry check keeps a short bot below: a position is only opened on a
    crossing down, which leaves the tracker at "not above". *)
Lemma check_entry_short_below :
  forall ib price s,
    short_below s -> short_below (final (_check_entry_conditions ib price s)).
Proof.
  intros ib price s J. unfold _check_entry_conditions. run_m.
  destruct (in_position s) eqn:Hpos; [intros _; apply J; exact Hpos|].
  destruct (current_ma70 s) as [ma|]; [|intros H; cbn in H; congruence].
  destruct (current_tsi s) as [tsi|]; [|intros H; cbn in H; congruence].
  destruct (price_was_above_ma s) as [was|];
    [|intros H; cbn in H; congruence].
  cbn [fst snd app].
  destruct (was && negb (price >? ma)%flt) eqn:Ecross;
    [|intros H; cbn in H; congruence].
  cbn [fst snd app set_price_was_above_ma ma70_slope].
  destruct (ma70_slope s) as [slope|]; [|intros H; cbn in H; congruence].
  destruct ((slope <? zero)%flt && (tsi <? TSI_THRESHOLD)%flt);
    [|intros H; cbn in H; congruence].
  rewrite enter_short_result. cbn [fst snd].
  apply andb_true_iff in Ecross. destruct Ecross as [_ Eb].
  apply negb_true_iff in Eb. rewrite Eb.
  destruct (is_filled (ib SELL)); intros H; cbn in *; [reflexivity | congruence].
Qed.

Lemma on_tick_short_below :
  forall ib now last s,
    short_below s -> short_below (final (_on_tick ib now last s)).
Proof.
  intros ib now last s J. unfold _on_tick.
  destruct last as [price|]; [|exact J].
  destruct (isnan price); [exact J|].
  destruct (keeps_tracker_aggregate ib (_get_bar_start_time now) price s)
    as [T1 T2].
  unfold bind at 1. unfold final in *.
  destruct (aggregate_tick ib (_get_bar_start_time now) price s)
    as [[[[]|e] s1] l1]; cbn [fst snd] in *.
  - unfold bind, modify. cbn [fst snd].
    assert (J1 : short_below (set_last_price (Some price) s1)).
    { intros H. cbn in *. rewrite T1. apply J. apply T2. exact H. }
    pose proof (@check_entry_short_below ib price _ J1) as J2.
    unfold final in J2.
    destruct (_check_entry_conditions ib price (set_last_price (Some price) s1))
      as [[r2 s2] l2]. exact J2.
  - intros H. rewrite T1. apply J. apply T2. exact H.
Qed.

Lemma run_short_below :
  forall calls s, short_below s -> short_below (fst (run calls s)).
Proof.
  induction calls as [|c rest IH]; intros s J; [exact J|]. cbn [run].
  assert (H : short_below (final (handle c s))).
  { destruct c as [bars | ib now last]; cbn [handle].
    - destruct (keeps_tracker_load bars s) as [T1 T2].
      intros H. rewrite T1. apply J. apply T2. exact H.
    - apply on_tick_short_below. exact J. }
  unfold final in H. destruct (handle c s) as [[r s1] l1]. cbn [fst snd] in H.
  specialize (IH s1 H). destruct (run rest s1) as [s2 l2]. exact IH.
Qed.

(** X24.  After any sequence of handler invocations the tracker of a short
    bot says "not above", so a tick handler places at most one order: a tick
    whose bar close places the exit BUY cannot place an entry SELL as well.
    After an exit the bot needs a tick above the moving average before it
    can enter again. *)
Theorem reachable_tick_places_at_most_one_order :
  forall (calls : list Call) (ib : Gateway) (now : datetime)
         (last : option float),
    (in_position (fst (run calls __init__)) = true ->
     price_was_above_ma (fst (run calls __init__)) = Some false) /\
    (orders (events (_on_tick ib now last (fst (run calls __init__)))) = [] \/
     orders (events (_on_tick ib now last (fst (run calls __init__))))
     = [(BUY, QUANTITY)] \/
     orders (events (_on_tick ib now last (fst (run calls __init__))))
     = [(SELL, QUANTITY)]).
Proof.
  intros calls ib now last.
  assert (J : short_below (fst (run calls __init__))).
  { apply run_short_below. intros H. discriminate H. }
  split; [exact J|].
  set (s := fst (run calls __init__)) in *.
  unfold _on_tick.
  destruct last as [price|]; [|left; reflexivity].
  destruct (isnan price); [left; reflexivity|].
  rewrite events_bind, orders_app.
  destruct (keeps_tracker_aggregate ib (_get_bar_start_time now) price s)
    as [T1 T2].
  destruct (in_position s) eqn:Hpos.
  - (* short: the entry check that follows places nothing *)
    assert (Hq : orders
                   match outcome (aggregate_tick ib (_get_bar_start_time now)
                                    price s) with
                   | Done a =>
                     events
                       ((fun _ : unit =>
                           modify (set_last_price (Some price));;
                           _check_entry_conditions ib price) a
                          (final (aggregate_tick ib (_get_bar_start_time now)
                                    price s)))
                   | Raised _ => []
                   end = []).
    { destruct (outcome _); [|reflexivity].
      rewrite events_modify_bind.
      apply check_entry_not_above.
      change (price_was_above_ma
                (final (aggregate_tick ib (_get_bar_start_time now) price s))
              = Some false).
      rewrite T1. first [apply J; exact Hpos | apply J; reflexivity]. }
    rewrite Hq, app_nil_r.
    destruct (aggregate_orders ib (_get_bar_start_time now) price s) as [E | E];
      rewrite E; auto.
  - (* flat: the bar close places nothing *)
    destruct (flat_silent_aggregate ib (_get_bar_start_time now) price s Hpos)
      as [_ E].
    rewrite E. cbn [app].
    destruct (outcome _); [|left; reflexivity].
    rewrite events_modify_bind.
    destruct (check_entry_orders ib price
                (set_last_price (Some price)
                   (final (aggregate_tick ib (_get_bar_start_time now) price s))))
      as [Ec | Ec]; rewrite Ec; auto.
Qed.

(* ================================================================== *)
(** * The history and the closed bars *)
(* ================================================================== *)

Lemma tail_rows_app :
  forall n (l m : list Bar),
    tail_rows n (tail_rows n l ++ m) = tail_rows n (l ++ m).
Proof.
  intros n l m. destruct (Nat.le_gt_cases (length l) n) as [H | H].
  - rewrite (@tail_rows_short n l H). reflexivity.
  - unfold tail_rows. rewrite !length_app, length_skipn.
    replace (length l - (length l - n) + length m - n)%nat
      with (length m) by lia.
    replace (length l + length m - n)%nat
      with (length m + (length l - n))%nat by lia.
    rewrite <- (skipn_skipn (length m) (length l - n) (l ++ m)).
    f_equal. rewrite skipn_app.
    replace (length l - n - length l)%nat with O by lia. reflexivity.
Qed.

Lemma history_after_app :
  forall rows c1 c2,
    history_after (history_after rows c1) c2 = history_after rows (c1 ++ c2).
Proof.
  intros rows [|x c1] [|y c2]; cbn [history_after app];
    rewrite ?app_nil_r; try reflexivity.
  change (x :: c1 ++ y :: c2) with ((x :: c1) ++ y :: c2).
  rewrite tail_rows_app, app_assoc. reflexivity.
Qed.

Lemma appends_closed_refl : forall s, appends_closed s [] s.
Proof. intros s. reflexivity. Qed.

Lemma appends_closed_trans :
  forall a l1 b l2 c,
    appends_closed a l1 b -> appends_closed b l2 c ->
    appends_closed a (l1 ++ l2) c.
Proof.
  intros a l1 b l2 c H1 H2. unfold appends_closed in *.
  rewrite H2, H1, closed_bars_app. apply history_after_app.
Qed.

(** A step that neither touches the history nor closes a bar. *)
Lemma appends_closed_quiet :
  forall s l s',
    bars_5min s' = bars_5min s -> closed_bars l = [] -> appends_closed s l s'.
Proof. intros s l s' Hb Hc. unfold appends_closed. rewrite Hb, Hc. reflexivity. Qed.

Lemma appends_closed_close_bar :
  forall ib, keeps appends_closed (_close_bar ib).
Proof.
  intros ib s.
  destruct (cur_open (current_bar s)) as [o|] eqn:Ho.
  - destruct (cur_high (current_bar s)) as [h|] eqn:Hh.
    + destruct (cur_low (current_bar s)) as [l|] eqn:Hl.
      * destruct (cur_close (current_bar s)) as [c|] eqn:Hc.
        { rewrite (@close_bar_unfold ib s o h l c Ho Hh Hl Hc).
          project_triple.
          set (new_bar := mkBar (bar_start_time s) o h l c
                            (cur_volume (current_bar s))).
          set (kept := tail_rows max_bars (bars_5min s ++ [new_bar])).
          pose proof (keeps_history_after_append ib (set_bars_5min kept s)) as K.
          destruct (leaves_bar_after_append ib (set_bars_5min kept s))
            as (_ & _ & L3).
          unfold appends_closed, keeps_history in *.
          cbn [closed_bars]. rewrite K, L3. reflexivity. }
        unfold _close_bar. run_m. rewrite Ho, Hh, Hl, Hc. reflexivity.
      * unfold _close_bar. run_m. rewrite Ho, Hh, Hl. reflexivity.
    + unfold _close_bar. run_m. rewrite Ho, Hh. reflexivity.
  - unfold _close_bar. run_m. rewrite Ho. reflexivity.
Qed.

Lemma appends_closed_aggregate :
  forall ib bar_start price,
    keeps appends_closed (aggregate_tick ib bar_start price).
Proof.
  intros ib bar_start price. unfold aggregate_tick.
  apply keeps_get_bind. intros s.
  destruct (differs (bar_start_time s) bar_start).
  - match goal with
    | |- appends_closed s (events (?m s)) _ =>
      assert (K : keeps appends_closed m); [|exact (K s)]
    end.
    apply keeps_bind; [exact appends_closed_trans | |].
    { destruct (bar_start_time s); [|apply keeps_ret; exact appends_closed_refl].
      destruct (cur_open (current_bar s));
        [apply appends_closed_close_bar
        | apply keeps_ret; exact appends_closed_refl]. }
    intros _. apply keeps_bind; [exact appends_closed_trans | |].
    { apply keeps_modify. intros t. apply appends_closed_quiet; reflexivity. }
    intros _. apply keeps_bind; [exact appends_closed_trans | |].
    { apply keeps_modify. intros t. apply appends_closed_quiet; reflexivity. }
    intros _. apply keeps_emit. intros t.
    apply appends_closed_quiet; reflexivity.
  - match goal with
    | |- appends_closed s (events (?m s)) _ =>
      assert (K : keeps appends_closed m); [|exact (K s)]
    end.
    apply keeps_bind; [exact appends_closed_trans | |].
    { destruct (cur_high (current_bar s));
        [|apply keeps_raise; exact appends_closed_refl].
      apply keeps_modify. intros t. apply appends_closed_quiet; reflexivity. }
    intros _. apply keeps_bind; [exact appends_closed_trans | |].
    { destruct (cur_low (current_bar s));
        [|apply keeps_raise; exact appends_closed_refl].
      apply keeps_modify. intros t. apply appends_closed_quiet; reflexivity. }
    intros _. apply keeps_modify. intros t.
    apply appends_closed_quiet; reflexivity.
Qed.

Lemma appends_closed_on_tick :
  forall ib now last, keeps appends_closed (_on_tick ib now last).
Proof.
  intros ib now last. unfold _on_tick.
  destruct last as [price|]; [|apply keeps_ret; exact appends_closed_refl].
  destruct (isnan price); [apply keeps_ret; exact appends_closed_refl|].
  apply keeps_bind; [exact appends_closed_trans | apply appends_closed_aggregate |].
  intros _. apply keeps_bind; [exact appends_closed_trans | |].
  { apply keeps_modify. intros t. apply appends_closed_quiet; reflexivity. }
  intros _ t. apply appends_closed_quiet.
  - apply (keeps_history_check_entry ib price t).
  - apply (leaves_bar_check_entry ib price t).
Qed.

Lemma appends_closed_ticks :
  forall ticks s,
    Forall is_tick ticks ->
    appends_closed s (snd (run ticks s)) (fst (run ticks s)).
Proof.
  induction ticks as [|c rest IH]; intros s Hall; cbn [run fst snd].
  - apply appends_closed_refl.
  - inversion Hall as [|? ? Hc Hrest]; subst.
    destruct c as [bars | ib now last]; [contradiction|]. cbn [handle].
    pose proof (appends_closed_on_tick ib now last s) as H1.
    unfold events, final in H1.
    destruct (_on_tick ib now last s) as [[r s1] l1]. cbn [fst snd] in H1.
    specialize (IH s1 Hrest).
    destruct (run rest s1) as [s2 l2]. cbn [fst snd] in *.
    eapply appends_closed_trans; eassumption.
Qed.

(** X25.  After the warm-up and any run of ticks, the history is the answer
    of the warm-up followed by the bars the aggregator closed, in order, cut
    to its latest [max_bars] rows as soon as one bar was closed: no tick
    drops, reorders or rewrites a row otherwise. *)
Theorem history_is_warm_up_then_closed_bars :
  forall (history : list Bar) (ticks : list Call),
    Forall is_tick ticks ->
    bars_5min (fst (run (LoadHistory history :: ticks) __init__))
    = match closed_bars (snd (run (LoadHistory history :: ticks) __init__)) with
      | [] => history
      | closed => tail_rows max_bars (history ++ closed)
      end.
Proof.
  intros history ticks Hall. cbn [run handle].
  destruct (load_flat history __init__) as [_ Le].
  assert (Lb : bars_5min (final (load_historical_data history __init__)) = history).
  { destruct history as [|b bars]; [reflexivity|].
    unfold load_historical_data. unfold bind, modify. cbn [fst snd].
    destruct (update_indicators_result (set_bars_5min (b :: bars) __init__))
      as (ma & slope & tsi & psar & E).
    rewrite E. unfold final. cbn [fst snd].
    destruct (length (bars_5min (set_bars_5min (b :: bars) __init__))
              <? MA_PERIOD)%nat; reflexivity. }
  unfold final, events in *.
  destruct (load_historical_data history __init__) as [[r s1] l1].
  cbn [fst snd] in *. subst l1.
  pose proof (appends_closed_ticks s1 Hall) as H.
  destruct (run ticks s1) as [s2 l2]. cbn [fst snd app] in *.
  unfold appends_closed, history_after in H. rewrite Lb in H.
  rewrite H. destruct (closed_bars l2); reflexivity.
Qed.

Lemma history_is_warm_up_then_closed_bars_witness :
  length (bars_5min (fst (run (LoadHistory short_history :: two_ticks_then_close)
                            __init__))) = 11%nat.
Proof.
  rewrite (@history_is_warm_up_then_closed_bars short_history
             two_ticks_then_close).
  - vm_compute. reflexivity.
  - repeat constructor.
Defined.

(* ================================================================== *)
(** * The current values and the history *)
(* ================================================================== *)

(** What [_update_indicators] stores depends on the history alone. *)
Lemma update_indicators_snapshot :
  forall s,
    (MA_PERIOD <= length (bars_5min s))%nat ->
    snapshot (final (_update_indicators s)) = recomputed_snapshot (bars_5min s) /\
    bars_5min (final (_update_indicators s)) = bars_5min s.
Proof.
  intros s H. apply Nat.ltb_ge in H. unfold recomputed_snapshot.
  destruct (update_indicators_result s) as (ma & slope & tsi & psar & E).
  destruct (update_indicators_result (set_bars_5min (bars_5min s) __init__))
    as (ma0 & slope0 & tsi0 & psar0 & E0).
  cbn [bars_5min set_bars_5min] in E0. rewrite H in E, E0.
  rewrite E, E0. unfold final. cbn [fst snd]. split; [|reflexivity].
  revert E E0. unfold _update_indicators. run_m.
  cbn [bars_5min set_bars_5min]. rewrite H.
  destruct (calculate_parabolic_sar _ _ _ _); [|discriminate].
  destruct (pd.iloc_last _); [|discriminate].
  destruct (pd.iloc_last _); [|discriminate].
  destruct (pd.iloc_last _); [|discriminate].
  destruct (pd.iloc_last _); [|discriminate].
  intros E E0. injection E as <- <- <- <-. injection E0 as <- <- <- <-.
  reflexivity.
Qed.

Lemma update_indicators_coherent :
  forall s, coherent (final (_update_indicators s)).
Proof.
  intros s Hlen.
  destruct (update_indicators_result s) as (ma & slope & tsi & psar & E).
  assert (Hb : bars_5min (final (_update_indicators s)) = bars_5min s).
  { rewrite E. unfold final. cbn [fst snd].
    destruct (length (bars_5min s) <? MA_PERIOD)%nat; reflexivity. }
  rewrite Hb in *.
  destruct (@update_indicators_snapshot s Hlen) as [Hs _].
  exact Hs.
Qed.

Lemma keeps_snapshot_refl : forall s, keeps_snapshot s [] s.
Proof. intros s. split; reflexivity. Qed.

Lemma keeps_snapshot_trans :
  forall a l1 b l2 c,
    keeps_snapshot a l1 b -> keeps_snapshot b l2 c ->
    keeps_snapshot a (l1 ++ l2) c.
Proof. intros a l1 b l2 c [A1 A2] [B1 B2]. split; congruence. Qed.

Lemma keeps_snapshot_coherent :
  forall s l s', keeps_snapshot s l s' -> keeps_coherent s l s'.
Proof.
  intros s l s' [Hb Hs] C Hlen. rewrite Hb in *. rewrite Hs. apply C. exact Hlen.
Qed.

Lemma keeps_snapshot_check_exit :
  forall ib, keeps keeps_snapshot (_check_exit_conditions ib).
Proof.
  intros ib. apply keeps_check_exit with (G := fun _ => True);
    first [ exact I | exact keeps_snapshot_refl | exact keeps_snapshot_trans
          | idtac ].
  intros ib' _ s _. unfold _exit_short. run_m.
  destruct (is_filled (ib' BUY)); cbn [fst snd app]; [|split; reflexivity].
  destruct (position_entry_price s); split; reflexivity.
Qed.

Lemma keeps_snapshot_check_entry :
  forall ib price, keeps keeps_snapshot (_check_entry_conditions ib price).
Proof.
  intros ib price s.
  destruct (between_closes_check_entry ib price s)
    as (B1 & B2 & B3 & B4 & B5 & _).
  split; [exact B1|]. unfold snapshot. congruence.
Qed.

Lemma keeps_coherent_refl : forall s, keeps_coherent s [] s.
Proof. intros s C. exact C. Qed.

Lemma keeps_coherent_trans :
  forall a l1 b l2 c,
    keeps_coherent a l1 b -> keeps_coherent b l2 c ->
    keeps_coherent a (l1 ++ l2) c.
Proof. intros a l1 b l2 c H1 H2 C. apply H2. apply H1. exact C. Qed.

(** Whatever the object was, it is coherent once the indicators were
    recomputed and the exit check has run. *)
Lemma after_append_coherent :
  forall ib s, coherent (final (after_append ib s)).
Proof.
  intros ib s. unfold after_append.
  pose proof (update_indicators_coherent s) as C.
  destruct (update_indicators_result s) as (ma & slope & tsi & psar & E).
  unfold bind. rewrite E in *. unfold final in *. cbn [fst snd] in *.
  pose proof (keeps_snapshot_check_exit ib
                (if (length (bars_5min s) <? MA_PERIOD)%nat then s
                 else set_indicators ma slope tsi psar s)) as K.
  apply keeps_snapshot_coherent in K. specialize (K C).
  unfold final in K.
  destruct (_check_exit_conditions ib _) as [[r s2] l2]. exact K.
Qed.

Lemma keeps_coherent_close_bar :
  forall ib, keeps keeps_coherent (_close_bar ib).
Proof.
  intros ib s.
  destruct (cur_open (current_bar s)) as [o|] eqn:Ho.
  - destruct (cur_high (current_bar s)) as [h|] eqn:Hh.
    + destruct (cur_low (current_bar s)) as [l|] eqn:Hl.
      * destruct (cur_close (current_bar s)) as [c|] eqn:Hc.
        { rewrite (@close_bar_unfold ib s o h l c Ho Hh Hl Hc).
          project_triple. intros _. apply after_append_coherent. }
        unfold _close_bar. run_m. rewrite Ho, Hh, Hl, Hc.
        apply keeps_coherent_refl.
      * unfold _close_bar. run_m. rewrite Ho, Hh, Hl. apply keeps_coherent_refl.
    + unfold _close_bar. run_m. rewrite Ho, Hh. apply keeps_coherent_refl.
  - unfold _close_bar. run_m. rewrite Ho. apply keeps_coherent_refl.
Qed.

Lemma keeps_coherent_aggregate :
  forall ib bar_start price,
    keeps keeps_coherent (aggregate_tick ib bar_start price).
Proof.
  intros ib bar_start price. unfold aggregate_tick.
  apply keeps_get_bind. intros s.
  destruct (differs (bar_start_time s) bar_start).
  - match goal with
    | |- keeps_coherent s (events (?m s)) _ =>
      assert (K : keeps keeps_coherent m); [|exact (K s)]
    end.
    apply keeps_bind; [exact keeps_coherent_trans | |].
    { destruct (bar_start_time s); [|apply keeps_ret; exact keeps_coherent_refl].
      destruct (cur_open (current_bar s));
        [apply keeps_coherent_close_bar
        | apply keeps_ret; exact keeps_coherent_refl]. }
    intros _. apply keeps_bind; [exact keeps_coherent_trans | |].
    { apply keeps_modify. intros t. apply keeps_snapshot_coherent.
      split; reflexivity. }
    intros _. apply keeps_bind; [exact keeps_coherent_trans | |].
    { apply keeps_modify. intros t. apply keeps_snapshot_coherent.
      split; reflexivity. }
    intros _. apply keeps_emit. intros t. exact (@keeps_coherent_refl t).
  - match goal with
    | |- keeps_coherent s (events (?m s)) _ =>
      assert (K : keeps keeps_coherent m); [|exact (K s)]
    end.
    apply keeps_bind; [exact keeps_coherent_trans | |].
    { destruct (cur_high (current_bar s));
        [|apply keeps_raise; exact keeps_coherent_refl].
      apply keeps_modify. intros t. apply keeps_snapshot_coherent.
      split; reflexivity. }
    intros _. apply keeps_bind; [exact keeps_coherent_trans | |].
    { destruct (cur_low (current_bar s));
        [|apply keeps_raise; exact keeps_coherent_refl].
      apply keeps_modify. intros t. apply keeps_snapshot_coherent.
      split; reflexivity. }
    intros _. apply keeps_modify. intros t. apply keeps_snapshot_coherent.
    split; reflexivity.
Qed.

Lemma keeps_coherent_handle : forall c, keeps keeps_coherent (handle c).
Proof.
  intros [bars | ib now last]; cbn [handle].
  - intros s C. unfold load_historical_data.
    destruct bars as [|b bars]; [exact C|].
    unfold bind, modify. cbn [fst snd].
    pose proof (update_indicators_coherent (set_bars_5min (b :: bars) s)) as K.
    unfold final in *.
    destruct (_update_indicators (set_bars_5min (b :: bars) s)) as [[r s2] l2].
    exact K.
  - unfold _on_tick.
    destruct last as [price|]; [|apply keeps_ret; exact keeps_coherent_refl].
    destruct (isnan price); [apply keeps_ret; exact keeps_coherent_refl|].
    apply keeps_bind; [exact keeps_coherent_trans | apply keeps_coherent_aggregate |].
    intros _. apply keeps_bind; [exact keeps_coherent_trans | |].
    { apply keeps_modify. intros t. apply keeps_snapshot_coherent.
      split; reflexivity. }
    intros _ t. apply keeps_snapshot_coherent.
    apply keeps_snapshot_check_entry.
Qed.

Lemma keeps_coherent_run :
  forall calls s, keeps_coherent s (snd (run calls s)) (fst (run calls s)).
Proof.
  induction calls as [|c rest IH]; intros s; cbn [run fst snd].
  - apply keeps_coherent_refl.
  - pose proof (@keeps_coherent_handle c s) as H1. unfold events, final in H1.
    destruct (handle c s) as [[r s1] l1]. cbn [fst snd] in H1.
    specialize (IH s1). destruct (run rest s1) as [s2 l2]. cbn [fst snd] in *.
    eapply keeps_coherent_trans; eassumption.
Qed.

(** X26.  The four current values are never out of step with the history:
    after any sequence of handler invocations, if the history holds at least
    [MA_PERIOD] rows, the moving average, its slope, the oscillator and the
    stop are exactly the values [_update_indicators] computes from the
    history as it stands. *)
Theorem current_values_match_history :
  forall calls : list Call,
    (MA_PERIOD <= length (bars_5min (fst (run calls __init__))))%nat ->
    (current_ma70 (fst (run calls __init__)),
     ma70_slope (fst (run calls __init__)),
     current_tsi (fst (run calls __init__)),
     current_sar (fst (run calls __init__)))
    = recomputed_snapshot (bars_5min (fst (run calls __init__))).
Proof.
  intros calls H.
  apply (@keeps_coherent_run calls __init__); [|exact H].
  intros H0. cbn in H0. unfold MA_PERIOD in H0. lia.
Qed.

Lemma current_values_match_history_witness :
  (current_ma70 warmed_up, ma70_slope warmed_up, current_tsi warmed_up,
   current_sar warmed_up)
  = recomputed_snapshot (bars_5min warmed_up).
Proof.
  apply (@current_values_match_history [LoadHistory falling_history]).
  vm_compute. lia.
Defined.

(* ================================================================== *)
(** * The aggregation of a bucket *)
(* ================================================================== *)

Lemma differs_same : forall t, differs (Some t) t = false.
Proof.
  intros t. cbn [differs]. apply negb_false_iff. apply datetime_eqb_eq.
  reflexivity.
Qed.

Lemma last_cons :
  forall (q p : float) qs, List.last (q :: qs) p = List.last qs q.
Proof.
  intros q p [|x qs]; [reflexivity|].
  change (List.last (q :: x :: qs) p) with (List.last (x :: qs) p).
  apply last_indep. discriminate.
Qed.

(** One handler invocation inside the bucket of the bar in progress. *)
Lemma handle_in_bucket :
  forall c s b h l,
    bar_start_time s = Some b ->
    cur_high (current_bar s) = Some h -> cur_low (current_bar s) = Some l ->
    in_bucket b c ->
    bar_start_time (final (handle c s)) = Some b /\
    closed_bars (events (handle c s)) = [] /\
    current_bar (final (handle c s))
    = match prices [c] with
      | [] => current_bar s
      | p :: _ =>
        mkCurrentBar (cur_open (current_bar s)) (Some (max2 h p))
          (Some (min2 l p)) (Some p) (cur_volume (current_bar s))
      end.
Proof.
  intros c s b h l Hb Hh Hl Hc.
  destruct c as [bars | ib now last]; cbn [handle prices].
  - destruct (@keeps_load_historical_data leaves_bar leaves_bar_refl
                leaves_bar_trans
                ltac:(intros; repeat split) ltac:(intros; repeat split)
                bars s) as (L1 & L2 & L3).
    rewrite L1, L2, L3. repeat split. exact Hb.
  - cbn [in_bucket] in Hc.
    destruct last as [p|]; [|repeat split; exact Hb].
    destruct (isnan p) eqn:Hp.
    { unfold _on_tick. rewrite Hp. repeat split. exact Hb. }
    assert (Hd : differs (bar_start_time s) (_get_bar_start_time now) = false).
    { rewrite Hb, Hc. apply differs_same. }
    pose proof (aggregate_same_bucket ib (_get_bar_start_time now) p s Hd Hh Hl)
      as Ea.
    assert (Da : outcome (aggregate_tick ib (_get_bar_start_time now) p s)
                 = Done tt) by (rewrite Ea; reflexivity).
    rewrite (@on_tick_final ib now p s Hp Da).
    rewrite (@on_tick_events ib now p s Hp Da).
    rewrite Ea. project_triple. cbn [app].
    match goal with
    | |- context [_check_entry_conditions ib p ?t] =>
      destruct (leaves_bar_check_entry ib p t) as (L1 & L2 & L3)
    end.
    rewrite L1, L2, L3. repeat split. exact Hb.
Qed.

(** X27.  While the ticks stay in the bucket of the bar in progress, the bar
    aggregates them as an OHLC bar should: the open is kept, the high is the
    running [max] and the low the running [min] of the prices that pass the
    guard, the close is the last of them, the volume is untouched and no bar
    is closed.  Ticks without a price and a warm-up in between change
    nothing of the bar. *)
Theorem bucket_is_aggregated :
  forall (calls : list Call) (s : Bot) (b : datetime) (h l : float),
    bar_start_time s = Some b ->
    cur_high (current_bar s) = Some h -> cur_low (current_bar s) = Some l ->
    Forall (in_bucket b) calls ->
    bar_start_time (fst (run calls s)) = Some b /\
    closed_bars (snd (run calls s)) = [] /\
    cur_open (current_bar (fst (run calls s))) = cur_open (current_bar s) /\
    cur_high (current_bar (fst (run calls s)))
    = Some (fold_left max2 (prices calls) h) /\
    cur_low (current_bar (fst (run calls s)))
    = Some (fold_left min2 (prices calls) l) /\
    cur_close (current_bar (fst (run calls s)))
    = match prices calls with
      | [] => cur_close (current_bar s)
      | p :: rest => Some (List.last rest p)
      end /\
    cur_volume (current_bar (fst (run calls s))) = cur_volume (current_bar s).
Proof.
  induction calls as [|c rest IH]; intros s b h l Hb Hh Hl Hall.
  - cbn. repeat split; assumption.
  - inversion Hall as [|? ? Hc Hrest]; subst.
    destruct (@handle_in_bucket c s b h l Hb Hh Hl Hc) as (B1 & C1 & E1).
    cbn [run]. unfold final, events in *.
    destruct (handle c s) as [[r s1] l1]. cbn [fst snd] in *.
    assert (P : prices (c :: rest) = prices [c] ++ prices rest).
    { destruct c as [bars | ib now [p|]]; cbn [prices app]; try reflexivity.
      destruct (isnan p); reflexivity. }
    rewrite P.
    destruct (prices [c]) as [|p ps] eqn:Ep.
    + cbn [app].
      destruct (IH s1 b h l B1 ltac:(rewrite E1; exact Hh)
                  ltac:(rewrite E1; exact Hl) Hrest)
        as (I1 & I2 & I3 & I4 & I5 & I6 & I7).
      destruct (run rest s1) as [s2 l2]. cbn [fst snd app] in *.
      rewrite closed_bars_app, C1, I2. rewrite E1 in I3, I6, I7.
      repeat split; assumption.
    + assert (ps = []).
      { destruct c as [bars | ib now [q|]]; cbn [prices] in Ep;
          try discriminate Ep.
        destruct (isnan q); [discriminate Ep | congruence]. }
      subst ps.
      destruct (IH s1 b (max2 h p) (min2 l p) B1
                  ltac:(rewrite E1; reflexivity)
                  ltac:(rewrite E1; reflexivity) Hrest)
        as (I1 & I2 & I3 & I4 & I5 & I6 & I7).
      destruct (run rest s1) as [s2 l2]. cbn [fst snd app fold_left] in *.
      rewrite closed_bars_app, C1, I2. rewrite E1 in I3, I6, I7.
      cbn [cur_open cur_close cur_volume] in I3, I6, I7.
      repeat split; try assumption.
      rewrite I6. destruct (prices rest) as [|q qs]; [reflexivity|].
      rewrite last_cons. reflexivity.
Qed.

Lemma bucket_is_aggregated_witness :
  cur_high (current_bar (fst (run four_ticks after_one_tick)))
  = Some (fold_left max2 [of_Z 100; of_Z 105; of_Z 95] (of_Z 100)) /\
  cur_low (current_bar (fst (run four_ticks after_one_tick)))
  = Some (fold_left min2 [of_Z 100; of_Z 105; of_Z 95] (of_Z 100)) /\
  cur_close (current_bar (fst (run four_ticks after_one_tick)))
  = Some (of_Z 95).
Proof.
  destruct (@bucket_is_aggregated four_ticks after_one_tick
              (_get_bar_start_time at_10_02) (of_Z 100) (of_Z 100))
    as (_ & _ & _ & Hh & Hl & Hc & _).
  - vm_compute. reflexivity.
  - vm_compute. reflexivity.
  - vm_compute. reflexivity.
  - repeat constructor.
  - split; [exact Hh|]. split; [exact Hl | exact Hc].
Defined.

(* ================================================================== *)
(** * The four current values come together *)
(* ================================================================== *)

Lemma keeps_whole_refl : forall s, keeps_whole s [] s.
Proof. intros s H. exact H. Qed.

Lemma keeps_whole_trans :
  forall a l1 b l2 c,
    keeps_whole a l1 b -> keeps_whole b l2 c -> keeps_whole a (l1 ++ l2) c.
Proof. intros a l1 b l2 c H1 H2 Ha. apply H2. apply H1. exact Ha. Qed.

Lemma whole_set_indicators :
  forall s a b c d, whole (set_indicators a b c d s).
Proof.
  intros s a b c d.
  assert (H : all_set (set_indicators a b c d s)).
  { unfold all_set. cbn. repeat split; discriminate. }
  split; [right; exact H | intros _; exact H].
Qed.

Lemma keeps_whole_exit :
  forall ib s,
    keeps_whole s (events (_exit_short ib s)) (final (_exit_short ib s)).
Proof.
  intros ib s W. unfold _exit_short. run_m.
  destruct (is_filled (ib BUY)); cbn [fst snd app]; [|exact W].
  destruct (position_entry_price s); [|exact W].
  destruct W as [W1 W2]. split; [exact W1|]. cbn. intros H. discriminate H.
Qed.

Lemma keeps_whole_check_entry :
  forall ib price, keeps keeps_whole (_check_entry_conditions ib price).
Proof.
  intros ib price s W. unfold _check_entry_conditions. run_m.
  destruct (in_position s) eqn:Hpos; [exact W|].
  destruct (current_ma70 s) as [ma|] eqn:Hma; [|exact W].
  destruct (current_tsi s) as [tsi|]; [|exact W].
  assert (Hset : all_set s).
  { destruct W as [[(U & _) | A] _]; [congruence | exact A]. }
  assert (Wt : forall w, whole (set_price_was_above_ma w s)).
  { intros w. destruct W as [W1 W2]. split; [exact W1 | exact W2]. }
  destruct (price_was_above_ma s) as [was|]; [|apply Wt].
  cbn [fst snd app].
  destruct (was && negb (price >? ma)%flt); [|apply Wt].
  cbn [fst snd app set_price_was_above_ma ma70_slope].
  destruct (ma70_slope s) as [slope|]; [|apply Wt].
  destruct ((slope <? zero)%flt && (tsi <? TSI_THRESHOLD)%flt); [|apply Wt].
  rewrite enter_short_result. cbn [fst snd].
  destruct (is_filled (ib SELL)); [|apply Wt].
  split; [right; exact Hset | intros _; exact Hset].
Qed.

Lemma keeps_whole_handle : forall c, keeps keeps_whole (handle c).
Proof.
  intros [bars | ib now last]; cbn [handle].
  - apply keeps_load_historical_data;
      first [ exact keeps_whole_refl | exact keeps_whole_trans
            | solve [intros; intros _; apply whole_set_indicators]
            | solve [intros s x W; exact W] ].
  - unfold _on_tick.
    destruct last as [price|]; [|apply keeps_ret; exact keeps_whole_refl].
    destruct (isnan price); [apply keeps_ret; exact keeps_whole_refl|].
    apply keeps_bind; [exact keeps_whole_trans | |].
    { apply keeps_aggregate_tick with (G := fun _ => True);
        first [ exact I | exact keeps_whole_refl | exact keeps_whole_trans
              | solve [intros; intros _; apply whole_set_indicators]
              | solve [intros; apply keeps_whole_exit]
              | solve [intros s x W; exact W] ]. }
    intros _. apply keeps_bind; [exact keeps_whole_trans | |].
    { apply keeps_modify. intros t W. exact W. }
    intros _. apply keeps_whole_check_entry.
Qed.

Lemma keeps_whole_run :
  forall calls s, keeps_whole s (snd (run calls s)) (fst (run calls s)).
Proof.
  induction calls as [|c rest IH]; intros s; cbn [run fst snd].
  - apply keeps_whole_refl.
  - pose proof (@keeps_whole_handle c s) as H1. unfold events, final in H1.
    destruct (handle c s) as [[r s1] l1]. cbn [fst snd] in H1.
    specialize (IH s1). destruct (run rest s1) as [s2 l2]. cbn [fst snd] in *.
    eapply keeps_whole_trans; eassumption.
Qed.

(** X28.  After any sequence of handler invocations the moving average, its
    slope, the oscillator and the stop are either all unset or all set, and
    a short bot has all four: at every bar close of an open position there
    is a stop to compare the bar's high with. *)
Theorem current_values_come_together :
  forall calls : list Call,
    ((current_ma70 (fst (run calls __init__)) = None /\
      ma70_slope (fst (run calls __init__)) = None /\
      current_tsi (fst (run calls __init__)) = None /\
      current_sar (fst (run calls __init__)) = None) \/
     (current_ma70 (fst (run calls __init__)) <> None /\
      ma70_slope (fst (run calls __init__)) <> None /\
      current_tsi (fst (run calls __init__)) <> None /\
      current_sar (fst (run calls __init__)) <> None)) /\
    (in_position (fst (run calls __init__)) = true ->
     exists psar, current_sar (fst (run calls __init__)) = Some psar).
Proof.
  intros calls.
  destruct (@keeps_whole_run calls __init__) as [W1 W2].
  { split; [left; repeat split | intros H; discriminate H]. }
  split; [exact W1|].
  intros Hpos. destruct (W2 Hpos) as (_ & _ & _ & Hs).
  destruct (current_sar (fst (run calls __init__))) as [psar|];
    [exists psar; reflexivity | congruence].
Qed.

(* ================================================================== *)
(** * The rounding of binary64 operations *)
(* ================================================================== *)

Lemma digits2_unique :
  forall (m : positive) (d : Z),
    2 ^ (d - 1) <= Z.pos m < 2 ^ d -> Z.pos (digits2_pos m) = d.
Proof.
  intros m d [H1 H2]. pose proof (digits2_bounds m) as [B1 B2].
  set (k := Z.pos (digits2_pos m)) in *.
  assert (Hk : 0 < k) by (subst k; lia).
  assert (Hd : 0 < d).
  { destruct (Z.lt_ge_cases 0 d) as [L | G]; [exact L|].
    assert (2 ^ d <= 1).
    { destruct (Z.eq_dec d 0) as [-> | N]; [cbn; lia|].
      rewrite Z.pow_neg_r by lia. lia. }
    lia. }
  destruct (Z.lt_trichotomy k d) as [L | [E | G]]; [|exact E|].
  - assert (2 ^ k <= 2 ^ (d - 1)) by (apply Z.pow_le_mono_r; lia). lia.
  - assert (2 ^ d <= 2 ^ (k - 1)) by (apply Z.pow_le_mono_r; lia). lia.
Qed.

Lemma Zdigits2_bounds :
  forall M, 0 < M -> 2 ^ (Zdigits2 M - 1) <= M < 2 ^ Zdigits2 M.
Proof.
  intros [|p|p] H; try lia. cbn [Zdigits2]. apply digits2_bounds.
Qed.

Lemma Zdigits2_unique :
  forall M d, 2 ^ (d - 1) <= M < 2 ^ d -> 0 < M -> Zdigits2 M = d.
Proof.
  intros [|p|p] d H H0; try lia. cbn [Zdigits2]. apply digits2_unique. exact H.
Qed.

Lemma Zdigits2_pos : forall M, 0 < M -> 0 < Zdigits2 M.
Proof. intros [|p|p] H; try lia. cbn. lia. Qed.

(** The digits of a quotient by a power of two. *)
Lemma Zdigits2_shift :
  forall M n,
    0 < M -> 0 <= n -> 0 < M / 2 ^ n ->
    Zdigits2 (M / 2 ^ n) = Zdigits2 M - n.
Proof.
  intros M n HM Hn Hq.
  pose proof (Zdigits2_bounds HM) as [B1 B2].
  pose proof (Zdigits2_pos HM) as Hd.
  set (d := Zdigits2 M) in *.
  assert (P : 0 < 2 ^ n) by (apply Z.pow_pos_nonneg; lia).
  assert (Hdn : n < d).
  { destruct (Z.lt_ge_cases n d) as [L | G]; [exact L|].
    assert (2 ^ d <= 2 ^ n) by (apply Z.pow_le_mono_r; lia).
    rewrite Z.div_small in Hq by lia. lia. }
  apply Zdigits2_unique; [|exact Hq].
  split.
  - apply Z.div_le_lower_bound; [exact P|].
    rewrite <- Z.pow_add_r by lia.
    replace (n + (d - n - 1)) with (d - 1) by lia. exact B1.
  - apply Z.div_lt_upper_bound; [exact P|].
    rewrite <- Z.pow_add_r by lia.
    replace (n + (d - n)) with d by lia. exact B2.
Qed.

Lemma Zdigits2_le :
  forall M N, 0 < M -> M <= N -> Zdigits2 M <= Zdigits2 N.
Proof.
  intros M N HM HMN.
  pose proof (Zdigits2_bounds HM) as [B1 _].
  assert (HN : 0 < N) by lia.
  pose proof (Zdigits2_bounds HN) as [_ B2].
  destruct (Z.le_gt_cases (Zdigits2 M) (Zdigits2 N)) as [L | G]; [exact L|].
  assert (2 ^ Zdigits2 N <= 2 ^ (Zdigits2 M - 1)).
  { apply Z.pow_le_mono_r; [lia|]. lia. }
  lia.
Qed.

Lemma fexp_eq : forall k, fexp prec emax k = Z.max (k - 53) (-1074).
Proof. reflexivity. Qed.

Lemma fexp_mono : forall a b, a <= b -> fexp prec emax a <= fexp prec emax b.
Proof. intros a b H. rewrite !fexp_eq. lia. Qed.


Lemma shr_1_m :
  forall mrs, 0 <= shr_m mrs -> shr_m (shr_1 mrs) = shr_m mrs / 2.
Proof.
  intros [m r s] H. cbn [shr_m] in *.
  destruct m as [|[p|p|]|p]; cbn [shr_1 shr_m]; try lia; try reflexivity.
  - rewrite <- Z.div2_div. reflexivity.
  - rewrite <- Z.div2_div. reflexivity.
Qed.

Lemma pow2_xI : forall p, 2 ^ Z.pos p~1 = 2 * (2 ^ Z.pos p * 2 ^ Z.pos p).
Proof.
  intros p.
  assert (E : Z.pos p~1 = 1 + (Z.pos p + Z.pos p)) by lia.
  rewrite E, !Z.pow_add_r by lia. reflexivity.
Qed.

Lemma pow2_xO : forall p, 2 ^ Z.pos p~0 = 2 ^ Z.pos p * 2 ^ Z.pos p.
Proof.
  intros p.
  assert (E : Z.pos p~0 = Z.pos p + Z.pos p) by lia.
  rewrite E, !Z.pow_add_r by lia. reflexivity.
Qed.

Lemma iter_shr_1_m :
  forall p mrs,
    0 <= shr_m mrs ->
    shr_m (iter_pos shr_1 p mrs) = shr_m mrs / 2 ^ Z.pos p.
Proof.
  induction p as [p IH | p IH |]; intros mrs H; cbn [iter_pos];
    try assert (P : 0 < 2 ^ Z.pos p) by (apply Z.pow_pos_nonneg; lia).
  - assert (H1 : 0 <= shr_m (shr_1 mrs)).
    { rewrite shr_1_m by exact H. apply Z.div_pos; lia. }
    assert (H2 : 0 <= shr_m (iter_pos shr_1 p (shr_1 mrs))).
    { rewrite IH by exact H1. apply Z.div_pos; [exact H1 | exact P]. }
    rewrite IH by exact H2. rewrite IH by exact H1.
    rewrite shr_1_m by exact H.
    rewrite !Z.div_div by lia. rewrite pow2_xI. reflexivity.
  - assert (H2 : 0 <= shr_m (iter_pos shr_1 p mrs)).
    { rewrite IH by exact H. apply Z.div_pos; [exact H | exact P]. }
    rewrite IH by exact H2. rewrite IH by exact H.
    rewrite !Z.div_div by lia. rewrite pow2_xO. reflexivity.
  - rewrite shr_1_m by exact H. reflexivity.
Qed.

Lemma shr_record_of_loc_m : forall m l, shr_m (shr_record_of_loc m l) = m.
Proof. intros m [|[]]; reflexivity. Qed.

(** What [shr_fexp] does to the mantissa and the exponent. *)
Lemma shr_fexp_shape :
  forall M E l,
    0 <= M ->
    let n := Z.max 0 (fexp prec emax (Zdigits2 M + E) - E) in
    shr_m (fst (shr_fexp prec emax M E l)) = M / 2 ^ n /\
    snd (shr_fexp prec emax M E l) = E + n.
Proof.
  intros M E l HM n. subst n. unfold shr_fexp, shr.
  destruct (fexp prec emax (Zdigits2 M + E) - E) as [|p|p] eqn:En.
  - cbn [fst snd]. rewrite shr_record_of_loc_m. cbn. rewrite Z.div_1_r.
    split; lia.
  - cbn [fst snd]. rewrite iter_shr_1_m by (rewrite shr_record_of_loc_m; exact HM).
    rewrite shr_record_of_loc_m. rewrite Z.max_r by lia. split; reflexivity.
  - cbn [fst snd]. rewrite shr_record_of_loc_m. rewrite Z.max_l by lia.
    cbn. rewrite Z.div_1_r. split; lia.
Qed.


Lemma shr_1_eq :
  forall m r s,
    0 <= m ->
    shr_1 (Build_shr_record m r s) = Build_shr_record (m / 2) (Z.odd m) (r || s).
Proof.
  intros m r s H.
  destruct m as [|[p|p|]|p]; cbn [shr_1]; try lia; try reflexivity.
  - rewrite <- Z.div2_div. reflexivity.
  - rewrite <- Z.div2_div. reflexivity.
Qed.

Lemma shifted_step :
  forall M k mrs, 0 <= k -> shifted M k mrs -> shifted M (k + 1) (shr_1 mrs).
Proof.
  intros M k [m r s] Hk (rem & Hrem & HM & Hm & Hr & Hs). cbn [shr_m shr_r shr_s] in *.
  rewrite shr_1_eq by exact Hm.
  assert (P : 0 < 2 ^ k) by (apply Z.pow_pos_nonneg; lia).
  assert (P1 : 2 ^ (k + 1) = 2 * 2 ^ k)
    by (rewrite Z.add_1_r, Z.pow_succ_r by lia; reflexivity).
  pose proof (Z.div_mod m 2 ltac:(lia)) as Dm.
  pose proof (Z.mod_pos_bound m 2 ltac:(lia)) as Bm.
  assert (Ho : Z.odd m = (m mod 2 =? 1)).
  { rewrite Zmod_odd. destruct (Z.odd m); reflexivity. }
  exists (rem + (m mod 2) * 2 ^ k). cbn [shr_m shr_r shr_s].
  assert (Hrs : (r || s)%bool = negb (rem =? 0)).
  { rewrite Hr, Hs. destruct (Z.eqb_spec rem 0) as [-> | N].
    - cbn [Z.mul]. rewrite Z.mod_0_l by lia. cbn.
      destruct (Z.leb_spec (2 ^ k) 0); [lia | reflexivity].
    - destruct (Z.leb_spec (2 ^ k) (2 * rem)); [reflexivity|].
      rewrite Z.mod_small by lia.
      destruct (Z.eqb_spec (2 * rem) 0); [lia | reflexivity]. }
  split; [nia|]. split; [nia|]. split; [apply Z.div_pos; lia|]. split.
  - rewrite Ho. destruct (Z.eqb_spec (m mod 2) 1) as [E | N].
    + symmetry. apply Z.leb_le. nia.
    + symmetry. apply Z.leb_gt. nia.
  - rewrite Hrs. f_equal.
    replace (2 * (rem + m mod 2 * 2 ^ k)) with (2 * rem + (m mod 2) * 2 ^ (k + 1))
      by (rewrite P1; ring).
    rewrite Z.mod_add by lia. rewrite Z.mod_small by lia.
    destruct (Z.eqb_spec rem 0), (Z.eqb_spec (2 * rem) 0); try reflexivity; lia.
Qed.

Lemma shifted_iter :
  forall p M k mrs,
    0 <= k -> shifted M k mrs -> shifted M (k + Z.pos p) (iter_pos shr_1 p mrs).
Proof.
  induction p as [p IH | p IH |]; intros M k mrs Hk H; cbn [iter_pos].
  - replace (k + Z.pos p~1) with (k + 1 + Z.pos p + Z.pos p) by lia.
    apply IH; [lia|]. apply IH; [lia|]. apply shifted_step; assumption.
  - replace (k + Z.pos p~0) with (k + Z.pos p + Z.pos p) by lia.
    apply IH; [lia|]. apply IH; assumption.
  - apply shifted_step; assumption.
Qed.

Lemma shifted_start :
  forall M, 0 <= M -> shifted M 0 (shr_record_of_loc M loc_Exact).
Proof.
  intros M H. exists 0. cbn. repeat split; try lia.
Qed.

(** Rounding what [k] shifts left of [M] gives one of the two neighbours of
    [M / 2^k], at most half a unit away. *)
Lemma round_shifted :
  forall M k mrs,
    0 <= k -> shifted M k mrs ->
    let M2 := round_nearest_even (shr_m mrs) (loc_of_shr_record mrs) in
    shr_m mrs = M / 2 ^ k /\
    (M2 = M / 2 ^ k \/ M2 = M / 2 ^ k + 1) /\
    2 * Z.abs (M2 * 2 ^ k - M) <= 2 ^ k.
Proof.
  intros M k [m r s] Hk (rem & Hrem & HM & Hm & Hr & Hs) M2. subst M2.
  cbn [shr_m shr_r shr_s] in *.
  assert (P : 0 < 2 ^ k) by (apply Z.pow_pos_nonneg; lia).
  assert (Q : m = M / 2 ^ k).
  { apply Z.div_unique with (r := rem); [left; lia|]. rewrite HM. ring. }
  split; [exact Q|]. rewrite <- Q.
  destruct r, s; cbn [loc_of_shr_record round_nearest_even].
  - symmetry in Hr. apply Z.leb_le in Hr. split; [right; reflexivity|]. nia.
  - symmetry in Hr. apply Z.leb_le in Hr.
    symmetry in Hs. apply negb_false_iff, Z.eqb_eq in Hs.
    assert (E : 2 * rem = 2 ^ k).
    { destruct (Z.eq_dec (2 * rem) (2 ^ k)) as [E | N]; [exact E|].
      rewrite Z.mod_eq in Hs by lia.
      assert ((2 * rem) / 2 ^ k = 1).
      { symmetry. apply Z.div_unique with (r := 2 * rem - 2 ^ k); [left; lia | lia]. }
      lia. }
    destruct (Z.even m); [split; [left; reflexivity|] | split; [right; reflexivity|]];
      nia.
  - symmetry in Hr. apply Z.leb_gt in Hr. split; [left; reflexivity|]. nia.
  - symmetry in Hr. apply Z.leb_gt in Hr. split; [left; reflexivity|]. nia.
Qed.

Lemma round_nearest_even_either :
  forall m l, round_nearest_even m l = m \/ round_nearest_even m l = m + 1.
Proof.
  intros m [|[]]; cbn; auto. destruct (Z.even m); auto.
Qed.

(** The first step of [binary_round_aux]: the mantissa shifted to the
    exponent of the format and rounded. *)
Lemma round_step :
  forall M E l,
    0 <= M ->
    let n := Z.max 0 (fexp prec emax (Zdigits2 M + E) - E) in
    let step := shr_fexp prec emax M E l in
    let M2 := round_nearest_even (shr_m (fst step)) (loc_of_shr_record (fst step)) in
    snd step = E + n /\
    (M2 = M / 2 ^ n \/ M2 = M / 2 ^ n + 1) /\
    (l = loc_Exact -> 2 * Z.abs (M2 * 2 ^ n - M) <= 2 ^ n).
Proof.
  intros M E l HM. cbv zeta.
  destruct (@shr_fexp_shape M E l HM) as [S1 S2].
  split; [exact S2|]. split.
  - rewrite <- S1. apply round_nearest_even_either.
  - intros ->. unfold shr_fexp, shr in *.
    destruct (fexp prec emax (Zdigits2 M + E) - E) as [|p|p] eqn:En.
    + cbn [fst Z.max Z.compare Z.pow round_nearest_even shr_record_of_loc
             loc_of_shr_record shr_m]. lia.
    + cbn [fst].
      pose proof (@shifted_iter p M 0 _ ltac:(lia) (shifted_start HM)) as Sh.
      destruct (@round_shifted M (0 + Z.pos p) _ ltac:(lia) Sh) as (_ & _ & B).
      rewrite Z.max_r by lia. exact B.
    + rewrite Z.max_l by lia.
      cbn [fst Z.pow round_nearest_even shr_record_of_loc
             loc_of_shr_record shr_m]. lia.
Qed.


Lemma binary_round_aux_shape :
  forall s M E l,
    0 <= M ->
    exists M2,
      (M2 = M / 2 ^ Z.max 0 (fexp prec emax (Zdigits2 M + E) - E) \/
       M2 = M / 2 ^ Z.max 0 (fexp prec emax (Zdigits2 M + E) - E) + 1) /\
      (l = loc_Exact ->
       2 * Z.abs (M2 * 2 ^ Z.max 0 (fexp prec emax (Zdigits2 M + E) - E) - M)
       <= 2 ^ Z.max 0 (fexp prec emax (Zdigits2 M + E) - E)) /\
      binary_round_aux prec emax s M E l
      = rounded s M2 (E + Z.max 0 (fexp prec emax (Zdigits2 M + E) - E)).
Proof.
  intros s M E l HM.
  destruct (@round_step M E l HM) as (S2 & HM2 & Hnear).
  unfold binary_round_aux.
  destruct (shr_fexp prec emax M E l) as [mrs' e'] eqn:E1.
  cbn [fst snd] in *.
  set (M2 := round_nearest_even (shr_m mrs') (loc_of_shr_record mrs')) in *.
  exists M2. split; [exact HM2|]. split; [exact Hnear|].
  assert (P : 0 < 2 ^ Z.max 0 (fexp prec emax (Zdigits2 M + E) - E))
    by (apply Z.pow_pos_nonneg; lia).
  assert (H2 : 0 <= M2).
  { pose proof (Z.div_pos M _ HM P). lia. }
  destruct (@shr_fexp_shape M2 e' loc_Exact H2) as [T1 T2].
  destruct (shr_fexp prec emax M2 e' loc_Exact) as [mrs'' e''].
  cbn [fst snd] in *. unfold rounded. rewrite <- S2, T1, T2. reflexivity.
Qed.

Lemma canonical_shift :
  forall M E m,
    0 < M -> E <= fexp prec emax (Zdigits2 M + E) ->
    M / 2 ^ (fexp prec emax (Zdigits2 M + E) - E) = Z.pos m ->
    fexp prec emax (Z.pos (digits2_pos m) + fexp prec emax (Zdigits2 M + E))
    = fexp prec emax (Zdigits2 M + E).
Proof.
  intros M E m HM Hn Hq.
  assert (D : Zdigits2 (M / 2 ^ (fexp prec emax (Zdigits2 M + E) - E))
              = Zdigits2 M - (fexp prec emax (Zdigits2 M + E) - E)).
  { apply Zdigits2_shift; [exact HM | lia | rewrite Hq; lia]. }
  rewrite Hq in D. cbn [Zdigits2] in D. rewrite D. f_equal. lia.
Qed.

Lemma rounded_valid :
  forall s M2 E1,
    0 <= M2 -> (0 < M2 -> E1 <= fexp prec emax (Zdigits2 M2 + E1)) ->
    valid (rounded s M2 E1) = true.
Proof.
  intros s M2 E1 H0 Hn. unfold rounded.
  destruct (Z.eq_dec M2 0) as [-> | N].
  { rewrite Z.div_0_l; [reflexivity|].
    apply Z.pow_nonzero; lia. }
  specialize (Hn ltac:(lia)).
  rewrite Z.max_r by lia.
  replace (E1 + (fexp prec emax (Zdigits2 M2 + E1) - E1))
    with (fexp prec emax (Zdigits2 M2 + E1)) by lia.
  destruct (M2 / 2 ^ (fexp prec emax (Zdigits2 M2 + E1) - E1)) as [|m|m] eqn:Hq;
    try reflexivity.
  destruct (fexp prec emax (Zdigits2 M2 + E1) <=? emax - prec) eqn:Hb;
    [|reflexivity].
  unfold valid, valid_binary, bounded, canonical_mantissa.
  rewrite (@canonical_shift M2 E1 m ltac:(lia) Hn Hq), Z.eqb_refl.
  exact Hb.
Qed.

(** Rounding a mantissa that has at least the digits of the format gives a
    binary64. *)
Lemma binary_round_aux_valid :
  forall s M E l,
    0 <= M -> E <= fexp prec emax (Zdigits2 M + E) ->
    valid (binary_round_aux prec emax s M E l) = true.
Proof.
  intros s M E l HM Hn.
  destruct (@binary_round_aux_shape s M E l HM) as (M2 & HM2 & _ & ->).
  rewrite Z.max_r in * by lia.
  set (n := fexp prec emax (Zdigits2 M + E) - E) in *.
  assert (P : 0 < 2 ^ n) by (apply Z.pow_pos_nonneg; lia).
  pose proof (Z.div_pos M _ HM P) as H1.
  apply rounded_valid; [lia|]. intros H2.
  replace (E + n) with (fexp prec emax (Zdigits2 M + E)) by (subst n; lia).
  destruct (Z.eq_dec (fexp prec emax (Zdigits2 M + E)) (-1074)) as [Em | Em].
  { rewrite Em. rewrite fexp_eq. lia. }
  assert (Hd : fexp prec emax (Zdigits2 M + E) = Zdigits2 M + E - 53).
  { rewrite fexp_eq in *. lia. }
  assert (M0 : 0 < M).
  { destruct (Z.eq_dec M 0) as [-> | N]; [|lia].
    cbn [Zdigits2] in *. lia. }
  assert (Hq : 0 < M / 2 ^ n).
  { apply Z.div_str_pos. split; [exact P|].
    pose proof (Zdigits2_bounds M0) as [B1 _].
    assert (2 ^ n <= 2 ^ (Zdigits2 M - 1)) by (apply Z.pow_le_mono_r; lia).
    lia. }
  assert (D1 : Zdigits2 (M / 2 ^ n) = Zdigits2 M - n).
  { apply Zdigits2_shift; [exact M0 | lia | exact Hq]. }
  assert (D2 : Zdigits2 (M / 2 ^ n) <= Zdigits2 M2).
  { apply Zdigits2_le; [exact Hq | lia]. }
  rewrite Hd. rewrite fexp_eq. lia.
Qed.


Lemma digits2_mul_ge :
  forall a b : positive,
    Z.pos (digits2_pos a) + Z.pos (digits2_pos b) - 1
    <= Z.pos (digits2_pos (a * b)).
Proof.
  intros a b.
  pose proof (digits2_bounds a) as [A1 _].
  pose proof (digits2_bounds b) as [B1 _].
  pose proof (digits2_bounds (a * b)) as [_ C2].
  set (da := Z.pos (digits2_pos a)) in *. set (db := Z.pos (digits2_pos b)) in *.
  set (dc := Z.pos (digits2_pos (a * b))) in *.
  assert (Ha : 0 < da) by (subst da; lia). assert (Hb : 0 < db) by (subst db; lia).
  assert (Hc : 0 < dc) by (subst dc; lia).
  destruct (Z.le_gt_cases (da + db - 1) dc) as [L | G]; [exact L|].
  exfalso.
  assert (K : 2 ^ dc <= 2 ^ (da - 1 + (db - 1))) by (apply Z.pow_le_mono_r; lia).
  rewrite Z.pow_add_r in K by lia.
  rewrite Pos2Z.inj_mul in C2.
  assert (0 < 2 ^ (da - 1)) by (apply Z.pow_pos_nonneg; lia).
  assert (0 < 2 ^ (db - 1)) by (apply Z.pow_pos_nonneg; lia).
  nia.
Qed.

Lemma mul_valid :
  forall a b, valid a = true -> valid b = true -> valid (a * b)%flt = true.
Proof.
  intros [sa|sa| |sa ma ea] [sb|sb| |sb mb eb] Va Vb; try reflexivity.
  unfold mul, SFmul. apply binary_round_aux_valid; [lia|].
  destruct (valid_finite _ _ _ Va) as (La & Da & Na).
  destruct (valid_finite _ _ _ Vb) as (Lb & Db & Nb).
  pose proof (digits2_mul_ge ma mb) as G.
  cbn [Zdigits2]. rewrite fexp_eq.
  assert (0 < Z.pos (digits2_pos ma)) by lia.
  assert (0 < Z.pos (digits2_pos mb)) by lia.
  destruct (Z.eq_dec ea (-1074)) as [Ea | Ea];
    destruct (Z.eq_dec eb (-1074)) as [Eb | Eb];
    try (specialize (Na ltac:(lia))); try (specialize (Nb ltac:(lia))); lia.
Qed.

Lemma digits2_iter_xO :
  forall (p m : positive),
    Z.pos (digits2_pos (Pos.iter xO m p)) = Z.pos (digits2_pos m) + Z.pos p.
Proof.
  intros p m. apply digits2_unique. rewrite iter_xO_value.
  pose proof (digits2_bounds m) as [B1 B2].
  assert (0 < Z.pos (digits2_pos m)) by lia.
  replace (Z.pos (digits2_pos m) + Z.pos p - 1)
    with (Z.pos (digits2_pos m) - 1 + Z.pos p) by lia.
  rewrite !Z.pow_add_r by lia.
  assert (0 < 2 ^ Z.pos p) by (apply Z.pow_pos_nonneg; lia).
  nia.
Qed.

Lemma binary_round_valid :
  forall s m e, valid (binary_round prec emax s m e) = true.
Proof.
  intros s m e. unfold binary_round, shl_align.
  destruct (fexp prec emax (Z.pos (digits2_pos m) + e) - e) as [|p|p] eqn:En.
  - apply binary_round_aux_valid; [lia|]. cbn [Zdigits2]. lia.
  - apply binary_round_aux_valid; [lia|]. cbn [Zdigits2]. lia.
  - apply binary_round_aux_valid; [lia|]. cbn [Zdigits2].
    rewrite digits2_iter_xO.
    replace (Z.pos (digits2_pos m) + Z.pos p
             + fexp prec emax (Z.pos (digits2_pos m) + e))
      with (Z.pos (digits2_pos m) + e) by lia.
    lia.
Qed.

Lemma binary_normalize_valid :
  forall z e, valid (binary_normalize prec emax z e false) = true.
Proof.
  intros [|p|p] e; cbn [binary_normalize];
    [reflexivity | apply binary_round_valid | apply binary_round_valid].
Qed.

Lemma of_Z_valid : forall z, valid (of_Z z) = true.
Proof. intros z. apply binary_normalize_valid. Qed.

Lemma add_valid :
  forall a b, valid a = true -> valid b = true -> valid (a + b)%flt = true.
Proof.
  intros [sa|sa| |sa ma ea] [sb|sb| |sb mb eb] Va Vb;
    try reflexivity; try assumption;
    try (destruct sa, sb; reflexivity).
  unfold add, SFadd. apply binary_normalize_valid.
Qed.

Lemma sub_valid :
  forall a b, valid a = true -> valid b = true -> valid (a - b)%flt = true.
Proof.
  intros [sa|sa| |sa ma ea] [sb|sb| |sb mb eb] Va Vb;
    try reflexivity; try assumption;
    try (destruct sa, sb; reflexivity).
  unfold sub, SFsub. apply binary_normalize_valid.
Qed.

Lemma abs_valid : forall a, valid a = true -> valid (Float.abs a) = true.
Proof. intros [sa|sa| |sa ma ea] Va; try reflexivity. exact Va. Qed.

Lemma div_core_eq :
  forall m1 e1 m2 e2,
    let e' := Z.min (fexp prec emax (Z.pos (digits2_pos m1) + e1
                                     - (Z.pos (digits2_pos m2) + e2)))
                    (e1 - e2) in
    SFdiv_core_binary prec emax (Z.pos m1) e1 (Z.pos m2) e2
    = (Z.pos m1 * 2 ^ (e1 - e2 - e') / Z.pos m2, e',
       new_location (Z.pos m2)
         ((Z.pos m1 * 2 ^ (e1 - e2 - e')) mod Z.pos m2)).
Proof.
  intros m1 e1 m2 e2 e'. unfold SFdiv_core_binary. cbn [Zdigits2]. fold e'.
  assert (Hs : 0 <= e1 - e2 - e') by (subst e'; lia).
  assert (E : match e1 - e2 - e' with
              | 0 => Z.pos m1
              | Z.pos _ => Z.shiftl (Z.pos m1) (e1 - e2 - e')
              | Z.neg _ => 0
              end = Z.pos m1 * 2 ^ (e1 - e2 - e')).
  { destruct (e1 - e2 - e') as [|p|p] eqn:Es; [cbn; lia | |lia].
    rewrite Z.shiftl_mul_pow2 by lia. reflexivity. }
  rewrite E. unfold Z.div, Z.modulo.
  destruct (Z.div_eucl (Z.pos m1 * 2 ^ (e1 - e2 - e')) (Z.pos m2)) as [q r].
  reflexivity.
Qed.

Lemma div_valid :
  forall a b, valid a = true -> valid b = true -> valid (a / b)%flt = true.
Proof.
  intros [sa|sa| |sa ma ea] [sb|sb| |sb mb eb] Va Vb; try reflexivity.
  unfold div, SFdiv. rewrite div_core_eq.
  set (d1 := Z.pos (digits2_pos ma)). set (d2 := Z.pos (digits2_pos mb)).
  set (e' := Z.min (fexp prec emax (d1 + ea - (d2 + eb))) (ea - eb)).
  set (s := ea - eb - e').
  assert (Hs : 0 <= s) by (subst s e'; lia).
  assert (P : 0 < 2 ^ s) by (apply Z.pow_pos_nonneg; lia).
  assert (HQ : 0 <= Z.pos ma * 2 ^ s / Z.pos mb).
  { apply Z.div_pos; [|lia]. nia. }
  apply binary_round_aux_valid; [exact HQ|].
  destruct (Z.le_gt_cases e' (-1074)) as [L | G].
  { rewrite fexp_eq. lia. }
  assert (F : e' <= d1 + ea - (d2 + eb) - 53).
  { subst e'. rewrite fexp_eq in *. lia. }
  pose proof (digits2_bounds ma) as [A1 A2]. fold d1 in A1, A2.
  pose proof (digits2_bounds mb) as [B1 B2]. fold d2 in B1, B2.
  assert (Hd1 : 0 < d1) by (subst d1; lia).
  assert (Hd2 : 0 < d2) by (subst d2; lia).
  assert (K : 2 ^ (d1 + s - d2 - 1) <= Z.pos ma * 2 ^ s / Z.pos mb).
  { apply Z.div_le_lower_bound; [lia|].
    assert (K1 : 2 ^ (d1 - 1) * 2 ^ s <= Z.pos ma * 2 ^ s) by nia.
    assert (K2 : Z.pos mb * 2 ^ (d1 + s - d2 - 1) <= 2 ^ d2 * 2 ^ (d1 + s - d2 - 1)).
    { assert (0 < 2 ^ (d1 + s - d2 - 1)) by (apply Z.pow_pos_nonneg; subst s; lia).
      nia. }
    rewrite <- Z.pow_add_r in K1, K2 by (subst s; lia).
    replace (d2 + (d1 + s - d2 - 1)) with (d1 - 1 + s) in K2 by lia. lia. }
  assert (Q0 : 0 < Z.pos ma * 2 ^ s / Z.pos mb).
  { assert (0 < 2 ^ (d1 + s - d2 - 1)) by (apply Z.pow_pos_nonneg; subst s; lia).
    lia. }
  assert (D : d1 + s - d2 <= Zdigits2 (Z.pos ma * 2 ^ s / Z.pos mb)).
  { pose proof (Zdigits2_bounds Q0) as [_ U].
    destruct (Z.le_gt_cases (d1 + s - d2)
                (Zdigits2 (Z.pos ma * 2 ^ s / Z.pos mb))) as [L | G2]; [exact L|].
    assert (2 ^ Zdigits2 (Z.pos ma * 2 ^ s / Z.pos mb) <= 2 ^ (d1 + s - d2 - 1)).
    { apply Z.pow_le_mono_r; [lia|]. lia. }
    lia. }
  rewrite fexp_eq. subst s. lia.
Qed.


Lemma rounded_canonical :
  forall s M2 E1,
    0 < M2 -> fexp prec emax (Zdigits2 M2 + E1) = E1 ->
    rounded s M2 E1
    = if E1 <=? emax - prec then S754_finite s (Z.to_pos M2) E1
      else S754_infinity s.
Proof.
  intros s M2 E1 H0 Hc. unfold rounded. rewrite Hc, Z.sub_diag.
  cbn [Z.max Z.compare Z.pow]. rewrite Z.div_1_r, Z.add_0_r.
  destruct M2 as [|p|p]; try lia. reflexivity.
Qed.

Lemma rounded_carry :
  forall s E1,
    -1074 <= E1 ->
    rounded s (2 ^ 53) E1
    = if E1 + 1 <=? emax - prec then S754_finite s (Z.to_pos (2 ^ 52)) (E1 + 1)
      else S754_infinity s.
Proof.
  intros s E1 H. unfold rounded.
  change (Zdigits2 (2 ^ 53)) with 54. rewrite fexp_eq.
  replace (Z.max (54 + E1 - 53) (-1074) - E1) with 1 by lia.
  reflexivity.
Qed.

Lemma of_Z_100 : of_Z 100 = S754_finite false 7036874417766400 (-46).
Proof. reflexivity. Qed.

(** The product [100 * x] of a finite binary64 [x = m * 2^e]: infinite on
    overflow, otherwise a binary64 [my * 2^ey] whose relative distance to
    the exact product is at most 2^-53. *)
Lemma hundred_times :
  forall s m e,
    valid (S754_finite s m e) = true ->
    (of_Z 100 * S754_finite s m e)%flt = S754_infinity s \/
    exists my ey,
      (of_Z 100 * S754_finite s m e)%flt = S754_finite s my ey /\
      valid (S754_finite s my ey) = true /\
      0 <= ey - e + 46 /\
      2 ^ 53 * Z.abs (Z.pos my * 2 ^ (ey - e + 46) - 7036874417766400 * Z.pos m)
      <= Z.pos my * 2 ^ (ey - e + 46).
Proof.
  intros s m e V.
  pose proof (mul_valid (of_Z 100) (S754_finite s m e) (of_Z_valid 100) V) as Vy.
  destruct (valid_finite _ _ _ V) as (Le & Dm & Nm).
  rewrite of_Z_100 in *. unfold mul, SFmul in *. cbn [xorb] in *.
  set (P := Z.pos (7036874417766400 * m)) in *.
  set (E := -46 + e) in *.
  assert (HP : P = 7036874417766400 * Z.pos m) by (subst P; lia).
  destruct (@binary_round_aux_shape s P E loc_Exact ltac:(lia))
    as (M2 & HM2 & Hnear & Hres).
  specialize (Hnear eq_refl). rewrite Hres in *. clear Hres.
  pose proof (digits2_mul_ge 7036874417766400 m) as G.
  change (Z.pos (digits2_pos 7036874417766400)) with 53 in G.
  assert (HdP : Zdigits2 P = Z.pos (digits2_pos (7036874417766400 * m)))
    by reflexivity.
  rewrite <- HdP in G.
  assert (P0 : 0 < P) by lia.
  pose proof (Zdigits2_bounds P0) as [PB1 PB2].
  assert (Hdm : 0 < Z.pos (digits2_pos m)) by lia.
  set (dP := Zdigits2 P) in *.
  rewrite fexp_eq in *.
  destruct (Z.le_gt_cases (-1074) (dP + E - 53)) as [Hn | Hs].
  - (* the product is in the normal range *)
    rewrite (Z.max_l (dP + E - 53)) in * by lia.
    replace (dP + E - 53 - E) with (dP - 53) in * by lia.
    rewrite (Z.max_r 0 (dP - 53)) in * by lia.
    set (n := dP - 53) in *.
    assert (Pn : 0 < 2 ^ n) by (apply Z.pow_pos_nonneg; lia).
    assert (Q1 : 2 ^ 52 <= P / 2 ^ n).
    { apply Z.div_le_lower_bound; [exact Pn|].
      rewrite <- Z.pow_add_r by lia.
      replace (n + 52) with (dP - 1) by lia. exact PB1. }
    assert (Q2 : P / 2 ^ n < 2 ^ 53).
    { apply Z.div_lt_upper_bound; [exact Pn|].
      rewrite <- Z.pow_add_r by lia.
      replace (n + 53) with dP by lia. exact PB2. }
    assert (B2 : 2 ^ 52 <= M2 <= 2 ^ 53) by lia.
    destruct (Z.eq_dec M2 (2 ^ 53)) as [Ec | Nc].
    + rewrite Ec in *. rewrite rounded_carry in * by lia.
      destruct (E + n + 1 <=? emax - prec); [right | left; reflexivity].
      exists (Z.to_pos (2 ^ 52)), (E + n + 1).
      split; [reflexivity|]. split; [exact Vy|].
      replace (E + n + 1 - e + 46) with (n + 1) by lia.
      split; [lia|].
      rewrite Z.pow_add_r by lia.
      change (Z.pos (Z.to_pos (2 ^ 52))) with (2 ^ 52).
      change (2 ^ 1) with 2. rewrite <- HP.
      change (2 ^ 53) with 9007199254740992 in *.
      change (2 ^ 52) with 4503599627370496 in *. lia.
    + assert (D2 : Zdigits2 M2 = 53).
      { apply Zdigits2_unique; [|lia]. change (53 - 1) with 52. lia. }
      rewrite rounded_canonical in * by (try rewrite D2, fexp_eq; lia).
      destruct (E + n <=? emax - prec); [right | left; reflexivity].
      exists (Z.to_pos M2), (E + n).
      split; [reflexivity|]. split; [exact Vy|].
      replace (E + n - e + 46) with n by lia.
      split; [lia|].
      rewrite Z2Pos.id by lia. rewrite <- HP.
      assert (K : 2 ^ 52 * 2 ^ n <= M2 * 2 ^ n)
        by (apply Z.mul_le_mono_nonneg_r; lia).
      change (2 ^ 53) with 9007199254740992 in *.
      change (2 ^ 52) with 4503599627370496 in *. lia.
  - (* the product is subnormal: [x] is, and the product is exact *)
    assert (Ee : e = -1074).
    { destruct (Z.eq_dec e (-1074)) as [K | K]; [exact K|].
      specialize (Nm ltac:(lia)). lia. }
    subst e. subst E.
    rewrite (Z.max_r (dP + (-46 + -1074) - 53)) in * by lia.
    replace (-1074 - (-46 + -1074)) with 46 in * by lia.
    rewrite (Z.max_r 0 46) in * by lia.
    assert (Q : P / 2 ^ 46 = 100 * Z.pos m).
    { rewrite HP. change 7036874417766400 with (100 * 2 ^ 46).
      rewrite <- Z.mul_assoc, (Z.mul_comm (2 ^ 46)), Z.mul_assoc.
      apply Z.div_mul. lia. }
    rewrite Q in HM2.
    assert (E2 : M2 = 100 * Z.pos m).
    { destruct HM2 as [K | K]; [exact K|]. exfalso.
      rewrite K, HP in Hnear.
      change (2 ^ 46) with 70368744177664 in Hnear.
      lia. }
    assert (D2 : Zdigits2 M2 <= 52).
    { assert (M2 < 2 ^ 52).
      { assert (K : P < 2 ^ 98).
        { apply Z.lt_le_trans with (1 := PB2). apply Z.pow_le_mono_r; lia. }
        rewrite HP in K. change (2 ^ 98) with (2 ^ 52 * 2 ^ 46) in K.
        change 7036874417766400 with (100 * 2 ^ 46) in K.
        rewrite E2. change (2 ^ 46) with 70368744177664 in K. lia. }
      assert (M0 : 0 < M2) by lia.
      pose proof (Zdigits2_bounds M0) as [L1 _].
      destruct (Z.le_gt_cases (Zdigits2 M2) 52) as [L | G2]; [exact L|].
      assert (2 ^ 52 <= 2 ^ (Zdigits2 M2 - 1)) by (apply Z.pow_le_mono_r; lia).
      lia. }
    replace (-46 + -1074 + 46) with (-1074) in * by lia.
    rewrite rounded_canonical in * by (try rewrite fexp_eq; lia).
    right. exists (Z.to_pos M2), (-1074).
    split; [reflexivity|]. split; [exact Vy|].
    replace (-1074 - -1074 + 46) with 46 by lia.
    split; [lia|].
    rewrite Z2Pos.id by lia. rewrite E2.
    change 7036874417766400 with (100 * 2 ^ 46).
    replace (100 * Z.pos m * 2 ^ 46 - 100 * 2 ^ 46 * Z.pos m) with 0 by ring.
    cbn [Z.abs]. rewrite Z.mul_0_r.
    assert (0 < 2 ^ 46) by (apply Z.pow_pos_nonneg; lia). nia.
Qed.


(** The quotient of a binary64 [y] by a binary64 [x], where [y] is within a
    relative distance of 2^-53 of [100 * x]: one of the three binary64
    values closest to 100. *)
Lemma near_hundred_quotient :
  forall sy my ey s m e,
    valid (S754_finite sy my ey) = true ->
    valid (S754_finite s m e) = true ->
    0 <= ey - e + 46 ->
    2 ^ 53 * Z.abs (Z.pos my * 2 ^ (ey - e + 46) - 7036874417766400 * Z.pos m)
    <= Z.pos my * 2 ^ (ey - e + 46) ->
    exists q,
      (S754_finite sy my ey / S754_finite s m e)%flt
      = S754_finite (xorb sy s) q (-46) /\
      7036874417766399 <= Z.pos q <= 7036874417766401.
Proof.
  intros sy my ey s m e Vy Vx Ht Hclose.
  destruct (valid_finite _ _ _ Vy) as (Ly & Dy & Ny).
  destruct (valid_finite _ _ _ Vx) as (Lx & Dx & Nx).
  pose proof (digits2_bounds my) as [Y1 Y2].
  pose proof (digits2_bounds m) as [X1 X2].
  set (d1 := Z.pos (digits2_pos my)) in *.
  set (d2 := Z.pos (digits2_pos m)) in *.
  assert (Hd1 : 0 < d1) by (subst d1; lia).
  assert (Hd2 : 0 < d2) by (subst d2; lia).
  set (t := ey - e + 46) in *.
  assert (Pt : 0 < 2 ^ t) by (apply Z.pow_pos_nonneg; lia).
  set (Yt := Z.pos my * 2 ^ t) in *.
  change (2 ^ 53) with 9007199254740992 in Hclose.
  assert (Bnd : 7036874417766399 * Z.pos m <= Yt < 7036874417766401 * Z.pos m)
    by lia.
  (* the digits of the two mantissas *)
  assert (YB1 : 2 ^ (d1 - 1 + t) <= Yt).
  { rewrite Z.pow_add_r by lia. subst Yt. apply Z.mul_le_mono_nonneg_r; lia. }
  assert (YB2 : Yt < 2 ^ (d1 + t)).
  { rewrite Z.pow_add_r by lia. subst Yt. apply Z.mul_lt_mono_pos_r; lia. }
  assert (K1 : 52 <= d1 + t - d2).
  { destruct (Z.le_gt_cases 52 (d1 + t - d2)) as [L | G]; [exact L|]. exfalso.
    assert (A : 2 ^ (d1 + t) <= 2 ^ (52 + (d2 - 1)))
      by (apply Z.pow_le_mono_r; lia).
    rewrite (Z.pow_add_r 2 52 (d2 - 1)) in A by lia.
    change (2 ^ 52) with 4503599627370496 in A. lia. }
  assert (K2 : d1 + t - d2 <= 53).
  { destruct (Z.le_gt_cases (d1 + t - d2) 53) as [L | G]; [exact L|]. exfalso.
    assert (A : 2 ^ (53 + d2) <= 2 ^ (d1 - 1 + t))
      by (apply Z.pow_le_mono_r; lia).
    rewrite (Z.pow_add_r 2 53 d2) in A by lia.
    change (2 ^ 53) with 9007199254740992 in A. lia. }
  unfold div, SFdiv. rewrite div_core_eq. fold d1 d2.
  assert (He : Z.min (fexp prec emax (d1 + ey - (d2 + e))) (ey - e)
               = d1 + t - d2 - 99).
  { rewrite fexp_eq. subst t. lia. }
  rewrite He.
  replace (ey - e - (d1 + t - d2 - 99)) with (t + (53 - (d1 + t - d2)))
    by (subst t; lia).
  rewrite Z.pow_add_r by lia. rewrite Z.mul_assoc. fold Yt.
  set (l := new_location _ _). clearbody l.
  assert (Q1 : 7036874417766399 <= Yt / Z.pos m).
  { apply Z.div_le_lower_bound; lia. }
  assert (Q2 : Yt / Z.pos m < 7036874417766401).
  { apply Z.div_lt_upper_bound; lia. }
  assert (Hfin : forall M2,
             M2 = Yt / Z.pos m \/ M2 = Yt / Z.pos m + 1 ->
             exists q,
               rounded (xorb sy s) M2 (-46) = S754_finite (xorb sy s) q (-46) /\
               7036874417766399 <= Z.pos q <= 7036874417766401).
  { intros M2 HM2.
    assert (D : Zdigits2 M2 = 53).
    { apply Zdigits2_unique; [|lia].
      change (2 ^ (53 - 1)) with 4503599627370496.
      change (2 ^ 53) with 9007199254740992. lia. }
    rewrite rounded_canonical by (try rewrite D; try reflexivity; lia).
    exists (Z.to_pos M2). split; [reflexivity|].
    rewrite Z2Pos.id by lia. lia. }
  destruct (Z.eq_dec (d1 + t - d2) 53) as [E53 | N53].
  - rewrite E53. change (2 ^ (53 - 53)) with 1. rewrite Z.mul_1_r.
    destruct (@binary_round_aux_shape (xorb sy s) (Yt / Z.pos m) (53 - 99) l
                ltac:(lia)) as (M2 & HM2 & _ & ->).
    assert (D : Zdigits2 (Yt / Z.pos m) = 53).
    { apply Zdigits2_unique; [|lia].
      change (2 ^ (53 - 1)) with 4503599627370496.
      change (2 ^ 53) with 9007199254740992. lia. }
    rewrite D in *.
    change (Z.max 0 (fexp prec emax (53 + (53 - 99)) - (53 - 99))) with 0 in *.
    change (2 ^ 0) with 1 in HM2. rewrite Z.div_1_r in HM2.
    change (53 - 99 + 0) with (-46). apply Hfin. exact HM2.
  - assert (E52 : d1 + t - d2 = 52) by lia.
    rewrite E52. change (2 ^ (53 - 52)) with 2.
    destruct (@binary_round_aux_shape (xorb sy s) (Yt * 2 / Z.pos m) (52 - 99) l
                ltac:(apply Z.div_pos; lia)) as (M2 & HM2 & _ & ->).
    assert (R1 : 7036874417766399 * 2 <= Yt * 2 / Z.pos m).
    { apply Z.div_le_lower_bound; lia. }
    assert (R2 : Yt * 2 / Z.pos m < 7036874417766401 * 2).
    { apply Z.div_lt_upper_bound; lia. }
    assert (D : Zdigits2 (Yt * 2 / Z.pos m) = 54).
    { apply Zdigits2_unique; [|lia].
      change (2 ^ (54 - 1)) with 9007199254740992.
      change (2 ^ 54) with 18014398509481984. lia. }
    rewrite D in *.
    change (Z.max 0 (fexp prec emax (54 + (52 - 99)) - (52 - 99))) with 1 in *.
    change (2 ^ 1) with 2 in HM2.
    assert (Hq : Yt * 2 / Z.pos m / 2 = Yt / Z.pos m).
    { rewrite Z.div_div by lia.
      rewrite (Z.mul_comm (Z.pos m) 2), (Z.mul_comm Yt 2).
      apply Z.div_mul_cancel_l; lia. }
    rewrite Hq in HM2.
    change (52 - 99 + 1) with (-46). apply Hfin. exact HM2.
Qed.

(** [100 * x / x] on a binary64: NaN when [x] is zero, infinite or NaN,
    plus infinity when [100 * x] overflows, and otherwise 100 or one of its
    two neighbours among the binary64 values. *)
Lemma hundred_ratio_values :
  forall x,
    valid x = true ->
    hundred_ratio x = nan \/ hundred_ratio x = S754_infinity false \/
    exists q,
      hundred_ratio x = S754_finite false q (-46) /\
      7036874417766399 <= Z.pos q <= 7036874417766401.
Proof.
  intros [s|s| |s m e] V; try (left; reflexivity).
  unfold hundred_ratio.
  destruct (@hundred_times s m e V) as [Hinf | (my & ey & Hy & Vy & Ht & Hc)].
  - right. left. rewrite Hinf. cbn. destruct s; reflexivity.
  - right. right. rewrite Hy.
    destruct (@near_hundred_quotient s my ey s m e Vy V Ht Hc) as (q & Hq & B).
    exists q. rewrite Hq. split; [|exact B].
    destruct s; reflexivity.
Qed.


Lemma hundred_ratio_range :
  forall x, valid x = true -> hundred_or_undefined (hundred_ratio x).
Proof.
  intros x V. unfold hundred_or_undefined.
  destruct (hundred_ratio_values x V) as [H | [H | (q & H & B)]];
    [left; exact H | right; left; exact H |].
  right. right. rewrite H. unfold below_hundred, above_hundred. rewrite of_Z_100.
  assert (K : q = 7036874417766399%positive \/ q = 7036874417766400%positive \/
              q = 7036874417766401%positive) by lia.
  destruct K as [-> | [-> | ->]]; auto.
Qed.

Lemma all_valid_cons :
  forall x s, all_valid (x :: s) <-> valid x = true /\ all_valid s.
Proof.
  intros x s. unfold all_valid. split.
  - intros H. split; [apply H; left; reflexivity|].
    intros y Hy. apply H. right. exact Hy.
  - intros [Hx Hs] y [<- | Hy]; [exact Hx | apply Hs; exact Hy].
Qed.

Lemma all_valid_nil : all_valid [].
Proof. intros x []. Qed.

Lemma diff_from_valid :
  forall s p, valid p = true -> all_valid s -> all_valid (pd.diff_from p s).
Proof.
  induction s as [|x s IH]; intros p Vp Vs; [exact all_valid_nil|].
  apply all_valid_cons in Vs. destruct Vs as [Vx Vs].
  cbn [pd.diff_from]. apply all_valid_cons. split.
  - apply sub_valid; assumption.
  - apply IH; assumption.
Qed.

Lemma diff_valid : forall s, all_valid s -> all_valid (pd.diff s).
Proof.
  intros [|x s] Vs; [exact all_valid_nil|].
  apply all_valid_cons in Vs. destruct Vs as [Vx Vs].
  cbn [pd.diff]. apply all_valid_cons. split; [reflexivity|].
  apply diff_from_valid; assumption.
Qed.

Lemma abs_series_valid : forall s, all_valid s -> all_valid (pd.abs s).
Proof.
  induction s as [|x s IH]; intros Vs; [exact all_valid_nil|].
  apply all_valid_cons in Vs. destruct Vs as [Vx Vs].
  cbn [pd.abs map]. apply all_valid_cons. split.
  - apply abs_valid. exact Vx.
  - apply IH. exact Vs.
Qed.

Lemma alpha_valid : forall span, valid (pd.alpha span) = true.
Proof.
  intros span. unfold pd.alpha, of_ratio. apply div_valid; apply of_Z_valid.
Qed.

Lemma ewm_next_valid :
  forall a p x,
    valid a = true -> valid p = true -> valid x = true ->
    valid (pd.ewm_next a p x) = true.
Proof.
  intros a p x Va Vp Vx. unfold pd.ewm_next.
  destruct (isnan p); [exact Vx|].
  apply add_valid; [exact Vp|]. apply mul_valid; [exact Va|].
  apply sub_valid; assumption.
Qed.

Lemma ewm_from_valid :
  forall a s p,
    valid a = true -> valid p = true -> all_valid s ->
    all_valid (pd.ewm_from a p s).
Proof.
  intros a. induction s as [|x s IH]; intros p Va Vp Vs; [exact all_valid_nil|].
  apply all_valid_cons in Vs. destruct Vs as [Vx Vs].
  cbn [pd.ewm_from]. apply all_valid_cons. split.
  - apply ewm_next_valid; assumption.
  - apply IH; [exact Va | apply ewm_next_valid; assumption | exact Vs].
Qed.

Lemma ewm_mean_valid :
  forall span s, all_valid s -> all_valid (pd.ewm_mean span s).
Proof.
  intros span [|x s] Vs; [exact all_valid_nil|].
  apply all_valid_cons in Vs. destruct Vs as [Vx Vs].
  cbn [pd.ewm_mean]. apply all_valid_cons. split; [exact Vx|].
  apply ewm_from_valid; [apply alpha_valid | exact Vx | exact Vs].
Qed.

(** The denominator of the oscillator is a series of binary64 values. *)
Lemma smoothed_abs_momentum_valid :
  forall close fast slow,
    all_valid close -> all_valid (smoothed_abs_momentum close fast slow).
Proof.
  intros close fast slow V. unfold smoothed_abs_momentum.
  apply ewm_mean_valid, ewm_mean_valid, abs_series_valid, diff_valid. exact V.
Qed.

Lemma hundred_ratio_series :
  forall s, all_valid s -> Forall hundred_or_undefined (map hundred_ratio s).
Proof.
  induction s as [|x s IH]; intros Vs; [constructor|].
  apply all_valid_cons in Vs. destruct Vs as [Vx Vs].
  cbn [map]. constructor; [apply hundred_ratio_range; exact Vx | apply IH; exact Vs].
Qed.

Lemma negated_hundred :
  forall v w, negated v w -> hundred_or_undefined w -> hundred_or_undefined (neg v).
Proof.
  intros v w N H.
  assert (E : neg v = w).
  { destruct H as [-> | [-> | [-> | [-> | ->]]]];
      destruct v as [sv|sv| |sv mv ev]; cbn in N; try contradiction;
      try reflexivity.
    - subst sv. reflexivity.
    - destruct N as (-> & -> & ->). reflexivity.
    - rewrite of_Z_100 in *. destruct N as (-> & -> & ->). reflexivity.
    - destruct N as (-> & -> & ->). reflexivity. }
  rewrite E. exact H.
Qed.

Lemma negated_hundred_series :
  forall t s,
    Forall2 negated t s -> Forall hundred_or_undefined s ->
    Forall (fun v => hundred_or_undefined (neg v)) t.
Proof.
  intros t s N. induction N as [|v w t s Hvw N IH]; intros H; [constructor|].
  inversion H as [|? ? Hw Hs]; subst.
  constructor; [exact (@negated_hundred v w Hvw Hw) | apply IH; exact Hs].
Qed.

(* ================================================================== *)
(** * The oscillator of a monotonic series *)
(* ================================================================== *)

(** C5 as stated fails in binary64 arithmetic.  For the strictly increasing
    closes [0, 0.69] the oscillator at the second bar is [100 * 0.69 / 0.69],
    which rounds to 100.00000000000001 (7036874417766401 * 2^-46), above
    100; for the decreasing closes [0.69, 0] it is -100.00000000000001,
    below -100.  For the strictly increasing closes [0, 1e307] the product
    [100 * 1e307] overflows, and the oscillator at the second bar is plus
    infinity. *)
Lemma C5_counterexample :
  strictly_increasing [zero; of_ratio 69 100] /\
  pd.iloc (calculate_tsi [zero; of_ratio 69 100] TSI_FAST TSI_SLOW) 1
  = Some (S754_finite false 7036874417766401 (-46)) /\
  (S754_finite false 7036874417766401 (-46) <=? of_Z 100)%flt = false /\
  decreasing [of_ratio 69 100; zero] /\
  pd.iloc (calculate_tsi [of_ratio 69 100; zero] TSI_FAST TSI_SLOW) 1
  = Some (S754_finite true 7036874417766401 (-46)) /\
  (of_Z (-100) <=? S754_finite true 7036874417766401 (-46))%flt = false /\
  strictly_increasing [zero; of_Z (10 ^ 307)] /\
  valid (of_Z (10 ^ 307)) = true /\
  pd.iloc (calculate_tsi [zero; of_Z (10 ^ 307)] TSI_FAST TSI_SLOW) 1
  = Some (S754_infinity false) /\
  (S754_infinity false <=? of_Z 100)%flt = false.
Proof.
  vm_compute. repeat split; reflexivity.
Qed.

(** C5, amended.  (1) For every strictly increasing series of binary64
    closes, the double-smoothed momentum and the double-smoothed absolute
    momentum are the same series [x], so the oscillator at each bar is
    [100 * x / x] as computed in binary64.  Each of its values is NaN (the
    first bar, and wherever [x] is zero, infinite or NaN), plus infinity
    (where [100 * x] overflows), or one of the three binary64 values closest
    to 100: 100 - 2^-46, 100 or 100 + 2^-46.  A finite value therefore
    exceeds 100 by at most one unit in the last place.
    (2) For every decreasing series of binary64 closes, the oscillator at
    each bar is the negative of [100 * x / x] (NaN where it is NaN): NaN,
    minus infinity, or one of -(100 - 2^-46), -100 and -(100 + 2^-46).  A
    finite value therefore goes below -100 by at most one unit in the last
    place. *)
Theorem C5_oscillator_of_monotonic_series :
  (forall close fast slow,
     all_valid close -> strictly_increasing close ->
     calculate_tsi close fast slow
     = map hundred_ratio (smoothed_abs_momentum close fast slow) /\
     Forall hundred_or_undefined (calculate_tsi close fast slow)) /\
  (forall close fast slow,
     all_valid close -> decreasing close ->
     Forall2 negated (calculate_tsi close fast slow)
       (map hundred_ratio (smoothed_abs_momentum close fast slow)) /\
     Forall (fun v => hundred_or_undefined (neg v))
       (calculate_tsi close fast slow)).
Proof.
  split.
  - intros close fast slow Hv Hi.
    assert (E : calculate_tsi close fast slow
                = map hundred_ratio (smoothed_abs_momentum close fast slow)).
    { unfold calculate_tsi, smoothed_abs_momentum.
      assert (E : pd.abs (pd.diff close) = pd.diff close).
      { destruct close as [|x r]; [reflexivity|].
        cbn [pd.diff pd.abs map]. f_equal.
        apply diff_from_increasing; assumption. }
      rewrite E, zip_with_diag. reflexivity. }
    split; [exact E|]. rewrite E.
    apply hundred_ratio_series, smoothed_abs_momentum_valid. exact Hv.
  - intros close fast slow Hv Hd.
    assert (N : Forall2 negated (calculate_tsi close fast slow)
                  (map hundred_ratio (smoothed_abs_momentum close fast slow))).
    { unfold calculate_tsi, smoothed_abs_momentum.
      apply zip_with_negated. apply ewm_mean_negated. apply ewm_mean_negated.
      destruct close as [|x r]; [constructor|].
      cbn [pd.diff pd.abs map]. constructor; [exact I|].
      apply diff_from_decreasing; assumption. }
    split; [exact N|].
    apply (@negated_hundred_series _ _ N).
    apply hundred_ratio_series, smoothed_abs_momentum_valid. exact Hv.
Qed.

(** The rising closes [0, 0.69] and the falling closes [0.69, 0]. *)
Lemma C5_oscillator_witness :
  Forall hundred_or_undefined
    (calculate_tsi [zero; of_ratio 69 100] TSI_FAST TSI_SLOW) /\
  Forall (fun v => hundred_or_undefined (neg v))
    (calculate_tsi [of_ratio 69 100; zero] TSI_FAST TSI_SLOW).
Proof.
  destruct C5_oscillator_of_monotonic_series as [Hi Hd]. split.
  - apply Hi.
    + intros x [<- | [<- | []]]; vm_compute; reflexivity.
    + split; [vm_compute; reflexivity | exact I].
  - apply Hd.
    + intros x [<- | [<- | []]]; vm_compute; reflexivity.
    + split; [vm_compute; reflexivity | exact I].
Defined.

(** Every alternative occurs on a rising series of two closes: NaN at the
    first bar, and at the second bar 100 - 2^-46 after [0, 0.17], 100 after
    [0, 1], 100 + 2^-46 after [0, 0.69] and plus infinity after
    [0, 1e307]. *)
Example oscillator_values_of_rising_closes :
  calculate_tsi [zero; of_ratio 17 100] TSI_FAST TSI_SLOW = [nan; below_hundred] /\
  calculate_tsi [zero; of_Z 1] TSI_FAST TSI_SLOW = [nan; of_Z 100] /\
  calculate_tsi [zero; of_ratio 69 100] TSI_FAST TSI_SLOW = [nan; above_hundred] /\
  calculate_tsi [zero; of_Z (10 ^ 307)] TSI_FAST TSI_SLOW
  = [nan; S754_infinity false].
Proof.
  vm_compute. repeat split; reflexivity.
Qed.

(* ================================================================== *)
(** * The entry signal *)
(* ================================================================== *)

Lemma exit_short_intents :
  forall ib s, intents (events (_exit_short ib s)) = [EXIT_SHORT].
Proof.
  intros ib s. unfold _exit_short. run_m.
  destruct (is_filled (ib BUY)); [|reflexivity].
  cbn [fst snd app]. destruct (position_entry_price s); reflexivity.
Qed.

Lemma check_exit_intents :
  forall ib s,
    intents (events (_check_exit_conditions ib s)) = [] \/
    intents (events (_check_exit_conditions ib s)) = [EXIT_SHORT].
Proof.
  intros ib s. unfold _check_exit_conditions. run_m.
  destruct (in_position s); cbn [negb]; [|left; reflexivity].
  destruct (current_sar s) as [psar|]; [|left; reflexivity].
  destruct (pd.iloc_last _) as [last_high|]; [|left; reflexivity].
  destruct (last_high >=? psar)%flt; [|left; reflexivity].
  right. pose proof (exit_short_intents ib s) as E. unfold events in E.
  destruct (_exit_short ib s) as [[r s2] l2]. cbn [fst snd app] in *. exact E.
Qed.

Lemma after_append_intents :
  forall ib s,
    intents (events (after_append ib s)) = [] \/
    intents (events (after_append ib s)) = [EXIT_SHORT].
Proof.
  intros ib s. unfold after_append. rewrite events_bind.
  destruct (update_indicators_result s) as (ma & slope & tsi & psar & E).
  rewrite E. unfold events at 1. unfold outcome, final. cbn [fst snd app].
  apply check_exit_intents.
Qed.

Lemma close_bar_intents :
  forall ib s,
    intents (events (_close_bar ib s)) = [] \/
    intents (events (_close_bar ib s)) = [EXIT_SHORT].
Proof.
  intros ib s.
  destruct (cur_open (current_bar s)) as [o|] eqn:Ho.
  - destruct (cur_high (current_bar s)) as [h|] eqn:Hh.
    + destruct (cur_low (current_bar s)) as [l|] eqn:Hl.
      * destruct (cur_close (current_bar s)) as [c|] eqn:Hc.
        { rewrite (@close_bar_unfold ib s o h l c Ho Hh Hl Hc).
          unfold events at 1 3. cbn [snd intents].
          apply after_append_intents. }
        left. unfold _close_bar. run_m. rewrite Ho, Hh, Hl, Hc. reflexivity.
      * left. unfold _close_bar. run_m. rewrite Ho, Hh, Hl. reflexivity.
    + left. unfold _close_bar. run_m. rewrite Ho, Hh. reflexivity.
  - left. unfold _close_bar. run_m. rewrite Ho. reflexivity.
Qed.

Lemma intents_bind_quiet :
  forall A B (m : M A) (f : A -> M B) s,
    (forall a t, intents (events (f a t)) = []) ->
    intents (events (bind m f s)) = intents (events (m s)).
Proof.
  intros A B m f s Q. rewrite events_bind, intents_app.
  destruct (outcome (m s)); [rewrite Q|]; apply app_nil_r.
Qed.

(** The bar aggregation of a tick emits at most the exit intent. *)
Lemma aggregate_intents :
  forall ib bar_start price s,
    intents (events (aggregate_tick ib bar_start price s)) = [] \/
    intents (events (aggregate_tick ib bar_start price s)) = [EXIT_SHORT].
Proof.
  intros ib bar_start price s. unfold aggregate_tick.
  rewrite events_get_bind.
  destruct (differs (bar_start_time s) bar_start).
  - rewrite intents_bind_quiet by (intros; reflexivity).
    destruct (bar_start_time s); [|left; reflexivity].
    destruct (cur_open (current_bar s)); [|left; reflexivity].
    apply close_bar_intents.
  - left. run_m.
    destruct (cur_high (current_bar s)); [|reflexivity].
    cbn [fst snd app set_current_bar set_cur_high current_bar cur_low].
    destruct (cur_low (current_bar s)); reflexivity.
Qed.

(** The entry check of a bot whose tracker says "not above" emits no
    intent. *)
Lemma check_entry_not_above_silent :
  forall ib price s,
    price_was_above_ma s = Some false ->
    intents (events (_check_entry_conditions ib price s)) = [].
Proof.
  intros ib price s Hw. unfold _check_entry_conditions. run_m.
  destruct (in_position s); [reflexivity|].
  destruct (current_ma70 s) as [ma|]; [|reflexivity].
  destruct (current_tsi s) as [tsi|]; [|reflexivity].
  rewrite Hw. reflexivity.
Qed.

(** C1.  Take the bot after its warm-up and any run of tick callbacks, and
    let it handle one more tick with a price.  Suppose the snapshot (moving
    average, slope, oscillator) is available to the entry check of that
    tick, which reads what the handler's own bar close may just have
    recomputed.  Then the handler returns normally and:
    (1) if the bot is flat when the tick arrives and no tick was observed
    before with the snapshot available (the tracker is unset), the tick only
    initialises the tracker and no intent is emitted;
    (2) if the bot is flat when the tick arrives and the tracker is set,
    there is a previous tick, and ENTRY_SHORT at the tick's price is emitted
    exactly when the previous tick's price was strictly above the moving
    average of its time, the current price is not strictly above the moving
    average, the slope is negative and the oscillator is below the
    threshold; no other intent is emitted;
    (3) if the bot is short when the tick arrives, the tracker still holds
    what the entry tick wrote, "not above", and the tick emits no
    ENTRY_SHORT, whatever the previous price was: its only possible intent
    is the EXIT_SHORT of its own bar close, after which the entry check runs
    flat against that tracker. *)
Theorem C1_entry_signal :
  forall (history : list Bar) (ticks : list Call)
         (ib : Gateway) (now : datetime) (price ma slope tsi : float),
    Forall is_tick ticks ->
    isnan price = false ->
    current_ma70
      (final (_on_tick ib now (Some price)
                (fst (run (LoadHistory history :: ticks) __init__)))) = Some ma ->
    ma70_slope
      (final (_on_tick ib now (Some price)
                (fst (run (LoadHistory history :: ticks) __init__)))) = Some slope ->
    current_tsi
      (final (_on_tick ib now (Some price)
                (fst (run (LoadHistory history :: ticks) __init__)))) = Some tsi ->
    let s := fst (run (LoadHistory history :: ticks) __init__) in
    let r := _on_tick ib now (Some price) s in
    outcome r = Done tt /\
    (in_position s = false -> price_was_above_ma s = None ->
     intents (events r) = [] /\
     price_was_above_ma (final r) = Some (price >? ma)%flt) /\
    (in_position s = false -> price_was_above_ma s <> None ->
     exists prev ma_prev,
       last_price s = Some prev /\ current_ma70 s = Some ma_prev /\
       (intents (events r) = [ENTRY_SHORT price]
        <-> (prev >? ma_prev)%flt = true /\ (price >? ma)%flt = false /\
            (slope <? zero)%flt = true /\ (tsi <? TSI_THRESHOLD)%flt = true) /\
       (intents (events r) = [ENTRY_SHORT price] \/ intents (events r) = [])) /\
    (in_position s = true ->
     price_was_above_ma s = Some false /\
     (intents (events r) = [] \/ intents (events r) = [EXIT_SHORT]) /\
     (in_position (final r) = false ->
      price_was_above_ma (final r) = Some (price >? ma)%flt)).
Proof.
  intros history ticks ib now price ma slope tsi Hticks Hp.
  destruct (warm_up_settled history Hticks) as [W [J1 J2]].
  assert (B : short_below (fst (run (LoadHistory history :: ticks) __init__))).
  { apply run_short_below. intros H. discriminate H. }
  set (s := fst (run (LoadHistory history :: ticks) __init__)) in *.
  intros Hma Hslope Htsi. cbv zeta.
  destruct (on_tick_well_formed ib now (Some price) W) as [Hdone _].
  split; [exact Hdone|].
  destruct (aggregate_done ib (_get_bar_start_time now) price W) as (Da & _ & _).
  rewrite (@on_tick_final ib now price s Hp Da) in *.
  rewrite (@on_tick_events ib now price s Hp Da).
  destruct (tick_frame_aggregate ib (_get_bar_start_time now) price s)
    as (T1 & T2 & _ & _ & T5).
  pose proof (aggregate_intents ib (_get_bar_start_time now) price s) as Hagg.
  set (s1 := final (aggregate_tick ib (_get_bar_start_time now) price s)) in *.
  set (s2 := set_last_price (Some price) s1) in *.
  destruct (same_reference_check_entry ib price s2) as (R1 & R2 & R3 & _).
  rewrite Hma in R1. rewrite Htsi in R2. rewrite Hslope in R3.
  symmetry in R1, R2, R3.
  assert (Ht2 : price_was_above_ma s2 = price_was_above_ma s) by exact T1.
  rewrite intents_app.
  split; [|split].
  - intros Hflat Hnone. destruct (T5 Hflat) as [Hflat1 Hint1].
    assert (Hflat2 : in_position s2 = false) by exact Hflat1.
    rewrite Hint1. cbn [app]. rewrite Hnone in Ht2.
    rewrite (check_entry_first_tick ib price s2 Hflat2 R1 R2 Ht2).
    split; reflexivity.
  - intros Hflat Hsome. destruct (T5 Hflat) as [Hflat1 Hint1].
    assert (Hflat2 : in_position s2 = false) by exact Hflat1.
    rewrite Hint1. cbn [app].
    destruct (price_was_above_ma s) as [was|] eqn:Hwas; [|congruence].
    destruct (J2 Hflat was eq_refl) as (prev & ma_prev & L & M & E).
    exists prev, ma_prev. split; [exact L|]. split; [exact M|].
    rewrite (check_entry_intents ib price s2 Hflat2 R1 R2 R3 Ht2).
    rewrite <- E.
    rewrite <- (negb_true_iff (price >? ma)%flt), <- andb4_true.
    destruct (was && negb (price >? ma)%flt && (slope <? zero)%flt
              && (tsi <? TSI_THRESHOLD)%flt).
    + split; [split; reflexivity | left; reflexivity].
    + split; [split; intros K; discriminate K | right; reflexivity].
  - intros Hshort. pose proof (B Hshort) as Hb. rewrite Hb in Ht2.
    rewrite (check_entry_not_above_silent ib price s2 Ht2), app_nil_r.
    split; [exact Hb|]. split; [exact Hagg|].
    intros Hflat.
    destruct (in_position s2) eqn:Hpos2.
    + rewrite (check_entry_noop ib price s2 (or_introl Hpos2)) in Hflat.
      unfold final in Hflat. cbn [fst snd] in Hflat. congruence.
    + destruct (check_entry_result ib price s2 Hpos2 R1 R2 R3 Ht2) as [_ Hfin].
      rewrite Hfin. cbn [entry_signal andb]. reflexivity.
Qed.

(** After the warm-up (moving average 164.5, slope -1, oscillator -100) and
    a first tick at 170, the tick at 160 emits ENTRY_SHORT at 160. *)
Lemma C1_entry_signal_witness :
  intents
    (events (_on_tick (fills_at (of_Z 160)) at_10_02 (Some (of_Z 160))
               (fst (run (LoadHistory falling_history :: first_tick_above)
                       __init__))))
  = [ENTRY_SHORT (of_Z 160)].
Proof.
  destruct (@C1_entry_signal falling_history first_tick_above
              (fills_at (of_Z 160)) at_10_02 (of_Z 160)
              (of_ratio 329 2) (of_Z (-1)) (of_Z (-100)))
    as (_ & _ & H & _).
  - repeat constructor.
  - reflexivity.
  - vm_compute. reflexivity.
  - vm_compute. reflexivity.
  - vm_compute. reflexivity.
  - destruct H as (prev & ma_prev & L & M & Hiff & _).
    + vm_compute. reflexivity.
    + vm_compute. discriminate.
    + vm_compute in L. vm_compute in M.
      injection L as <-. injection M as <-.
      apply Hiff. vm_compute. repeat split; reflexivity.
Defined.

(** The claim fails on a tick whose own bar close exits the position.  The
    bot is short from 160 and the previous tick, at 170, was strictly above
    the moving average (164.5 then, about 164.09 once the bar is closed).
    The tick at 160 of 10:05:01 closes the bar, the stop is hit and the exit
    is filled, so the entry check of that tick runs on a flat bot with the
    snapshot available: 160 is not above the moving average, the slope is
    negative and the oscillator is below the threshold.  Yet the only intent
    is EXIT_SHORT: the tracker still said "not above". *)
Lemma C1_counterexample :
  let s := fst (run (LoadHistory falling_history :: short_then_above) __init__) in
  let ib := fills_at (of_Z 160) in
  let price := of_Z 160 in
  let r := _on_tick ib at_10_05 (Some price) s in
  exists prev ma_prev ma slope tsi,
    last_price s = Some prev /\ current_ma70 s = Some ma_prev /\
    in_position
      (final (aggregate_tick ib (_get_bar_start_time at_10_05) price s)) = false /\
    current_ma70 (final r) = Some ma /\ ma70_slope (final r) = Some slope /\
    current_tsi (final r) = Some tsi /\
    (prev >? ma_prev)%flt = true /\ (prev >? ma)%flt = true /\
    (price >? ma)%flt = false /\
    (slope <? zero)%flt = true /\ (tsi <? TSI_THRESHOLD)%flt = true /\
    intents (events r) = [EXIT_SHORT] /\
    ~ In (ENTRY_SHORT price) (intents (events r)).
Proof.
  cbv zeta.
  exists (of_Z 170), (of_ratio 329 2), (of_ratio 11486 70),
         (of_ratio 11486 70 - of_ratio 329 2)%flt,
         (S754_finite true 5412980321358769 (-47)).
  repeat split; try (vm_compute; reflexivity).
  vm_compute. intros [H | H]; [discriminate H | exact H].
Qed.
